(** * NeuroPy: event detection on LFP envelopes and the Bayesian replay decoder

    A shallow embedding of [ModulesPath/lfpEvent.py] (the threshold/merge/
    filter passes of [Ripple.detect] and [Spindle.detect]) and of
    [ModulesPath/decoders.py] (the Poisson decoder, the column and cell-id
    shuffles, the line-search replay score and the shuffle p-values).

    Conventions.
    - Python exceptions are values of [exn]; a computation that may raise
      has type [result A].
    - Sample indices are [Z]; the z-scored envelopes, thresholds and
      durations of the detectors are exact rationals [Q]: the detectors only
      compare, subtract and rescale them.
    - The decoder works over the reals [R] (it needs [exp], [cos], [sin]):
      IEEE rounding, overflow and NaN are outside the model.
    - numpy's global random generator is an explicit stream of raw draws
      threaded through the code that consumes it. *)

From Stdlib Require Import List ZArith QArith Qround Lia Lqa Bool Arith.
From Stdlib Require Import Sorting.Sorted Sorting.Permutation.
From Stdlib Require Import Reals Lra.
From Stdlib Require Strings.String.
Import ListNotations.

(** ** Python results *)

Module Py.

Inductive exn : Type :=
| IndexError
| ValueError
| AxisError.

Inductive result (A : Type) : Type :=
| OK (a : A)
| Raise (e : exn).

Arguments OK {A} a.
Arguments Raise {A} e.

Definition bind {A B : Type} (r : result A) (k : A -> result B) : result B :=
  match r with
  | OK a => k a
  | Raise e => Raise e
  end.

(** [for x in l: acc = body(acc, x)], stopping at the first exception. *)
Fixpoint for_each {A S : Type} (body : S -> A -> result S) (l : list A) (s : S)
  : result S :=
  match l with
  | [] => OK s
  | x :: l' => bind (body s x) (for_each body l')
  end.

(** A list comprehension whose element expression may raise. *)
Fixpoint map_result {A B : Type} (f : A -> result B) (l : list A)
  : result (list B) :=
  match l with
  | [] => OK []
  | x :: l' =>
      bind (f x) (fun y => bind (map_result f l') (fun ys => OK (y :: ys)))
  end.

(** [l[0]] and [l[-1]] on a sequence: [IndexError] when it is empty. *)
Definition first {A : Type} (l : list A) : result A :=
  match l with
  | [] => Raise IndexError
  | x :: _ => OK x
  end.

Fixpoint last_item {A : Type} (l : list A) : result A :=
  match l with
  | [] => Raise IndexError
  | [x] => OK x
  | _ :: l' => last_item l'
  end.

(** [l[a:b]] for [0 <= a], [0 <= b]: clamped to the sequence. *)
Definition slice {A : Type} (l : list A) (a b : Z) : list A :=
  firstn (Z.to_nat (b - a)) (skipn (Z.to_nat a) l).

Definition zip_with {A B C : Type} (f : A -> B -> C) (l1 : list A) (l2 : list B)
  : list C :=
  map (fun ab => f (fst ab) (snd ab)) (combine l1 l2).

End Py.

Export Py.

Declare Scope result_scope.
Delimit Scope result_scope with result.
Notation "x <- c ;; k" := (Py.bind c (fun x => k))
  (at level 61, c at next level, right associativity) : result_scope.

(** ** lfpEvent.py *)

Module LfpEvent.

Local Open Scope Z_scope.
Local Open Scope Q_scope.
Local Open Scope result_scope.

(** Comparisons of the float arrays. *)
Definition Qltb (x y : Q) : bool := negb (Qle_bool y x).
Definition Qgtb (x y : Q) : bool := Qltb y x.
Definition Qgeb (x y : Q) : bool := Qle_bool y x.

(** [np.where(cond, 1, 0)] on one channel. *)
Definition where_gt (thr : Q) (sig : list Q) : list Z :=
  map (fun z => if Qgtb z thr then 1%Z else 0%Z) sig.

(** [arr.sum(axis=0)] and [np.max(arr, axis=0)] over a non-empty stack of
    channels: the first row combined with every later one, cut to the
    shortest row (all rows of an array have one length). *)
Definition reduce_axis0 {A : Type} (f : A -> A -> A) (rows : list (list A))
  : result (list A) :=
  match rows with
  | [] => Raise IndexError
  | r :: rs => OK (fold_left (zip_with f) rs r)
  end.

Definition Qmax (x y : Q) : Q := if Qltb x y then y else x.

(** [np.diff] of an integer vector. *)
Definition diff (l : list Z) : list Z :=
  zip_with (fun a b => (b - a)%Z) l (tl l).

(** [np.where(v == k)[0]]: the indices, counted from [off]. *)
Fixpoint where_eq_from (k : Z) (off : Z) (v : list Z) : list Z :=
  match v with
  | [] => []
  | x :: v' =>
      if (x =? k)%Z then off :: where_eq_from k (off + 1) v'
      else where_eq_from k (off + 1) v'
  end.

Definition where_eq (k : Z) (v : list Z) : list Z := where_eq_from k 0 v.

(** A run of samples, [(start, stop)] as in a row of [firstPass]. *)
Definition run : Type := (Z * Z)%type.

(** "getting rid of incomplete ripples at begining or end", then
    [np.vstack((start, stop)).T], which needs both vectors of one length. *)
Definition first_pass (start stop : list Z) : result (list run) :=
  s0 <- first start ;;
  t0 <- first stop ;;
  let stop := if (s0 >? t0)%Z then tl stop else stop in
  sl <- last_item start ;;
  tl_ <- last_item stop ;;
  let start := if (sl >? tl_)%Z then removelast start else start in
  if (length start =? length stop)%nat then OK (combine start stop)
  else Raise ValueError.

(** The merging loop: [ripple] is the run being grown, the result is
    [secondPass] with the last [ripple] appended after the loop. *)
Fixpoint merge_loop (minInterSamples : Q) (ripple : run) (rest : list run)
  : list run :=
  match rest with
  | [] => [ripple]
  | r :: rest' =>
      if Qltb (inject_Z (fst r - snd ripple)) minInterSamples
      then merge_loop minInterSamples (fst ripple, snd r) rest'
      else ripple :: merge_loop minInterSamples r rest'
  end.

Definition second_pass (minInterSamples : Q) (firstPass : list run)
  : result (list run) :=
  ripple <- first firstPass ;;
  OK (merge_loop minInterSamples ripple (tl firstPass)).

(** Python's [max] of a sequence and [np.argmax]: [ValueError] on an empty
    one, the first maximal position otherwise. *)
Fixpoint argmax_from (best : Q) (besti : Z) (i : Z) (l : list Q) : Q * Z :=
  match l with
  | [] => (best, besti)
  | x :: l' =>
      if Qltb best x then argmax_from x i (i + 1) l'
      else argmax_from best besti (i + 1) l'
  end.

Definition max_argmax (l : list Q) : result (Q * Z) :=
  match l with
  | [] => Raise ValueError
  | x :: l' => OK (argmax_from x 0 1 l')
  end.

(** A row of the [ripples] DataFrame. *)
Record event : Type := mkEvent {
  start : Q;
  end_ : Q;
  peakNormalizedPower : Q;
  peakSharpWave : Q;
  peaktime : Q;
  duration : Q
}.

(** The part of [Ripple.detect] after the band-pass, Hilbert envelope and
    z-score: [zscsignal] is the channels-by-samples array with the noisy
    frames already set to zero, [sharpWv_sig] the summed 2-50 Hz envelope. *)
Record ripple_input : Type := mkRippleInput {
  zscsignal : list (list Q);
  sharpWv_sig : list Q;
  SampFreq : Q;
  lowthreshold : Q;
  highthreshold : Q;
  minDuration : Q;
  maxDuration : Q;
  mergeDistance : Q
}.

Module Ripple.

(** Binarize by [> lowthreshold] on any channel; rising and falling edges. *)
Definition edges (inp : ripple_input) : result (list Z * list Z) :=
  counts <- reduce_axis0 Z.add
              (map (where_gt (lowthreshold inp)) (zscsignal inp)) ;;
  let ThreshSignal :=
    diff (map (fun c => if (c >? 0)%Z then 1%Z else 0%Z) counts) in
  OK (where_eq 1 ThreshSignal, where_eq (-1) ThreshSignal).

Definition firstPass (inp : ripple_input) : result (list run) :=
  se <- edges inp ;;
  first_pass (fst se) (snd se).

Definition secondPass (inp : ripple_input) : result (list run) :=
  fp <- firstPass inp ;;
  second_pass (mergeDistance inp * SampFreq inp) fp.

(** One iteration of the "delete ripples with less than threshold power"
    loop: the run with its peak power, peak time and sharp-wave peak, or
    nothing when the peak does not exceed [highthreshold]. *)
Definition peak_row (inp : ripple_input) (maxPower : list Q) (r : run)
  : result (list (run * Q * Z * Z)) :=
  m <- max_argmax (slice maxPower (fst r) (snd r)) ;;
  if Qgtb (fst m) (highthreshold inp) then
    sw <- max_argmax (slice (sharpWv_sig inp) (fst r) (snd r)) ;;
    OK [(r, fst m, (fst r + snd m)%Z, (fst r + snd sw)%Z)]
  else OK [].

Definition thirdPass (inp : ripple_input) : result (list (run * Q * Z * Z)) :=
  maxPower <- reduce_axis0 Qmax (zscsignal inp) ;;
  sp <- secondPass inp ;;
  rows <- map_result (peak_row inp maxPower) sp ;;
  OK (concat rows).

(** The DataFrame before the duration filters; [np.diff(thirdPass, axis=1)]
    raises on the one-dimensional empty array that [np.asarray([])] is. *)
Definition frame (inp : ripple_input) : result (list (run * Q * Z * Z * Q)) :=
  tp <- thirdPass inp ;;
  match tp with
  | [] => Raise AxisError
  | _ =>
      OK (map (fun row =>
                 match row with
                 | (r, pw, pt, sw) =>
                     (r, pw, pt, sw, inject_Z (snd r - fst r) / SampFreq inp)
                 end) tp)
  end.

(** The two duration filters, then the conversion of the time stamps to
    seconds. *)
Definition to_event (inp : ripple_input) (row : run * Q * Z * Z * Q) : event :=
  match row with
  | (r, pw, pt, sw, d) =>
      mkEvent (inject_Z (fst r) / SampFreq inp)
              (inject_Z (snd r) / SampFreq inp)
              pw
              (inject_Z sw / SampFreq inp)
              (inject_Z pt / SampFreq inp)
              d
  end.

Definition detect (inp : ripple_input) : result (list event) :=
  rows <- frame inp ;;
  let rows := filter (fun row => Qgeb (snd row) (minDuration inp)) rows in
  let rows := filter (fun row => Qle_bool (snd row) (maxDuration inp)) rows in
  OK (map (to_event inp) rows).

End Ripple.

(** The part of [Spindle.detect] after the band-pass, Hilbert envelope and
    z-score of the best channel: [zscsignal] has the noisy periods of the
    [.dead] file already set to zero; [nrem] are the rows (start, end), in
    seconds, of the brain-state table whose name is "nrem". *)
Record spindle_input : Type := mkSpindleInput {
  sp_zscsignal : list Q;
  sampleRate : Q;
  nrem : list (Q * Q)
}.

(** What [Spindle.detect] saves: [times] are the rows of [fifthPass] in
    seconds. *)
Record spindles : Type := mkSpindles {
  times : list (Q * Q);
  peakPower : list Q;
  sp_peaktime : list Q
}.

Module Spindle.

(** Class attributes. *)
Definition lowthresholdFactor : Q := 1.5.
Definition highthresholdFactor : Q := 4.
Definition minSpindleDuration : Q := 350.
Definition mergeDistance : Q := 125.

(** [.astype(int)] on a float: truncation towards zero. *)
Definition astype_int (x : Q) : Z := Z.quot (Qnum x) (Zpos (Qden x)).

(** [np.arange(a, b)] on integers. *)
Definition arange (a b : Z) : list Z :=
  map (fun k => (a + Z.of_nat k)%Z) (seq 0 (Z.to_nat (b - a))).

Definition edges (inp : spindle_input) : list Z * list Z :=
  let ThreshSignal := diff (where_gt lowthresholdFactor (sp_zscsignal inp)) in
  (where_eq 1 ThreshSignal, where_eq (-1) ThreshSignal).

Definition firstPass (inp : spindle_input) : result (list run) :=
  first_pass (fst (edges inp)) (snd (edges inp)).

Definition secondPass (inp : spindle_input) : result (list run) :=
  fp <- firstPass inp ;;
  second_pass (mergeDistance / 1000 * sampleRate inp) fp.

(** "delete spindles with less than threshold power": here the peak is kept
    when it is [>=] the high threshold. *)
Definition peak_row (inp : spindle_input) (r : run)
  : result (list (run * Q * Z)) :=
  m <- max_argmax (slice (sp_zscsignal inp) (fst r) (snd r)) ;;
  if Qgeb (fst m) highthresholdFactor
  then OK [(r, fst m, (fst r + snd m)%Z)]
  else OK [].

Definition thirdPass (inp : spindle_input) : result (list (run * Q * Z)) :=
  sp <- secondPass inp ;;
  rows <- map_result (peak_row inp) sp ;;
  OK (concat rows).

(** [spindle_duration], in milliseconds, next to each row of [thirdPass]. *)
Definition with_duration (inp : spindle_input)
  : result (list (run * Q * Z * Q)) :=
  tp <- thirdPass inp ;;
  match tp with
  | [] => Raise AxisError
  | _ =>
      OK (map (fun row =>
                 (row, inject_Z (snd (fst (fst row)) - fst (fst (fst row)))
                       / sampleRate inp * 1000)) tp)
  end.

(** "delete very short spindles": the rows listed in [shortspindles] are
    removed from the four arrays alike. *)
Definition fourthPass (inp : spindle_input)
  : result (list (run * Q * Z * Q)) :=
  rows <- with_duration inp ;;
  OK (filter (fun row => negb (Qltb (snd row) minSpindleDuration)) rows).

(** "delete spindles in non-nrem periods": [outside_spindles] collects
    the numbers of the rows whose first sample is none of the nrem
    frames, and these rows are deleted from the four arrays alike. *)
Definition reqframes (inp : spindle_input) : list Z :=
  flat_map (fun se => arange (astype_int (fst se * sampleRate inp))
                             (astype_int (snd se * sampleRate inp)))
           (nrem inp).

Definition in_frames (x : Z) (frames : list Z) : bool :=
  existsb (Z.eqb x) frames.

Definition outside_spindles (inp : spindle_input)
  (rows : list (run * Q * Z * Q)) : list nat :=
  map fst
      (filter (fun ir => negb (in_frames (fst (fst (fst (fst (snd ir)))))
                                         (reqframes inp)))
              (combine (seq 0 (length rows)) rows)).

(** [np.delete(arr, np.asarray(obj), 0)] for a list [obj] of row numbers
    of [arr].  Of the empty list [np.asarray] makes an empty array of
    floats, which [np.delete] (numpy 1.19 and later) refuses as an index
    with IndexError. *)
Definition delete_rows {A : Type} (obj : list nat) (arr : list A)
  : result (list A) :=
  match obj with
  | [] => Raise IndexError
  | _ =>
      OK (map snd
              (filter (fun ir => negb (existsb (Nat.eqb (fst ir)) obj))
                      (combine (seq 0 (length arr)) arr)))
  end.

Definition fifthPass (inp : spindle_input)
  : result (list (run * Q * Z * Q)) :=
  rows <- fourthPass inp ;;
  delete_rows (outside_spindles inp rows) rows.

Definition detect (inp : spindle_input) : result spindles :=
  rows <- fifthPass inp ;;
  OK (mkSpindles
        (map (fun row =>
                (inject_Z (fst (fst (fst (fst row)))) / sampleRate inp,
                 inject_Z (snd (fst (fst (fst row)))) / sampleRate inp)) rows)
        (map (fun row => snd (fst (fst row))) rows)
        (map (fun row => inject_Z (snd (fst row)) / sampleRate inp) rows)).

(** The duration of an emitted spindle, in milliseconds. *)
Definition duration_ms (t : Q * Q) : Q := (snd t - fst t) * 1000.

End Spindle.

End LfpEvent.

(** ** numpy arrays and the random generator used by decoders.py *)

Module Np.

(** A two-dimensional array: its shape and its rows. *)
Record ndarray (A : Type) : Type := mkArray {
  shape0 : nat;
  shape1 : nat;
  rows : list (list A)
}.

Arguments mkArray {A} shape0 shape1 rows.
Arguments shape0 {A} n.
Arguments shape1 {A} n.
Arguments rows {A} n.

Definition wf {A : Type} (m : ndarray A) : Prop :=
  List.length (rows m) = shape0 m /\
  Forall (fun r => List.length r = shape1 m) (rows m).

(** [m[i, j]], with [d] where the index is out of range. *)
Definition get {A : Type} (d : A) (m : ndarray A) (i j : nat) : A :=
  nth j (nth i (rows m) []) d.

(** [m[:, j]]. *)
Definition column {A : Type} (m : ndarray A) (j : nat) : list A :=
  flat_map (fun r => match nth_error r j with
                     | Some x => [x]
                     | None => []
                     end) (rows m).

(** [m.T]. *)
Definition transpose {A : Type} (m : ndarray A) : ndarray A :=
  mkArray (shape1 m) (shape0 m) (map (column m) (seq 0 (shape1 m))).

Definition enumerate {A : Type} (l : list A) : list (nat * A) :=
  combine (seq 0 (List.length l)) l.

(** [l[i] = x] for [i] in range. *)
Fixpoint set_nth {A : Type} (i : nat) (x : A) (l : list A) : list A :=
  match l, i with
  | [], _ => []
  | _ :: l', O => x :: l'
  | y :: l', S i' => y :: set_nth i' x l'
  end.

(** [np.roll(a, shift)] on a vector: the last [shift mod n] entries come
    first. *)
Definition roll {A : Type} (a : list A) (shift : Z) : list A :=
  let n := List.length a in
  let offset := Z.to_nat (shift mod Z.of_nat n) in
  skipn (n - offset) a ++ firstn (n - offset) a.

(** The generator: a stream of raw draws.  A computation that draws has
    type [M A]: it may raise, and hands the rest of the stream on. *)
Definition rng : Type := nat -> Z.

Definition M (A : Type) : Type := rng -> result (A * rng).

Definition ret {A : Type} (a : A) : M A := fun g => OK (a, g).

Definition raise {A : Type} (e : exn) : M A := fun _ => Raise e.

Definition bindM {A B : Type} (c : M A) (k : A -> M B) : M B :=
  fun g => match c g with
           | OK (a, g') => k a g'
           | Raise e => Raise e
           end.

Definition lift {A : Type} (r : result A) : M A :=
  fun g => match r with
           | OK a => OK (a, g)
           | Raise e => Raise e
           end.

Definition next_raw : M Z := fun g => OK (g O, fun k => g (S k)).

Fixpoint replicateM {A : Type} (n : nat) (c : M A) : M (list A) :=
  match n with
  | O => ret []
  | S n' => bindM c (fun x => bindM (replicateM n' c) (fun xs => ret (x :: xs)))
  end.

Fixpoint mapM {A B : Type} (f : A -> M B) (l : list A) : M (list B) :=
  match l with
  | [] => ret []
  | x :: l' =>
      bindM (f x) (fun y => bindM (mapM f l') (fun ys => ret (y :: ys)))
  end.

(** One integer of [low, high), for [low < high]. *)
Definition randint1 (low high : Z) : M Z :=
  bindM next_raw (fun raw => ret (low + raw mod (high - low))%Z).

(** [np.random.randint(low, high, size)]: an empty request is answered
    before the bounds are looked at; otherwise [low >= high] is a
    [ValueError]. *)
Definition randint (low high : Z) (size : nat) : M (list Z) :=
  if (size =? 0)%nat then ret []
  else if (high <=? low)%Z then raise ValueError
  else replicateM size (randint1 low high).

(** [np.random.choice(a, size=size)] for a non-empty [a] with first
    element [d]. *)
Definition choice {A : Type} (d : A) (a : list A) (size : nat) : M (list A) :=
  replicateM size
    (bindM next_raw
       (fun raw =>
          ret (nth (Z.to_nat (raw mod Z.of_nat (List.length a))) a d))).

(** [np.random.shuffle(x)] along the first axis: for [i = n-1 .. 1], swap
    [x[i]] with [x[j]], [j] drawn from [0, i]. *)
Definition swap {A : Type} (i j : nat) (x : list A) : list A :=
  match nth_error x i, nth_error x j with
  | Some a, Some b => set_nth j a (set_nth i b x)
  | _, _ => x
  end.

Fixpoint shuffle_from {A : Type} (i : nat) (x : list A) : M (list A) :=
  match i with
  | O => ret x
  | S i' =>
      bindM (randint1 0 (Z.of_nat i + 1))
            (fun j => shuffle_from i' (swap i (Z.to_nat j) x))
  end.

Definition shuffle {A : Type} (x : list A) : M (list A) :=
  shuffle_from (List.length x - 1) x.

Local Open Scope R_scope.

(** [np.random.uniform(low, high, size)]: [low + (high - low) * u] with
    [u] a 53-bit fraction of [0, 1). *)
Definition uniform (low high : R) (size : nat) : M (list R) :=
  replicateM size
    (bindM next_raw
       (fun raw =>
          ret (low + (high - low) * (IZR (raw mod 2 ^ 53) / IZR (2 ^ 53))))).

Definition Rsum (l : list R) : R := fold_right Rplus 0 l.
Definition Rprod (l : list R) : R := fold_right Rmult 1 l.

(** [arr.sum(axis=0)] of a two-dimensional array. *)
Definition sum_axis0 (m : ndarray R) : list R :=
  fold_left (zip_with Rplus) (rows m) (repeat 0 (shape1 m)).

(** [.astype(int)] on a float: truncation towards zero. *)
Definition astype_int (x : R) : Z :=
  if Rle_dec 0 x then (up x - 1)%Z else (- (up (- x) - 1))%Z.

(** [np.argmax] of a non-empty vector: the first position of the maximum. *)
Fixpoint argmax_from (best : R) (besti i : nat) (l : list R) : nat :=
  match l with
  | [] => besti
  | x :: l' =>
      if Rlt_dec best x then argmax_from x i (S i) l'
      else argmax_from best besti (S i) l'
  end.

Definition argmax (l : list R) : result nat :=
  match l with
  | [] => Raise ValueError
  | x :: l' => OK (argmax_from x 0 1 l')
  end.

(** [np.median] of a vector. *)
Fixpoint insert_sorted (x : R) (l : list R) : list R :=
  match l with
  | [] => [x]
  | y :: l' => if Rle_dec x y then x :: l else y :: insert_sorted x l'
  end.

Definition sort (l : list R) : list R := fold_right insert_sorted [] l.

Definition median (l : list R) : R :=
  let s := sort l in
  let n := List.length l in
  if Nat.even n then (nth (n / 2 - 1) s 0 + nth (n / 2) s 0) / 2
  else nth (n / 2) s 0.

(** [np.nanmean] of a vector without NaN. *)
Definition nanmean (l : list R) : R := Rsum l / INR (List.length l).

(** [np.convolve(a, v)] in its default "full" mode. *)
Fixpoint add_padded (l1 l2 : list R) : list R :=
  match l1, l2 with
  | [], _ => l2
  | _, [] => l1
  | x :: l1', y :: l2' => (x + y) :: add_padded l1' l2'
  end.

Fixpoint convolve_full (a v : list R) : list R :=
  match a with
  | [] => []
  | x :: a' => add_padded (map (Rmult x) v) (0 :: convolve_full a' v)
  end.

Definition convolve (a v : list R) : result (list R) :=
  match a, v with
  | [], _ => Raise ValueError
  | _, [] => Raise ValueError
  | _, _ => OK (convolve_full a v)
  end.

End Np.

Declare Scope rand_scope.
Delimit Scope rand_scope with rand.
Notation "x <~ c ;; k" := (Np.bindM c (fun x => k))
  (at level 61, c at next level, right associativity) : rand_scope.

(** ** decoders.py *)

Module Decoders.

Import Np.
Local Open Scope R_scope.
Local Open Scope result_scope.
Local Open Scope rand_scope.
Import String.StringSyntax.
Local Delimit Scope string_scope with string.

(** *** [_decoder] (the same body in [Bayes] and [Bayes1d]) *)

(** One entry of the broadcast assigned to [cell_prob[:, :, cell]]. *)
Definition cell_term (tau frate : R) (nspike : nat) : R :=
  (((tau * frate) ^ nspike) * (1 / INR (fact nspike))) * exp (- tau * frate).

(** [cell_ratemap] is a column, [cell_spkcnt] a row: the broadcast has one
    row per position bin and one column per time bin. *)
Definition cell_layer (tau : R) (cell_ratemap : list R) (cell_spkcnt : list nat)
  : list (list R) :=
  map (fun frate => map (cell_term tau frate) cell_spkcnt) cell_ratemap.

Definition zeros3 (n0 n1 n2 : nat) : list (list (list R)) :=
  repeat (repeat (repeat 0 n2) n1) n0.

(** [arr[:, :, cell] = layer]. *)
Definition set_axis2 (cell : nat) (layer : list (list R))
  (arr : list (list (list R))) : list (list (list R)) :=
  zip_with (zip_with (fun v x => set_nth cell x v)) arr layer.

Definition decoder_body (tau : R) (spkcount : ndarray nat)
  (ratemaps : ndarray R) (cell_prob : list (list (list R))) (cell : nat)
  : result (list (list (list R))) :=
  match nth_error (rows spkcount) cell, nth_error (rows ratemaps) cell with
  | Some cell_spkcnt, Some cell_ratemap =>
      OK (set_axis2 cell (cell_layer tau cell_ratemap cell_spkcnt) cell_prob)
  | _, _ => Raise IndexError
  end.

(** [np.prod(cell_prob, axis=2)], the posterior before it is normalised. *)
Definition joint_likelihood (tau : R) (spkcount : ndarray nat)
  (ratemaps : ndarray R) : result (ndarray R) :=
  let nCells := shape0 spkcount in
  cell_prob <- for_each (decoder_body tau spkcount ratemaps) (seq 0 nCells)
                 (zeros3 (shape1 ratemaps) (shape1 spkcount) nCells) ;;
  OK (mkArray (shape1 ratemaps) (shape1 spkcount) (map (map Rprod) cell_prob)).

(** [posterior /= np.sum(posterior, axis=0)].  Over the reals a zero sum
    divides to 0 where numpy gives nan or inf: a column whose sum is zero
    is outside the model. *)
Definition normalize (posterior : ndarray R) : ndarray R :=
  let s := sum_axis0 posterior in
  mkArray (shape0 posterior) (shape1 posterior)
          (map (fun row => zip_with Rdiv row s) (rows posterior)).

Definition _decoder (tau : R) (spkcount : ndarray nat) (ratemaps : ndarray R)
  : result (ndarray R) :=
  posterior <- joint_likelihood tau spkcount ratemaps ;;
  OK (normalize posterior).

(** *** [Bayes1d] *)

Record Bayes1d : Type := mkBayes1d {
  binsize : R;
  (** [np.asarray(self.ratemaps.ratemaps["ratemaps"])] and the bin centres
      [pf1d_obj.bin + np.diff(pf1d_obj.bin).mean() / 2] of the place-field
      object *)
  ratemaps : ndarray R;
  bincntr : list R;
  (** set by [decode_events] *)
  posterior : list (ndarray R);
  spkcount : list (ndarray nat);
  nbins_events : list nat;
  score : list R;
  slope : list R;
  (** set by [decode_shuffle] *)
  shuffle_score : list (list R)
}.

Definition set_shuffle_score (self : Bayes1d) (s : list (list R)) : Bayes1d :=
  mkBayes1d (binsize self) (ratemaps self) (bincntr self) (posterior self)
            (spkcount self) (nbins_events self) (score self) (slope self) s.

(** *** [_score_events] *)

Definition nlines : nat := 5000.

(** [np.apply_along_axis(np.convolve, axis=0, arr=evt, v=np.ones(3))]: it
    refuses an array without columns, and [np.convolve] an empty column. *)
Definition smooth (evt : ndarray R) : result (ndarray R) :=
  if (shape1 evt =? 0)%nat then Raise ValueError
  else
    cols <- map_result (fun t => convolve (column evt t) [1; 1; 1])
                       (seq 0 (shape1 evt)) ;;
    OK (transpose (mkArray (shape1 evt) (shape0 evt + 2) cols)).

(** A row of [y_line]: the position row the line meets at each time bin. *)
Definition y_line_row (nt npos : nat) (c m : R) : list Z :=
  let tmid := (INR nt + 1) / 2 in
  let pmid := (INR npos + 1) / 2 in
  map (fun t => astype_int (((c - (INR t - tmid) * cos m) / sin m) + pmid))
      (seq 0 nt).

Definition is_out (npos : nat) (y : Z) : bool :=
  ((y <? 0) || (y >? Z.of_nat npos - 1))%Z.

Definition is_in (npos : nat) (y : Z) : bool :=
  ((y >=? 0) && (y <=? Z.of_nat npos - 1))%Z.

(** [posterior[t_out] = np.median(evt[:, t_out[1]], axis=0)] and
    [posterior[t_in] = evt[y_line[t_in], t_in[1]]], on one row of
    [posterior]. *)
Definition assign_out (npos : nat) (evt : ndarray R) (ys : list Z)
  (row : list R) : list R :=
  map (fun tyz => match tyz with
                  | (t, (y, z)) =>
                      if is_out npos y then median (column evt t) else z
                  end)
      (enumerate (combine ys row)).

Definition assign_in (npos : nat) (evt : ndarray R) (ys : list Z)
  (row : list R) : list R :=
  map (fun tyz => match tyz with
                  | (t, (y, z)) =>
                      if is_in npos y then get 0 evt (Z.to_nat y) t else z
                  end)
      (enumerate (combine ys row)).

Definition score_event (evt : ndarray R) : M (R * R) :=
  let nt := shape1 evt in
  let npos := shape0 evt in
  evt <~ lift (smooth evt) ;;
  theta <~ uniform (- PI / 2) (PI / 2) nlines ;;
  let diag_len := sqrt ((INR nt - 1) ^ 2 + (INR npos - 1) ^ 2) in
  intercept <~ uniform (- diag_len / 2) (diag_len / 2) nlines ;;
  let y_line :=
    map (fun cm => y_line_row nt npos (fst cm) (snd cm))
        (combine intercept theta) in
  let posterior := repeat (repeat 0 nt) nlines in
  let posterior := zip_with (assign_out npos evt) y_line posterior in
  let posterior := zip_with (assign_in npos evt) y_line posterior in
  let posterior_sum := map nanmean posterior in
  max_line <~ lift (argmax posterior_sum) ;;
  let slope := - (1 / tan (nth max_line theta 0)) in
  ret (nth max_line posterior_sum 0, slope).

(** [Parallel(n_jobs)(delayed(score_event)(evt) for evt in posterior)]: the
    results come back in the order of the events.  The tasks are run here
    one after the other on the one stream of draws. *)
Definition _score_events (posterior : list (ndarray R))
  : M (list R * list R) :=
  results <~ mapM score_event posterior ;;
  ret (map fst results, map snd results).

(** *** [decode_shuffle] *)

(** The local function of the "column" branch.  (For a matrix without
    columns numpy builds the one-dimensional empty array; in this
    two-dimensional model it is an array without columns.) *)
Definition col_shuffle {A : Type} (mat : ndarray A) : M (ndarray A) :=
  shift <~ randint 1 (Z.of_nat (shape1 mat)) (shape1 mat) ;;
  direction <~ choice (-1)%Z [(-1)%Z; 1%Z] (shape1 mat) ;;
  let shift := zip_with Z.mul shift direction in
  let mat' :=
    mkArray (List.length shift) (shape0 mat)
            (map (fun ish => roll (column mat (fst ish)) (snd ish))
                 (enumerate shift)) in
  ret (transpose mat').

(** [np.max(ratemaps, axis=1)] and [np.argmax(ratemaps, axis=1)] on one
    row. *)
Definition row_max (r : list R) : result R :=
  i <- argmax r ;; OK (nth i r 0).

(** [np.argsort] of integer keys; equal keys keep their order. *)
Fixpoint insert_key (x : nat * nat) (l : list (nat * nat)) : list (nat * nat) :=
  match l with
  | [] => [x]
  | y :: l' =>
      if (snd x <? snd y)%nat then x :: l else y :: insert_key x l'
  end.

Definition argsort (keys : list nat) : list nat :=
  map fst (fold_right insert_key [] (enumerate keys)).

(** [a[idx, :]] for a list of row indices. *)
Definition take_rows {A : Type} (a : ndarray A) (idx : list nat)
  : result (ndarray A) :=
  rs <- map_result (fun i => match nth_error (rows a) i with
                             | Some r => OK r
                             | None => Raise IndexError
                             end) idx ;;
  OK (mkArray (List.length idx) (shape1 a) rs).

(** [np.hstack] of two-dimensional arrays. *)
Definition hstack {A : Type} (l : list (ndarray A)) : result (ndarray A) :=
  match l with
  | [] => Raise ValueError
  | a :: l' =>
      if forallb (fun b => (shape0 b =? shape0 a)%nat) l'
      then OK (fold_left
                 (fun acc b => mkArray (shape0 acc) (shape1 acc + shape1 b)
                                       (zip_with (@app A) (rows acc) (rows b)))
                 l' a)
      else Raise ValueError
  end.

(** [np.append(0, np.cumsum(nbins)).astype(int)]. *)
Fixpoint cumsum_from (acc : nat) (l : list nat) : list nat :=
  match l with
  | [] => []
  | x :: l' => (acc + x)%nat :: cumsum_from (acc + x) l'
  end.

Definition cum_nbins (nbins : list nat) : list nat := O :: cumsum_from 0 nbins.

(** [[v[cum[i] : cum[i+1]] for i in range(len(cum) - 1)]]. *)
Definition split_at {A : Type} (cum : list nat) (v : list A) : list (list A) :=
  zip_with (fun a b => firstn (b - a) (skipn a v)) cum (tl cum).

Definition split_columns {A : Type} (cum : list nat) (m : ndarray A)
  : list (ndarray A) :=
  zip_with (fun a b =>
              mkArray (shape0 m) (Nat.min b (shape1 m) - a)
                      (map (fun r => firstn (b - a) (skipn a r)) (rows m)))
           cum (tl cum).

(** One pass of the "cellid" loop: the rows of [ratemaps] are shuffled in
    place, the concatenated spike counts are decoded against them and the
    result is cut back into events. *)
Definition cellid_iteration (self : Bayes1d)
  (st : ndarray R * list (ndarray R) * list (list R))
  : M (ndarray R * list (ndarray R) * list (list R)) :=
  match st with
  | (ratemaps, posterior, decodedPos) =>
      shuffled <~ shuffle (rows ratemaps) ;;
      let ratemaps := mkArray (shape0 ratemaps) (shape1 ratemaps) shuffled in
      counts <~ lift (hstack (spkcount self)) ;;
      posterior_ <~ lift (_decoder (binsize self) counts ratemaps) ;;
      best <~ lift (map_result (fun t => argmax (column posterior_ t))
                               (seq 0 (shape1 posterior_))) ;;
      decodedPos_ <~ lift (map_result
                             (fun i => match nth_error (bincntr self) i with
                                       | Some x => OK x
                                       | None => Raise IndexError
                                       end) best) ;;
      let cum := cum_nbins (nbins_events self) in
      ret (ratemaps,
           posterior ++ split_columns cum posterior_,
           decodedPos ++ split_at cum decodedPos_)
  end.

Fixpoint iterate {S : Type} (n : nat) (body : S -> M S) (s : S) : M S :=
  match n with
  | O => ret s
  | S n' => s' <~ body s ;; iterate n' body s'
  end.

(** The "cellid" branch.  The spike trains [spks] it selects and reorders
    are not used afterwards and are left out. *)
Definition cellid_branch (self : Bayes1d) (n_iter : nat)
  : M (list (ndarray R) * list (list R)) :=
  let ratemaps := ratemaps self in
  maxima <~ lift (map_result row_max (rows ratemaps)) ;;
  let good_cells :=
    map fst (filter (fun im => if Rgt_dec (snd im) 1 then true else false)
                    (enumerate maxima)) in
  ratemaps <~ lift (take_rows ratemaps good_cells) ;;
  peaks <~ lift (map_result argmax (rows ratemaps)) ;;
  let sort_ind := argsort peaks in
  ratemaps <~ lift (take_rows ratemaps sort_ind) ;;
  st <~ iterate n_iter (cellid_iteration self) (ratemaps, [], []) ;;
  ret (snd (fst st), snd st).

(** One pass of the "column" loop: [score.append(...)]. *)
Definition column_iteration (self : Bayes1d) (score : list (list R))
  : M (list (list R)) :=
  evt_shuff <~ mapM col_shuffle (posterior self) ;;
  res <~ _score_events evt_shuff ;;
  ret (score ++ [fst res]).

Definition decode_shuffle (self : Bayes1d) (n_iter : nat) (kind : String.string)
  : M Bayes1d :=
  let score : list (list R) := [] in
  _ <~ (if String.eqb kind "cellid"%string
        then (_ <~ cellid_branch self n_iter ;; ret tt)
        else ret tt) ;;
  score <~ (if String.eqb kind "column"%string
            then iterate n_iter (column_iteration self) []
            else ret score) ;;
  ret (set_shuffle_score self score).

(** *** [p_val_events] *)

(** [row - score] under numpy's broadcasting of two vectors. *)
Definition broadcast_sub (row score : list R) : result (list R) :=
  if (List.length row =? List.length score)%nat
  then OK (zip_with Rminus row score)
  else match row, score with
       | [x], _ => OK (map (fun s => x - s) score)
       | _, [s] => OK (map (fun x => x - s) row)
       | _, _ => Raise ValueError
       end.

Definition where_pos (d : list R) : list nat :=
  map (fun x => if Rgt_dec x 0 then 1%nat else 0%nat) d.

(** [shuffle_score] is [np.array(score)] for a list of score vectors: with
    no iteration it is the one-dimensional empty array, of shape [(0,)].
    Against the 0-by-n tile it broadcasts only for [n <= 1], to the shape
    [(0, 0)], whose sum along the first axis is the empty vector. *)
Definition p_val_events (self : Bayes1d) : result (list R) :=
  let shuff_score := shuffle_score self in
  let n_iter := List.length shuff_score in
  match shuff_score with
  | [] =>
      match score self with
      | [] => OK []
      | [_] => OK []
      | _ => Raise ValueError
      end
  | r :: _ =>
      diff_score <- map_result (fun row => broadcast_sub row (score self))
                               shuff_score ;;
      let chance :=
        fold_left (zip_with Nat.add) (map where_pos diff_score)
                  (repeat 0%nat (Nat.max (List.length r)
                                         (List.length (score self)))) in
      OK (map (fun c => (INR c + 1) / (INR n_iter + 1)) chance)
  end.

End Decoders.

(** * Specification predicates and example inputs *)

Module Spec.

Import LfpEvent.
Local Open Scope Z_scope.

(** Rising and falling edges that take turns, all at or after [lo];
    [true] when the next edge expected is a rising one. *)
Inductive alternating : bool -> Z -> list Z -> list Z -> Prop :=
| alt_nil : forall b lo, alternating b lo [] []
| alt_rise : forall lo s ss ts,
    lo <= s -> alternating false (s + 1) ss ts ->
    alternating true lo (s :: ss) ts
| alt_fall : forall lo t ss ts,
    lo <= t -> alternating true (t + 1) ss ts ->
    alternating false lo ss (t :: ts).

(** Runs that start at or after [lo], are not empty and follow one
    another without touching. *)
Inductive run_chain : Z -> list run -> Prop :=
| chain_nil : forall lo, run_chain lo []
| chain_cons : forall lo s e rest,
    lo <= s -> s < e -> run_chain (e + 1) rest ->
    run_chain lo ((s, e) :: rest).

(** The merge invariant: a run starts at least [min_gap] samples after
    the end of the run before it. *)
Definition gap_ok (min_gap : Q) (a b : run) : Prop :=
  (min_gap <= inject_Z (fst b - snd a))%Q.

Definition merge_invariant (min_gap : Q) (runs : list run) : Prop :=
  Sorted (gap_ok min_gap) runs.

(** An event table in time order without overlap: every event ends after
    it starts, and before every later event starts. *)
Definition time_ordered (evs : list event) : Prop :=
  Forall (fun e => (start e < end_ e)%Q) evs /\
  StronglySorted (fun a b => (end_ a < start b)%Q) evs.

(** [l1] is [l2] with some entries deleted. *)
Inductive subseq {A : Type} : list A -> list A -> Prop :=
| subseq_nil : subseq [] []
| subseq_skip : forall x l1 l2, subseq l1 l2 -> subseq l1 (x :: l2)
| subseq_keep : forall x l1 l2, subseq l1 l2 -> subseq (x :: l1) (x :: l2).

(** A mask holds zeros and ones. *)
Definition binary (x : Z) : Prop := x = 0 \/ x = 1.

(** The run of a row of [thirdPass] and of a row of the DataFrame. *)
Definition run4 (row : run * Q * Z * Z) : run := fst (fst (fst row)).
Definition run5 (row : run * Q * Z * Z * Q) : run := run4 (fst row).

(** Inputs on which the passes are run below. *)
Definition merge_example : ripple_input :=
  mkRippleInput
    [[0; 0; 6; 6; 6; 6; 0; 6; 6; 0; 0; 0; 0; 0; 6; 6; 6; 0; 0; 2; 0]%Q]
    [0; 0; 1; 3; 1; 1; 0; 1; 1; 0; 0; 0; 0; 0; 1; 1; 2; 0; 0; 0; 0]%Q
    10 1 5 0.1 2 0.2.

Definition spindle_example : spindle_input :=
  mkSpindleInput
    [0; 0; 6; 6; 6; 6; 0; 0; 6; 6; 0; 0; 0; 0; 0; 6; 6; 6; 0; 0; 2; 2; 0]%Q
    10 [(0, 1)%Q].

(** A signal given by its stretches of constant value. *)
Definition blocks (bs : list (Q * nat)) : list Q :=
  flat_map (fun b => repeat (fst b) (snd b)) bs.

(** [n] samples at 4, and [n] samples at -1/4. *)
Definition burst (n : nat) : Q * nat := (4%Q, n).
Definition quiet (n : nat) : Q * nat := ((- (1 # 4))%Q, n).

Definition Qsum (l : list Q) : Q := fold_right Qplus 0%Q l.

(** What [stats.zscore] returns: a vector of mean 0 and variance 1. *)
Definition zscored (v : list Q) : Prop :=
  (Qsum v == 0)%Q /\
  (Qsum (map (fun x => x * x)%Q v) == inject_Z (Z.of_nat (List.length v)))%Q.

(** A z-scored envelope at 1000 Hz, 4 inside the bursts and -1/4 outside
    them, with nrem from 0.5 s to 3 s: a burst of 350 ms before nrem, two
    bursts of 200 ms that are 50 ms apart, a burst of 100 ms and a burst
    of 500 ms. *)
Definition sleep_example : spindle_input :=
  mkSpindleInput
    (blocks [quiet 1; burst 350; quiet 200; burst 200; quiet 50; burst 200;
             quiet 300; burst 100; quiet 300; burst 500;
             quiet (16 * 1350 - 851)])
    1000 [(0.5, 3)%Q].

(** A z-scored envelope at 1000 Hz with nrem from 0.4 s to 0.6 s: a burst
    of 350 ms before nrem and, 125 ms later, a burst of [n] ms that
    starts in nrem. *)
Definition long_spindle (n : nat) : spindle_input :=
  mkSpindleInput
    (blocks [quiet 1; burst 350; quiet 125; burst n;
             quiet (16 * (350 + n) - 126)])
    1000 [(0.4, 0.6)%Q].

End Spec.

Module DecoderSpec.

Import Np Decoders.
Local Open Scope R_scope.

(** The Poisson probability of [count] spikes at rate [rate] over a bin
    of [tau] seconds, as the specification writes it. *)
Definition poisson (tau rate : R) (count : nat) : R :=
  (tau * rate) ^ count / INR (fact count) * exp (- (tau * rate)).

(** [cell_prob] once the cells below [k] have been assigned. *)
Definition cell_prob_upto (tau : R) (spk : ndarray nat) (rm : ndarray R)
  (k : nat) : list (list (list R)) :=
  map (fun p =>
         map (fun t =>
                map (fun c =>
                       if (c <? k)%nat
                       then cell_term tau (get 0 rm c p) (get 0%nat spk c t)
                       else 0)
                    (seq 0 (shape0 spk)))
             (seq 0 (shape1 spk)))
      (seq 0 (shape1 rm)).

(** The array [np.prod(cell_prob, axis=2)] after the loop. *)
Definition joint_array (tau : R) (spk : ndarray nat) (rm : ndarray R)
  : ndarray R :=
  mkArray (shape1 rm) (shape1 spk)
    (map (fun p =>
            map (fun t =>
                   Rprod (map (fun c => cell_term tau (get 0 rm c p)
                                                  (get 0%nat spk c t))
                              (seq 0 (shape0 spk))))
                (seq 0 (shape1 spk)))
         (seq 0 (shape1 rm))).

(** Inputs on which the decoder is run below. *)
Definition decoder_example_counts : ndarray nat :=
  mkArray 2 3 [[0; 1; 2]; [1; 0; 3]]%nat.

Definition decoder_example_maps : ndarray R :=
  mkArray 2 2 [[1; 2]; [5; 0]].

Definition silent_counts : ndarray nat := mkArray 1 1 [[0%nat]].
Definition two_position_maps : ndarray R := mkArray 1 2 [[1; 2]].

End DecoderSpec.

Module PValueSpec.

Import Np Decoders.
Local Open Scope R_scope.

(** The number of iterations whose shuffled score of event [i] exceeds the
    event's real score. *)
Definition exceed_count (self : Bayes1d) (i : nat) : nat :=
  List.length
    (filter (fun row => if Rgt_dec (nth i row 0) (nth i (score self) 0)
                        then true else false)
            (shuffle_score self)).

Definition p_value_example : Bayes1d :=
  mkBayes1d 0.02 (mkArray 0 0 []) [] [] [] [] [0.5; 0.2] [1; -1]
            [[0.6; 0.1]; [0.4; 0.3]; [0.7; 0.2]].

End PValueSpec.

Module ShuffleSpec.

Import Np Decoders.
Local Open Scope R_scope.

(** [l'] is [l] turned around: some first entries moved to the end. *)
Definition rotation_of {A : Type} (l' l : list A) : Prop :=
  exists k, (k <= List.length l)%nat /\ l' = skipn k l ++ firstn k l.

Definition shuffle_example : ndarray R :=
  mkArray 3 2 [[0.5; 0.1]; [0.25; 0.2]; [0.25; 0.7]]%R.

Definition one_column_example : ndarray R :=
  mkArray 3 1 [[0.5]; [0.25]; [0.25]]%R.

(** A session with one cell, one position bin and one event of one time
    bin. *)
Definition cellid_example : Bayes1d :=
  mkBayes1d 0.02 (mkArray 1 1 [[2]]) [0.5; 1.5]
            [mkArray 1 1 [[1]]] [mkArray 1 1 [[1%nat]]] [1%nat]
            [3] [0] [].

End ShuffleSpec.

Module ScoreSpec.

Import Np Decoders.
Local Open Scope R_scope.

(** The fraction of [0, 1) made of a raw draw. *)
Definition unit_draw (raw : Z) : R := IZR (raw mod 2 ^ 53) / IZR (2 ^ 53).

(** The angle and the intercept of candidate line [l], as [score_event]
    draws them from the stream [g]: the angles first, then the
    intercepts. *)
Definition drawn_theta (g : rng) (l : nat) : R :=
  - PI / 2 + (PI / 2 - - PI / 2) * unit_draw (g l).

Definition drawn_intercept (evt : ndarray R) (g : rng) (l : nat) : R :=
  let diag_len :=
    sqrt ((INR (shape1 evt) - 1) ^ 2 + (INR (shape0 evt) - 1) ^ 2) in
  - diag_len / 2
  + (diag_len / 2 - - diag_len / 2) * unit_draw (g (nlines + l)%nat).

(** The position row at which the line of intercept [c] and angle [m]
    passes time bin [t]. *)
Definition line_row (evt : ndarray R) (c m : R) (t : nat) : Z :=
  astype_int ((c - (INR t - (INR (shape1 evt) + 1) / 2) * cos m) / sin m
              + (INR (shape0 evt) + 1) / 2).

(** What a line collects at time bin [t]: the value of the smoothed
    posterior at its row when the row is one of the position bins, the
    median of the column otherwise. *)
Definition line_sample (evt smoothed : ndarray R) (c m : R) (t : nat) : R :=
  let y := line_row evt c m t in
  if ((0 <=? y) && (y <=? Z.of_nat (shape0 evt) - 1))%Z
  then get 0 smoothed (Z.to_nat y) t
  else median (column smoothed t).

(** The average of a line over the time bins. *)
Definition line_mean (evt smoothed : ndarray R) (c m : R) : R :=
  Rsum (map (line_sample evt smoothed c m) (seq 0 (shape1 evt)))
  / INR (shape1 evt).

Definition cot (x : R) : R := cos x / sin x.

(** The smoothed event of a well-formed event with at least one row and
    one column. *)
Definition smoothed_of (evt : ndarray R) : ndarray R :=
  transpose (mkArray (shape1 evt) (shape0 evt + 2)
               (map (fun t => convolve_full (column evt t) [1; 1; 1])
                    (seq 0 (shape1 evt)))).

(** An event of five position bins and four time bins whose posterior
    moves up by one position bin at every time bin. *)
Definition line_example : ndarray R :=
  mkArray 5 4 [[0.6; 0.1; 0.1; 0.1];
               [0.1; 0.6; 0.1; 0.1];
               [0.1; 0.1; 0.6; 0.1];
               [0.1; 0.1; 0.1; 0.6];
               [0.1; 0.1; 0.1; 0.1]].

(** A stream of draws: the first angle is a quarter of the way from
    [-pi/2] to [pi/2], the first intercept is half way, every other draw
    is the lower end of its interval. *)
Definition line_stream : rng :=
  fun k => if (k =? 0)%nat then (2 ^ 51)%Z
           else if (k =? nlines)%nat then (2 ^ 52)%Z
           else 0%Z.

End ScoreSpec.

(** ** lfpEvent.py: [Hswa.detect] *)

Module Hswa.

Import LfpEvent.
Local Open Scope Z_scope.
Local Open Scope Q_scope.
Local Open Scope result_scope.

(** [l[i]] for an integer [i]: a negative index counts from the end. *)
Definition getitem {A : Type} (l : list A) (i : Z) : result A :=
  let n := Z.of_nat (List.length l) in
  let j := if (i <? 0)%Z then (i + n)%Z else i in
  if ((0 <=? j) && (j <? n))%Z
  then match nth_error l (Z.to_nat j) with
       | Some x => OK x
       | None => Raise IndexError
       end
  else Raise IndexError.

(** [np.linspace(start, stop, num)]: [num] samples, the last one set to
    [stop]. *)
Definition linspace (start stop : Q) (num : nat) : list Q :=
  match num with
  | O => []
  | 1%nat => [start]
  | _ =>
      let step := (stop - start) / inject_Z (Z.of_nat num - 1) in
      map (fun i => if (i =? num - 1)%nat then stop
                    else inject_Z (Z.of_nat i) * step + start)
          (seq 0 num)
  end.

(** The part of [Hswa.detect] after the band-pass, the z-score and the
    two calls of [find_peaks]: [delta] is the flipped z-score, [up] the
    positions of its peaks and [down] those of its troughs; [lfpsRate] is
    not zero. *)
Record hswa_input : Type := mkHswaInput {
  delta : list Q;
  up : list Z;
  down : list Z;
  lfpsRate : Q
}.

(** A row of the [events] DataFrame. *)
Record delta_wave : Type := mkDeltaWave {
  dw_start : Q;
  dw_end : Q;
  dw_peaktime : Q;
  dw_peakamp : Q;
  dw_endamp : Q
}.

Definition time_axis (inp : hswa_input) : list Q :=
  linspace 0 (inject_Z (Z.of_nat (List.length (delta inp))) / lfpsRate inp)
           (List.length (delta inp)).

(** The peaks once a peak before the first trough and a peak after the
    last trough are dropped. *)
Definition trimmed_up (inp : hswa_input) : result (list Z) :=
  u0 <- first (up inp) ;;
  d0 <- first (down inp) ;;
  let up := if (u0 <? d0)%Z then tl (up inp) else up inp in
  ul <- last_item up ;;
  dl <- last_item (down inp) ;;
  OK (if (ul >? dl)%Z then removelast up else up).

(** One pass of the loop: the row [peakamp, endamp, tpeak, tbeg, tend]. *)
Definition wave_row (inp : hswa_input) (t : list Q) (up : list Z) (i : nat)
  : result (Q * Q * Q * Q * Q) :=
  di <- getitem (down inp) (Z.of_nat i) ;;
  tbeg <- getitem t di ;;
  ui <- getitem up (Z.of_nat i) ;;
  tpeak <- getitem t ui ;;
  dn <- getitem (down inp) (Z.of_nat i + 1) ;;
  tend <- getitem t dn ;;
  peakamp <- getitem (delta inp) ui ;;
  endamp <- getitem (delta inp) dn ;;
  OK (peakamp, endamp, tpeak, tbeg, tend).

Definition to_wave (row : Q * Q * Q * Q * Q) : delta_wave :=
  match row with
  | (peakamp, endamp, tpeak, tbeg, tend) =>
      mkDeltaWave tbeg tend tpeak peakamp endamp
  end.

(** [sigdelta[:, 3]] raises on the one-dimensional empty array that
    [np.asarray([])] is. *)
Definition detect (inp : hswa_input) : result (list delta_wave) :=
  let t := time_axis inp in
  up <- trimmed_up inp ;;
  sigdelta <- map_result (wave_row inp t up)
                         (seq 0 (List.length (down inp) - 1)) ;;
  match sigdelta with
  | [] => Raise IndexError
  | _ => OK (map to_wave sigdelta)
  end.

End Hswa.

(** ** lfpEvent.py: [Theta.phase_specfic_extraction] *)

Module Theta.

Local Open Scope Z_scope.
Local Open Scope Q_scope.
Local Open Scope result_scope.

(** An [assert] at the head of a function. *)
Inductive asserted (A : Type) : Type :=
| AssertionError
| Passed (a : A).

Arguments AssertionError {A}.
Arguments Passed {A} a.

(** [np.lib.stride_tricks.sliding_window_view(l, w)] on a vector: every
    run of [w] neighbours; a window longer than the vector is refused. *)
Definition sliding_window_view {A : Type} (l : list A) (w : nat)
  : result (list (list A)) :=
  if (List.length l <? w)%nat then Raise ValueError
  else OK (map (fun s => firstn w (skipn s l))
               (seq 0 (List.length l - w + 1))).

(** [range(0, stop, step)] for a positive [step]. *)
Definition range_step (stop step : nat) : list nat :=
  map (fun k => (k * step)%nat)
      (seq 0 (if (stop =? 0)%nat then 0 else (stop - 1) / step + 1)).

(** [l[::step]]: a step of zero is refused. *)
Definition every {A : Type} (step : nat) (l : list A) : result (list A) :=
  if (step =? 0)%nat then Raise ValueError
  else OK (flat_map (fun i => match nth_error l i with
                              | Some x => [x]
                              | None => []
                              end)
                    (range_step (List.length l) step)).

(** [np.arange(0, 361)]. *)
Definition angle_bin : list Z := map Z.of_nat (seq 0 361).

(** [np.mean] of a row of integers (of an empty row it is nan, here 0). *)
Definition mean (l : list Z) : Q :=
  inject_Z (fold_right Z.add 0%Z l) / inject_Z (Z.of_nat (List.length l)).

(** [np.where((theta_angle >= lo) & (theta_angle <= hi))[0]]. *)
Definition where_between (lo hi : Z) (theta_angle : list Q) : list nat :=
  map fst (filter (fun ix => Qle_bool (inject_Z lo) (snd ix)
                             && Qle_bool (snd ix) (inject_Z hi))
                  (Np.enumerate theta_angle)).

(** [y[idx]] for an array of positions. *)
Definition take {A : Type} (y : list A) (idx : list nat) : result (list A) :=
  map_result (fun i => match nth_error y i with
                       | Some v => OK v
                       | None => Raise IndexError
                       end) idx.

(** The function after the band-pass and the Hilbert transform:
    [theta_angle] is the phase of every sample of [lfp], in degrees from
    0 to 360; [binsize] and [slideby] are not negative.  The result is
    [(y_at_phase, angle_bin, angle_centers)]. *)
Definition phase_specfic_extraction {A : Type} (theta_angle : list Q)
  (y : list A) (binsize : nat) (slideby : option nat)
  : asserted (result (list (list A) * list Z * list Q)) :=
  if negb (List.length theta_angle =? List.length y)%nat then AssertionError
  else
    Passed
      (let slideby := match slideby with
                      | None => binsize
                      | Some s => s
                      end in
       views <- sliding_window_view angle_bin binsize ;;
       slide_angles <- every slideby views ;;
       let angle_centers := map mean slide_angles in
       y_at_phase <-
         map_result (fun phase =>
                       lo <- first phase ;;
                       hi <- last_item phase ;;
                       take y (where_between lo hi theta_angle))
                    slide_angles ;;
       OK (y_at_phase, angle_bin, angle_centers)).

End Theta.

(** ** lfpEvent.py: [Ripple.channels] *)

Module RippleChannels.

Import LfpEvent.
Local Open Scope Q_scope.

Inductive exn : Type :=
| KeyError
| IndexError.

Inductive outcome (A : Type) : Type :=
| Ret (a : A)
| Fail (e : exn).

Arguments Ret {A} a.
Arguments Fail {A} e.

Definition bind {A B : Type} (r : outcome A) (k : A -> outcome B)
  : outcome B :=
  match r with
  | Ret a => k a
  | Fail e => Fail e
  end.

Fixpoint map_outcome {A B : Type} (f : A -> outcome B) (l : list A)
  : outcome (list B) :=
  match l with
  | [] => Ret []
  | x :: l' =>
      bind (f x) (fun y => bind (map_outcome f l') (fun ys => Ret (y :: ys)))
  end.

(** [dict(zip(keys, values))]: pairs up to the shorter list; a key that
    comes again replaces the value it had. *)
Definition dict_zip (keys : list nat) (values : list Q) : list (nat * Q) :=
  combine keys values.

(** [d[k]]. *)
Definition dict_get (d : list (nat * Q)) (k : nat) : outcome Q :=
  match find (fun kv => (fst kv =? k)%nat) (rev d) with
  | Some kv => Ret (snd kv)
  | None => Fail KeyError
  end.

(** One pass of the loop over the shanks: nothing for a shank without
    good channels, otherwise its channel of largest amplitude (the first
    one if several) with that amplitude. *)
Definition shank_best (rippleamp_chan : list (nat * Q))
  (goodchangrp : list (list nat)) (shank : nat)
  : outcome (list (nat * Q)) :=
  match nth_error goodchangrp shank with
  | None => Fail IndexError
  | Some goodChans_shank =>
      match goodChans_shank with
      | [] => Ret []
      | chan :: chans =>
          bind (dict_get rippleamp_chan chan)
               (fun a =>
                  bind (map_outcome (dict_get rippleamp_chan) chans)
                       (fun rest =>
                          let m := argmax_from a 0 1 rest in
                          Ret [(nth (Z.to_nat (snd m)) goodChans_shank 0%nat,
                                fst m)]))
      end
  end.

(** [np.argsort] of a vector of amplitudes: the positions, by ascending
    amplitude; equal amplitudes keep their order, as they do on a short
    vector. *)
Fixpoint insert_by_amp (x : nat * Q) (l : list (nat * Q)) : list (nat * Q) :=
  match l with
  | [] => [x]
  | y :: l' =>
      if Qltb (snd x) (snd y) then x :: l else y :: insert_by_amp x l'
  end.

Definition argsort (amps : list Q) : list nat :=
  map fst (fold_right insert_by_amp [] (Np.enumerate amps)).

(** The function after the ripple-band envelope of every good channel has
    been averaged into [avgRipple]; the result is the dictionary saved:
    [channels] and [metricAmp]. *)
Definition channels (goodChans : list nat) (avgRipple : list Q)
  (nShanks : nat) (goodchangrp : list (list nat))
  : outcome (list nat * list Q) :=
  let rippleamp_chan := dict_zip goodChans avgRipple in
  bind (map_outcome (shank_best rippleamp_chan goodchangrp) (seq 0 nShanks))
       (fun best =>
          let rplchan_shank := map fst (concat best) in
          let metricAmp := map snd (concat best) in
          let sort_chan := argsort metricAmp in
          Ret (map (fun i => nth i rplchan_shank 0%nat) sort_chan,
               map (fun i => nth i metricAmp 0) sort_chan)).

End RippleChannels.

(** ** lfpEvent.py: [Spindle.channels] *)

Module SpindleChannels.

Import LfpEvent.
Local Open Scope Q_scope.

Inductive exn : Type :=
| KeyError
| IndexError
| ValueError.

Inductive outcome (A : Type) : Type :=
| Ret (a : A)
| Fail (e : exn).

Arguments Ret {A} a.
Arguments Fail {A} e.

Definition bind {A B : Type} (r : outcome A) (k : A -> outcome B)
  : outcome B :=
  match r with
  | Ret a => k a
  | Fail e => Fail e
  end.

Definition is_bad (badchans : list nat) (j : nat) : bool :=
  existsb (Nat.eqb j) badchans.

(** The columns of the file that [np.delete(lfpCA1, badchans, 1)] keeps;
    a column to delete that the file does not have is refused. *)
Definition kept_columns (nChans : nat) (badchans : list nat)
  : outcome (list nat) :=
  if forallb (fun b => (b <? nChans)%nat) badchans
  then Ret (filter (fun j => negb (is_bad badchans j)) (seq 0 nChans))
  else Fail IndexError.

(** [np.setdiff1d(allchans, badchans, assume_unique=True)]: the channels
    of [allchans] that are not bad, in their order. *)
Definition setdiff1d (allchans badchans : list nat) : list nat :=
  filter (fun c => negb (is_bad badchans c)) allchans.

(** [dict(zip(keys, values))[k]]: the value of the last pair with key
    [k]. *)
Definition dict_get {V : Type} (d : list (nat * V)) (k : nat) : outcome V :=
  match find (fun kv => (fst kv =? k)%nat) (rev d) with
  | Some kv => Ret (snd kv)
  | None => Fail KeyError
  end.

(** What the function saves: the label of the best channel, the column
    of the file whose trace is saved as [lfp], and the coordinates of the
    best channel. *)
Record best_spindle_chan : Type := mkBest {
  channel : nat;
  lfp : nat;
  coords : Q * Q
}.

(** The function, with the signal processing taken as given: [amp j] is
    the mean spindle-band envelope, over the nrem frames, of column [j]
    of the file of [nChans] columns; [brainChannels] are the channels of
    the first [nShanks] groups and [probemap] their coordinates. *)
Definition channels (nChans : nat) (badchans allchans : list nat)
  (amp : nat -> Q) (brainChannels : list nat)
  (probemap : list Q * list Q) : outcome best_spindle_chan :=
  let dict_probemap :=
    combine brainChannels (combine (fst probemap) (snd probemap)) in
  bind (kept_columns nChans badchans)
       (fun lfpCA1 =>
          let goodChans := setdiff1d allchans badchans in
          let avgSpindle := map amp lfpCA1 in
          match avgSpindle with
          | [] => Fail ValueError
          | a :: rest =>
              let argmax := Z.to_nat (snd (argmax_from a 0 1 rest)) in
              match nth_error goodChans argmax with
              | None => Fail IndexError
              | Some bestchan =>
                  bind (dict_get dict_probemap bestchan)
                       (fun coords => Ret (mkBest bestchan argmax coords))
              end
          end).

End SpindleChannels.

(** ** decoders.py: [Bayes1d.decode_events] *)

Module DecodeEvents.

Import Np Decoders.
Local Open Scope R_scope.
Local Open Scope result_scope.
Local Open Scope rand_scope.

(** [np.arange(start, stop, step)] for a positive [step]: the values
    [start + k * step], [ceil((stop - start) / step)] of them. *)
Definition ceil (x : R) : Z := (1 - up (- x))%Z.

Definition arange (start stop step : R) : list R :=
  map (fun k => start + INR k * step)
      (seq 0 (Z.to_nat (ceil ((stop - start) / step)))).

(** [np.histogram(x, bins=edges)[0]]: the edges must not decrease; every
    bin holds its left edge and not its right one, but for the last bin,
    which holds both.  (With fewer than two edges there is no bin.) *)
Fixpoint increasing (edges : list R) : bool :=
  match edges with
  | e0 :: ((e1 :: _) as rest) =>
      (if Rgt_dec e0 e1 then false else true) && increasing rest
  | _ => true
  end.

Definition between (closed : bool) (lo hi s : R) : bool :=
  (if Rle_dec lo s then true else false)
  && (if closed then (if Rle_dec s hi then true else false)
      else (if Rlt_dec s hi then true else false)).

Fixpoint hist_counts (x : list R) (edges : list R) : list nat :=
  match edges with
  | e0 :: ((e1 :: rest') as rest) =>
      List.length (filter (between (match rest' with
                                    | [] => true
                                    | _ => false
                                    end) e0 e1) x)
      :: hist_counts x rest
  | _ => []
  end.

Definition histogram (x edges : list R) : result (list nat) :=
  if increasing edges then OK (hist_counts x edges) else Raise ValueError.

(** [np.delete(row, del)] on one row, for positions counted from [i]. *)
Fixpoint delete_from {A : Type} (i : nat) (del : list nat) (row : list A)
  : list A :=
  match row with
  | [] => []
  | x :: row' =>
      if existsb (Nat.eqb i) del then delete_from (S i) del row'
      else x :: delete_from (S i) del row'
  end.

(** [np.delete(np.asarray(counts), del, axis=1)]: without a row the array
    has one dimension only and no axis 1; a column to delete that the
    array does not have is refused. *)
Definition delete_columns (counts : list (list nat)) (del : list nat)
  : result (ndarray nat) :=
  match counts with
  | [] => Raise AxisError
  | r :: _ =>
      if forallb (fun d => (d <? List.length r)%nat) del
      then OK (mkArray (List.length counts)
                       (List.length (delete_from 0 del r))
                       (map (delete_from 0 del) counts))
      else Raise IndexError
  end.

(** [[l[_] for _ in idx]]. *)
Definition pick {A : Type} (l : list A) (idx : list nat) : result (list A) :=
  map_result (fun i => match nth_error l i with
                       | Some x => OK x
                       | None => Raise IndexError
                       end) idx.

(** "removing cells that fire < 1 HZ" and "sorting the cells according to
    pf location": the rows of the rate maps and the spike trains, chosen
    and ordered alike. *)
Definition good_sorted_cells (ratemaps : ndarray R) (spks : list (list R))
  : result (list (list R) * ndarray R) :=
  maxima <- map_result row_max (rows ratemaps) ;;
  let good_cells :=
    map fst (filter (fun im => if Rgt_dec (snd im) 1 then true else false)
                    (enumerate maxima)) in
  spks <- pick spks good_cells ;;
  ratemaps <- take_rows ratemaps good_cells ;;
  peaks <- map_result argmax (rows ratemaps) ;;
  let sort_ind := argsort peaks in
  spks <- pick spks sort_ind ;;
  ratemaps <- take_rows ratemaps sort_ind ;;
  OK (spks, ratemaps).

(** "calculating binned spike counts" and "deleting unwanted columns that
    represent time between events".  An event is a row (start, end) with
    [start < end]; [binsize] is positive. *)
Definition nbins_of (bins : list R) : nat := (List.length bins - 1)%nat.

Definition del_columns (nbins_events : list nat) : list nat :=
  let cumsum_nbins := cumsum_from 0 nbins_events in
  zip_with Nat.add (removelast cumsum_nbins)
           (seq 0 (List.length cumsum_nbins - 1)).

Definition binned_counts (binsize : R) (events : list (R * R))
  (spks : list (list R)) : result (list nat * ndarray nat) :=
  let bins := map (fun epoch => arange (fst epoch) (snd epoch) binsize)
                  events in
  let nbins_events := map nbins_of bins in
  let bins_events := concat bins in
  counts <- map_result (fun cell => histogram cell bins_events) spks ;;
  spkcount <- delete_columns counts (del_columns nbins_events) ;;
  OK (nbins_events, spkcount).

(** The method: [self] gives the bin size, the rate maps and the bin
    centres; the result is [self] with what the method sets, and
    [decodedPos], which the record does not hold. *)
Definition decode_events (self : Bayes1d) (events : list (R * R))
  (spks : list (list R)) : M (Bayes1d * list (list R)) :=
  cells <~ lift (good_sorted_cells (ratemaps self) spks) ;;
  binned <~ lift (binned_counts (binsize self) events (fst cells)) ;;
  let nbins_events := fst binned in
  let spkcount := snd binned in
  posterior <~ lift (_decoder (binsize self) spkcount (snd cells)) ;;
  best <~ lift (map_result (fun t => argmax (column posterior t))
                           (seq 0 (shape1 posterior))) ;;
  decodedPos <~ lift (pick (bincntr self) best) ;;
  let cum := cum_nbins nbins_events in
  let posterior := split_columns cum posterior in
  let decodedPos := split_at cum decodedPos in
  let spkcount := split_columns cum spkcount in
  res <~ _score_events posterior ;;
  ret (mkBayes1d (binsize self) (ratemaps self) (bincntr self)
                 posterior spkcount nbins_events (fst res) (snd res)
                 (shuffle_score self),
       decodedPos).

End DecodeEvents.

(** * Further predicates and example inputs *)

Module DetectorExtras.

Import LfpEvent.
Local Open Scope Z_scope.

(** The peak of a run [r] of a signal: [pt] is a sample of the run, [pw]
    the value of the signal there, and no sample of the run has a larger
    one. *)
Definition run_peak (sig : list Q) (r : run) (pw : Q) (pt : Z) : Prop :=
  fst r <= pt < snd r /\
  pw = nth (Z.to_nat pt) sig 0%Q /\
  forall j, fst r <= j < snd r -> (Z.to_nat j < List.length sig)%nat ->
            (nth (Z.to_nat j) sig 0 <= pw)%Q.

(** [m] spans [x]. *)
Definition covers (m x : run) : Prop := fst m <= fst x /\ snd x <= snd m.

(** [m] runs from the start of a run of [fp] to the end of a run of
    [fp]. *)
Definition spans_of (fp : list run) (m : run) : Prop :=
  exists a b, In a fp /\ In b fp /\ fst m = fst a /\ snd m = snd b.


(** Troughs and peaks that take turns from the trough [d] on: every peak
    lies between two troughs. *)
Inductive zigzag : Z -> list Z -> list Z -> Prop :=
| zigzag_nil : forall d, zigzag d [] []
| zigzag_cons : forall d u d' us ds,
    d < u -> u < d' -> zigzag d' us ds -> zigzag d (u :: us) (d' :: ds).

(** A recording of thirteen samples at 2 Hz with peaks at 1, 4, 8 and 11
    and troughs at 2, 6 and 10. *)
Definition hswa_example : Hswa.hswa_input :=
  Hswa.mkHswaInput [0; 1; -2; 0; 2; 0; -1; 1; 3; 0; -3; 1; 0]%Q
                   [1; 4; 8; 11] [2; 6; 10] 2.


(** No rising and no falling edge lies strictly inside the run [r]. *)
Definition no_edge_inside (starts stops : list Z) (r : run) : Prop :=
  forall x, In x starts \/ In x stops -> ~ (fst r < x < snd r).

(** The run [r] of a mask of zeros and ones: the mask is 0 at the start,
    1 after it up to the end, and 0 after the end. *)
Definition mask_run (mask : list Z) (r : run) : Prop :=
  0 <= fst r /\ fst r < snd r /\
  snd r + 1 < Z.of_nat (List.length mask) /\
  nth (Z.to_nat (fst r)) mask 0 = 0 /\
  (forall k, fst r < k <= snd r -> nth (Z.to_nat k) mask 0 = 1) /\
  nth (Z.to_nat (snd r + 1)) mask 0 = 0.


(** The run [r] is a maximal run of [above] in a signal of [n] samples,
    written the way the first pass writes it: the start is the last
    sample before the run that is not above, the end is the last sample
    that is above. *)
Definition maximal_run (above : Z -> Prop) (n : nat) (r : run) : Prop :=
  0 <= fst r /\ fst r < snd r /\ snd r + 1 < Z.of_nat n /\
  ~ above (fst r) /\
  (forall k, fst r < k <= snd r -> above k) /\
  ~ above (snd r + 1).

End DetectorExtras.

Module ThetaExtras.

Local Open Scope Q_scope.

(** The angle [a] is in the window that starts at [k * step] degrees and
    holds [binsize] whole degrees. *)
Definition in_window (binsize step k : nat) (a : Q) : bool :=
  Qle_bool (inject_Z (Z.of_nat (k * step))) a
  && Qle_bool a (inject_Z (Z.of_nat (k * step + binsize) - 1)).

(** The angle is in one of the first [count] windows. *)
Definition covered (binsize step count : nat) (a : Q) : bool :=
  existsb (fun k => in_window binsize step k a) (seq 0 count).

(** Phases of five samples, two of them between whole degrees at the end
    of a window. *)
Definition phase_example : list Q := [3; 19.5; 20; 359.5; 100].

End ThetaExtras.

Module ChannelExtras.

Import RippleChannels.
Local Open Scope Q_scope.

(** [(chan, amp)] is a winner of [shank]: a channel of the shank, with
    its amplitude, which no channel of the shank exceeds. *)
Definition shank_winner (d : list (nat * Q)) (shank : list nat)
  (ca : nat * Q) : Prop :=
  In (fst ca) shank /\ dict_get d (fst ca) = Ret (snd ca) /\
  Forall (fun c => exists a, dict_get d c = Ret a /\ a <= snd ca) shank.

Definition has_channels (shank : list nat) : bool :=
  negb (List.length shank =? 0)%nat.

(** Three shanks, the second without good channels. *)
Definition channels_example_groups : list (list nat) :=
  [[0; 1; 2]; []; [5; 6]]%nat.

End ChannelExtras.

Module DecoderExtras.

Import Np Decoders.
Local Open Scope R_scope.

(** An event posterior the column shuffle and the scorer accept: at least
    one position bin and two time bins. *)
Definition shuffleable (evt : ndarray R) : Prop :=
  wf evt /\ (1 <= shape0 evt)%nat /\ (2 <= shape1 evt)%nat.

Definition scorable (evt : ndarray R) : Prop :=
  wf evt /\ (1 <= shape0 evt)%nat /\ (1 <= shape1 evt)%nat.

(** A session with one cell, one position bin and two events of one time
    bin each. *)
Definition two_event_session : Bayes1d :=
  mkBayes1d 0.02 (mkArray 1 1 [[2]]) [0.5; 1.5]
            [mkArray 1 1 [[1]]; mkArray 1 1 [[1]]]
            [mkArray 1 1 [[1%nat]]; mkArray 1 1 [[0%nat]]] [1%nat; 1%nat]
            [3; 3] [0; 0] [].

(** A session with two events of two position bins, of two and three
    time bins. *)
Definition column_session : Bayes1d :=
  mkBayes1d 0.02 (mkArray 1 2 [[2; 3]]) [0.5; 1.5; 2.5]
            [mkArray 2 2 [[0.5; 0.1]; [0.5; 0.9]];
             mkArray 2 3 [[0.2; 0.3; 1]; [0.8; 0.7; 0]]]
            [mkArray 1 2 [[1; 0]%nat]; mkArray 1 3 [[0; 2; 1]%nat]]
            [2; 3]%nat
            [0.4; 0.6] [1; -1] [].


(** *** Binning of events *)

(** The number of time bins of an event: one less than the number of
    edges [np.arange] gives. *)
Definition event_nbins (binsize : R) (ev : R * R) : nat :=
  (Z.to_nat (DecodeEvents.ceil ((snd ev - fst ev) / binsize)) - 1)%nat.

(** The spikes of [x] in time bin [j] of the event [ev]. *)
Definition bin_count (binsize : R) (x : list R) (ev : R * R) (closed : bool)
  (j : nat) : nat :=
  List.length
    (filter (DecodeEvents.between closed (fst ev + INR j * binsize)
                                  (fst ev + INR (S j) * binsize)) x).

(** The counts of one event; its last bin holds its right edge when
    [closed_last] is set. *)
Definition event_counts (binsize : R) (x : list R) (closed_last : bool)
  (ev : R * R) : list nat :=
  map (fun j => bin_count binsize x ev
                          (closed_last
                           && (S j =? event_nbins binsize ev)%nat) j)
      (seq 0 (event_nbins binsize ev)).

(** The counts of all the events, one after the other; only the last bin
    of the last event holds its right edge. *)
Fixpoint all_counts (binsize : R) (x : list R) (events : list (R * R))
  : list nat :=
  match events with
  | [] => []
  | ev :: rest =>
      match rest with
      | [] => event_counts binsize x true ev
      | _ => event_counts binsize x false ev ++ all_counts binsize x rest
      end
  end.

(** The positions, from [off] on, of the bins that lie between two
    events. *)
Fixpoint gaps (off : nat) (nbins : list nat) : list nat :=
  match nbins with
  | [] => []
  | nb :: rest =>
      match rest with
      | [] => []
      | _ => (off + nb)%nat :: gaps (off + nb + 1) rest
      end
  end.


(** *** Decoded events *)

(** A matrix of probabilities that the scorer accepts: every column is a
    distribution over at least one position bin, and there is at least
    one column. *)
Definition distribution_matrix (evt : ndarray R) : Prop :=
  wf evt /\ (1 <= shape0 evt)%nat /\ (1 <= shape1 evt)%nat /\
  (forall p t, (p < shape0 evt)%nat -> (t < shape1 evt)%nat ->
               0 < get 0 evt p t) /\
  (forall t, (t < shape1 evt)%nat -> Rsum (column evt t) = 1).

(** A session of two cells and two position bins, with two events. *)
Definition decode_example : Bayes1d :=
  mkBayes1d 0.02 (mkArray 2 2 [[3; 0.5]; [0.2; 4]]) [0.5; 1.5; 2.5]
            [] [] [] [] [] [].

Definition decode_example_events : list (R * R) := [(0, 0.07); (1, 1.05)].

Definition decode_example_spikes : list (list R) :=
  [[0.01; 0.03; 1.01]; [0.05; 1.03]].


(** The posterior of an event of [nb] time bins over [npos] position
    bins: positive entries, every column a distribution. *)
Definition decoded_piece (npos : nat) (piece : ndarray R) (nb : nat) : Prop :=
  wf piece /\ shape0 piece = npos /\ shape1 piece = nb /\
  (forall p t, (p < npos)%nat -> (t < nb)%nat -> 0 < get 0 piece p t) /\
  (forall t, (t < nb)%nat -> Rsum (column piece t) = 1).


(** A matrix of non-negative entries whose columns sum to at most 1. *)
Definition bounded_columns (evt : ndarray R) : Prop :=
  (forall p t, (p < shape0 evt)%nat -> (t < shape1 evt)%nat ->
               0 <= get 0 evt p t) /\
  (forall t, (t < shape1 evt)%nat -> Rsum (column evt t) <= 1).

End DecoderExtras.

(** * Facts about the Python layer *)

Lemma bind_OK {A B : Type} (r : result A) (k : A -> result B) (b : B) :
  Py.bind r k = OK b -> exists a, r = OK a /\ k a = OK b.
Proof.
  destruct r as [a|e]; simpl; intros H; [eauto | discriminate].
Qed.

(** * lfpEvent.py: the detectors *)

Section DetectorFacts.

Import LfpEvent Spec.
Local Open Scope Z_scope.

Lemma Qltb_lt (x y : Q) : Qltb x y = true <-> (x < y)%Q.
Proof.
  unfold Qltb. rewrite negb_true_iff.
  split; intros H.
  - apply Qnot_le_lt. intros Hle. apply Qle_bool_iff in Hle. congruence.
  - destruct (Qle_bool y x) eqn:E; [|reflexivity].
    apply Qle_bool_iff in E. exfalso. apply (Qlt_not_le _ _ H E).
Qed.

Lemma Qltb_ge (x y : Q) : Qltb x y = false <-> (y <= x)%Q.
Proof.
  unfold Qltb. rewrite negb_false_iff. apply Qle_bool_iff.
Qed.

(** A vector all of whose entries are [k] has no entry equal to another
    value. *)
Lemma where_eq_from_const (k c off : Z) (v : list Z) :
  k <> c -> Forall (fun x => x = c) v -> where_eq_from k off v = [].
Proof.
  intros Hk Hv. revert off.
  induction Hv as [|x v Hx _ IH]; intros off; simpl; [reflexivity|].
  subst x. destruct (Z.eqb_spec c k); [congruence | apply IH].
Qed.

Lemma zip_with_Forall2 {A B C : Type} (f : A -> B -> C)
  (P : A -> Prop) (Q : B -> Prop) (R : C -> Prop) (l1 : list A) (l2 : list B) :
  (forall a b, P a -> Q b -> R (f a b)) ->
  Forall P l1 -> Forall Q l2 -> Forall R (zip_with f l1 l2).
Proof.
  intros Hf H1. revert l2.
  induction H1 as [|a l1 Ha _ IH]; intros l2 H2; [constructor|].
  destruct H2 as [|b l2 Hb H2]; [constructor|].
  unfold zip_with; simpl. constructor; [auto | apply IH; assumption].
Qed.

Lemma fold_zip_with_Forall {A : Type} (f : A -> A -> A) (P : A -> Prop)
  (rs : list (list A)) (r : list A) :
  (forall a b, P a -> P b -> P (f a b)) ->
  Forall P r -> Forall (Forall P) rs -> Forall P (fold_left (zip_with f) rs r).
Proof.
  intros Hf Hr Hrs. revert r Hr.
  induction Hrs as [|r' rs Hr' _ IH]; intros r Hr; simpl; [assumption|].
  apply IH. apply (zip_with_Forall2 f P P P); assumption.
Qed.

Lemma diff_zero (v : list Z) :
  Forall (fun x => x = 0) v -> Forall (fun x => x = 0) (diff v).
Proof.
  intros H. unfold diff.
  apply (zip_with_Forall2 _ (fun x => x = 0) (fun x => x = 0)).
  - intros a b -> ->. reflexivity.
  - assumption.
  - destruct H; [constructor | assumption].
Qed.

Lemma where_gt_zero (thr : Q) (sig : list Q) :
  Forall (fun z => (z <= thr)%Q) sig ->
  Forall (fun x => x = 0) (where_gt thr sig).
Proof.
  intros H. unfold where_gt. induction H as [|z sig Hz _ IH]; simpl.
  - constructor.
  - constructor; [|exact IH].
    unfold Qgtb. apply Qltb_ge in Hz. rewrite Hz. reflexivity.
Qed.

(** Without a sample above the low threshold there is no rising edge. *)
Lemma ripple_edges_quiet (inp : ripple_input) (se : list Z * list Z) :
  Forall (Forall (fun z => (z <= lowthreshold inp)%Q)) (zscsignal inp) ->
  Ripple.edges inp = OK se -> fst se = [].
Proof.
  intros Hq He. unfold Ripple.edges in He.
  apply bind_OK in He as (counts & Hc & He). injection He as <-. simpl.
  apply where_eq_from_const with (c := 0); [discriminate|].
  apply diff_zero.
  assert (Hz : Forall (fun x => x = 0) counts).
  { unfold reduce_axis0 in Hc.
    destruct (zscsignal inp) as [|ch chs]; simpl in Hc; [discriminate|].
    injection Hc as <-.
    inversion Hq as [|? ? Hch Hchs]; subst.
    apply (fold_zip_with_Forall Z.add (fun x => x = 0)).
    - intros a b -> ->. reflexivity.
    - apply where_gt_zero. assumption.
    - apply Forall_map.
      eapply Forall_impl; [|exact Hchs].
      intros sig. apply where_gt_zero. }
  clear Hc. induction Hz as [|c counts -> _ IH]; simpl; constructor; auto.
Qed.

(** C8 (the code departs from the claim): when no sample of any channel
    exceeds [lowthreshold], [Ripple.detect] does not return an empty
    table: indexing the empty vector of rising edges raises
    [IndexError]. *)
Theorem ripple_detect_quiet_raises (inp : ripple_input) :
  zscsignal inp <> [] ->
  Forall (Forall (fun z => (z <= lowthreshold inp)%Q)) (zscsignal inp) ->
  Ripple.detect inp = Raise IndexError.
Proof.
  intros Hne Hq.
  unfold Ripple.detect, Ripple.frame, Ripple.thirdPass.
  destruct (reduce_axis0 Qmax (zscsignal inp)) as [maxPower|e] eqn:Hmax.
  2:{ unfold reduce_axis0 in Hmax.
      destruct (zscsignal inp); [congruence | discriminate]. }
  simpl. unfold Ripple.secondPass, Ripple.firstPass.
  destruct (Ripple.edges inp) as [se|e] eqn:He.
  2:{ unfold Ripple.edges in He.
      destruct (reduce_axis0 Z.add _) eqn:Hc in He; [discriminate|].
      unfold reduce_axis0 in Hc.
      destruct (zscsignal inp); [congruence | discriminate]. }
  pose proof (ripple_edges_quiet inp se Hq He) as Hs.
  simpl. unfold first_pass. rewrite Hs. reflexivity.
Qed.

(** The same exit is taken by the spindle detector; and a recording
    whose runs all stay below the high threshold raises too, on the
    empty [thirdPass]; only when the duration filters reject the last
    runs an empty table is returned. *)
Example spindle_detect_quiet_raises :
  Spindle.detect (mkSpindleInput [0; 0; 0; 0]%Q 1250 [(0, 1)%Q])
  = Raise IndexError.
Proof. reflexivity. Qed.

Example ripple_detect_weak_raises :
  Ripple.detect (mkRippleInput [[0; 2; 2; 0]%Q] [0; 0; 0; 0]%Q
                               1250 1 5 0.05 0.45 0.05)
  = Raise AxisError.
Proof. reflexivity. Qed.

Example ripple_detect_short_returns_empty :
  Ripple.detect (mkRippleInput [[0; 6; 6; 0]%Q] [0; 0; 0; 0]%Q
                               1250 1 5 0.05 0.45 0.05)
  = OK [].
Proof. reflexivity. Qed.

Lemma ripple_detect_quiet_raises_witness :
  Ripple.detect (mkRippleInput [[0.5; 0.5; 0.5; 0.5; -2]%Q]
                               [0.3; 0.1; 0.2; 0.1; 0.4]%Q
                               1250 1 5 0.05 0.45 0.05)
  = Raise IndexError.
Proof.
  apply ripple_detect_quiet_raises; simpl.
  - discriminate.
  - repeat constructor; discriminate.
Defined.

(** *** Edges of a binary mask take turns *)

Lemma alternating_weaken (b : bool) (lo lo' : Z) (ss ts : list Z) :
  lo' <= lo -> alternating b lo ss ts -> alternating b lo' ss ts.
Proof.
  intros Hle H. destruct H; constructor; try assumption; lia.
Qed.

Lemma diff_cons2 (x y : Z) (v : list Z) :
  diff (x :: y :: v) = (y - x) :: diff (y :: v).
Proof. reflexivity. Qed.

Lemma diff_alternating (v : list Z) :
  forall x off, Forall binary (x :: v) ->
    alternating (x =? 0) off
                (where_eq_from 1 off (diff (x :: v)))
                (where_eq_from (-1) off (diff (x :: v))).
Proof.
  induction v as [|y v IH]; intros x off Hb.
  - apply alt_nil.
  - rewrite diff_cons2.
    inversion Hb as [|? ? Hx Hyv]; subst.
    pose proof (IH y (off + 1) Hyv) as IHy.
    inversion Hyv as [|? ? Hy _]; subst.
    destruct Hx as [-> | ->], Hy as [-> | ->]; simpl in IHy |- *.
    + apply alternating_weaken with (lo := off + 1); [lia | exact IHy].
    + apply alt_rise; [lia | exact IHy].
    + apply alt_fall; [lia | exact IHy].
    + apply alternating_weaken with (lo := off + 1); [lia | exact IHy].
Qed.

Lemma mask_edges_alternating (mask : list Z) :
  Forall binary mask ->
  exists b,
    alternating b 0 (where_eq 1 (diff mask)) (where_eq (-1) (diff mask)).
Proof.
  intros Hb. destruct mask as [|x v].
  - exists true. apply alt_nil.
  - exists (x =? 0). apply diff_alternating. exact Hb.
Qed.

(** *** The first pass pairs the edges into a chain of runs *)

Lemma run_chain_weaken (lo lo' : Z) (l : list run) :
  lo' <= lo -> run_chain lo l -> run_chain lo' l.
Proof.
  intros Hle H. destruct H; constructor; try assumption; lia.
Qed.

Lemma last_item_cons {A : Type} (x y : A) (l : list A) :
  last_item (x :: y :: l) = last_item (y :: l).
Proof. reflexivity. Qed.

Lemma trim_last_chain (starts : list Z) :
  forall stops lo sl tl,
    alternating true lo starts stops ->
    last_item starts = OK sl -> last_item stops = OK tl ->
    let starts' := if sl >? tl then removelast starts else starts in
    List.length starts' = List.length stops /\
    run_chain lo (combine starts' stops).
Proof.
  induction starts as [|s ss IH]; intros stops lo sl tl Halt Hsl Htl.
  - discriminate.
  - inversion Halt as [| ? ? ? ? Hlo Hf |]; subst.
    inversion Hf as [| | ? t ? ts' Hst Ht]; subst; [discriminate|].
    inversion Ht as [| ? s2 ss' ? Hts2 Hf2 |]; subst.
    + (* one start, one stop *)
      injection Hsl as <-. injection Htl as <-.
      replace (s >? t) with false by lia. simpl.
      split; [reflexivity|]. apply chain_cons; [lia | lia | apply chain_nil].
    + destruct ts' as [|t2 ts''].
      * (* the last start has no stop *)
        inversion Hf2; subst.
        injection Hsl as <-. injection Htl as <-.
        replace (s2 >? t) with true by lia. simpl.
        split; [reflexivity|]. apply chain_cons; [lia | lia | apply chain_nil].
      * rewrite last_item_cons in Hsl, Htl.
        destruct (IH (t2 :: ts'') (t + 1) sl tl Ht Hsl Htl) as [Hlen Hch].
        destruct (sl >? tl).
        -- change (removelast (s :: s2 :: ss'))
             with (s :: removelast (s2 :: ss')).
           simpl in Hlen |- *. split; [lia|].
           apply chain_cons; [lia | lia | exact Hch].
        -- simpl in Hlen |- *. split; [lia|].
           apply chain_cons; [lia | lia | exact Hch].
Qed.

Lemma first_pass_chain (b : bool) (lo : Z) (starts stops : list Z)
  (fp : list run) :
  alternating b lo starts stops ->
  first_pass starts stops = OK fp -> run_chain lo fp.
Proof.
  intros Halt Hfp. unfold first_pass in Hfp.
  destruct starts as [|s ss]; [discriminate|].
  destruct stops as [|t ts]; [discriminate|].
  cbn [Py.bind first tl] in Hfp.
  assert (Hcore : exists stops',
            (if s >? t then ts else t :: ts) = stops' /\
            alternating true lo (s :: ss) stops').
  { inversion Halt as [| ? ? ? ? Hlo Hf | ? ? ? ? Hlo Ht]; subst.
    - inversion Hf as [| | ? ? ? ? Hst Ht']; subst.
      replace (s >? t) with false by lia. eexists; split; [reflexivity|].
      exact Halt.
    - inversion Ht as [| ? ? ? ? Hts Hf' |]; subst.
      replace (s >? t) with true by lia. eexists; split; [reflexivity|].
      apply alternating_weaken with (lo := t + 1); [lia | exact Ht]. }
  destruct Hcore as (stops' & Heq & Halt'). rewrite Heq in Hfp. clear Heq.
  apply bind_OK in Hfp as (sl & Hsl & Hfp).
  apply bind_OK in Hfp as (tl_ & Htl & Hfp).
  destruct (trim_last_chain _ _ _ _ _ Halt' Hsl Htl) as [Hlen Hch].
  cbv zeta in Hlen, Hch.
  apply Nat.eqb_eq in Hlen. rewrite Hlen in Hfp.
  injection Hfp as <-. exact Hch.
Qed.

(** *** The merge pass *)

Lemma merge_loop_head (g : Q) (rest : list run) :
  forall r, exists e l, merge_loop g r rest = (fst r, e) :: l.
Proof.
  induction rest as [|r' rest IH]; intros [s e]; simpl.
  - eauto.
  - destruct (Qltb _ g).
    + destruct (IH (s, snd r')) as (e' & l & ->). simpl. eauto.
    + eauto.
Qed.

Lemma merge_loop_gap (g : Q) (rest : list run) :
  forall r, merge_invariant g (merge_loop g r rest).
Proof.
  unfold merge_invariant.
  induction rest as [|r' rest IH]; intros r; simpl.
  - repeat constructor.
  - destruct (Qltb _ g) eqn:E.
    + apply IH.
    + constructor; [apply IH|].
      destruct (merge_loop_head g rest r') as (e' & l & ->).
      constructor. unfold gap_ok. simpl. apply Qltb_ge. exact E.
Qed.

Lemma merge_loop_chain (g : Q) (rest : list run) :
  forall s e lo,
    run_chain lo ((s, e) :: rest) -> run_chain lo (merge_loop g (s, e) rest).
Proof.
  induction rest as [|[s' e'] rest IH]; intros s e lo Hch; simpl.
  - exact Hch.
  - inversion Hch as [| ? ? ? ? Hlo Hse Hrest]; subst.
    inversion Hrest as [| ? ? ? ? Hes Hse' Hrest']; subst.
    destruct (Qltb _ g).
    + apply IH. apply chain_cons; [lia | lia | exact Hrest'].
    + apply chain_cons; [lia | lia | apply IH; exact Hrest].
Qed.

(** *** Later passes only delete runs *)

Lemma subseq_refl {A : Type} (l : list A) : subseq l l.
Proof. induction l; constructor; assumption. Qed.

Lemma subseq_trans {A : Type} (l1 l2 l3 : list A) :
  subseq l1 l2 -> subseq l2 l3 -> subseq l1 l3.
Proof.
  intros H12 H23. revert l1 H12.
  induction H23 as [| x l2 l3 _ IH | x l2 l3 _ IH]; intros l1 H12.
  - exact H12.
  - apply subseq_skip. apply IH. exact H12.
  - inversion H12; subst.
    + apply subseq_skip. apply IH. assumption.
    + apply subseq_keep. apply IH. assumption.
Qed.

Lemma subseq_filter {A : Type} (p : A -> bool) (l : list A) :
  subseq (filter p l) l.
Proof.
  induction l as [|x l IH]; simpl; [constructor|].
  destruct (p x); constructor; exact IH.
Qed.

Lemma subseq_map {A B : Type} (f : A -> B) (l1 l2 : list A) :
  subseq l1 l2 -> subseq (map f l1) (map f l2).
Proof. induction 1; simpl; constructor; assumption. Qed.

Lemma subseq_Forall {A : Type} (P : A -> Prop) (l1 l2 : list A) :
  subseq l1 l2 -> Forall P l2 -> Forall P l1.
Proof.
  induction 1; intros H2; [constructor | |]; inversion H2; subst; auto.
Qed.

Lemma subseq_StronglySorted {A : Type} (R : A -> A -> Prop) (l1 l2 : list A) :
  subseq l1 l2 -> StronglySorted R l2 -> StronglySorted R l1.
Proof.
  induction 1 as [| x l1 l2 Hs IH | x l1 l2 Hs IH]; intros H2.
  - constructor.
  - apply StronglySorted_inv in H2 as [H2 _]. auto.
  - apply StronglySorted_inv in H2 as [H2 Hx].
    constructor; [auto | eapply subseq_Forall; eassumption].
Qed.

Lemma run_chain_lower (lo : Z) (l : list run) :
  run_chain lo l -> Forall (fun r => lo <= fst r) l.
Proof.
  induction 1 as [| lo s e rest Hlo Hse _ IH]; constructor; [exact Hlo|].
  eapply Forall_impl; [|exact IH]. simpl. intros r Hr. lia.
Qed.

Lemma run_chain_sorted (lo : Z) (l : list run) :
  run_chain lo l ->
  Forall (fun r => fst r < snd r) l /\
  StronglySorted (fun a b => snd a < fst b) l.
Proof.
  induction 1 as [| lo s e rest Hlo Hse Hrest [IHf IHs]]; split;
    constructor; try assumption.
  apply run_chain_lower in Hrest.
  eapply Forall_impl; [|exact Hrest]. simpl. intros r Hr. lia.
Qed.

Lemma ripple_peak_rows_subseq (inp : ripple_input) (maxPower : list Q)
  (sp : list run) :
  forall rows,
    map_result (Ripple.peak_row inp maxPower) sp = OK rows ->
    subseq (map run4 (concat rows)) sp.
Proof.
  induction sp as [|r sp IH]; simpl; intros rows H.
  - injection H as <-. constructor.
  - apply bind_OK in H as (row & Hrow & H).
    apply bind_OK in H as (rows' & Hrows & H).
    injection H as <-. simpl. rewrite map_app.
    unfold Ripple.peak_row in Hrow.
    apply bind_OK in Hrow as (m & _ & Hrow).
    destruct (Qgtb (fst m) (highthreshold inp)).
    + apply bind_OK in Hrow as (sw & _ & Hrow). injection Hrow as <-.
      simpl. apply subseq_keep. auto.
    + injection Hrow as <-. simpl. apply subseq_skip. auto.
Qed.

(** What [Ripple.detect] emits: runs of the second pass, some of them
    deleted, with their time stamps divided by the sampling rate and a
    duration within the two bounds. *)
Lemma ripple_detect_runs (inp : ripple_input) (evs : list event) :
  Ripple.detect inp = OK evs ->
  exists sp runs,
    Ripple.secondPass inp = OK sp /\ subseq runs sp /\
    Forall2 (fun e r =>
               start e = (inject_Z (fst r) / SampFreq inp)%Q /\
               end_ e = (inject_Z (snd r) / SampFreq inp)%Q /\
               duration e = (inject_Z (snd r - fst r) / SampFreq inp)%Q)
            evs runs /\
    Forall (fun e => (minDuration inp <= duration e)%Q /\
                     (duration e <= maxDuration inp)%Q) evs.
Proof.
  unfold Ripple.detect. intros H.
  apply bind_OK in H as (rows & Hrows & H). injection H as <-.
  unfold Ripple.frame in Hrows.
  apply bind_OK in Hrows as (tp & Htp & Hrows).
  unfold Ripple.thirdPass in Htp.
  apply bind_OK in Htp as (maxPower & _ & Htp).
  apply bind_OK in Htp as (sp & Hsp & Htp).
  apply bind_OK in Htp as (rows0 & Hrows0 & Htp). injection Htp as <-.
  apply ripple_peak_rows_subseq in Hrows0.
  set (tp := concat rows0) in *.
  assert (Hr : rows = map (fun row =>
                match row with
                | (r, pw, pt, sw) =>
                    (r, pw, pt, sw, (inject_Z (snd r - fst r) / SampFreq inp)%Q)
                end) tp).
  { destruct tp; [discriminate | injection Hrows as <-; reflexivity]. }
  clear Hrows.
  set (kept := filter (fun row => Qle_bool (snd row) (maxDuration inp))
                 (filter (fun row => Qgeb (snd row) (minDuration inp)) rows)).
  exists sp, (map run5 kept). split; [exact Hsp|].
  assert (Hall : Forall (fun row =>
                   snd row = (inject_Z (snd (run5 row) - fst (run5 row))
                              / SampFreq inp)%Q) rows).
  { subst rows. apply Forall_map. apply Forall_forall.
    intros [[[r pw] pt] sw] _. reflexivity. }
  assert (Hkept : subseq kept rows).
  { eapply subseq_trans; apply subseq_filter. }
  split; [|split].
  - apply subseq_trans with (l2 := map run5 rows).
    + apply subseq_map. exact Hkept.
    + replace (map run5 rows) with (map run4 tp); [exact Hrows0|].
      subst rows. rewrite map_map. apply map_ext.
      intros [[[r pw] pt] sw]. reflexivity.
  - pose proof (subseq_Forall _ _ _ Hkept Hall) as Hk.
    clear -Hk. induction Hk as [|row kept Hrow _ IH]; simpl; constructor.
    + destruct row as [[[[r pw] pt] sw] d]. simpl in Hrow |- *. auto.
    + exact IH.
  - apply Forall_map. apply Forall_forall. intros row Hin.
    apply filter_In in Hin as [Hin Hmax].
    apply filter_In in Hin as [_ Hmin].
    destruct row as [[[[r pw] pt] sw] d]. simpl in *.
    split; apply Qle_bool_iff; assumption.
Qed.

Lemma ripple_first_pass_chain (inp : ripple_input) (fp : list run) :
  Ripple.firstPass inp = OK fp -> run_chain 0 fp.
Proof.
  unfold Ripple.firstPass, Ripple.edges. intros H.
  apply bind_OK in H as (se & Hse & H).
  apply bind_OK in Hse as (counts & _ & Hse). injection Hse as <-.
  simpl in H.
  destruct (mask_edges_alternating
              (map (fun c => if c >? 0 then 1 else 0) counts)) as [b Hb].
  - apply Forall_map. apply Forall_forall. intros c _.
    destruct (c >? 0); [right | left]; reflexivity.
  - eapply first_pass_chain; eassumption.
Qed.

Lemma second_pass_chain (g : Q) (fp sp : list run) :
  run_chain 0 fp -> second_pass g fp = OK sp -> run_chain 0 sp.
Proof.
  intros Hch H. unfold second_pass in H.
  destruct fp as [|[s e] rest]; [discriminate|].
  simpl in H. injection H as <-.
  apply merge_loop_chain. exact Hch.
Qed.

Lemma second_pass_gap (g : Q) (fp sp : list run) :
  second_pass g fp = OK sp -> merge_invariant g sp.
Proof.
  intros H. unfold second_pass in H.
  destruct fp as [|r rest]; [discriminate|].
  simpl in H. injection H as <-. apply merge_loop_gap.
Qed.

Lemma Qdiv_lt_pos (x y : Z) (f : Q) :
  (0 < f)%Q -> x < y -> (inject_Z x / f < inject_Z y / f)%Q.
Proof.
  intros Hf Hxy. unfold Qdiv.
  apply Qmult_lt_compat_r; [apply Qinv_lt_0_compat; exact Hf|].
  rewrite <- Zlt_Qlt. exact Hxy.
Qed.

Lemma events_time_ordered (f : Q) (evs : list event) (runs : list run) :
  (0 < f)%Q ->
  Forall2 (fun e r => start e = (inject_Z (fst r) / f)%Q /\
                      end_ e = (inject_Z (snd r) / f)%Q) evs runs ->
  Forall (fun r => fst r < snd r) runs ->
  StronglySorted (fun a b => snd a < fst b) runs ->
  time_ordered evs.
Proof.
  intros Hf H2. unfold time_ordered.
  induction H2 as [|e r evs runs [Hs He] H2 IH]; intros Hlt Hss.
  - split; constructor.
  - inversion Hlt as [|? ? Hr Hlt']; subst.
    apply StronglySorted_inv in Hss as [Hss Hall].
    destruct (IH Hlt' Hss) as [IH1 IH2].
    split; constructor; try assumption.
    + rewrite Hs, He. apply Qdiv_lt_pos; assumption.
    + clear -Hf He H2 Hall.
      induction H2 as [|e' r' evs runs [Hs' _] _ IH]; constructor.
      * inversion Hall; subst. rewrite He, Hs'.
        apply Qdiv_lt_pos; assumption.
      * apply IH. inversion Hall; assumption.
Qed.

Lemma merge_loop_step (g : Q) (ripple r : run) (rest : list run) :
  ((inject_Z (fst r - snd ripple) < g)%Q ->
   merge_loop g ripple (r :: rest) = merge_loop g (fst ripple, snd r) rest) /\
  ((g <= inject_Z (fst r - snd ripple))%Q ->
   merge_loop g ripple (r :: rest) = ripple :: merge_loop g r rest).
Proof.
  split; intros H; simpl.
  - apply Qltb_lt in H. rewrite H. reflexivity.
  - apply Qltb_ge in H. rewrite H. reflexivity.
Qed.

(** C4: the merge pass of [Ripple.detect] joins a run to the run being
    grown exactly when it starts less than [mergeDistance * SampFreq]
    samples after that run's end; after the pass every run starts at
    least that many samples after the end of the run before it; and, the
    later passes only deleting runs, the emitted events are in time order
    and do not overlap. *)
Theorem ripple_merge_invariant (inp : ripple_input) :
  let min_gap := (mergeDistance inp * SampFreq inp)%Q in
  (forall ripple r rest,
      ((inject_Z (fst r - snd ripple) < min_gap)%Q ->
       merge_loop min_gap ripple (r :: rest)
       = merge_loop min_gap (fst ripple, snd r) rest) /\
      ((min_gap <= inject_Z (fst r - snd ripple))%Q ->
       merge_loop min_gap ripple (r :: rest)
       = ripple :: merge_loop min_gap r rest)) /\
  (forall sp, Ripple.secondPass inp = OK sp -> merge_invariant min_gap sp) /\
  (forall evs, (0 < SampFreq inp)%Q -> Ripple.detect inp = OK evs ->
               time_ordered evs).
Proof.
  intros min_gap. split; [intros ripple r rest; apply merge_loop_step|].
  split.
  - intros sp H. unfold Ripple.secondPass in H.
    apply bind_OK in H as (fp & _ & H).
    eapply second_pass_gap. exact H.
  - intros evs Hf H.
    destruct (ripple_detect_runs inp evs H)
      as (sp & runs & Hsp & Hsub & H2 & _).
    unfold Ripple.secondPass in Hsp.
    apply bind_OK in Hsp as (fp & Hfp & Hsp).
    apply ripple_first_pass_chain in Hfp.
    pose proof (second_pass_chain _ _ _ Hfp Hsp) as Hch.
    apply run_chain_sorted in Hch as [Hlt Hss].
    apply (events_time_ordered (SampFreq inp) evs runs Hf).
    + eapply Forall2_impl; [|exact H2]. simpl. tauto.
    + eapply subseq_Forall; eassumption.
    + eapply subseq_StronglySorted; eassumption.
Qed.

Lemma ripple_merge_invariant_witness :
  merge_invariant (0.2 * 10) [(1, 8); (13, 16); (18, 19)] /\
  time_ordered [mkEvent 0.1 0.8 6 0.3 0.2 0.7; mkEvent 1.3 1.6 6 1.4 1.4 0.3].
Proof.
  destruct (ripple_merge_invariant merge_example) as (_ & Hgap & Hord).
  split.
  - apply (Hgap [(1, 8); (13, 16); (18, 19)]). vm_compute. reflexivity.
  - apply Hord; vm_compute; reflexivity.
Defined.

(** *** Durations *)

Lemma inject_Z_sub (x y : Z) : inject_Z (x - y) = (inject_Z x - inject_Z y)%Q.
Proof.
  unfold Z.sub, Qminus. rewrite inject_Z_plus, inject_Z_opp. reflexivity.
Qed.

Lemma Qdiv_sub (x y : Z) (f : Q) :
  (0 < f)%Q ->
  (inject_Z (y - x) / f == inject_Z y / f - inject_Z x / f)%Q.
Proof.
  intros Hf. rewrite inject_Z_sub. field.
  intros H0. rewrite H0 in Hf. discriminate.
Qed.

(** *** The fifth pass: deleting the rows listed in [outside_spindles] *)

Lemma combine_seq_unique {A : Type} (l : list A) :
  forall off i x y,
    In (i, x) (combine (seq off (List.length l)) l) ->
    In (i, y) (combine (seq off (List.length l)) l) -> x = y.
Proof.
  induction l as [|a l IH]; intros off i x y Hx Hy; simpl in *;
    [contradiction|].
  destruct Hx as [Hx|Hx], Hy as [Hy|Hy].
  - congruence.
  - injection Hx as <- <-. apply in_combine_l in Hy. apply in_seq in Hy. lia.
  - injection Hy as <- <-. apply in_combine_l in Hx. apply in_seq in Hx. lia.
  - exact (IH _ _ _ _ Hx Hy).
Qed.

Lemma marked_rows {A : Type} (keep : A -> bool) (l : list A) (i : nat)
  (x : A) :
  In (i, x) (combine (seq 0 (List.length l)) l) ->
  existsb (Nat.eqb i)
          (map fst (filter (fun ir => negb (keep (snd ir)))
                           (combine (seq 0 (List.length l)) l)))
  = negb (keep x).
Proof.
  intros Hin. destruct (keep x) eqn:E; simpl.
  - apply not_true_iff_false. intros H.
    apply existsb_exists in H as (j & Hj & Heq).
    apply Nat.eqb_eq in Heq. subst j.
    apply in_map_iff in Hj as ([i' y] & Hfst & Hf). simpl in Hfst. subst i'.
    apply filter_In in Hf as [Hy Hk]. simpl in Hk.
    rewrite (combine_seq_unique _ _ _ _ _ Hin Hy) in E.
    rewrite E in Hk. discriminate.
  - apply existsb_exists. exists i. split; [|apply Nat.eqb_refl].
    apply in_map_iff. exists (i, x). split; [reflexivity|].
    apply filter_In. split; [exact Hin|]. simpl. rewrite E. reflexivity.
Qed.

Lemma delete_marked {A : Type} (keep : A -> bool) (obj : list nat)
  (l : list A) :
  forall off,
    (forall i x, In (i, x) (combine (seq off (List.length l)) l) ->
                 existsb (Nat.eqb i) obj = negb (keep x)) ->
    map snd (filter (fun ir => negb (existsb (Nat.eqb (fst ir)) obj))
                    (combine (seq off (List.length l)) l))
    = filter keep l.
Proof.
  induction l as [|a l IH]; intros off H; simpl; [reflexivity|].
  rewrite (H off a) by (left; reflexivity). rewrite negb_involutive.
  assert (Hrest : map snd
                    (filter (fun ir => negb (existsb (Nat.eqb (fst ir)) obj))
                            (combine (seq (S off) (List.length l)) l))
                  = filter keep l).
  { apply IH. intros i x Hin. apply H. right. exact Hin. }
  destruct (keep a); simpl; rewrite Hrest; reflexivity.
Qed.

Lemma delete_rows_OK {A : Type} (obj : list nat) (arr kept : list A) :
  Spindle.delete_rows obj arr = OK kept ->
  obj <> [] /\
  kept = map snd (filter (fun ir => negb (existsb (Nat.eqb (fst ir)) obj))
                         (combine (seq 0 (List.length arr)) arr)).
Proof.
  destruct obj as [|o os]; intros H; [discriminate|].
  split; [discriminate|]. injection H as <-. reflexivity.
Qed.

(** The fifth pass returns only when some spindle starts outside nrem,
    and then keeps the spindles that start in nrem. *)
Lemma fifthPass_rows (inp : spindle_input) (rows5 : list (run * Q * Z * Q)) :
  Spindle.fifthPass inp = OK rows5 ->
  exists rows4,
    Spindle.fourthPass inp = OK rows4 /\
    Spindle.outside_spindles inp rows4 <> [] /\
    rows5 = filter (fun row => Spindle.in_frames (fst (fst (fst (fst row))))
                                                 (Spindle.reqframes inp))
                   rows4.
Proof.
  intros H. unfold Spindle.fifthPass in H.
  apply bind_OK in H as (rows4 & H4 & H).
  exists rows4. split; [exact H4|].
  apply delete_rows_OK in H as [Hne ->].
  split; [exact Hne|].
  apply (delete_marked
           (fun row => Spindle.in_frames (fst (fst (fst (fst row))))
                                         (Spindle.reqframes inp))).
  intros i x Hin. unfold Spindle.outside_spindles.
  apply (marked_rows
           (fun row => Spindle.in_frames (fst (fst (fst (fst row))))
                                         (Spindle.reqframes inp))).
  exact Hin.
Qed.

Lemma spindle_detect_durations (inp : spindle_input) (sp : spindles) :
  (0 < sampleRate inp)%Q ->
  Spindle.detect inp = OK sp ->
  Forall (fun t => (Spindle.minSpindleDuration <= Spindle.duration_ms t)%Q)
         (times sp).
Proof.
  intros Hf H. unfold Spindle.detect in H.
  apply bind_OK in H as (rows5 & H5 & H). injection H as <-. simpl.
  apply fifthPass_rows in H5 as (rows4 & H4 & _ & ->).
  unfold Spindle.fourthPass in H4.
  apply bind_OK in H4 as (rowsd & Hd & H4). injection H4 as <-.
  unfold Spindle.with_duration in Hd.
  apply bind_OK in Hd as (tp & _ & Hd).
  assert (Hr : rowsd = map (fun row =>
                 (row, (inject_Z (snd (fst (fst row)) - fst (fst (fst row)))
                        / sampleRate inp * 1000)%Q)) tp).
  { destruct tp; [discriminate | injection Hd as <-; reflexivity]. }
  clear Hd. subst rowsd.
  apply Forall_map. apply Forall_forall. intros row Hin.
  apply filter_In in Hin as [Hin _].
  apply filter_In in Hin as [Hin Hdur].
  apply in_map_iff in Hin as (row3 & <- & _).
  simpl in Hdur |- *.
  apply negb_true_iff, Qltb_ge in Hdur.
  unfold Spindle.duration_ms. simpl.
  rewrite <- (Qdiv_sub _ _ _ Hf). exact Hdur.
Qed.

(** C5, as the code has it: a ripple emitted by [Ripple.detect] lasts
    between [minDuration] and [maxDuration], its duration being its run
    length over the sampling rate, that is its end minus its start; a
    spindle emitted by [Spindle.detect] lasts at least
    [minSpindleDuration] milliseconds, and nothing bounds it from
    above. *)
Theorem detect_duration_bounds :
  (forall inp evs,
      (0 < SampFreq inp)%Q -> Ripple.detect inp = OK evs ->
      Forall (fun e => (minDuration inp <= duration e)%Q /\
                       (duration e <= maxDuration inp)%Q /\
                       (duration e == end_ e - start e)%Q) evs) /\
  (forall inp sp,
      (0 < sampleRate inp)%Q -> Spindle.detect inp = OK sp ->
      Forall (fun t => (Spindle.minSpindleDuration <= Spindle.duration_ms t)%Q)
             (times sp)).
Proof.
  split.
  - intros inp evs Hf H.
    destruct (ripple_detect_runs inp evs H) as (sp & runs & _ & _ & H2 & Hb).
    clear H. induction H2 as [|e r evs runs (Hs & He & Hd) _ IH].
    + constructor.
    + inversion Hb as [|? ? [Hmin Hmax] Hb']; subst.
      constructor; [|apply IH; exact Hb'].
      repeat split; try assumption.
      rewrite Hd, Hs, He. apply Qdiv_sub. exact Hf.
  - apply spindle_detect_durations.
Qed.

Lemma detect_duration_bounds_witness :
  Forall (fun e => (minDuration merge_example <= duration e)%Q /\
                   (duration e <= maxDuration merge_example)%Q /\
                   (duration e == end_ e - start e)%Q)
         [mkEvent 0.1 0.8 6 0.3 0.2 0.7; mkEvent 1.3 1.6 6 1.4 1.4 0.3] /\
  Forall (fun t => (Spindle.minSpindleDuration <= Spindle.duration_ms t)%Q)
         (times (mkSpindles
                   [(550 # 1000, 1000 # 1000); (1700 # 1000, 2200 # 1000)]%Q
                   [4; 4]%Q [551 # 1000; 1701 # 1000]%Q)).
Proof.
  destruct detect_duration_bounds as [Hr Hs]. split.
  - apply (Hr merge_example); vm_compute; reflexivity.
  - apply (Hs sleep_example); vm_compute; reflexivity.
Defined.

(** *** A spindle of any length is emitted *)

Lemma Qsum_app (l1 l2 : list Q) :
  (Qsum (l1 ++ l2) == Qsum l1 + Qsum l2)%Q.
Proof.
  induction l1 as [|x l1 IH]; simpl.
  - ring.
  - rewrite IH. ring.
Qed.

Lemma Qsum_repeat (v : Q) (k : nat) :
  (Qsum (repeat v k) == inject_Z (Z.of_nat k) * v)%Q.
Proof.
  induction k as [|k IH].
  - simpl. ring.
  - change (repeat v (S k)) with (v :: repeat v k).
    change (Qsum (v :: repeat v k)) with (v + Qsum (repeat v k))%Q.
    rewrite IH, Nat2Z.inj_succ. unfold Z.succ. rewrite inject_Z_plus. ring.
Qed.

Lemma Qsum_blocks (bs : list (Q * nat)) :
  (Qsum (blocks bs)
   == Qsum (map (fun b => inject_Z (Z.of_nat (snd b)) * fst b) bs))%Q.
Proof.
  induction bs as [|[v k] bs IH]; simpl; [reflexivity|].
  rewrite Qsum_app, Qsum_repeat, IH. reflexivity.
Qed.

Lemma squares_blocks (bs : list (Q * nat)) :
  map (fun x => x * x)%Q (blocks bs)
  = blocks (map (fun b => (fst b * fst b, snd b)%Q) bs).
Proof.
  induction bs as [|[v k] bs IH]; simpl; [reflexivity|].
  rewrite map_app, map_repeat, IH. reflexivity.
Qed.

Lemma length_blocks (bs : list (Q * nat)) :
  List.length (blocks bs) = list_sum (map snd bs).
Proof.
  induction bs as [|[v k] bs IH]; simpl; [reflexivity|].
  rewrite length_app, repeat_length, IH. reflexivity.
Qed.

(** The two example signals are z-scored. *)
Lemma sleep_example_zscored : zscored (sp_zscsignal sleep_example).
Proof.
  unfold zscored, sleep_example. cbn [sp_zscsignal].
  rewrite squares_blocks, !Qsum_blocks, length_blocks.
  split; vm_compute; reflexivity.
Qed.

Lemma long_spindle_zscored (n : nat) : zscored (sp_zscsignal (long_spindle n)).
Proof.
  unfold zscored, long_spindle. cbn [sp_zscsignal].
  rewrite squares_blocks, !Qsum_blocks, length_blocks.
  unfold quiet, burst. cbn [map fst snd Qsum fold_right list_sum].
  assert (Hr : Z.of_nat (16 * (350 + n) - 126) = 5474 + 16 * Z.of_nat n)
    by lia.
  assert (Hl : Z.of_nat (1 + (350 + (125 + (n + (16 * (350 + n) - 126 + 0)))))
               = 5950 + 17 * Z.of_nat n) by lia.
  rewrite Hr, Hl. clear Hr Hl.
  rewrite !inject_Z_plus, !inject_Z_mult.
  set (q := inject_Z (Z.of_nat n)).
  change (inject_Z (Z.of_nat 1)) with 1%Q.
  change (inject_Z (Z.of_nat 350)) with 350%Q.
  change (inject_Z (Z.of_nat 125)) with 125%Q.
  change (inject_Z 5474) with 5474%Q.
  change (inject_Z 5950) with 5950%Q.
  change (inject_Z 16) with 16%Q.
  change (inject_Z 17) with 17%Q.
  split; ring.
Qed.

Lemma diff_repeat (x : Z) (k : nat) (l : list Z) :
  diff (x :: repeat x k ++ l) = repeat 0 k ++ diff (x :: l).
Proof.
  induction k as [|k IH]; [reflexivity|].
  change (repeat x (S k) ++ l) with (x :: repeat x k ++ l).
  rewrite diff_cons2, IH, Z.sub_diag. reflexivity.
Qed.

Lemma diff_flat (x : Z) (k : nat) : diff (x :: repeat x k) = repeat 0 k.
Proof.
  rewrite <- (app_nil_r (repeat x k)), diff_repeat.
  change (diff [x]) with (@nil Z). rewrite !app_nil_r. reflexivity.
Qed.

Lemma where_eq_skip (k off : Z) (j : nat) (l : list Z) :
  k <> 0 ->
  where_eq_from k off (repeat 0 j ++ l)
  = where_eq_from k (off + Z.of_nat j) l.
Proof.
  intros Hk. revert off. induction j as [|j IH]; intros off.
  - simpl. rewrite Z.add_0_r. reflexivity.
  - change (repeat 0 (S j) ++ l) with (0 :: repeat 0 j ++ l).
    cbn [where_eq_from].
    destruct (Z.eqb_spec 0 k) as [E|_]; [congruence|].
    rewrite IH. f_equal. lia.
Qed.

Lemma where_eq_flat (k off : Z) (j : nat) :
  k <> 0 -> where_eq_from k off (repeat 0 j) = [].
Proof.
  intros Hk. rewrite <- (app_nil_r (repeat 0 j)), where_eq_skip by exact Hk.
  reflexivity.
Qed.

(** The signal of two bursts, of [S a] and of [S c] samples, with
    [S b] quiet samples between them. *)
Lemma two_bursts_signal (a b c d : nat) :
  blocks [quiet 1; burst (S a); quiet (S b); burst (S c); quiet (S d)]
  = ((- (1 # 4)) :: repeat 4 (S a) ++ repeat (- (1 # 4)) (S b)
       ++ repeat 4 (S c) ++ repeat (- (1 # 4)) (S d))%Q.
Proof.
  unfold blocks, quiet, burst. cbn [flat_map fst snd].
  rewrite app_nil_r. reflexivity.
Qed.

Lemma two_bursts_edges (a b c d : nat) (rate : Q) (periods : list (Q * Q)) :
  Spindle.edges
    (mkSpindleInput
       (blocks [quiet 1; burst (S a); quiet (S b); burst (S c); quiet (S d)])
       rate periods)
  = ([0; Z.of_nat (S a + S b)],
     [Z.of_nat (S a); Z.of_nat (S a + S b + S c)]).
Proof.
  unfold Spindle.edges. cbn [sp_zscsignal]. rewrite two_bursts_signal.
  assert (Hmask : where_gt Spindle.lowthresholdFactor
                    ((- (1 # 4)) :: repeat 4 (S a) ++ repeat (- (1 # 4)) (S b)
                       ++ repeat 4 (S c) ++ repeat (- (1 # 4)) (S d))%Q
                  = 0 :: 1 :: repeat 1 a ++ 0 :: repeat 0 b
                      ++ 1 :: repeat 1 c ++ 0 :: repeat 0 d).
  { unfold where_gt. cbn [map]. rewrite !map_app, !map_repeat. reflexivity. }
  rewrite Hmask. clear Hmask.
  rewrite diff_cons2, diff_repeat, diff_cons2, diff_repeat, diff_cons2,
          diff_repeat, diff_cons2, diff_flat.
  change (1 - 0) with 1. change (0 - 1) with (-1).
  unfold where_eq. cbn [where_eq_from Z.eqb].
  rewrite !where_eq_skip by discriminate. cbn [where_eq_from Z.eqb].
  rewrite !where_eq_skip by discriminate. cbn [where_eq_from Z.eqb].
  rewrite !where_eq_skip by discriminate. cbn [where_eq_from Z.eqb].
  rewrite !where_eq_flat by discriminate.
  cbn [Pos.eqb]. f_equal; repeat f_equal; lia.
Qed.

Lemma first_pass_two (e1 s2 e2 : Z) :
  0 <= e1 -> s2 <= e2 ->
  first_pass [0; s2] [e1; e2] = OK [(0, e1); (s2, e2)].
Proof.
  intros H1 H2. unfold first_pass. cbn [first Py.bind].
  assert (Hle : (0 >? e1) = false)
    by (rewrite Z.gtb_ltb; apply Z.ltb_ge; exact H1).
  rewrite Hle. cbn [last_item Py.bind].
  assert (Hle2 : (s2 >? e2) = false)
    by (rewrite Z.gtb_ltb; apply Z.ltb_ge; exact H2).
  rewrite Hle2. reflexivity.
Qed.

Lemma two_bursts_secondPass (a b c d : nat) (periods : list (Q * Q)) :
  (125 <= S b)%nat ->
  Spindle.secondPass
    (mkSpindleInput
       (blocks [quiet 1; burst (S a); quiet (S b); burst (S c); quiet (S d)])
       1000 periods)
  = OK [(0, Z.of_nat (S a));
        (Z.of_nat (S a + S b), Z.of_nat (S a + S b + S c))].
Proof.
  intros Hb. unfold Spindle.secondPass, Spindle.firstPass.
  rewrite two_bursts_edges. cbn [fst snd].
  rewrite first_pass_two by lia.
  cbn [Py.bind]. unfold second_pass. cbn [first tl Py.bind merge_loop fst snd].
  assert (Hgap : Qltb (inject_Z (Z.of_nat (S a + S b) - Z.of_nat (S a)))
                      (Spindle.mergeDistance / 1000
                       * sampleRate
                           (mkSpindleInput
                              (blocks [quiet 1; burst (S a); quiet (S b);
                                       burst (S c); quiet (S d)])
                              1000 periods))
                 = false).
  { apply Qltb_ge. cbn [sampleRate].
    assert (Hq : (Spindle.mergeDistance / 1000 * 1000 == inject_Z 125)%Q)
      by reflexivity.
    rewrite Hq. rewrite <- Zle_Qle. lia. }
  rewrite Hgap. reflexivity.
Qed.

Lemma argmax_from_flat (x : Q) (besti i : Z) (m : nat) :
  argmax_from x besti i (repeat x m) = (x, besti).
Proof.
  revert i. induction m as [|m IH]; intros i; simpl; [reflexivity|].
  assert (Hx : Qltb x x = false) by (apply Qltb_ge; apply Qle_refl).
  rewrite Hx. apply IH.
Qed.

Lemma slice_middle {A : Type} (pre mid post : list A) (a b : Z) :
  a = Z.of_nat (List.length pre) ->
  b = Z.of_nat (List.length pre + List.length mid) ->
  slice (pre ++ mid ++ post) a b = mid.
Proof.
  intros -> ->. unfold slice.
  replace (Z.to_nat (Z.of_nat (List.length pre + List.length mid)
                     - Z.of_nat (List.length pre)))
    with (List.length mid) by lia.
  rewrite Nat2Z.id.
  rewrite skipn_app, skipn_all, Nat.sub_diag. cbn [app skipn].
  rewrite firstn_app, firstn_all, Nat.sub_diag, firstn_O, app_nil_r.
  reflexivity.
Qed.

(** The samples over which the peak of each burst is sought: the quiet
    sample before the burst and the burst without its last sample. *)
Lemma two_bursts_slices (a b c d : nat) :
  let v := blocks [quiet 1; burst (S a); quiet (S b); burst (S c);
                   quiet (S d)] in
  slice v 0 (Z.of_nat (S a)) = ((- (1 # 4)) :: repeat 4 a)%Q /\
  slice v (Z.of_nat (S a + S b)) (Z.of_nat (S a + S b + S c))
  = ((- (1 # 4)) :: repeat 4 c)%Q.
Proof.
  intros v. subst v. rewrite two_bursts_signal. split.
  - assert (Hv : ((- (1 # 4)) :: repeat 4 (S a) ++ repeat (- (1 # 4)) (S b)
                    ++ repeat 4 (S c) ++ repeat (- (1 # 4)) (S d))%Q
                 = [] ++ ((- (1 # 4)) :: repeat 4 a)%Q
                      ++ (4 :: repeat (- (1 # 4)) (S b) ++ repeat 4 (S c)
                            ++ repeat (- (1 # 4)) (S d))%Q).
    { cbn [app]. f_equal.
      change (repeat 4%Q (S a)) with (4%Q :: repeat 4%Q a).
      rewrite repeat_cons, <- app_assoc. reflexivity. }
    rewrite Hv. apply slice_middle.
    + reflexivity.
    + cbn [List.length]. rewrite repeat_length. lia.
  - set (pre := ((- (1 # 4)) :: repeat 4 (S a) ++ repeat (- (1 # 4)) b)%Q).
    assert (Hpre : List.length pre = (S a + S b)%nat).
    { subst pre. cbn [List.length].
      rewrite length_app, !repeat_length. lia. }
    assert (Hv : ((- (1 # 4)) :: repeat 4 (S a) ++ repeat (- (1 # 4)) (S b)
                    ++ repeat 4 (S c) ++ repeat (- (1 # 4)) (S d))%Q
                 = pre ++ ((- (1 # 4)) :: repeat 4 c)%Q
                       ++ (4 :: repeat (- (1 # 4)) (S d))%Q).
    { subst pre. cbn [app]. f_equal.
      rewrite <- !app_assoc. f_equal.
      change (repeat (- (1 # 4))%Q (S b))
        with ((- (1 # 4))%Q :: repeat (- (1 # 4))%Q b).
      rewrite repeat_cons, <- app_assoc. cbn [app]. do 2 f_equal.
      change (repeat 4%Q (S c)) with (4%Q :: repeat 4%Q c).
      rewrite repeat_cons, <- app_assoc. reflexivity. }
    rewrite Hv. apply slice_middle.
    + rewrite Hpre. reflexivity.
    + rewrite Hpre. cbn [List.length]. rewrite repeat_length. lia.
Qed.

Lemma burst_peak (k : nat) :
  max_argmax ((- (1 # 4)) :: repeat 4 (S k))%Q = OK (4%Q, 1).
Proof.
  cbn [max_argmax repeat argmax_from].
  change (Qltb (- (1 # 4)) 4) with true. cbn iota.
  rewrite argmax_from_flat. reflexivity.
Qed.

Lemma long_spindle_detect (k : nat) :
  (350 <= S (S k))%nat ->
  Spindle.detect (long_spindle (S (S k)))
  = OK (mkSpindles
          [(inject_Z 475 / 1000,
            inject_Z (Z.of_nat (475 + S (S k))) / 1000)%Q]
          [4%Q] [(inject_Z (475 + 1) / 1000)%Q]).
Proof.
  intros Hlong. unfold long_spindle.
  replace (16 * (350 + S (S k)) - 126)%nat
    with (S (16 * (350 + S (S k)) - 127)) by lia.
  set (d := (16 * (350 + S (S k)) - 127)%nat).
  change 350%nat with (S 349). change 125%nat with (S 124).
  unfold Spindle.detect, Spindle.fifthPass, Spindle.fourthPass,
         Spindle.with_duration, Spindle.thirdPass.
  rewrite two_bursts_secondPass by lia.
  cbn [Py.bind map_result]. unfold Spindle.peak_row.
  cbn [fst snd sp_zscsignal].
  destruct (two_bursts_slices 349 124 (S k) d) as [Hs1 Hs2].
  cbv zeta in Hs1, Hs2. rewrite Hs1, Hs2.
  rewrite !burst_peak. cbn [fst snd Py.bind].
  change (Qgeb 4 Spindle.highthresholdFactor) with true. cbn iota.
  cbn [Py.bind concat app map fst snd sampleRate].
  assert (Hd1 : Qltb (inject_Z (Z.of_nat (S 349) - 0) / 1000 * 1000)
                     Spindle.minSpindleDuration = false) by reflexivity.
  assert (Hd2 : Qltb (inject_Z (Z.of_nat (S 349 + S 124 + S (S k))
                                - Z.of_nat (S 349 + S 124)) / 1000 * 1000)
                     Spindle.minSpindleDuration = false).
  { apply Qltb_ge.
    assert (Hq : forall z, (inject_Z z / 1000 * 1000 == inject_Z z)%Q)
      by (intros z; field).
    rewrite Hq. change Spindle.minSpindleDuration with (inject_Z 350).
    rewrite <- Zle_Qle. lia. }
  cbn [filter fst snd]. rewrite Hd1, Hd2. cbn [negb].
  unfold Spindle.outside_spindles, Spindle.delete_rows.
  cbn [List.length seq combine filter fst snd].
  change (Spindle.in_frames 0 _) with false.
  change (Spindle.in_frames (Z.of_nat (S 349 + S 124)) _) with true.
  cbn [negb map fst snd filter existsb Nat.eqb orb combine seq List.length].
  cbn [Py.bind map fst snd]. reflexivity.
Qed.

(** C5 as stated fails for the spindle detector: whatever the maximal
    duration, [Spindle.detect] emits a longer spindle. *)
Lemma spindle_duration_unbounded :
  ~ exists max_duration : Q,
      forall inp sp,
        Spindle.detect inp = OK sp ->
        Forall (fun t =>
                  (Spindle.minSpindleDuration <= Spindle.duration_ms t)%Q /\
                  (Spindle.duration_ms t <= max_duration)%Q)
               (times sp).
Proof.
  intros [M HM].
  set (z := Z.max 350 (Qceiling M + 1)).
  assert (Hz : exists k, Z.of_nat (S (S k)) = z).
  { exists (Z.to_nat z - 2)%nat. lia. }
  destruct Hz as [k Hk].
  assert (Hlong : (350 <= S (S k))%nat) by lia.
  pose proof (HM _ _ (long_spindle_detect k Hlong)) as H.
  cbn [times] in H. apply Forall_inv in H. destruct H as [_ Hle].
  unfold Spindle.duration_ms in Hle. cbn [fst snd] in Hle.
  assert (Hq : ((inject_Z (Z.of_nat (475 + S (S k))) / 1000
                 - inject_Z 475 / 1000) * 1000
                == inject_Z (Z.of_nat (S (S k))))%Q).
  { replace (Z.of_nat (475 + S (S k))) with (475 + Z.of_nat (S (S k)))
      by lia.
    rewrite inject_Z_plus. field. }
  rewrite Hq, Hk in Hle.
  pose proof (Qle_ceiling M) as Hc.
  assert (Hlt : (inject_Z (Qceiling M) < inject_Z z)%Q).
  { rewrite <- Zlt_Qlt. lia. }
  apply (Qlt_irrefl M).
  eapply Qle_lt_trans; [exact Hc|].
  eapply Qlt_le_trans; [exact Hlt | exact Hle].
Qed.

End DetectorFacts.

(** * decoders.py *)

Section ArrayFacts.

Import Np.

Lemma nth_map_seq {A : Type} (f : nat -> A) (d : A) (n : nat) :
  forall s i, (i < n)%nat -> nth i (map f (seq s n)) d = f (s + i)%nat.
Proof.
  induction n as [|n IH]; intros s i Hi; [lia|].
  destruct i as [|i]; simpl.
  - f_equal. lia.
  - rewrite IH by lia. f_equal. lia.
Qed.

Lemma list_as_map_seq {A : Type} (d : A) (l : list A) :
  l = map (fun i => nth i l d) (seq 0 (List.length l)).
Proof.
  induction l as [|x l IH]; [reflexivity|].
  simpl. f_equal. rewrite <- seq_shift, map_map. exact IH.
Qed.

Lemma map_const_seq {A : Type} (x : A) (n s : nat) :
  map (fun _ => x) (seq s n) = repeat x n.
Proof.
  revert s. induction n as [|n IH]; intros s; simpl; [reflexivity|].
  f_equal. apply IH.
Qed.

Lemma zip_with_map_map {A B C D : Type} (f : B -> C -> D) (g : A -> B)
  (h : A -> C) (l : list A) :
  zip_with f (map g l) (map h l) = map (fun x => f (g x) (h x)) l.
Proof.
  unfold zip_with. induction l as [|x l IH]; simpl; [reflexivity|].
  f_equal. exact IH.
Qed.

Lemma set_nth_map_seq {A : Type} (h : nat -> A) (x : A) (n : nat) :
  forall s k,
    set_nth k x (map h (seq s n))
    = map (fun c => if (c =? s + k)%nat then x else h c) (seq s n).
Proof.
  induction n as [|n IH]; intros s k; [destruct k; reflexivity|].
  destruct k as [|k]; simpl.
  - rewrite Nat.add_0_r, Nat.eqb_refl. f_equal.
    apply map_ext_in. intros c Hc. apply in_seq in Hc.
    destruct (Nat.eqb_spec c s); [lia | reflexivity].
  - destruct (Nat.eqb_spec s (s + S k)); [lia|]. f_equal.
    rewrite IH. apply map_ext. intros c.
    replace (S s + k)%nat with (s + S k)%nat by lia. reflexivity.
Qed.

Lemma nth_zip_with {A B C : Type} (f : A -> B -> C) (da : A) (db : B) (dc : C)
  (l1 : list A) :
  forall l2 i,
    (i < List.length l1)%nat -> (i < List.length l2)%nat ->
    nth i (zip_with f l1 l2) dc = f (nth i l1 da) (nth i l2 db).
Proof.
  unfold zip_with.
  induction l1 as [|a l1 IH]; intros l2 i H1 H2; [simpl in H1; lia|].
  destruct l2 as [|b l2]; [simpl in H2; lia|].
  destruct i as [|i]; simpl; [reflexivity|].
  apply IH; simpl in *; lia.
Qed.

Lemma length_zip_with {A B C : Type} (f : A -> B -> C) (l1 : list A)
  (l2 : list B) :
  List.length (zip_with f l1 l2) = Nat.min (List.length l1) (List.length l2).
Proof.
  unfold zip_with. rewrite length_map. apply length_combine.
Qed.

(** In a well-formed array a column lists the entries of its rows. *)
Lemma column_wf {A : Type} (d : A) (m : ndarray A) (j : nat) :
  wf m -> (j < shape1 m)%nat ->
  column m j = map (fun r => nth j r d) (rows m).
Proof.
  intros [_ Hrows] Hj. unfold column.
  induction Hrows as [|r rs Hr _ IH]; simpl; [reflexivity|].
  rewrite IH. destruct (nth_error r j) as [x|] eqn:E.
  - apply (nth_error_nth _ _ d) in E. rewrite E. reflexivity.
  - apply nth_error_None in E. lia.
Qed.

Lemma column_length {A : Type} (m : ndarray A) (j : nat) :
  wf m -> (j < shape1 m)%nat -> List.length (column m j) = shape0 m.
Proof.
  intros [Hlen Hrows] Hj. rewrite <- Hlen. unfold column. clear Hlen.
  induction Hrows as [|r rs Hr _ IH]; simpl; [reflexivity|].
  rewrite length_app, IH. destruct (nth_error r j) eqn:E; [reflexivity|].
  apply nth_error_None in E. lia.
Qed.

Lemma get_column {A : Type} (d : A) (m : ndarray A) (i j : nat) :
  wf m -> (j < shape1 m)%nat -> nth i (column m j) d = get d m i j.
Proof.
  intros Hwf Hj. rewrite (column_wf d) by assumption.
  unfold get. destruct (Nat.lt_ge_cases i (List.length (rows m))) as [Hi|Hi].
  - rewrite (nth_indep _ d (nth j [] d)) by (rewrite length_map; exact Hi).
    rewrite (map_nth (fun r => nth j r d)). reflexivity.
  - rewrite (nth_overflow (map _ _)) by (rewrite length_map; exact Hi).
    rewrite (nth_overflow (rows m)) by exact Hi.
    destruct j; reflexivity.
Qed.

Lemma row_of_wf {A : Type} (m : ndarray A) (k : nat) :
  wf m -> (k < shape0 m)%nat ->
  exists r, nth_error (rows m) k = Some r /\ List.length r = shape1 m /\
            nth k (rows m) [] = r.
Proof.
  intros [Hlen Hrows] Hk.
  destruct (nth_error (rows m) k) as [r|] eqn:E.
  - exists r. split; [reflexivity|]. split.
    + rewrite Forall_forall in Hrows. apply Hrows.
      eapply nth_error_In. exact E.
    + apply nth_error_nth. exact E.
  - apply nth_error_None in E. lia.
Qed.

End ArrayFacts.

Section DecoderFacts.

Import Np Decoders DecoderSpec.
Local Open Scope R_scope.

Variable tau : R.
Variable spk : ndarray nat.
Variable rm : ndarray R.
Hypothesis spk_wf : wf spk.
Hypothesis rm_wf : wf rm.
Hypothesis enough_maps : (shape0 spk <= shape0 rm)%nat.

Lemma cell_prob_upto_0 :
  cell_prob_upto tau spk rm 0 = zeros3 (shape1 rm) (shape1 spk) (shape0 spk).
Proof.
  unfold cell_prob_upto, zeros3.
  rewrite <- (map_const_seq _ (shape1 rm) 0). apply map_ext. intros p.
  rewrite <- (map_const_seq _ (shape1 spk) 0). apply map_ext. intros t.
  rewrite <- (map_const_seq _ (shape0 spk) 0). apply map_ext. intros c.
  reflexivity.
Qed.

Lemma decoder_body_step (k : nat) :
  (k < shape0 spk)%nat ->
  decoder_body tau spk rm (cell_prob_upto tau spk rm k) k
  = OK (cell_prob_upto tau spk rm (S k)).
Proof.
  intros Hk. unfold decoder_body.
  destruct (row_of_wf spk k spk_wf Hk) as (cnt & -> & Hcnt & Hcntk).
  destruct (row_of_wf rm k rm_wf) as (frate & -> & Hfrate & Hfratek).
  { eapply Nat.lt_le_trans; [exact Hk | exact enough_maps]. }
  f_equal. unfold set_axis2, cell_layer, cell_prob_upto.
  rewrite (list_as_map_seq 0 frate) at 1. rewrite Hfrate.
  rewrite map_map. rewrite zip_with_map_map.
  apply map_ext. intros p.
  rewrite (list_as_map_seq 0%nat cnt) at 1. rewrite Hcnt.
  rewrite map_map. rewrite zip_with_map_map.
  apply map_ext. intros t.
  rewrite set_nth_map_seq. apply map_ext. intros c. simpl.
  destruct (Nat.eqb_spec c k) as [->|Hne].
  - replace (k <? S k)%nat with true by (symmetry; apply Nat.ltb_lt; lia).
    unfold get. rewrite Hcntk, Hfratek. reflexivity.
  - destruct (Nat.ltb_spec c k), (Nat.ltb_spec c (S k)); try lia; reflexivity.
Qed.

Lemma decoder_loop (m : nat) :
  forall k, (k + m <= shape0 spk)%nat ->
    for_each (decoder_body tau spk rm) (seq k m) (cell_prob_upto tau spk rm k)
    = OK (cell_prob_upto tau spk rm (k + m)).
Proof.
  induction m as [|m IH]; intros k Hk; simpl.
  - rewrite Nat.add_0_r. reflexivity.
  - rewrite decoder_body_step by lia. simpl.
    rewrite IH by lia. do 2 f_equal. lia.
Qed.

Lemma joint_likelihood_eq :
  joint_likelihood tau spk rm = OK (joint_array tau spk rm).
Proof.
  unfold joint_likelihood.
  rewrite <- cell_prob_upto_0.
  rewrite (decoder_loop (shape0 spk) 0) by lia. simpl.
  unfold joint_array, cell_prob_upto. do 2 f_equal.
  rewrite map_map. apply map_ext. intros p.
  rewrite map_map. apply map_ext. intros t.
  f_equal. apply map_ext_in. intros c Hc. apply in_seq in Hc.
  replace (c <? shape0 spk)%nat with true
    by (symmetry; apply Nat.ltb_lt; lia).
  reflexivity.
Qed.

Lemma joint_array_wf : wf (joint_array tau spk rm).
Proof.
  unfold wf, joint_array. simpl. split.
  - rewrite length_map, length_seq. reflexivity.
  - apply Forall_map. apply Forall_forall. intros p _.
    rewrite length_map, length_seq. reflexivity.
Qed.

Lemma joint_array_get (p t : nat) :
  (p < shape1 rm)%nat -> (t < shape1 spk)%nat ->
  get 0 (joint_array tau spk rm) p t
  = Rprod (map (fun c => cell_term tau (get 0 rm c p) (get 0%nat spk c t))
               (seq 0 (shape0 spk))).
Proof.
  intros Hp Ht. unfold get, joint_array. simpl.
  rewrite (nth_map_seq _ _ (shape1 rm) 0 p Hp). simpl.
  rewrite (nth_map_seq _ _ (shape1 spk) 0 t Ht). reflexivity.
Qed.

End DecoderFacts.

Section PosteriorFacts.

Import Np Decoders DecoderSpec.
Local Open Scope R_scope.

Lemma cell_term_poisson (tau rate : R) (count : nat) :
  cell_term tau rate count = poisson tau rate count.
Proof.
  unfold cell_term, poisson, Rdiv.
  replace (- tau * rate) with (- (tau * rate)) by ring. ring.
Qed.

(** C1: before it is normalised, the entry of the decoder's likelihood
    at position bin [p] and time bin [t] is the product over the cells of
    the Poisson probability of the cell's count in [t] at its rate in
    [p]. *)
Theorem joint_likelihood_poisson_product (tau : R) (spkcount : ndarray nat)
  (ratemaps : ndarray R) :
  wf spkcount -> wf ratemaps ->
  (shape0 spkcount <= shape0 ratemaps)%nat ->
  exists joint,
    joint_likelihood tau spkcount ratemaps = OK joint /\
    wf joint /\
    shape0 joint = shape1 ratemaps /\ shape1 joint = shape1 spkcount /\
    forall p t,
      (p < shape1 ratemaps)%nat -> (t < shape1 spkcount)%nat ->
      get 0 joint p t
      = Rprod (map (fun cell => poisson tau (get 0 ratemaps cell p)
                                        (get 0%nat spkcount cell t))
                   (seq 0 (shape0 spkcount))).
Proof.
  intros Hs Hr Hle. exists (joint_array tau spkcount ratemaps).
  split; [apply joint_likelihood_eq; assumption|].
  split; [apply joint_array_wf|].
  split; [reflexivity|]. split; [reflexivity|].
  intros p t Hp Ht. rewrite joint_array_get by assumption.
  f_equal. apply map_ext. intros c. apply cell_term_poisson.
Qed.

Lemma joint_likelihood_poisson_product_witness :
  exists joint,
    joint_likelihood 0.02 decoder_example_counts decoder_example_maps
    = OK joint /\
    get 0 joint 1 2
    = Rprod (map (fun cell => poisson 0.02 (get 0 decoder_example_maps cell 1)
                                      (get 0%nat decoder_example_counts cell 2))
                 (seq 0 2)).
Proof.
  destruct (joint_likelihood_poisson_product
              0.02 decoder_example_counts decoder_example_maps)
    as (joint & Hj & _ & _ & _ & Hget).
  - split; [reflexivity | repeat constructor].
  - split; [reflexivity | repeat constructor].
  - simpl. lia.
  - exists joint. split; [exact Hj|]. apply Hget; simpl; lia.
Defined.

(** *** Normalisation *)

Lemma Rsum_scale (c : R) (l : list R) :
  Rsum (map (fun x => x / c) l) = Rsum l / c.
Proof.
  induction l as [|x l IH]; simpl.
  - unfold Rdiv. ring.
  - rewrite IH. unfold Rdiv. ring.
Qed.

Lemma fold_zip_plus_nth (n : nat) (rs : list (list R)) :
  forall acc t,
    Forall (fun r => List.length r = n) rs -> List.length acc = n ->
    (t < n)%nat ->
    nth t (fold_left (zip_with Rplus) rs acc) 0
    = nth t acc 0 + Rsum (map (fun r => nth t r 0) rs).
Proof.
  induction rs as [|r rs IH]; intros acc t Hrs Hacc Ht; simpl.
  - ring.
  - inversion Hrs as [|? ? Hr Hrs']; subst.
    rewrite IH; try assumption.
    + rewrite (nth_zip_with Rplus 0 0 0) by lia. ring.
    + rewrite length_zip_with. lia.
Qed.

Lemma fold_zip_plus_length (n : nat) (rs : list (list R)) :
  forall acc,
    Forall (fun r => List.length r = n) rs -> List.length acc = n ->
    List.length (fold_left (zip_with Rplus) rs acc) = n.
Proof.
  induction rs as [|r rs IH]; intros acc Hrs Hacc; simpl; [exact Hacc|].
  inversion Hrs as [|? ? Hr Hrs']; subst.
  apply IH; [assumption|]. rewrite length_zip_with. lia.
Qed.

Lemma sum_axis0_nth (m : ndarray R) (t : nat) :
  wf m -> (t < shape1 m)%nat ->
  nth t (sum_axis0 m) 0 = Rsum (column m t).
Proof.
  intros Hwf Ht. unfold sum_axis0.
  rewrite (fold_zip_plus_nth (shape1 m)); try apply Hwf; try assumption.
  - rewrite nth_repeat. rewrite (column_wf 0) by assumption. ring.
  - apply repeat_length.
Qed.

Lemma sum_axis0_length (m : ndarray R) :
  wf m -> List.length (sum_axis0 m) = shape1 m.
Proof.
  intros Hwf. unfold sum_axis0.
  apply fold_zip_plus_length; [apply Hwf | apply repeat_length].
Qed.

Lemma normalize_wf (m : ndarray R) : wf m -> wf (normalize m).
Proof.
  intros Hwf. pose proof (sum_axis0_length m Hwf) as Hs.
  destruct Hwf as [Hlen Hrows]. unfold wf, normalize. simpl. split.
  - rewrite length_map. exact Hlen.
  - apply Forall_map. eapply Forall_impl; [|exact Hrows].
    intros r Hr. simpl in Hr |- *. rewrite length_zip_with, Hr, Hs.
    apply Nat.min_id.
Qed.

Lemma normalize_get (m : ndarray R) (p t : nat) :
  wf m -> (p < shape0 m)%nat -> (t < shape1 m)%nat ->
  get 0 (normalize m) p t = get 0 m p t / Rsum (column m t).
Proof.
  intros Hwf Hp Ht. pose proof (sum_axis0_length m Hwf) as Hs.
  rewrite <- sum_axis0_nth by assumption.
  destruct (row_of_wf m p Hwf Hp) as (r & Hr & Hlen & Hnth).
  unfold get, normalize. simpl. rewrite Hnth.
  rewrite (nth_indep _ [] ((fun row => zip_with Rdiv row (sum_axis0 m)) []))
    by (rewrite length_map; destruct Hwf as [-> _]; exact Hp).
  rewrite (map_nth (fun row => zip_with Rdiv row (sum_axis0 m))).
  rewrite Hnth. apply (nth_zip_with Rdiv 0 0 0); lia.
Qed.

Lemma normalize_column (m : ndarray R) (t : nat) :
  wf m -> (t < shape1 m)%nat ->
  column (normalize m) t = map (fun x => x / Rsum (column m t)) (column m t).
Proof.
  intros Hwf Ht. pose proof (sum_axis0_length m Hwf) as Hs.
  rewrite (column_wf 0 (normalize m)) by (try apply normalize_wf; assumption).
  rewrite <- sum_axis0_nth by assumption.
  rewrite (column_wf 0 m) by assumption.
  unfold normalize. simpl. rewrite !map_map.
  apply map_ext_in. intros r Hin.
  destruct Hwf as [_ Hrows]. rewrite Forall_forall in Hrows.
  apply (nth_zip_with Rdiv 0 0 0); rewrite ?(Hrows r Hin); lia.
Qed.

(** C2: the decoder divides every column of the joint likelihood by the
    column's own sum; a column whose sum is not zero then sums to 1. *)
Theorem decoder_columns_sum_to_1 (tau : R) (spkcount : ndarray nat)
  (ratemaps : ndarray R) :
  wf spkcount -> wf ratemaps ->
  (shape0 spkcount <= shape0 ratemaps)%nat ->
  exists joint posterior,
    joint_likelihood tau spkcount ratemaps = OK joint /\
    _decoder tau spkcount ratemaps = OK posterior /\
    forall t,
      (t < shape1 spkcount)%nat -> Rsum (column joint t) <> 0 ->
      Rsum (column posterior t) = 1 /\
      forall p, (p < shape1 ratemaps)%nat ->
                get 0 posterior p t = get 0 joint p t / Rsum (column joint t).
Proof.
  intros Hs Hr Hle.
  pose proof (joint_likelihood_eq tau spkcount ratemaps Hs Hr Hle) as Hj.
  pose proof (joint_array_wf tau spkcount ratemaps) as Hwf.
  exists (joint_array tau spkcount ratemaps),
         (normalize (joint_array tau spkcount ratemaps)).
  split; [exact Hj|]. split.
  - unfold _decoder. rewrite Hj. reflexivity.
  - intros t Ht Hnz. split.
    + rewrite normalize_column by assumption.
      rewrite Rsum_scale. field. exact Hnz.
    + intros p Hp. apply normalize_get; assumption.
Qed.

Lemma silent_joint_column_positive :
  Rsum (column (joint_array 0.02 silent_counts two_position_maps) 0) > 0.
Proof.
  unfold joint_array, column, Rsum, Rprod, cell_term, get. simpl.
  pose proof (exp_pos (Ropp 0.02 * 1)). pose proof (exp_pos (Ropp 0.02 * 2)).
  lra.
Qed.

Lemma decoder_columns_sum_to_1_witness :
  exists posterior,
    _decoder 0.02 silent_counts two_position_maps = OK posterior /\
    Rsum (column posterior 0) = 1.
Proof.
  destruct (decoder_columns_sum_to_1 0.02 silent_counts two_position_maps)
    as (joint & posterior & Hj & Hd & Hsum).
  - split; [reflexivity | repeat constructor].
  - split; [reflexivity | repeat constructor].
  - simpl. lia.
  - exists posterior. split; [exact Hd|].
    apply Hsum; [simpl; lia|].
    rewrite joint_likelihood_eq in Hj.
    + injection Hj as <-. apply Rgt_not_eq. apply silent_joint_column_positive.
    + split; [reflexivity | repeat constructor].
    + split; [reflexivity | repeat constructor].
    + simpl. lia.
Defined.

End PosteriorFacts.

Section PValueFacts.

Import Np Decoders DecoderSpec PValueSpec.
Local Open Scope R_scope.

Lemma nth_map_lt {A B : Type} (f : A -> B) (da : A) (db : B) (l : list A) :
  forall i, (i < List.length l)%nat -> nth i (map f l) db = f (nth i l da).
Proof.
  induction l as [|x l IH]; intros i Hi; [simpl in Hi; lia|].
  destruct i as [|i]; simpl; [reflexivity|]. apply IH. simpl in Hi. lia.
Qed.

Lemma map_result_all_OK {A B : Type} (f : A -> result B) (g : A -> B)
  (l : list A) :
  Forall (fun x => f x = OK (g x)) l -> map_result f l = OK (map g l).
Proof.
  induction 1 as [|x l Hx _ IH]; simpl; [reflexivity|].
  rewrite Hx. simpl. rewrite IH. reflexivity.
Qed.

Lemma fold_zip_add_nth (n : nat) (rs : list (list nat)) :
  forall acc t,
    Forall (fun r => List.length r = n) rs -> List.length acc = n ->
    (t < n)%nat ->
    nth t (fold_left (zip_with Nat.add) rs acc) 0%nat
    = (nth t acc 0 + list_sum (map (fun r => nth t r 0) rs))%nat.
Proof.
  induction rs as [|r rs IH]; intros acc t Hrs Hacc Ht; simpl.
  - lia.
  - inversion Hrs as [|? ? Hr Hrs']; subst.
    rewrite IH; try assumption.
    + rewrite (nth_zip_with Nat.add 0 0 0)%nat by lia. lia.
    + rewrite length_zip_with. lia.
Qed.

Lemma fold_zip_add_length (n : nat) (rs : list (list nat)) :
  forall acc,
    Forall (fun r => List.length r = n) rs -> List.length acc = n ->
    List.length (fold_left (zip_with Nat.add) rs acc) = n.
Proof.
  induction rs as [|r rs IH]; intros acc Hrs Hacc; simpl; [exact Hacc|].
  inversion Hrs as [|? ? Hr Hrs']; subst.
  apply IH; [assumption|]. rewrite length_zip_with. lia.
Qed.

Lemma exceed_count_sum (sc : list R) (i : nat) (rs : list (list R)) :
  Forall (fun r => List.length r = List.length sc) rs ->
  (i < List.length sc)%nat ->
  list_sum (map (fun r => nth i (where_pos (zip_with Rminus r sc)) 0%nat) rs)
  = List.length (filter (fun r => if Rgt_dec (nth i r 0) (nth i sc 0)
                                  then true else false) rs).
Proof.
  intros Hrs Hi. induction Hrs as [|r rs Hr _ IH]; simpl; [reflexivity|].
  rewrite IH. unfold where_pos.
  rewrite (nth_map_lt _ 0) by (rewrite length_zip_with; lia).
  rewrite (nth_zip_with Rminus 0 0 0) by lia.
  destruct (Rgt_dec (nth i r 0 - nth i sc 0) 0) as [Hd|Hd],
           (Rgt_dec (nth i r 0) (nth i sc 0)) as [Hg|Hg];
    simpl; try reflexivity; exfalso; lra.
Qed.

Lemma p_value_range (c n : nat) :
  (c <= n)%nat ->
  1 / (INR n + 1) <= (INR c + 1) / (INR n + 1) <= 1.
Proof.
  intros Hcn. pose proof (pos_INR c) as Hc. pose proof (pos_INR n) as Hn.
  apply le_INR in Hcn.
  assert (Hpos : 0 < INR n + 1) by lra.
  assert (Hinv : 0 <= / (INR n + 1)).
  { left. apply Rinv_0_lt_compat. exact Hpos. }
  split.
  - unfold Rdiv. apply Rmult_le_compat_r; [exact Hinv | lra].
  - apply Rle_trans with ((INR n + 1) * / (INR n + 1)).
    + unfold Rdiv. apply Rmult_le_compat_r; [exact Hinv | lra].
    + right. field. lra.
Qed.

Lemma p_value_form (c n : nat) :
  (INR c + 1) / (INR n + 1) = (1 + INR c) / (1 + INR n).
Proof.
  rewrite (Rplus_comm (INR c)), (Rplus_comm (INR n)). reflexivity.
Qed.

(** C3: for a shuffled-score matrix of at least one row, one row for
    each iteration and one entry for each event, there is one p-value
    for each event; the p-value of event [i] is one plus the number of
    iterations whose shuffled score of [i] exceeds its real score, over
    one plus the number of iterations, and it lies between
    [1 / (n_iter + 1)] and 1.  The same holds of every p-value that is
    returned at all.  Without any iteration [shuffle_score] is no
    matrix but the empty vector: no p-value is returned then, the result
    is empty for one event or none and a ValueError for more. *)
Theorem p_val_events_formula (self : Bayes1d) :
  let n_iter := List.length (shuffle_score self) in
  let n_events := List.length (score self) in
  Forall (fun row => List.length row = n_events) (shuffle_score self) ->
  ((1 <= n_iter)%nat ->
   exists p, p_val_events self = OK p /\ List.length p = n_events) /\
  (forall p,
      p_val_events self = OK p ->
      forall i,
        (i < List.length p)%nat ->
        nth i p 0 = (1 + INR (exceed_count self i)) / (1 + INR n_iter) /\
        1 / (INR n_iter + 1) <= nth i p 0 <= 1) /\
  (n_iter = 0%nat ->
   p_val_events self
   = if (n_events <=? 1)%nat then OK [] else Raise ValueError).
Proof.
  intros n_iter n_events Hshape.
  unfold p_val_events. fold n_iter.
  destruct (shuffle_score self) as [|r rs] eqn:Hss.
  - (* no iteration *)
    split; [simpl in n_iter; lia|]. subst n_events.
    destruct (score self) as [|s [|s' sc]] eqn:Hsc.
    + split; [|reflexivity]. intros p Hp. injection Hp as <-.
      intros i Hi. simpl in Hi. lia.
    + split; [|reflexivity]. intros p Hp. injection Hp as <-.
      intros i Hi. simpl in Hi. lia.
    + split; [intros p Hp; discriminate | reflexivity].
  - (* at least one iteration, each a row of [n_events] scores *)
    assert (Hr : List.length r = n_events) by (inversion Hshape; assumption).
    assert (Hcount : forall i, exceed_count self i
                     = List.length
                         (filter (fun row => if Rgt_dec (nth i row 0)
                                                        (nth i (score self) 0)
                                             then true else false) (r :: rs))).
    { intros i. unfold exceed_count. rewrite Hss. reflexivity. }
    assert (Hpos : n_iter <> 0%nat) by (subst n_iter; discriminate).
    clear Hss. remember (r :: rs) as ss eqn:Ess. clear Ess.
    assert (Hdiff :
      map_result (fun row => broadcast_sub row (score self)) ss
      = OK (map (fun row => zip_with Rminus row (score self)) ss)).
    { apply map_result_all_OK. eapply Forall_impl; [|exact Hshape].
      intros row Hrow. simpl in Hrow. unfold broadcast_sub.
      fold n_events. rewrite Hrow, Nat.eqb_refl. reflexivity. }
    rewrite Hdiff. cbn [Py.bind].
    rewrite Hr. fold n_events. rewrite Nat.max_id.
    set (masks := map where_pos
                    (map (fun row => zip_with Rminus row (score self)) ss)).
    assert (Hmasks : Forall (fun m => List.length m = n_events) masks).
    { subst masks. rewrite map_map. apply Forall_map.
      eapply Forall_impl; [|exact Hshape].
      intros row Hrow. simpl in Hrow |- *. unfold where_pos.
      rewrite length_map, length_zip_with, Hrow. apply Nat.min_id. }
    assert (Hlen : List.length
                     (fold_left (zip_with Nat.add) masks
                        (repeat 0%nat n_events)) = n_events).
    { apply fold_zip_add_length; [assumption | apply repeat_length]. }
    split; [|split; [|intros H0; contradiction]].
    { intros _. eexists. split; [reflexivity|].
      rewrite length_map. exact Hlen. }
    intros p Hp. injection Hp as <-.
    rewrite length_map, Hlen. intros i Hi.
    rewrite (nth_map_lt _ 0%nat) by (rewrite Hlen; exact Hi).
    rewrite (fold_zip_add_nth n_events) by
      (try assumption; apply repeat_length).
    rewrite nth_repeat. simpl Nat.add.
    subst masks. rewrite !map_map.
    rewrite (exceed_count_sum (score self) i) by assumption.
    rewrite <- Hcount.
    split.
    + apply p_value_form.
    + apply p_value_range. rewrite Hcount. unfold n_iter.
      apply filter_length_le.
Qed.

Lemma p_val_events_formula_witness :
  exists p,
    p_val_events p_value_example = OK p /\
    List.length p = 2%nat /\
    nth 1 p 0 = (1 + INR (exceed_count p_value_example 1)) / (1 + INR 3) /\
    1 / (INR 3 + 1) <= nth 1 p 0 <= 1.
Proof.
  destruct (p_val_events_formula p_value_example) as (Hex & Hp & _).
  - repeat constructor.
  - destruct Hex as (p & Hok & Hlen); [simpl; lia|].
    exists p. split; [exact Hok|]. split; [exact Hlen|].
    apply (Hp p Hok 1%nat). rewrite Hlen. simpl. lia.
Defined.

End PValueFacts.


Section ShuffleFacts.

Import Np Decoders ShuffleSpec.

(** *** The generator *)

Lemma replicateM_spec {A : Type} (P : A -> Prop) (c : M A) (n : nat) :
  (forall g, exists x g', c g = OK (x, g') /\ P x) ->
  forall g, exists xs g',
    replicateM n c g = OK (xs, g') /\ List.length xs = n /\ Forall P xs.
Proof.
  intros Hc. induction n as [|n IH]; intros g; simpl.
  - exists [], g. repeat split. constructor.
  - destruct (Hc g) as (x & g1 & Hx & HP).
    destruct (IH g1) as (xs & g2 & Hxs & Hlen & Hall).
    exists (x :: xs), g2. unfold bindM. rewrite Hx, Hxs. simpl.
    repeat split; [f_equal; exact Hlen | constructor; assumption].
Qed.

Lemma randint_spec (low high : Z) (size : nat) (g : rng) :
  (low < high)%Z ->
  exists xs g',
    randint low high size g = OK (xs, g') /\ List.length xs = size /\
    Forall (fun x => (low <= x < high)%Z) xs.
Proof.
  intros Hlh. unfold randint.
  destruct (Nat.eqb_spec size 0) as [->|Hsize].
  - exists [], g. repeat split. constructor.
  - replace (high <=? low)%Z with false by lia.
    apply replicateM_spec. intros g0.
    eexists _, _. split; [reflexivity|].
    pose proof (Z.mod_pos_bound (g0 O) (high - low)). lia.
Qed.

Lemma choice_sign_spec (size : nat) (g : rng) :
  exists xs g',
    choice (-1)%Z [(-1)%Z; 1%Z] size g = OK (xs, g') /\
    List.length xs = size /\
    Forall (fun x => x = (-1)%Z \/ x = 1%Z) xs.
Proof.
  unfold choice. apply replicateM_spec. intros g0.
  eexists _, _. split; [reflexivity|]. simpl.
  pose proof (Z.mod_pos_bound (g0 O) 2 eq_refl) as Hb.
  destruct (Z.to_nat (g0 O mod 2)) as [|[|k]] eqn:E; simpl; auto; lia.
Qed.

(** *** Rolling a column *)

Lemma roll_length {A : Type} (a : list A) (s : Z) :
  List.length (roll a s) = List.length a.
Proof.
  unfold roll. rewrite length_app, length_skipn, length_firstn. lia.
Qed.

Lemma roll_Permutation {A : Type} (a : list A) (s : Z) :
  Permutation (roll a s) a.
Proof.
  unfold roll.
  set (k := (List.length a - Z.to_nat (s mod Z.of_nat (List.length a)))%nat).
  rewrite <- (firstn_skipn k a) at 3. apply Permutation_app_comm.
Qed.

Lemma Rsum_Permutation (l1 l2 : list R) :
  Permutation l1 l2 -> Rsum l1 = Rsum l2.
Proof.
  induction 1; simpl; lra.
Qed.

(** *** Transposition *)

Lemma transpose_wf {A : Type} (m : ndarray A) : wf m -> wf (transpose m).
Proof.
  intros Hwf. unfold wf, transpose. simpl. split.
  - rewrite length_map, length_seq. reflexivity.
  - apply Forall_map. apply Forall_forall. intros j Hj. apply in_seq in Hj.
    apply column_length; [exact Hwf | lia].
Qed.

Lemma nth_error_column {A : Type} (m : ndarray A) (i j : nat) :
  wf m -> (j < shape1 m)%nat ->
  nth_error (column m j) i
  = match nth_error (rows m) i with
    | Some r => nth_error r j
    | None => None
    end.
Proof.
  intros [_ Hrows] Hj. unfold column. revert i.
  induction Hrows as [|r rs Hr _ IH]; intros i; simpl.
  - destruct i; reflexivity.
  - destruct (nth_error r j) as [x|] eqn:E.
    + destruct i as [|i]; simpl; [symmetry; exact E | apply IH].
    + apply nth_error_None in E. lia.
Qed.

Lemma transpose_column {A : Type} (m : ndarray A) (i : nat) :
  wf m -> (i < shape0 m)%nat ->
  column (transpose m) i = nth i (rows m) [].
Proof.
  intros Hwf Hi.
  destruct (row_of_wf m i Hwf Hi) as (r & Hr & Hlen & ->).
  unfold column at 1, transpose. simpl.
  rewrite <- Hlen. clear Hlen.
  assert (Hcol : forall j, (j < List.length r)%nat ->
                 nth_error (column m j) i = nth_error r j).
  { intros j Hj.
    rewrite nth_error_column; [rewrite Hr; reflexivity | exact Hwf |].
    destruct Hwf as [_ Hrows]. rewrite Forall_forall in Hrows.
    rewrite <- (Hrows r); [exact Hj | eapply nth_error_In; exact Hr]. }
  clear Hr. revert Hcol.
  generalize (column m). intros col.
  assert (Hgen : forall (l : list A) s,
            (forall j, (j < List.length l)%nat ->
                       nth_error (col (s + j)%nat) i = nth_error l j) ->
            flat_map (fun c => match nth_error c i with
                               | Some x => [x]
                               | None => []
                               end)
                     (map col (seq s (List.length l))) = l).
  { induction l as [|x l IH]; intros s Hc; simpl; [reflexivity|].
    pose proof (Hc 0%nat ltac:(simpl; lia)) as H0.
    rewrite Nat.add_0_r in H0. rewrite H0. simpl. f_equal.
    apply IH. intros j Hj.
    replace (S s + j)%nat with (s + S j)%nat by lia.
    apply (Hc (S j)). simpl. lia. }
  intros Hcol. apply (Hgen r 0%nat). exact Hcol.
Qed.

Lemma nth_enumerate_map {A B : Type} (f : nat * A -> B) (da : A) (db : B)
  (l : list A) (i : nat) :
  (i < List.length l)%nat ->
  nth i (map f (enumerate l)) db = f (i, nth i l da).
Proof.
  intros Hi. unfold enumerate.
  rewrite (nth_map_lt f (O, da)) by (rewrite length_combine, length_seq; lia).
  rewrite combine_nth by (rewrite length_seq; reflexivity).
  rewrite seq_nth by exact Hi. reflexivity.
Qed.

Lemma roll_rotation {A : Type} (a : list A) (s : Z) :
  rotation_of (roll a s) a.
Proof.
  exists (List.length a - Z.to_nat (s mod Z.of_nat (List.length a)))%nat.
  split; [lia | reflexivity].
Qed.

Lemma signed_shift_bound (n : nat) (shift direction : list Z) :
  Forall (fun x => (1 <= x < Z.of_nat n)%Z) shift ->
  Forall (fun x => x = (-1)%Z \/ x = 1%Z) direction ->
  Forall (fun x => (1 <= Z.abs x < Z.of_nat n)%Z)
         (zip_with Z.mul shift direction).
Proof.
  intros Hs Hd.
  apply (zip_with_Forall2 Z.mul (fun x => (1 <= x < Z.of_nat n)%Z)
                          (fun x => x = (-1)%Z \/ x = 1%Z));
    [|exact Hs | exact Hd].
  intros a b Ha [-> | ->]; lia.
Qed.

(** C7: on a matrix with at least two columns the column shuffle returns
    a matrix of the same shape whose every column is the original column
    rolled by a signed offset of magnitude in [1, n_columns): a rotation
    of it, with the same values, each as often, and the same sum. *)
Theorem col_shuffle_rotates_columns (mat : ndarray R) (g : rng) :
  wf mat -> (2 <= shape1 mat)%nat ->
  exists shuffled g' shift,
    col_shuffle mat g = OK (shuffled, g') /\
    wf shuffled /\
    shape0 shuffled = shape0 mat /\ shape1 shuffled = shape1 mat /\
    List.length shift = shape1 mat /\
    forall i,
      (i < shape1 mat)%nat ->
      (1 <= Z.abs (nth i shift 0%Z) < Z.of_nat (shape1 mat))%Z /\
      column shuffled i = roll (column mat i) (nth i shift 0%Z) /\
      rotation_of (column shuffled i) (column mat i) /\
      Permutation (column shuffled i) (column mat i) /\
      Rsum (column shuffled i) = Rsum (column mat i).
Proof.
  intros Hwf Hn.
  destruct (randint_spec 1 (Z.of_nat (shape1 mat)) (shape1 mat) g)
    as (shift & g1 & Hshift & Hlen1 & Hrange); [lia|].
  destruct (choice_sign_spec (shape1 mat) g1)
    as (direction & g2 & Hdir & Hlen2 & Hsign).
  set (signed := zip_with Z.mul shift direction).
  assert (Hlen : List.length signed = shape1 mat).
  { subst signed. rewrite length_zip_with. lia. }
  pose proof (signed_shift_bound _ _ _ Hrange Hsign) as Hbound.
  fold signed in Hbound.
  set (mat' := mkArray (List.length signed) (shape0 mat)
                 (map (fun ish => roll (column mat (fst ish)) (snd ish))
                      (enumerate signed))).
  assert (Hrow : forall i, (i < shape1 mat)%nat ->
                 nth i (rows mat') [] = roll (column mat i) (nth i signed 0%Z)).
  { intros i Hi. subst mat'. simpl.
    rewrite (nth_enumerate_map _ 0%Z) by lia. reflexivity. }
  assert (Hwf' : wf mat').
  { subst mat'. split; simpl.
    - unfold enumerate. rewrite length_map, length_combine, length_seq. lia.
    - apply Forall_map. apply Forall_forall. intros [i sh] Hin. simpl.
      unfold enumerate in Hin. apply in_combine_l in Hin. apply in_seq in Hin.
      rewrite roll_length. apply column_length; [exact Hwf | lia]. }
  exists (transpose mat'), g2, signed.
  split.
  { unfold col_shuffle, bindM. rewrite Hshift, Hdir. reflexivity. }
  split; [apply transpose_wf; exact Hwf'|].
  split; [reflexivity|]. split; [exact Hlen|]. split; [exact Hlen|].
  intros i Hi.
  assert (Hcol : column (transpose mat') i
                 = roll (column mat i) (nth i signed 0%Z)).
  { rewrite transpose_column; [apply Hrow; exact Hi | exact Hwf' |].
    subst mat'. simpl. lia. }
  split.
  { rewrite Forall_forall in Hbound. apply Hbound. apply nth_In. lia. }
  split; [exact Hcol|]. rewrite Hcol.
  split; [apply roll_rotation|].
  split; [apply roll_Permutation|].
  apply Rsum_Permutation. apply roll_Permutation.
Qed.

Lemma col_shuffle_rotates_columns_witness :
  exists shuffled g',
    col_shuffle shuffle_example (fun k => Z.of_nat k) = OK (shuffled, g') /\
    Permutation (column shuffled 1) (column shuffle_example 1) /\
    Rsum (column shuffled 1) = Rsum (column shuffle_example 1).
Proof.
  destruct (col_shuffle_rotates_columns shuffle_example (fun k => Z.of_nat k))
    as (shuffled & g' & shift & Hok & _ & _ & _ & _ & Hcols).
  - split; [reflexivity | repeat constructor].
  - simpl. lia.
  - exists shuffled, g'. split; [exact Hok|].
    destruct (Hcols 1%nat) as (_ & _ & _ & Hperm & Hsum); [simpl; lia|].
    split; assumption.
Defined.

(** C10: on a matrix with exactly one column the column shuffle raises:
    the shifts are drawn from the empty range [1, 1). *)
Theorem col_shuffle_one_column_raises (mat : ndarray R) (g : rng) :
  shape1 mat = 1%nat -> col_shuffle mat g = Raise ValueError.
Proof.
  intros H1. unfold col_shuffle, bindM, randint. rewrite H1. reflexivity.
Qed.

Lemma col_shuffle_one_column_raises_witness :
  col_shuffle one_column_example (fun k => Z.of_nat k) = Raise ValueError.
Proof.
  apply col_shuffle_one_column_raises. reflexivity.
Defined.

End ShuffleFacts.

Section ScoreFacts.

Import Np Decoders ScoreSpec.
Local Open Scope R_scope.

(** *** Draws are read off the stream in order *)

Lemma replicateM_draw {A : Type} (f : Z -> A) (n : nat) :
  forall g : rng,
    replicateM n (bindM next_raw (fun raw => ret (f raw))) g
    = OK (map (fun k => f (g k)) (seq 0 n), fun k => g (n + k)%nat).
Proof.
  induction n as [|n IH]; intros g.
  - reflexivity.
  - cbn [replicateM]. unfold bindM at 1. unfold bindM at 1.
    cbn [next_raw ret]. unfold bindM at 1. rewrite IH. cbn [ret seq map].
    rewrite <- seq_shift, map_map. reflexivity.
Qed.

Lemma uniform_draws (low high : R) (n : nat) (g : rng) :
  uniform low high n g
  = OK (map (fun k => low + (high - low) * unit_draw (g k)) (seq 0 n),
        fun k => g (n + k)%nat).
Proof.
  unfold uniform.
  apply (replicateM_draw (fun raw => low + (high - low) * unit_draw raw)).
Qed.

(** *** [np.argmax] finds a maximum *)

Lemma argmax_from_spec (l : list R) :
  forall best besti i,
    (besti < i)%nat ->
    let m := argmax_from best besti i l in
    (m < i + List.length l)%nat /\
    exists v,
      (m = besti /\ v = best \/
       (i <= m)%nat /\ v = nth (m - i) l 0) /\
      best <= v /\ Forall (fun x => x <= v) l.
Proof.
  induction l as [|x l IH]; intros best besti i Hlt; simpl.
  - split; [lia|]. exists best. split; [left; auto|].
    split; [lra | constructor].
  - destruct (Rlt_dec best x) as [Hbx|Hbx].
    + destruct (IH x i (S i) ltac:(lia)) as [Hm (v & Hv & Hle & Hall)].
      split; [lia|]. exists v. split.
      * right. destruct Hv as [[Hmi Hvx] | [Hmi Hvn]].
        -- rewrite Hmi, Nat.sub_diag. split; [lia | exact Hvx].
        -- split; [lia|].
           replace (argmax_from x i (S i) l - i)%nat
             with (S (argmax_from x i (S i) l - S i)) by lia.
           exact Hvn.
      * split; [lra|]. constructor; assumption.
    + destruct (IH best besti (S i) ltac:(lia)) as [Hm (v & Hv & Hle & Hall)].
      split; [lia|]. exists v. split.
      * destruct Hv as [[Hmi Hvx] | [Hmi Hvn]].
        -- left. auto.
        -- right. split; [lia|].
           replace (argmax_from best besti (S i) l - i)%nat
             with (S (argmax_from best besti (S i) l - S i)) by lia.
           exact Hvn.
      * split; [lra|]. constructor; [lra | assumption].
Qed.

Lemma argmax_spec (l : list R) :
  l <> [] ->
  exists m,
    argmax l = OK m /\ (m < List.length l)%nat /\
    forall i, (i < List.length l)%nat -> nth i l 0 <= nth m l 0.
Proof.
  destruct l as [|x l]; [congruence|]. intros _.
  exists (argmax_from x 0 1 l). split; [reflexivity|].
  destruct (argmax_from_spec l x 0%nat 1%nat ltac:(lia))
    as [Hm (v & Hv & Hle & Hall)].
  split; [simpl; lia|].
  assert (Hnth : nth (argmax_from x 0 1 l) (x :: l) 0 = v).
  { destruct Hv as [[-> ->] | [Hmi ->]]; [reflexivity|].
    destruct (argmax_from x 0 1 l) as [|m]; [lia|].
    simpl. f_equal. lia. }
  rewrite Hnth. intros [|i] Hi; simpl; [exact Hle|].
  rewrite Forall_forall in Hall. apply Hall. apply nth_In. simpl in Hi. lia.
Qed.

(** *** Smoothing *)

Lemma add_padded_length (l1 : list R) :
  forall l2, List.length (add_padded l1 l2)
             = Nat.max (List.length l1) (List.length l2).
Proof.
  induction l1 as [|x l1 IH]; intros [|y l2]; simpl; try reflexivity.
  rewrite IH. reflexivity.
Qed.

Lemma convolve_full_length (a v : list R) :
  a <> [] -> v <> [] ->
  List.length (convolve_full a v) = (List.length a + List.length v - 1)%nat.
Proof.
  intros Ha Hv. induction a as [|x a IH]; [congruence|].
  assert (Hlv : (1 <= List.length v)%nat)
    by (destruct v; [congruence | simpl; lia]).
  cbn [convolve_full]. rewrite add_padded_length, length_map. simpl List.length.
  destruct a as [|x' a].
  - simpl. lia.
  - rewrite IH by discriminate. simpl List.length. lia.
Qed.

Lemma smooth_eq (evt : ndarray R) :
  wf evt -> (1 <= shape0 evt)%nat -> (1 <= shape1 evt)%nat ->
  smooth evt = OK (smoothed_of evt) /\ wf (smoothed_of evt).
Proof.
  intros Hwf Hp Ht. unfold smooth.
  destruct (Nat.eqb_spec (shape1 evt) 0) as [H0|_]; [lia|].
  assert (Hcols :
    map_result (fun t => convolve (column evt t) [1; 1; 1]) (seq 0 (shape1 evt))
    = OK (map (fun t => convolve_full (column evt t) [1; 1; 1])
              (seq 0 (shape1 evt)))).
  { apply map_result_all_OK. apply Forall_forall. intros t Hin.
    apply in_seq in Hin.
    pose proof (column_length evt t Hwf ltac:(lia)) as Hlen.
    unfold convolve.
    destruct (column evt t); [simpl in Hlen; lia | reflexivity]. }
  rewrite Hcols. split; [reflexivity|].
  apply transpose_wf. split; simpl.
  - rewrite length_map, length_seq. reflexivity.
  - apply Forall_map. apply Forall_forall. intros t Hin. apply in_seq in Hin.
    pose proof (column_length evt t Hwf ltac:(lia)) as Hlen.
    rewrite convolve_full_length; [simpl; lia | | discriminate].
    intros Hnil. rewrite Hnil in Hlen. simpl in Hlen. lia.
Qed.

(** *** The rows of [posterior] *)

Lemma combine_map_map {A B C : Type} (f : A -> B) (h : A -> C) (l : list A) :
  combine (map f l) (map h l) = map (fun x => (f x, h x)) l.
Proof.
  induction l as [|x l IH]; simpl; [reflexivity|]. f_equal. exact IH.
Qed.

Lemma enumerate_map_seq {A : Type} (h : nat -> A) (n : nat) :
  enumerate (map h (seq 0 n)) = map (fun t => (t, h t)) (seq 0 n).
Proof.
  unfold enumerate. rewrite length_map, length_seq.
  rewrite <- (map_id (seq 0 n)) at 1. apply combine_map_map.
Qed.

Lemma assign_out_seq (npos : nat) (E : ndarray R) (y : nat -> Z)
  (z : nat -> R) (n : nat) :
  assign_out npos E (map y (seq 0 n)) (map z (seq 0 n))
  = map (fun t => if is_out npos (y t) then median (column E t) else z t)
        (seq 0 n).
Proof.
  unfold assign_out. rewrite combine_map_map, enumerate_map_seq, map_map.
  reflexivity.
Qed.

Lemma assign_in_seq (npos : nat) (E : ndarray R) (y : nat -> Z)
  (z : nat -> R) (n : nat) :
  assign_in npos E (map y (seq 0 n)) (map z (seq 0 n))
  = map (fun t => if is_in npos (y t) then get 0 E (Z.to_nat (y t)) t else z t)
        (seq 0 n).
Proof.
  unfold assign_in. rewrite combine_map_map, enumerate_map_seq, map_map.
  reflexivity.
Qed.

(** A row meets one of the two assignments, never both. *)
Lemma in_or_out (npos : nat) (y : Z) : is_out npos y = negb (is_in npos y).
Proof.
  unfold is_out, is_in.
  destruct (Z.ltb_spec y 0), (Z.geb_spec y 0),
           (Z.gtb_spec y (Z.of_nat npos - 1)),
           (Z.leb_spec y (Z.of_nat npos - 1)); simpl; try reflexivity; lia.
Qed.

Lemma posterior_row (evt : ndarray R) (E : ndarray R) (c m : R) :
  assign_in (shape0 evt) E (y_line_row (shape1 evt) (shape0 evt) c m)
    (assign_out (shape0 evt) E (y_line_row (shape1 evt) (shape0 evt) c m)
       (repeat 0 (shape1 evt)))
  = map (line_sample evt E c m) (seq 0 (shape1 evt)).
Proof.
  unfold y_line_row.
  rewrite <- (map_const_seq 0 (shape1 evt) 0).
  rewrite assign_out_seq, assign_in_seq.
  apply map_ext. intros t. unfold line_sample, line_row.
  set (y := astype_int _). rewrite in_or_out.
  unfold is_in. replace (y >=? 0)%Z with (0 <=? y)%Z
    by (destruct (Z.leb_spec 0 y), (Z.geb_spec y 0); lia || reflexivity).
  destruct ((0 <=? y)%Z && (y <=? Z.of_nat (shape0 evt) - 1)%Z); reflexivity.
Qed.

Lemma cot_inv_tan (x : R) : 1 / tan x = cot x.
Proof.
  unfold tan, cot, Rdiv. rewrite Rinv_mult, Rinv_inv. ring.
Qed.

Lemma line_mean_eq (evt E : ndarray R) (c m : R) :
  nanmean
    (assign_in (shape0 evt) E (y_line_row (shape1 evt) (shape0 evt) c m)
       (assign_out (shape0 evt) E (y_line_row (shape1 evt) (shape0 evt) c m)
          (repeat 0 (shape1 evt))))
  = line_mean evt E c m.
Proof.
  rewrite posterior_row. unfold nanmean, line_mean.
  rewrite length_map, length_seq. reflexivity.
Qed.

Lemma nlines_not_0 : nlines <> 0%nat.
Proof. discriminate. Qed.

(** A smoothed entry is the sum of the entry and of the two entries above
    it in its column: the "full" convolution with three ones. *)
Lemma add_padded_nth (l1 : list R) :
  forall l2 k, nth k (add_padded l1 l2) 0 = nth k l1 0 + nth k l2 0.
Proof.
  induction l1 as [|x l1 IH]; intros l2 k.
  - simpl. destruct k; lra.
  - destruct l2 as [|y l2].
    + simpl. destruct k; lra.
    + destruct k as [|k]; simpl; [lra | apply IH].
Qed.

Lemma convolve_ones_nth (a : list R) :
  forall k,
    nth k (convolve_full a [1; 1; 1]) 0
    = nth k (0 :: 0 :: a) 0 + nth k (0 :: a) 0 + nth k a 0.
Proof.
  induction a as [|x a IH]; intros k.
  - destruct k as [|[|[|k]]]; simpl; lra.
  - cbn [convolve_full]. rewrite add_padded_nth.
    destruct k as [|k].
    + simpl. lra.
    + cbn [map nth]. rewrite IH.
      destruct k as [|[|k]]; simpl; try lra.
      destruct k; lra.
Qed.

Lemma smoothed_get (evt : ndarray R) (y t : nat) :
  wf evt -> (1 <= shape0 evt)%nat -> (t < shape1 evt)%nat ->
  get 0 (smoothed_of evt) y t
  = nth y (0 :: 0 :: column evt t) 0 + nth y (0 :: column evt t) 0
    + nth y (column evt t) 0.
Proof.
  intros Hwf Hp Ht.
  destruct (smooth_eq evt Hwf Hp ltac:(lia)) as [_ Hwf'].
  rewrite <- get_column by (try exact Hwf'; exact Ht).
  unfold smoothed_of. rewrite transpose_column.
  - cbn [rows]. rewrite (nth_map_seq _ _ (shape1 evt) 0 t Ht).
    apply convolve_ones_nth.
  - split; cbn [rows shape0 shape1].
    + rewrite length_map, length_seq. reflexivity.
    + apply Forall_map. apply Forall_forall. intros t' Hin. apply in_seq in Hin.
      pose proof (column_length evt t' Hwf ltac:(lia)) as Hlen.
      rewrite convolve_full_length; [simpl; lia | | discriminate].
      intros Hnil. rewrite Hnil in Hlen. simpl in Hlen. lia.
  - exact Ht.
Qed.

Local Opaque nlines.

(** [score_event] on the stream [g]: the averages of the [nlines] drawn
    lines, the position of their maximum, and the stream left after the
    angles and the intercepts. *)
Lemma score_event_eq (evt : ndarray R) (g : rng) :
  wf evt -> (1 <= shape0 evt)%nat -> (1 <= shape1 evt)%nat ->
  let means :=
    map (fun l => line_mean evt (smoothed_of evt)
                            (drawn_intercept evt g l) (drawn_theta g l))
        (seq 0 nlines) in
  score_event evt g
  = match argmax means with
    | OK max_line =>
        OK ((nth max_line means 0,
             - (1 / tan (nth max_line (map (drawn_theta g) (seq 0 nlines)) 0))),
            fun k => g (nlines + (nlines + k))%nat)
    | Raise e => Raise e
    end.
Proof.
  intros Hwf Hp Ht means.
  destruct (smooth_eq evt Hwf Hp Ht) as [Hs _].
  unfold score_event, bindM, lift. rewrite Hs.
  rewrite uniform_draws. rewrite uniform_draws. cbv zeta.
  rewrite combine_map_map, map_map.
  rewrite <- (map_const_seq (repeat 0 (shape1 evt)) nlines 0).
  rewrite zip_with_map_map, zip_with_map_map, map_map.
  match goal with
  | |- context [argmax ?l] =>
      replace l with means
        by (subst means; apply map_ext; intros l0; cbn [fst snd];
            symmetry; apply line_mean_eq)
  end.
  destruct (argmax means); reflexivity.
Qed.

(** C9: the replay scorer averages, for each drawn line, over the time
    bins, the value of the smoothed posterior at the line's position row
    when that row is one of the position bins and the median of the
    column otherwise; it returns the largest of these averages as the
    score, with minus the cotangent of the angle of a line that attains
    it as the slope. *)
Theorem score_event_best_line (evt : ndarray R) (g : rng) :
  wf evt -> (1 <= shape0 evt)%nat -> (1 <= shape1 evt)%nat ->
  (forall l, (l < nlines)%nat -> sin (drawn_theta g l) <> 0) ->
  exists smoothed max_line g',
    smooth evt = OK smoothed /\
    (forall y t,
        (t < shape1 evt)%nat ->
        get 0 smoothed y t
        = nth y (0 :: 0 :: column evt t) 0 + nth y (0 :: column evt t) 0
          + nth y (column evt t) 0) /\
    (max_line < nlines)%nat /\
    score_event evt g
    = OK ((line_mean evt smoothed (drawn_intercept evt g max_line)
                     (drawn_theta g max_line),
           - cot (drawn_theta g max_line)), g') /\
    forall l,
      (l < nlines)%nat ->
      line_mean evt smoothed (drawn_intercept evt g l) (drawn_theta g l)
      <= line_mean evt smoothed (drawn_intercept evt g max_line)
                   (drawn_theta g max_line).
Proof.
  intros Hwf Hp Ht _.
  destruct (smooth_eq evt Hwf Hp Ht) as [Hs _].
  pose proof (score_event_eq evt g Hwf Hp Ht) as Heq. cbv zeta in Heq.
  set (means := map (fun l => line_mean evt (smoothed_of evt)
                                        (drawn_intercept evt g l)
                                        (drawn_theta g l))
                    (seq 0 nlines)) in *.
  assert (Hlen : List.length means = nlines).
  { subst means. rewrite length_map, length_seq. reflexivity. }
  destruct (argmax_spec means) as (m & Hm & Hlt & Hmax).
  { intros Hnil. rewrite Hnil in Hlen. apply nlines_not_0.
    symmetry. exact Hlen. }
  rewrite Hlen in Hlt.
  assert (Hnth : forall l, (l < nlines)%nat ->
            nth l means 0
            = line_mean evt (smoothed_of evt) (drawn_intercept evt g l)
                        (drawn_theta g l)).
  { intros l Hl. subst means. rewrite (nth_map_seq _ _ nlines 0 l Hl).
    reflexivity. }
  exists (smoothed_of evt), m, (fun k => g (nlines + (nlines + k))%nat).
  split; [exact Hs|].
  split; [intros y t Hyt; apply smoothed_get; assumption|].
  split; [exact Hlt|]. split.
  - rewrite Heq, Hm. rewrite (Hnth m Hlt).
    rewrite (nth_map_seq _ _ nlines 0 m Hlt). rewrite cot_inv_tan.
    reflexivity.
  - intros l Hl. rewrite <- (Hnth l Hl), <- (Hnth m Hlt).
    apply Hmax. rewrite Hlen. exact Hl.
Qed.

(** *** The lines that the example stream draws on the example event *)

Lemma astype_int_floor (x : R) (z : Z) :
  0 <= x -> IZR z <= x < IZR z + 1 -> astype_int x = z.
Proof.
  intros H0 [Hlo Hhi]. unfold astype_int.
  destruct (Rle_dec 0 x) as [_|Hn]; [|contradiction].
  rewrite <- (up_tech x z Hlo); [lia|].
  rewrite plus_IZR. exact Hhi.
Qed.

Lemma nlines_gt_1 : (1 < nlines)%nat.
Proof. apply Nat.ltb_lt. reflexivity. Qed.

Lemma unit_draw_0 : unit_draw 0 = 0.
Proof.
  unfold unit_draw. change (0 mod 2 ^ 53)%Z with 0%Z.
  unfold Rdiv. apply Rmult_0_l.
Qed.

Lemma unit_draw_quarter : unit_draw (2 ^ 51) = 1 / 4.
Proof.
  unfold unit_draw.
  change ((2 ^ 51) mod 2 ^ 53)%Z with (2251799813685248)%Z.
  change (2 ^ 53)%Z with (9007199254740992)%Z. lra.
Qed.

Lemma unit_draw_half : unit_draw (2 ^ 52) = 1 / 2.
Proof.
  unfold unit_draw.
  change ((2 ^ 52) mod 2 ^ 53)%Z with (4503599627370496)%Z.
  change (2 ^ 53)%Z with (9007199254740992)%Z. lra.
Qed.

Lemma line_example_diag :
  sqrt ((INR (shape1 line_example) - 1) ^ 2
        + (INR (shape0 line_example) - 1) ^ 2) = 5.
Proof.
  cbn [shape0 shape1 line_example].
  replace ((INR 4 - 1) ^ 2 + (INR 5 - 1) ^ 2) with (5 * 5) by (simpl; lra).
  apply sqrt_square. lra.
Qed.

(** Line 0 has the angle [-pi/4] and the intercept 0; every other line
    has the angle [-pi/2]; line 1 has the intercept [-5/2]. *)
Lemma line_stream_theta_0 : drawn_theta line_stream 0 = - (PI / 4).
Proof.
  unfold drawn_theta.
  change (line_stream 0%nat) with (2 ^ 51)%Z. rewrite unit_draw_quarter. lra.
Qed.

Lemma line_stream_theta (l : nat) :
  (0 < l < nlines)%nat -> drawn_theta line_stream l = - (PI / 2).
Proof.
  intros [H0 Hl]. unfold drawn_theta, line_stream.
  destruct (Nat.eqb_spec l 0%nat) as [E|_]; [lia|].
  destruct (Nat.eqb_spec l nlines) as [E|_]; [lia|].
  rewrite unit_draw_0. lra.
Qed.

Lemma line_stream_intercept_0 :
  drawn_intercept line_example line_stream 0 = 0.
Proof.
  unfold drawn_intercept. cbv zeta. rewrite line_example_diag.
  change (line_stream (nlines + 0)%nat) with (2 ^ 52)%Z.
  rewrite unit_draw_half. lra.
Qed.

Lemma line_stream_intercept_1 :
  drawn_intercept line_example line_stream 1 = - (5 / 2).
Proof.
  unfold drawn_intercept. cbv zeta. rewrite line_example_diag.
  change (line_stream (nlines + 1)%nat) with 0%Z.
  rewrite unit_draw_0. lra.
Qed.

Lemma line_stream_sin (l : nat) :
  (l < nlines)%nat -> sin (drawn_theta line_stream l) <> 0.
Proof.
  intros Hl. destruct l as [|l].
  - rewrite line_stream_theta_0, sin_neg, sin_PI4.
    pose proof sqrt2_neq_0 as H2. intros H.
    apply H2. apply (Rmult_eq_compat_l (- sqrt 2)) in H.
    replace (- sqrt 2 * - (1 / sqrt 2)) with 1 in H by (field; exact H2).
    lra.
  - rewrite line_stream_theta by lia. rewrite sin_neg, sin_PI2. lra.
Qed.

(** Line 0 is the diagonal: at time bin [t] it is at position row [t]. *)
Lemma line_0_rows (t : nat) :
  (t < 4)%nat ->
  line_row line_example (drawn_intercept line_example line_stream 0)
           (drawn_theta line_stream 0) t
  = Z.of_nat t.
Proof.
  intros Ht. unfold line_row.
  rewrite line_stream_intercept_0, line_stream_theta_0.
  cbn [shape0 shape1 line_example].
  rewrite cos_neg, sin_neg, cos_PI4, sin_PI4.
  replace ((0 - (INR t - (INR 4 + 1) / 2) * (1 / sqrt 2)) / - (1 / sqrt 2)
           + (INR 5 + 1) / 2)
    with (INR t + 1 / 2)
    by (simpl INR; field; exact sqrt2_neq_0).
  pose proof (pos_INR t) as Hpos.
  apply astype_int_floor; [lra|].
  rewrite <- INR_IZR_INZ. lra.
Qed.

(** Line 1 runs above the last position row at every time bin. *)
Lemma line_1_rows (t : nat) :
  line_row line_example (drawn_intercept line_example line_stream 1)
           (drawn_theta line_stream 1) t
  = 5%Z.
Proof.
  unfold line_row.
  rewrite line_stream_intercept_1, (line_stream_theta 1)
    by (split; [lia | exact nlines_gt_1]).
  cbn [shape0 shape1 line_example].
  rewrite cos_neg, sin_neg, cos_PI2, sin_PI2.
  replace ((- (5 / 2) - (INR t - (INR 4 + 1) / 2) * 0) / - (1)
           + (INR 5 + 1) / 2)
    with (11 / 2) by (simpl INR; field).
  apply astype_int_floor; lra.
Qed.

Lemma line_example_wf : wf line_example.
Proof. split; [reflexivity | repeat constructor]. Qed.

(** The mean of the diagonal: the smoothed posterior is sampled at rows
    0, 1, 2 and 3. *)
Lemma line_0_mean :
  line_mean line_example (smoothed_of line_example)
            (drawn_intercept line_example line_stream 0)
            (drawn_theta line_stream 0)
  = 29 / 40.
Proof.
  unfold line_mean. cbn [shape1 line_example seq map].
  unfold line_sample. cbv zeta.
  rewrite !line_0_rows by lia.
  cbn [shape0 line_example].
  change ((0 <=? Z.of_nat 0) && (Z.of_nat 0 <=? Z.of_nat 5 - 1))%Z with true.
  change ((0 <=? Z.of_nat 1) && (Z.of_nat 1 <=? Z.of_nat 5 - 1))%Z with true.
  change ((0 <=? Z.of_nat 2) && (Z.of_nat 2 <=? Z.of_nat 5 - 1))%Z with true.
  change ((0 <=? Z.of_nat 3) && (Z.of_nat 3 <=? Z.of_nat 5 - 1))%Z with true.
  cbn iota. rewrite !Nat2Z.id.
  rewrite !smoothed_get
    by (try exact line_example_wf; cbn [shape0 shape1 line_example]; lia).
  unfold column. cbn [rows line_example flat_map nth_error app nth Rsum
                      fold_right].
  simpl INR. lra.
Qed.

Lemma score_event_best_line_witness :
  exists max_line g',
    (max_line < nlines)%nat /\
    score_event line_example line_stream
    = OK ((line_mean line_example (smoothed_of line_example)
                     (drawn_intercept line_example line_stream max_line)
                     (drawn_theta line_stream max_line),
           - cot (drawn_theta line_stream max_line)), g') /\
    (forall t, (t < 4)%nat ->
               line_row line_example
                        (drawn_intercept line_example line_stream 0)
                        (drawn_theta line_stream 0) t = Z.of_nat t) /\
    (forall t, line_row line_example
                        (drawn_intercept line_example line_stream 1)
                        (drawn_theta line_stream 1) t = 5%Z) /\
    29 / 40
    <= line_mean line_example (smoothed_of line_example)
                 (drawn_intercept line_example line_stream max_line)
                 (drawn_theta line_stream max_line).
Proof.
  destruct (score_event_best_line line_example line_stream)
    as (smoothed & max_line & g' & Hs & _ & Hlt & Hscore & Hmax).
  - exact line_example_wf.
  - simpl. lia.
  - simpl. lia.
  - exact line_stream_sin.
  - destruct (smooth_eq line_example) as [Hs' _];
      [exact line_example_wf | simpl; lia | simpl; lia |].
    rewrite Hs' in Hs. injection Hs as <-.
    exists max_line, g'. split; [exact Hlt|]. split; [exact Hscore|].
    split; [exact line_0_rows|]. split; [exact line_1_rows|].
    rewrite <- line_0_mean. apply Hmax.
    apply Nat.lt_trans with 1%nat; [lia | exact nlines_gt_1].
Defined.

End ScoreFacts.

Section DecodeShuffleFacts.

Import Np Decoders ShuffleSpec.
Local Open Scope R_scope.
Import String.StringSyntax.
Local Open Scope string_scope.

(** C6 (the code departs from the claim): the "cellid" branch permutes
    the rate maps, decodes and cuts the result back into events, but it
    never scores them: whenever [decode_shuffle] returns,
    [shuffle_score] is empty, whatever the number of iterations and of
    events. *)
Theorem decode_shuffle_cellid_scores_nothing (self self' : Bayes1d)
  (n_iter : nat) (g g' : rng) :
  decode_shuffle self n_iter "cellid" g = OK (self', g') ->
  shuffle_score self' = [].
Proof.
  unfold decode_shuffle, bindM. cbn [String.eqb Ascii.eqb Bool.eqb andb].
  destruct (cellid_branch self n_iter g) as [[res g1]|e];
    [|discriminate].
  cbn [ret]. intros H. injection H as <- _. reflexivity.
Qed.

Lemma decode_shuffle_cellid_example :
  exists g',
    decode_shuffle cellid_example 2 "cellid" (fun _ => 0%Z)
    = OK (set_shuffle_score cellid_example [], g').
Proof.
  unfold decode_shuffle, bindM. cbn [String.eqb Ascii.eqb Bool.eqb andb].
  unfold cellid_branch, bindM, lift.
  cbn.
  destruct (Rgt_dec 2 1) as [_|Hn]; [|exfalso; lra].
  cbn.
  eexists. reflexivity.
Qed.

Lemma decode_shuffle_cellid_scores_nothing_witness :
  exists self' g',
    decode_shuffle cellid_example 2 "cellid" (fun _ => 0%Z) = OK (self', g') /\
    shuffle_score self' = [].
Proof.
  destruct decode_shuffle_cellid_example as [g' H].
  exists (set_shuffle_score cellid_example []), g'.
  split; [exact H|].
  exact (decode_shuffle_cellid_scores_nothing _ _ _ _ _ H).
Defined.

(** The "column" branch, for comparison, appends one row of scores, one
    score for each event, in every iteration. *)
Lemma mapM_length {A B : Type} (f : A -> M B) (l : list A) :
  forall g ys g', mapM f l g = OK (ys, g') -> List.length ys = List.length l.
Proof.
  induction l as [|x l IH]; intros g ys g' H; simpl in H.
  - injection H as <- _. reflexivity.
  - unfold bindM in H.
    destruct (f x g) as [[y g1]|e]; [|discriminate].
    destruct (mapM f l g1) as [[ys' g2]|e] eqn:E; [|discriminate].
    injection H as <- _. simpl. f_equal. eapply IH. exact E.
Qed.

Lemma column_iteration_row (self : Bayes1d) (sc sc' : list (list R))
  (g g' : rng) :
  column_iteration self sc g = OK (sc', g') ->
  exists row, sc' = (sc ++ [row])%list /\
              List.length row = List.length (posterior self).
Proof.
  unfold column_iteration, _score_events, bindM. intros H.
  destruct (mapM col_shuffle (posterior self) g) as [[evts g1]|e] eqn:E1;
    [|discriminate].
  destruct (mapM score_event evts g1) as [[res g2]|e] eqn:E2; [|discriminate].
  cbn [ret fst] in H. injection H as <- _.
  eexists. split; [reflexivity|].
  rewrite length_map. apply mapM_length in E1, E2. congruence.
Qed.

Lemma column_loop_rows (self : Bayes1d) (n : nat) :
  forall sc g sc' g',
    iterate n (column_iteration self) sc g = OK (sc', g') ->
    Forall (fun row => List.length row = List.length (posterior self)) sc ->
    List.length sc' = (List.length sc + n)%nat /\
    Forall (fun row => List.length row = List.length (posterior self)) sc'.
Proof.
  induction n as [|n IH]; intros sc g sc' g' H Hsc; simpl in H.
  - injection H as <- _. split; [lia | exact Hsc].
  - unfold bindM in H.
    destruct (column_iteration self sc g) as [[sc1 g1]|e] eqn:E;
      [|discriminate].
    apply column_iteration_row in E as (row & -> & Hrow).
    apply IH in H as [Hlen Hall].
    + rewrite length_app in Hlen. simpl in Hlen. split; [lia | exact Hall].
    + apply Forall_app. split; [exact Hsc | repeat constructor; exact Hrow].
Qed.

Lemma decode_shuffle_column_scores_all (self self' : Bayes1d) (n_iter : nat)
  (g g' : rng) :
  decode_shuffle self n_iter "column" g = OK (self', g') ->
  List.length (shuffle_score self') = n_iter /\
  Forall (fun row => List.length row = List.length (posterior self))
         (shuffle_score self').
Proof.
  unfold decode_shuffle, bindM. cbn [String.eqb Ascii.eqb Bool.eqb andb ret].
  destruct (iterate n_iter (column_iteration self) [] g) as [[sc g1]|e] eqn:E;
    [|discriminate].
  intros H. injection H as <- _. cbn [shuffle_score set_shuffle_score].
  apply column_loop_rows in E as [Hlen Hall]; [|constructor].
  split; [exact Hlen | exact Hall].
Qed.

End DecodeShuffleFacts.


(** * Further properties of lfpEvent.py *)

Section PeakFacts.

Import LfpEvent Spec DetectorExtras.
Local Open Scope Z_scope.

(** Python's [max] and [np.argmax] on a run of samples: the value
    returned is the entry at the position returned, no entry is larger,
    and the position is one of the run. *)
Lemma argmax_from_Q_spec (l : list Q) :
  forall best besti i,
    besti < i ->
    let m := argmax_from best besti i l in
    (snd m = besti /\ fst m = best \/
     i <= snd m < i + Z.of_nat (List.length l) /\
     fst m = nth (Z.to_nat (snd m - i)) l 0%Q) /\
    (best <= fst m)%Q /\ Forall (fun x => (x <= fst m)%Q) l.
Proof.
  induction l as [|x l IH]; intros best besti i Hlt; simpl.
  - split; [left; split; reflexivity|]. split; [apply Qle_refl | constructor].
  - destruct (Qltb best x) eqn:E.
    + apply Qltb_lt in E.
      destruct (IH x i (i + 1) ltac:(lia)) as (Hpos & Hbest & Hall).
      split; [|split].
      * right. destruct Hpos as [[Hi Hv]|[Hi Hv]].
        -- rewrite Hi, Hv. split; [lia|].
           replace (i - i) with 0 by lia. reflexivity.
        -- split; [lia|]. rewrite Hv.
           replace (Z.to_nat (snd (argmax_from x i (i + 1) l) - i))
             with (S (Z.to_nat (snd (argmax_from x i (i + 1) l) - (i + 1))))
             by lia.
           reflexivity.
      * apply Qle_trans with x; [apply Qlt_le_weak; exact E | exact Hbest].
      * constructor; assumption.
    + apply Qltb_ge in E.
      destruct (IH best besti (i + 1) ltac:(lia)) as (Hpos & Hbest & Hall).
      split; [|split].
      * destruct Hpos as [[Hi Hv]|[Hi Hv]]; [left; split; assumption|].
        right. split; [lia|]. rewrite Hv.
        replace (Z.to_nat (snd (argmax_from best besti (i + 1) l) - i))
          with (S (Z.to_nat (snd (argmax_from best besti (i + 1) l) - (i + 1))))
          by lia.
        reflexivity.
      * exact Hbest.
      * constructor; [|exact Hall].
        apply Qle_trans with best; assumption.
Qed.

Lemma max_argmax_spec (l : list Q) (m : Q * Z) :
  max_argmax l = OK m ->
  0 <= snd m < Z.of_nat (List.length l) /\
  fst m = nth (Z.to_nat (snd m)) l 0%Q /\
  Forall (fun x => (x <= fst m)%Q) l.
Proof.
  destruct l as [|x l]; [discriminate|]. simpl. intros H. injection H as <-.
  destruct (argmax_from_Q_spec l x 0 1 ltac:(lia)) as (Hpos & Hbest & Hall).
  cbv zeta in Hpos, Hbest, Hall.
  split; [|split].
  - destruct Hpos as [[Hi _]|[Hi _]]; lia.
  - destruct Hpos as [[Hi Hv]|[Hi Hv]].
    + rewrite Hi, Hv. reflexivity.
    + rewrite Hv.
      replace (Z.to_nat (snd (argmax_from x 0 1 l)))
        with (S (Z.to_nat (snd (argmax_from x 0 1 l) - 1))) by lia.
      reflexivity.
  - constructor; assumption.
Qed.

Lemma slice_length {A : Type} (l : list A) (a b : Z) :
  Z.of_nat (List.length (slice l a b)) <= Z.max 0 (b - a).
Proof.
  unfold slice. rewrite length_firstn. lia.
Qed.

Lemma slice_nth {A : Type} (d : A) (l : list A) (a b : Z) (k : nat) :
  0 <= a -> (k < List.length (slice l a b))%nat ->
  nth k (slice l a b) d = nth (Z.to_nat (a + Z.of_nat k)) l d.
Proof.
  intros Ha Hk. unfold slice in *.
  rewrite length_firstn in Hk.
  rewrite nth_firstn.
  replace (k <? Z.to_nat (b - a))%nat with true
    by (symmetry; apply Nat.ltb_lt; lia).
  rewrite nth_skipn. f_equal. lia.
Qed.

Lemma max_argmax_run_peak (sig : list Q) (r : run) (m : Q * Z) :
  0 <= fst r ->
  max_argmax (slice sig (fst r) (snd r)) = OK m ->
  run_peak sig r (fst m) (fst r + snd m).
Proof.
  intros Hlo Hm. apply max_argmax_spec in Hm as (Hpos & Hval & Hall).
  pose proof (slice_length sig (fst r) (snd r)) as Hlen.
  split; [lia|]. split.
  - rewrite Hval.
    rewrite slice_nth by lia. f_equal. lia.
  - intros j Hj Hjlen.
    assert (Hk : (Z.to_nat (j - fst r)
                  < List.length (slice sig (fst r) (snd r)))%nat).
    { unfold slice. rewrite length_firstn, length_skipn. lia. }
    pose proof (proj1 (Forall_nth _ _) Hall _ 0%Q Hk) as Hle.
    simpl in Hle. rewrite slice_nth in Hle by lia.
    replace (Z.to_nat (fst r + Z.of_nat (Z.to_nat (j - fst r))))
      with (Z.to_nat j) in Hle by lia.
    exact Hle.
Qed.

Lemma Qdiv_le_pos (x y : Z) (f : Q) :
  (0 < f)%Q -> x <= y -> (inject_Z x / f <= inject_Z y / f)%Q.
Proof.
  intros Hf Hxy. unfold Qdiv. apply Qmult_le_compat_r.
  - rewrite <- Zle_Qle. exact Hxy.
  - apply Qlt_le_weak. apply Qinv_lt_0_compat. exact Hf.
Qed.

Lemma ripple_peak_rows_spec (inp : ripple_input) (maxPower : list Q)
  (sp : list run) :
  Forall (fun r => 0 <= fst r) sp ->
  forall rows,
    map_result (Ripple.peak_row inp maxPower) sp = OK rows ->
    Forall (fun row =>
              match row with
              | (r, pw, pt, sw) =>
                  (highthreshold inp < pw)%Q /\ run_peak maxPower r pw pt /\
                  fst r <= sw < snd r
              end) (concat rows).
Proof.
  induction 1 as [|r sp Hr _ IH]; simpl; intros rows H.
  - injection H as <-. constructor.
  - apply bind_OK in H as (row & Hrow & H).
    apply bind_OK in H as (rows' & Hrows & H).
    injection H as <-. simpl. apply Forall_app. split; [|apply IH; exact Hrows].
    unfold Ripple.peak_row in Hrow.
    apply bind_OK in Hrow as (m & Hm & Hrow).
    destruct (Qgtb (fst m) (highthreshold inp)) eqn:E.
    + apply bind_OK in Hrow as (sw & Hsw & Hrow). injection Hrow as <-.
      constructor; [|constructor]. split; [|split].
      * apply Qltb_lt. exact E.
      * apply max_argmax_run_peak; assumption.
      * apply max_argmax_spec in Hsw as (Hpos & _).
        pose proof (slice_length (sharpWv_sig inp) (fst r) (snd r)). lia.
    + injection Hrow as <-. constructor.
Qed.

Lemma ripple_second_pass_chain (inp : ripple_input) (sp : list run) :
  Ripple.secondPass inp = OK sp -> run_chain 0 sp.
Proof.
  unfold Ripple.secondPass. intros H.
  apply bind_OK in H as (fp & Hfp & H).
  apply ripple_first_pass_chain in Hfp.
  eapply second_pass_chain; eassumption.
Qed.

(** X1: every ripple that [Ripple.detect] emits has a peak power above
    [highthreshold]; the peak power is the largest value, over the
    samples of the ripple, of the maximum over the channels, and the peak
    time is a sample where it is attained; the peak time and the
    sharp-wave peak lie from the start of the ripple to before its end. *)
Theorem ripple_peak_is_run_maximum (inp : ripple_input) (evs : list event) :
  (0 < SampFreq inp)%Q ->
  Ripple.detect inp = OK evs ->
  exists maxPower,
    reduce_axis0 Qmax (zscsignal inp) = OK maxPower /\
    Forall (fun e =>
              (highthreshold inp < peakNormalizedPower e)%Q /\
              (start e <= peaktime e)%Q /\ (peaktime e < end_ e)%Q /\
              (start e <= peakSharpWave e)%Q /\
              (peakSharpWave e < end_ e)%Q /\
              exists r pt,
                start e = (inject_Z (fst r) / SampFreq inp)%Q /\
                end_ e = (inject_Z (snd r) / SampFreq inp)%Q /\
                peaktime e = (inject_Z pt / SampFreq inp)%Q /\
                run_peak maxPower r (peakNormalizedPower e) pt) evs.
Proof.
  intros Hf H. unfold Ripple.detect in H.
  apply bind_OK in H as (rows & Hrows & H). injection H as <-.
  unfold Ripple.frame in Hrows.
  apply bind_OK in Hrows as (tp & Htp & Hrows).
  unfold Ripple.thirdPass in Htp.
  apply bind_OK in Htp as (maxPower & Hmax & Htp).
  apply bind_OK in Htp as (sp & Hsp & Htp).
  apply bind_OK in Htp as (rows0 & Hrows0 & Htp). injection Htp as <-.
  apply ripple_second_pass_chain in Hsp. apply run_chain_lower in Hsp.
  apply (ripple_peak_rows_spec inp maxPower sp Hsp) in Hrows0.
  exists maxPower. split; [exact Hmax|].
  assert (Hr : rows = map (fun row =>
                match row with
                | (r, pw, pt, sw) =>
                    (r, pw, pt, sw, (inject_Z (snd r - fst r) / SampFreq inp)%Q)
                end) (concat rows0)).
  { destruct (concat rows0); [discriminate | injection Hrows as <-; reflexivity]. }
  clear Hrows. subst rows.
  apply Forall_map. apply Forall_forall. intros row Hin.
  apply filter_In in Hin as [Hin _].
  apply filter_In in Hin as [Hin _].
  apply in_map_iff in Hin as ([[[r pw] pt] sw] & <- & Hin).
  pose proof (proj1 (Forall_forall _ _) Hrows0 _ Hin) as (Hpw & Hpeak & Hsw).
  simpl.
  pose proof Hpeak as ([Hlo Hhi] & _).
  split; [exact Hpw|].
  split; [apply Qdiv_le_pos; assumption|].
  split; [apply Qdiv_lt_pos; assumption|].
  split; [apply Qdiv_le_pos; [assumption | lia]|].
  split; [apply Qdiv_lt_pos; [assumption | lia]|].
  exists r, pt. repeat split; try reflexivity; apply Hpeak.
Qed.

Lemma ripple_peak_is_run_maximum_witness :
  exists maxPower,
    reduce_axis0 Qmax (zscsignal merge_example) = OK maxPower /\
    Forall (fun e =>
              (highthreshold merge_example < peakNormalizedPower e)%Q /\
              (start e <= peaktime e)%Q /\ (peaktime e < end_ e)%Q /\
              (start e <= peakSharpWave e)%Q /\
              (peakSharpWave e < end_ e)%Q /\
              exists r pt,
                start e = (inject_Z (fst r) / SampFreq merge_example)%Q /\
                end_ e = (inject_Z (snd r) / SampFreq merge_example)%Q /\
                peaktime e = (inject_Z pt / SampFreq merge_example)%Q /\
                run_peak maxPower r (peakNormalizedPower e) pt)
           [mkEvent 0.1 0.8 6 0.3 0.2 0.7; mkEvent 1.3 1.6 6 1.4 1.4 0.3].
Proof.
  apply (ripple_peak_is_run_maximum merge_example).
  - reflexivity.
  - vm_compute. reflexivity.
Defined.

End PeakFacts.

Section MergeFacts.

Import LfpEvent Spec DetectorExtras.
Local Open Scope Z_scope.

Lemma merge_loop_covers (g : Q) (rest : list run) :
  forall s e lo x,
    run_chain lo ((s, e) :: rest) ->
    covers (s, e) x \/ In x rest ->
    Exists (fun m => covers m x) (merge_loop g (s, e) rest).
Proof.
  induction rest as [|[s' e'] rest IH]; intros s e lo x Hch Hx; simpl.
  - destruct Hx as [Hx|[]]. apply Exists_cons_hd. exact Hx.
  - inversion Hch as [| ? ? ? ? Hlo Hse Hrest]; subst.
    inversion Hrest as [| ? ? ? ? Hes Hse' Hrest']; subst.
    destruct (Qltb _ g).
    + apply (IH s e' lo).
      * apply chain_cons; [lia | lia | exact Hrest'].
      * destruct Hx as [[Hx1 Hx2]|[<-|Hx]].
        -- left. split; simpl in *; lia.
        -- left. split; simpl; lia.
        -- right. exact Hx.
    + destruct Hx as [Hx|Hx].
      * apply Exists_cons_hd. exact Hx.
      * apply Exists_cons_tl. apply (IH s' e' (e + 1)); [exact Hrest|].
        destruct Hx as [<-|Hx]; [left; split; simpl; lia | right; exact Hx].
Qed.

Lemma merge_loop_spans (g : Q) (fp rest : list run) :
  forall ripple,
    spans_of fp ripple -> Forall (fun r => In r fp) rest ->
    Forall (spans_of fp) (merge_loop g ripple rest).
Proof.
  induction rest as [|r rest IH]; intros ripple Hr Hrest; simpl.
  - repeat constructor. exact Hr.
  - inversion Hrest as [|? ? Hin Hrest']; subst.
    destruct (Qltb _ g).
    + apply IH; [|exact Hrest'].
      destruct Hr as (a & b & Ha & Hb & Hfa & Hsb).
      exists a, r. repeat split; assumption.
    + constructor; [exact Hr|]. apply IH; [|exact Hrest'].
      exists r, r. repeat split; assumption.
Qed.

Lemma merge_loop_length (g : Q) (rest : list run) :
  forall ripple,
    (List.length (merge_loop g ripple rest) <= S (List.length rest))%nat.
Proof.
  induction rest as [|r rest IH]; intros ripple; simpl; [lia|].
  destruct (Qltb _ g).
  - specialize (IH (fst ripple, snd r)). lia.
  - specialize (IH r). simpl. lia.
Qed.

Lemma second_pass_covers (g : Q) (fp sp : list run) :
  run_chain 0 fp -> second_pass g fp = OK sp ->
  (List.length sp <= List.length fp)%nat /\
  Forall (fun x => Exists (fun m => covers m x) sp) fp /\
  Forall (spans_of fp) sp.
Proof.
  intros Hch H. unfold second_pass in H.
  destruct fp as [|[s e] rest]; [discriminate|].
  simpl in H. injection H as <-.
  split; [|split].
  - apply merge_loop_length.
  - apply Forall_forall. intros x Hx.
    apply (merge_loop_covers g rest s e 0 x Hch).
    destruct Hx as [<-|Hx]; [left; split; simpl; lia | right; exact Hx].
  - apply merge_loop_spans.
    + exists (s, e), (s, e). repeat split; left; reflexivity.
    + apply Forall_forall. intros r Hr. right. exact Hr.
Qed.

Lemma spindle_first_pass_chain (inp : spindle_input) (fp : list run) :
  Spindle.firstPass inp = OK fp -> run_chain 0 fp.
Proof.
  unfold Spindle.firstPass, Spindle.edges. simpl. intros H.
  destruct (mask_edges_alternating
              (where_gt Spindle.lowthresholdFactor (sp_zscsignal inp)))
    as [b Hb].
  - unfold where_gt. apply Forall_map. apply Forall_forall. intros z _.
    destruct (Qgtb z Spindle.lowthresholdFactor); [right | left]; reflexivity.
  - eapply first_pass_chain; eassumption.
Qed.

Lemma spindle_second_pass_chain (inp : spindle_input) (sp : list run) :
  Spindle.secondPass inp = OK sp -> run_chain 0 sp.
Proof.
  unfold Spindle.secondPass. intros H.
  apply bind_OK in H as (fp & Hfp & H).
  apply spindle_first_pass_chain in Hfp.
  eapply second_pass_chain; eassumption.
Qed.

(** X2: merging loses no detection and invents no boundary: in both
    detectors every run of the first pass lies inside a run of the
    second pass, every run of the second pass goes from the start of a
    first-pass run to the end of one, and there are no more runs after
    merging than before. *)
Theorem second_pass_covers_first_pass :
  (forall inp sp,
      Ripple.secondPass inp = OK sp ->
      exists fp,
        Ripple.firstPass inp = OK fp /\
        (List.length sp <= List.length fp)%nat /\
        Forall (fun x => Exists (fun m => covers m x) sp) fp /\
        Forall (spans_of fp) sp) /\
  (forall inp sp,
      Spindle.secondPass inp = OK sp ->
      exists fp,
        Spindle.firstPass inp = OK fp /\
        (List.length sp <= List.length fp)%nat /\
        Forall (fun x => Exists (fun m => covers m x) sp) fp /\
        Forall (spans_of fp) sp).
Proof.
  split; intros inp sp H.
  - unfold Ripple.secondPass in H.
    apply bind_OK in H as (fp & Hfp & H).
    exists fp. split; [exact Hfp|].
    eapply second_pass_covers; [|exact H].
    apply ripple_first_pass_chain with (inp := inp). exact Hfp.
  - unfold Spindle.secondPass in H.
    apply bind_OK in H as (fp & Hfp & H).
    exists fp. split; [exact Hfp|].
    eapply second_pass_covers; [|exact H].
    apply spindle_first_pass_chain with (inp := inp). exact Hfp.
Qed.

Lemma second_pass_covers_first_pass_witness :
  (exists fp,
      Ripple.firstPass merge_example = OK fp /\
      (List.length ([(1, 8); (13, 16); (18, 19)]%Z : list run) <= List.length fp)%nat /\
      Forall (fun x => Exists (fun m => covers m x)
                              [(1, 8); (13, 16); (18, 19)]) fp /\
      Forall (spans_of fp) [(1, 8); (13, 16); (18, 19)]) /\
  (exists fp,
      Spindle.firstPass (mkSpindleInput (sp_zscsignal spindle_example) 20 []) = OK fp /\
      (List.length ([(1, 9); (14, 21)]%Z : list run) <= List.length fp)%nat /\
      Forall (fun x => Exists (fun m => covers m x)
                              [(1, 9); (14, 21)]) fp /\
      Forall (spans_of fp) [(1, 9); (14, 21)]).
Proof.
  split.
  - apply (proj1 second_pass_covers_first_pass merge_example).
    vm_compute. reflexivity.
  - apply (proj2 second_pass_covers_first_pass
             (mkSpindleInput (sp_zscsignal spindle_example) 20 [])).
    vm_compute. reflexivity.
Defined.

(** Along a chain of runs the gap to a later run only grows, so the
    merge invariant between neighbours holds between any two runs. *)
Lemma chain_gap_strong (g : Q) (l : list run) :
  forall lo, run_chain lo l -> merge_invariant g l ->
             StronglySorted (gap_ok g) l.
Proof.
  unfold merge_invariant.
  induction l as [|a l IH]; intros lo Hch Hs; [constructor|].
  inversion Hch as [| ? s e ? Hlo Hse Hrest]; subst.
  apply Sorted_inv in Hs as [Hs Hhd].
  pose proof (IH _ Hrest Hs) as Hss.
  constructor; [exact Hss|].
  destruct l as [|b l']; [constructor|].
  inversion Hhd as [|? ? Hab]; subst.
  constructor; [exact Hab|].
  apply StronglySorted_inv in Hss as [_ Hall].
  inversion Hrest as [| ? s' e' ? Hlo' Hse' Hrest']; subst.
  eapply Forall_impl; [|exact Hall].
  intros x Hx. unfold gap_ok in *. simpl in *.
  eapply Qle_trans; [exact Hx|].
  rewrite <- Zle_Qle. lia.
Qed.

Lemma StronglySorted_Forall2 {A B : Type} (RA : A -> A -> Prop)
  (RB : B -> B -> Prop) (rel : A -> B -> Prop) (la : list A) (lb : list B) :
  (forall a1 b1 a2 b2, rel a1 b1 -> rel a2 b2 -> RB b1 b2 -> RA a1 a2) ->
  Forall2 rel la lb -> StronglySorted RB lb -> StronglySorted RA la.
Proof.
  intros Hrel H2. induction H2 as [|a b la lb Hab H2 IH]; intros Hss.
  - constructor.
  - apply StronglySorted_inv in Hss as [Hss Hall].
    constructor; [apply IH; exact Hss|].
    clear IH Hss. induction H2 as [|a' b' la lb Hab' _ IH]; constructor.
    + inversion Hall; subst. eapply Hrel; eassumption.
    + apply IH. inversion Hall; assumption.
Qed.

Lemma gap_in_seconds (f md : Q) (a b : Z) :
  (0 < f)%Q -> (md * f <= inject_Z (b - a))%Q ->
  (md <= inject_Z b / f - inject_Z a / f)%Q.
Proof.
  intros Hf H. rewrite <- (Qdiv_sub _ _ _ Hf).
  apply Qle_shift_div_l; assumption.
Qed.

(** X3: any two ripples that [Ripple.detect] emits are at least
    [mergeDistance] seconds apart, from the end of the earlier one to the
    start of the later one. *)
Theorem ripples_are_merge_distance_apart (inp : ripple_input)
  (evs : list event) :
  (0 < SampFreq inp)%Q ->
  Ripple.detect inp = OK evs ->
  StronglySorted (fun a b => (mergeDistance inp <= start b - end_ a)%Q) evs.
Proof.
  intros Hf H.
  destruct (ripple_detect_runs inp evs H) as (sp & runs & Hsp & Hsub & H2 & _).
  pose proof (ripple_second_pass_chain inp sp Hsp) as Hch.
  assert (Hgap : merge_invariant (mergeDistance inp * SampFreq inp) sp).
  { unfold Ripple.secondPass in Hsp.
    apply bind_OK in Hsp as (fp & _ & Hsp).
    eapply second_pass_gap. exact Hsp. }
  pose proof (chain_gap_strong _ sp 0 Hch Hgap) as Hss.
  pose proof (subseq_StronglySorted _ _ _ Hsub Hss) as Hruns.
  eapply StronglySorted_Forall2; [|exact H2|exact Hruns].
  intros e1 r1 e2 r2 (_ & He1 & _) (Hs2 & _ & _) Hg. simpl in *.
  rewrite He1, Hs2. apply gap_in_seconds; assumption.
Qed.

Lemma ripples_are_merge_distance_apart_witness :
  StronglySorted
    (fun a b => (mergeDistance merge_example <= start b - end_ a)%Q)
    [mkEvent 0.1 0.8 6 0.3 0.2 0.7; mkEvent 1.3 1.6 6 1.4 1.4 0.3].
Proof.
  apply (ripples_are_merge_distance_apart merge_example).
  - reflexivity.
  - vm_compute. reflexivity.
Defined.

End MergeFacts.

Section SpindleFacts.

Import LfpEvent Spec DetectorExtras.
Local Open Scope Z_scope.

Lemma spindle_peak_rows_spec (inp : spindle_input) (sp : list run) :
  Forall (fun r => 0 <= fst r) sp ->
  forall rows,
    map_result (Spindle.peak_row inp) sp = OK rows ->
    subseq (map (fun row => fst (fst row)) (concat rows)) sp /\
    Forall (fun row =>
              (Spindle.highthresholdFactor <= snd (fst row))%Q /\
              run_peak (sp_zscsignal inp) (fst (fst row)) (snd (fst row))
                       (snd row))
           (concat rows).
Proof.
  induction 1 as [|r sp Hr _ IH]; simpl; intros rows H.
  - injection H as <-. split; constructor.
  - apply bind_OK in H as (row & Hrow & H).
    apply bind_OK in H as (rows' & Hrows & H).
    injection H as <-. simpl. rewrite map_app.
    destruct (IH _ Hrows) as [IHs IHf].
    unfold Spindle.peak_row in Hrow.
    apply bind_OK in Hrow as (m & Hm & Hrow).
    destruct (Qgeb (fst m) Spindle.highthresholdFactor) eqn:E.
    + injection Hrow as <-. simpl. split.
      * apply subseq_keep. exact IHs.
      * constructor; [|exact IHf]. simpl. split.
        -- apply Qle_bool_iff. exact E.
        -- apply max_argmax_run_peak; assumption.
    + injection Hrow as <-. simpl. split.
      * apply subseq_skip. exact IHs.
      * exact IHf.
Qed.

Lemma in_arange (x a b : Z) : In x (Spindle.arange a b) -> a <= x < b.
Proof.
  unfold Spindle.arange. intros H. apply in_map_iff in H as (k & <- & Hk).
  apply in_seq in Hk. lia.
Qed.

Lemma in_frames_nrem (inp : spindle_input) (x : Z) :
  Spindle.in_frames x (Spindle.reqframes inp) = true ->
  exists se, In se (nrem inp) /\
             Spindle.astype_int (fst se * sampleRate inp) <= x
             < Spindle.astype_int (snd se * sampleRate inp).
Proof.
  unfold Spindle.in_frames, Spindle.reqframes. intros H.
  apply existsb_exists in H as (y & Hy & Heq).
  apply Z.eqb_eq in Heq. subst y.
  apply in_flat_map in Hy as (se & Hse & Hx).
  exists se. split; [exact Hse|]. apply in_arange. exact Hx.
Qed.

(** What [Spindle.detect] saves, row by row. *)
Lemma spindle_detect_rows (inp : spindle_input) (sp : spindles) :
  Spindle.detect inp = OK sp ->
  exists (sp2 : list run) (rows : list (run * Q * Z * Q)),
    Spindle.secondPass inp = OK sp2 /\
    subseq (map (fun row => fst (fst (fst row))) rows) sp2 /\
    times sp
    = map (fun row =>
             (inject_Z (fst (fst (fst (fst row)))) / sampleRate inp,
              inject_Z (snd (fst (fst (fst row)))) / sampleRate inp)%Q) rows /\
    peakPower sp = map (fun row => snd (fst (fst row))) rows /\
    sp_peaktime sp
    = map (fun row => (inject_Z (snd (fst row)) / sampleRate inp)%Q) rows /\
    Forall (fun row =>
              (Spindle.highthresholdFactor <= snd (fst (fst row)))%Q /\
              run_peak (sp_zscsignal inp) (fst (fst (fst row)))
                       (snd (fst (fst row))) (snd (fst row)) /\
              Spindle.in_frames (fst (fst (fst (fst row))))
                                (Spindle.reqframes inp) = true) rows.
Proof.
  intros H. unfold Spindle.detect in H.
  apply bind_OK in H as (rows5 & H5 & H). injection H as <-. simpl.
  apply fifthPass_rows in H5 as (rows4 & H4 & _ & ->).
  unfold Spindle.fourthPass in H4.
  apply bind_OK in H4 as (rowsd & Hd & H4). injection H4 as <-.
  unfold Spindle.with_duration in Hd.
  apply bind_OK in Hd as (tp & Htp & Hd).
  assert (Hr : rowsd = map (fun row =>
                 (row, (inject_Z (snd (fst (fst row)) - fst (fst (fst row)))
                        / sampleRate inp * 1000)%Q)) tp).
  { destruct tp; [discriminate | injection Hd as <-; reflexivity]. }
  clear Hd. subst rowsd.
  unfold Spindle.thirdPass in Htp.
  apply bind_OK in Htp as (sp2 & Hsp2 & Htp).
  apply bind_OK in Htp as (rows0 & Hrows0 & Htp). injection Htp as <-.
  pose proof (spindle_second_pass_chain inp sp2 Hsp2) as Hch.
  apply run_chain_lower in Hch.
  destruct (spindle_peak_rows_spec inp sp2 Hch rows0 Hrows0) as [Hsub Hall].
  eexists sp2, _. split; [exact Hsp2|].
  split; [|split; [reflexivity|split; [reflexivity|split; [reflexivity|]]]].
  - eapply subseq_trans; [|exact Hsub].
    replace (map (fun row => fst (fst row)) (concat rows0))
      with (map (fun row : run * Q * Z * Q => fst (fst (fst row)))
                (map (fun row =>
                        (row, (inject_Z (snd (fst (fst row))
                                         - fst (fst (fst row)))
                               / sampleRate inp * 1000)%Q)) (concat rows0)))
      by (rewrite map_map; reflexivity).
    apply subseq_map.
    eapply subseq_trans; apply subseq_filter.
  - apply Forall_forall. intros row Hin.
    apply filter_In in Hin as [Hin Hnrem].
    apply filter_In in Hin as [Hin _].
    apply in_map_iff in Hin as (row3 & <- & Hin3).
    pose proof (proj1 (Forall_forall _ _) Hall _ Hin3) as [Hpw Hpeak].
    simpl in *. split; [exact Hpw|]. split; [exact Hpeak | exact Hnrem].
Qed.

(** X4: the three arrays that [Spindle.detect] saves go together and
    describe separated events: they have one length; every spindle ends
    after it starts; two spindles are at least [mergeDistance]
    milliseconds apart; every peak power is at least the high threshold;
    every peak time is from the start of its spindle to before its
    end. *)
Theorem spindle_table_is_consistent (inp : spindle_input) (sp : spindles) :
  (0 < sampleRate inp)%Q ->
  Spindle.detect inp = OK sp ->
  List.length (peakPower sp) = List.length (times sp) /\
  List.length (sp_peaktime sp) = List.length (times sp) /\
  Forall (fun t => (fst t < snd t)%Q) (times sp) /\
  StronglySorted
    (fun a b => (Spindle.mergeDistance / 1000 <= fst b - snd a)%Q)
    (times sp) /\
  Forall (fun pw => (Spindle.highthresholdFactor <= pw)%Q) (peakPower sp) /\
  Forall2 (fun t pk => (fst t <= pk)%Q /\ (pk < snd t)%Q)
          (times sp) (sp_peaktime sp).
Proof.
  intros Hf H.
  destruct (spindle_detect_rows inp sp H)
    as (sp2 & rows & Hsp2 & Hsub & -> & -> & -> & Hall).
  pose proof (spindle_second_pass_chain inp sp2 Hsp2) as Hch.
  assert (Hgap : merge_invariant
                   (Spindle.mergeDistance / 1000 * sampleRate inp) sp2).
  { unfold Spindle.secondPass in Hsp2.
    apply bind_OK in Hsp2 as (fp & _ & Hsp2).
    eapply second_pass_gap. exact Hsp2. }
  pose proof (chain_gap_strong _ sp2 0 Hch Hgap) as Hss.
  pose proof (subseq_StronglySorted _ _ _ Hsub Hss) as Hruns.
  destruct (run_chain_sorted 0 sp2 Hch) as [Hlt _].
  pose proof (subseq_Forall _ _ _ Hsub Hlt) as Hlt'.
  rewrite !length_map.
  split; [reflexivity|]. split; [reflexivity|].
  split; [|split; [|split]].
  - apply Forall_map. rewrite Forall_map in Hlt'.
    eapply Forall_impl; [|exact Hlt']. intros row Hrow. simpl in *.
    apply Qdiv_lt_pos; assumption.
  - eapply (StronglySorted_Forall2 _ _
              (fun (t : Q * Q) (r : run) =>
                 t = (inject_Z (fst r) / sampleRate inp,
                      inject_Z (snd r) / sampleRate inp)%Q));
      [| |exact Hruns].
    + intros t1 r1 t2 r2 -> -> Hg. simpl.
      apply gap_in_seconds; assumption.
    + clear. induction rows as [|row rows IH]; simpl; constructor;
        [reflexivity | exact IH].
  - apply Forall_map. eapply Forall_impl; [|exact Hall].
    intros row (Hpw & _). exact Hpw.
  - clear -Hf Hall. induction Hall as [|row rows Hrow _ IH]; simpl;
      constructor; [|exact IH].
    destruct Hrow as (_ & ([Hlo Hhi] & _) & _). simpl. split.
    + apply Qdiv_le_pos; assumption.
    + apply Qdiv_lt_pos; assumption.
Qed.

Lemma spindle_table_is_consistent_witness :
  exists sp,
    Spindle.detect sleep_example = OK sp /\
    List.length (times sp) = 2%nat /\
    List.length (peakPower sp) = List.length (times sp) /\
    List.length (sp_peaktime sp) = List.length (times sp) /\
    Forall (fun t => (fst t < snd t)%Q) (times sp) /\
    StronglySorted
      (fun a b => (Spindle.mergeDistance / 1000 <= fst b - snd a)%Q)
      (times sp) /\
    Forall (fun pw => (Spindle.highthresholdFactor <= pw)%Q) (peakPower sp) /\
    Forall2 (fun t pk => (fst t <= pk)%Q /\ (pk < snd t)%Q)
            (times sp) (sp_peaktime sp).
Proof.
  eexists. split; [vm_compute; reflexivity|]. split; [reflexivity|].
  apply (spindle_table_is_consistent sleep_example).
  - reflexivity.
  - vm_compute. reflexivity.
Defined.

Lemma marked_nonempty {A B : Type} (f : A * B -> bool) (l : list (A * B)) :
  map fst (filter f l) <> [] -> exists p, In p l /\ f p = true.
Proof.
  intros H. destruct (filter f l) as [|p rest] eqn:E;
    [contradiction H; reflexivity|].
  exists p. apply filter_In. rewrite E. left. reflexivity.
Qed.

Lemma filter_drops {A : Type} (f : A -> bool) (l : list A) (x : A) :
  In x l -> f x = false ->
  (List.length (filter f l) < List.length l)%nat.
Proof.
  induction l as [|a l IH]; intros Hin Hx; [contradiction|].
  simpl. pose proof (filter_length_le f l) as Hle.
  destruct Hin as [->|Hin].
  - rewrite Hx. lia.
  - specialize (IH Hin Hx). destruct (f a); simpl; lia.
Qed.

(** X5: every spindle that [Spindle.detect] saves starts at a frame of
    an nrem period: between the first frame of the period, included, and
    its last frame, excluded.  (Its end is not looked at.)  And a table
    is saved only when this filter has something to delete: at least one
    spindle that passed the duration filter starts outside nrem and is
    dropped.  With none to drop, [np.delete] is handed an empty array of
    floats as the rows to delete and raises IndexError. *)
Theorem spindle_starts_in_nrem (inp : spindle_input) (sp : spindles) :
  Spindle.detect inp = OK sp ->
  Forall (fun t =>
            exists (k : Z) (period : Q * Q),
              In period (nrem inp) /\
              fst t = (inject_Z k / sampleRate inp)%Q /\
              Spindle.astype_int (fst period * sampleRate inp) <= k
              < Spindle.astype_int (snd period * sampleRate inp))
         (times sp) /\
  exists rows4,
    Spindle.fourthPass inp = OK rows4 /\
    (List.length (times sp) < List.length rows4)%nat.
Proof.
  intros H. split.
  - destruct (spindle_detect_rows inp sp H)
      as (sp2 & rows & _ & _ & -> & _ & _ & Hall).
    apply Forall_map. eapply Forall_impl; [|exact Hall].
    intros row (_ & _ & Hin). simpl.
    destruct (in_frames_nrem inp _ Hin) as (se & Hse & Hrange).
    exists (fst (fst (fst (fst row)))), se. auto.
  - unfold Spindle.detect in H.
    apply bind_OK in H as (rows5 & H5 & H). injection H as <-.
    apply fifthPass_rows in H5 as (rows4 & H4 & Hout & ->).
    exists rows4. split; [exact H4|]. cbn [times]. rewrite length_map.
    unfold Spindle.outside_spindles in Hout.
    apply marked_nonempty in Hout as ([i x] & Hin & Hx). cbn [snd] in Hx.
    apply negb_true_iff in Hx. apply in_combine_r in Hin.
    exact (filter_drops _ rows4 x Hin Hx).
Qed.

Lemma spindle_starts_in_nrem_witness :
  exists sp,
    Spindle.detect sleep_example = OK sp /\
    List.length (times sp) = 2%nat /\
    Forall (fun t =>
              exists (k : Z) (period : Q * Q),
                In period (nrem sleep_example) /\
                fst t = (inject_Z k / sampleRate sleep_example)%Q /\
                Spindle.astype_int (fst period * sampleRate sleep_example)
                <= k
                < Spindle.astype_int (snd period * sampleRate sleep_example))
           (times sp) /\
    exists rows4,
      Spindle.fourthPass sleep_example = OK rows4 /\
      (List.length (times sp) < List.length rows4)%nat.
Proof.
  eexists. split; [vm_compute; reflexivity|]. split; [reflexivity|].
  apply (spindle_starts_in_nrem sleep_example).
  vm_compute. reflexivity.
Defined.

(** The same recording with nrem from its beginning: the burst of 350 ms
    starts in nrem too, nothing is left to delete, and the fifth pass
    raises. *)
Example spindle_detect_all_in_nrem_raises :
  Spindle.detect (mkSpindleInput (sp_zscsignal sleep_example) 1000 [(0, 3)%Q])
  = Raise IndexError.
Proof. vm_compute. reflexivity. Qed.

End SpindleFacts.

Section RippleFailureFacts.

Import LfpEvent Spec DetectorExtras.
Local Open Scope Z_scope.

Lemma where_eq_from_bound (k : Z) (v : list Z) :
  forall off,
    Forall (fun i => off <= i < off + Z.of_nat (List.length v))
           (where_eq_from k off v).
Proof.
  induction v as [|x v IH]; intros off; simpl; [constructor|].
  specialize (IH (off + 1)).
  assert (Hw : Forall (fun i => off <= i < off + Z.pos (Pos.of_succ_nat
                                                          (List.length v)))
                      (where_eq_from k (off + 1) v)).
  { eapply Forall_impl; [|exact IH]. intros i Hi. simpl in Hi. lia. }
  destruct (x =? k); [constructor; [lia | exact Hw] | exact Hw].
Qed.

Lemma last_item_nonempty {A : Type} (x : A) (l : list A) :
  exists y, last_item (x :: l) = OK y.
Proof.
  revert x. induction l as [|z l IH]; intros x; [eexists; reflexivity|].
  rewrite last_item_cons. apply IH.
Qed.

(** On edges that take turns the first pass pairs all of them: it can
    fail for want of an edge, never for two vectors of different
    lengths. *)
Lemma first_pass_alternating (b : bool) (lo : Z) (starts stops : list Z)
  (e : exn) :
  alternating b lo starts stops ->
  first_pass starts stops = Raise e -> e = IndexError.
Proof.
  intros Halt Hfp. unfold first_pass in Hfp.
  destruct starts as [|s ss]; [simpl in Hfp; congruence|].
  destruct stops as [|t ts]; [simpl in Hfp; congruence|].
  cbn [Py.bind first tl] in Hfp.
  assert (Hcore : exists stops',
            (if s >? t then ts else t :: ts) = stops' /\
            alternating true lo (s :: ss) stops').
  { inversion Halt as [| ? ? ? ? Hlo Hf | ? ? ? ? Hlo Ht]; subst.
    - inversion Hf as [| | ? ? ? ? Hst Ht']; subst.
      replace (s >? t) with false by lia. eexists; split; [reflexivity|].
      exact Halt.
    - inversion Ht as [| ? ? ? ? Hts Hf' |]; subst.
      replace (s >? t) with true by lia. eexists; split; [reflexivity|].
      apply alternating_weaken with (lo := t + 1); [lia | exact Ht]. }
  destruct Hcore as (stops' & Heq & Halt'). rewrite Heq in Hfp. clear Heq.
  destruct (last_item_nonempty s ss) as [sl Hsl]. rewrite Hsl in Hfp.
  cbn [Py.bind] in Hfp.
  destruct (last_item stops') as [tl_|e'] eqn:Htl.
  - cbn [Py.bind] in Hfp.
    destruct (trim_last_chain _ _ _ _ _ Halt' Hsl Htl) as [Hlen _].
    cbv zeta in Hlen. apply Nat.eqb_eq in Hlen. rewrite Hlen in Hfp.
    discriminate.
  - cbn [Py.bind] in Hfp. injection Hfp as <-.
    destruct stops' as [|t' ts']; [simpl in Htl; congruence|].
    destruct (last_item_nonempty t' ts') as [y Hy]. congruence.
Qed.

Lemma first_pass_stops (starts stops : list Z) (fp : list run) :
  first_pass starts stops = OK fp -> Forall (fun r => In (snd r) stops) fp.
Proof.
  unfold first_pass. intros H.
  apply bind_OK in H as (s0 & _ & H).
  apply bind_OK in H as (t0 & _ & H).
  apply bind_OK in H as (sl & _ & H).
  apply bind_OK in H as (tl_ & _ & H).
  match type of H with
  | (if ?c then _ else _) = _ => destruct c; [|discriminate]
  end.
  injection H as <-. apply Forall_forall. intros [s t] Hin.
  apply in_combine_r in Hin. simpl.
  destruct (s0 >? t0); [|exact Hin].
  destruct stops; [exact Hin | right; exact Hin].
Qed.

Lemma fold_zip_length {A : Type} (f : A -> A -> A) (n : nat)
  (rs : list (list A)) :
  forall r,
    Forall (fun r' => List.length r' = n) rs -> List.length r = n ->
    List.length (fold_left (zip_with f) rs r) = n.
Proof.
  induction rs as [|r' rs IH]; intros r Hrs Hr; simpl; [exact Hr|].
  inversion Hrs as [|? ? Hr' Hrs']; subst.
  apply IH; [exact Hrs'|]. rewrite length_zip_with. lia.
Qed.

Lemma reduce_axis0_length {A : Type} (f : A -> A -> A) (n : nat)
  (rows : list (list A)) (v : list A) :
  Forall (fun r => List.length r = n) rows ->
  reduce_axis0 f rows = OK v -> List.length v = n.
Proof.
  intros Hall H. destruct rows as [|r rs]; [discriminate|].
  simpl in H. injection H as <-.
  inversion Hall; subst. apply fold_zip_length; [assumption | reflexivity].
Qed.

Lemma diff_length (v : list Z) :
  List.length (diff v) = (List.length v - 1)%nat.
Proof.
  unfold diff. rewrite length_zip_with.
  destruct v as [|x v]; [reflexivity|]. cbn [tl List.length]. lia.
Qed.

Lemma max_argmax_slice_returns (sig : list Q) (r : run) :
  0 <= fst r < snd r -> snd r < Z.of_nat (List.length sig) ->
  exists m, max_argmax (slice sig (fst r) (snd r)) = OK m.
Proof.
  intros Hr Hlen.
  destruct (slice sig (fst r) (snd r)) as [|x l] eqn:E.
  - apply (f_equal (@List.length Q)) in E. unfold slice in E.
    rewrite length_firstn, length_skipn in E. simpl in E. lia.
  - eexists. reflexivity.
Qed.

Lemma ripple_peak_rows_return (inp : ripple_input) (maxPower : list Q)
  (sp : list run) :
  Forall (fun r => 0 <= fst r < snd r /\
                   snd r < Z.of_nat (List.length maxPower) /\
                   snd r < Z.of_nat (List.length (sharpWv_sig inp))) sp ->
  exists rows, map_result (Ripple.peak_row inp maxPower) sp = OK rows.
Proof.
  induction 1 as [|r sp (Hr & Hm & Hs) _ [rows IH]]; simpl.
  - eexists. reflexivity.
  - unfold Ripple.peak_row at 1.
    destruct (max_argmax_slice_returns maxPower r Hr Hm) as [m ->].
    destruct (max_argmax_slice_returns (sharpWv_sig inp) r Hr Hs) as [sw ->].
    cbn [Py.bind]. rewrite IH.
    destruct (Qgtb (fst m) (highthreshold inp)); cbn [Py.bind];
      eexists; reflexivity.
Qed.

(** The runs of the second pass are runs of samples of the recording. *)
Lemma ripple_second_pass_in_range (inp : ripple_input) (n : nat)
  (sp : list run) :
  Forall (fun ch => List.length ch = n) (zscsignal inp) ->
  Ripple.secondPass inp = OK sp ->
  Forall (fun r => 0 <= fst r < snd r /\ snd r < Z.of_nat n) sp.
Proof.
  intros Hshape Hsp.
  pose proof (ripple_second_pass_chain inp sp Hsp) as Hch.
  pose proof (run_chain_lower _ _ Hch) as Hlo.
  destruct (run_chain_sorted _ _ Hch) as [Hlt _].
  unfold Ripple.secondPass in Hsp.
  apply bind_OK in Hsp as (fp & Hfp & Hsp).
  pose proof (ripple_first_pass_chain inp fp Hfp) as Hfpch.
  destruct (second_pass_covers _ fp sp Hfpch Hsp) as (_ & _ & Hspans).
  assert (Hstops : Forall (fun r => snd r < Z.of_nat n) fp).
  { unfold Ripple.firstPass, Ripple.edges in Hfp.
    apply bind_OK in Hfp as (se & Hse & Hfp).
    apply bind_OK in Hse as (counts & Hcounts & Hse). injection Hse as <-.
    simpl in Hfp. apply first_pass_stops in Hfp.
    eapply Forall_impl; [|exact Hfp]. intros r Hin. simpl in Hin.
    unfold where_eq in Hin.
    pose proof (where_eq_from_bound (-1)
                  (diff (map (fun c => if c >? 0 then 1 else 0) counts)) 0)
      as Hb.
    pose proof (proj1 (Forall_forall _ _) Hb _ Hin) as Hr. simpl in Hr.
    rewrite diff_length, length_map in Hr.
    apply reduce_axis0_length with (n := n) in Hcounts.
    - lia.
    - apply Forall_map. eapply Forall_impl; [|exact Hshape].
      intros ch Hch'. simpl in Hch'. unfold where_gt.
      rewrite length_map. exact Hch'. }
  apply Forall_forall. intros r Hin.
  pose proof (proj1 (Forall_forall _ _) Hlo _ Hin) as H1.
  pose proof (proj1 (Forall_forall _ _) Hlt _ Hin) as H2.
  pose proof (proj1 (Forall_forall _ _) Hspans _ Hin)
    as (a & b & _ & Hb & _ & Hsnd).
  pose proof (proj1 (Forall_forall _ _) Hstops _ Hb) as H3.
  simpl in *. lia.
Qed.

Lemma ripple_second_pass_fails (inp : ripple_input) (e : exn) :
  zscsignal inp <> [] ->
  Ripple.secondPass inp = Raise e -> e = IndexError.
Proof.
  intros Hne H. unfold Ripple.secondPass, Ripple.firstPass, Ripple.edges in H.
  destruct (zscsignal inp) as [|ch chs]; [congruence|].
  cbn [map reduce_axis0 Py.bind fst snd] in H.
  match type of H with
  | Py.bind (first_pass (where_eq 1 (diff ?mask)) _) _ = _ =>
      destruct (mask_edges_alternating mask) as [b Hb]
  end.
  { apply Forall_map. apply Forall_forall. intros c _.
    destruct (c >? 0); [right | left]; reflexivity. }
  match type of H with
  | Py.bind ?c _ = _ => destruct c as [fp|e'] eqn:Hfp
  end.
  - cbn [Py.bind] in H. unfold second_pass in H.
    destruct fp; simpl in H; congruence.
  - cbn [Py.bind] in H. injection H as <-.
    eapply first_pass_alternating; eassumption.
Qed.

(** X6: on channels of one length, with the sharp-wave signal of that
    length, [Ripple.detect] never raises ValueError.  It returns a table,
    or raises IndexError because the first two passes find no run (no
    rising edge, or no falling edge after the first rising one), or
    raises AxisError because no run of the second pass has a peak above
    [highthreshold]. *)
Theorem ripple_detect_failure_modes (inp : ripple_input) (n : nat) :
  zscsignal inp <> [] ->
  Forall (fun ch => List.length ch = n) (zscsignal inp) ->
  List.length (sharpWv_sig inp) = n ->
  (exists evs, Ripple.detect inp = OK evs) \/
  (Ripple.secondPass inp = Raise IndexError /\
   Ripple.detect inp = Raise IndexError) \/
  (Ripple.thirdPass inp = OK [] /\ Ripple.detect inp = Raise AxisError).
Proof.
  intros Hne Hshape Hsharp.
  assert (Hmax : exists maxPower,
             reduce_axis0 Qmax (zscsignal inp) = OK maxPower /\
             List.length maxPower = n).
  { destruct (zscsignal inp) as [|ch chs] eqn:E; [congruence|].
    eexists. split; [reflexivity|].
    apply reduce_axis0_length with (f := Qmax) (rows := ch :: chs);
      [exact Hshape | reflexivity]. }
  destruct Hmax as (maxPower & Hmax & Hlen).
  destruct (Ripple.secondPass inp) as [sp|e] eqn:Hsp.
  - pose proof (ripple_second_pass_in_range inp n sp Hshape Hsp) as Hrange.
    destruct (ripple_peak_rows_return inp maxPower sp) as [rows Hrows].
    { eapply Forall_impl; [|exact Hrange]. intros r (Hr & Hn).
      rewrite Hlen, Hsharp. auto. }
    assert (Htp : Ripple.thirdPass inp = OK (concat rows)).
    { unfold Ripple.thirdPass. rewrite Hmax, Hsp. cbn [Py.bind].
      rewrite Hrows. reflexivity. }
    destruct (concat rows) as [|row tp] eqn:E.
    + right. right. split; [exact Htp|].
      unfold Ripple.detect, Ripple.frame. rewrite Htp. reflexivity.
    + left. unfold Ripple.detect, Ripple.frame. rewrite Htp.
      cbn [Py.bind]. eexists. reflexivity.
  - pose proof (ripple_second_pass_fails inp e Hne Hsp) as ->.
    right. left. split; [reflexivity|].
    unfold Ripple.detect, Ripple.frame, Ripple.thirdPass.
    rewrite Hmax, Hsp. reflexivity.
Qed.

Lemma ripple_detect_failure_modes_witness :
  (exists evs, Ripple.detect merge_example = OK evs) \/
  (Ripple.secondPass merge_example = Raise IndexError /\
   Ripple.detect merge_example = Raise IndexError) \/
  (Ripple.thirdPass merge_example = OK [] /\
   Ripple.detect merge_example = Raise AxisError).
Proof.
  apply (ripple_detect_failure_modes merge_example 21).
  - discriminate.
  - repeat constructor.
  - reflexivity.
Defined.

End RippleFailureFacts.

Section HswaFacts.

Import LfpEvent Spec DetectorExtras Hswa.
Local Open Scope Z_scope.

Lemma getitem_nat {A : Type} (d : A) (l : list A) (i : nat) :
  (i < List.length l)%nat -> getitem l (Z.of_nat i) = OK (nth i l d).
Proof.
  intros Hi. unfold getitem. cbv zeta.
  replace (Z.of_nat i <? 0) with false by lia.
  replace ((0 <=? Z.of_nat i) && (Z.of_nat i <? Z.of_nat (List.length l)))
    with true by lia.
  rewrite Nat2Z.id.
  rewrite (nth_error_nth' l d Hi). reflexivity.
Qed.

Lemma getitem_in_range {A : Type} (d : A) (l : list A) (i : Z) :
  0 <= i < Z.of_nat (List.length l) ->
  getitem l i = OK (nth (Z.to_nat i) l d).
Proof.
  intros Hi. rewrite <- (Z2Nat.id i) at 1 by lia.
  apply getitem_nat. lia.
Qed.

Lemma linspace_length (start stop : Q) (num : nat) :
  List.length (linspace start stop num) = num.
Proof.
  unfold linspace. destruct num as [|[|num]]; try reflexivity.
  rewrite length_map, length_seq. reflexivity.
Qed.

(** Sample [i] of the time axis of [n] samples that ends at [stop]. *)
Lemma linspace_nth (stop : Q) (n i : nat) :
  (2 <= n)%nat -> (i < n)%nat ->
  (nth i (linspace 0 stop n) 0
   == inject_Z (Z.of_nat i) * (stop / inject_Z (Z.of_nat n - 1)))%Q.
Proof.
  intros Hn Hi. unfold linspace.
  destruct n as [|[|n]]; try lia.
  rewrite (nth_map_seq _ _ (S (S n)) 0%nat i Hi). cbn [Nat.add].
  assert (Hden : ~ (inject_Z (Z.of_nat (S (S n)) - 1) == 0)%Q).
  { change 0%Q with (inject_Z 0). rewrite inject_Z_injective. lia. }
  destruct (Nat.eqb_spec i (S (S n) - 1)) as [->|Hne].
  - replace (Z.of_nat (S (S n) - 1)) with (Z.of_nat (S (S n)) - 1) by lia.
    field. exact Hden.
  - field. exact Hden.
Qed.

Lemma time_axis_increasing (stop : Q) (n : nat) (i j : Z) :
  (0 < stop)%Q -> 0 <= i -> i < j -> j < Z.of_nat n ->
  (nth (Z.to_nat i) (linspace 0 stop n) 0
   < nth (Z.to_nat j) (linspace 0 stop n) 0)%Q.
Proof.
  intros Hstop Hi Hij Hj.
  rewrite !linspace_nth by lia. rewrite !Z2Nat.id by lia.
  apply Qmult_lt_compat_r.
  - apply Qlt_shift_div_l.
    + change 0%Q with (inject_Z 0). rewrite <- Zlt_Qlt. lia.
    + rewrite Qmult_0_l. exact Hstop.
  - rewrite <- Zlt_Qlt. exact Hij.
Qed.

Lemma zigzag_nth (d : Z) (us ds : list Z) :
  zigzag d us ds ->
  List.length us = List.length ds /\
  forall i, (i < List.length ds)%nat ->
            nth i (d :: ds) 0 < nth i us 0 < nth (S i) (d :: ds) 0.
Proof.
  induction 1 as [d | d u d' us ds Hdu Hud _ [IHlen IH]].
  - split; [reflexivity|]. intros i Hi. simpl in Hi. lia.
  - split; [simpl; f_equal; exact IHlen|].
    intros [|i] Hi; [simpl; lia|].
    simpl in Hi. specialize (IH i ltac:(lia)). exact IH.
Qed.

(** After the two trimmings, troughs and peaks take turns from the first
    trough to the last. *)
Lemma trim_zigzag (ups : list Z) :
  forall d ds lo ul dl,
    alternating false lo ds ups -> d < lo ->
    last_item ups = OK ul -> last_item (d :: ds) = OK dl ->
    zigzag d (if ul >? dl then removelast ups else ups) ds.
Proof.
  induction ups as [|u us IH]; intros d ds lo ul dl Halt Hd Hul Hdl.
  - discriminate.
  - inversion Halt as [| | ? ? ? ? Hlo Ht]; subst.
    destruct ds as [|d' ds].
    + inversion Ht; subst.
      injection Hul as <-. injection Hdl as <-.
      replace (u >? d) with true by lia. simpl. constructor.
    + inversion Ht as [| ? ? ? ? Hud Hf |]; subst.
      rewrite last_item_cons in Hdl.
      destruct us as [|u2 us].
      * inversion Hf; subst.
        injection Hul as <-. injection Hdl as <-.
        replace (u >? d') with false by lia.
        constructor; [lia | lia | constructor].
      * rewrite last_item_cons in Hul.
        pose proof (IH d' ds (d' + 1) ul dl Hf ltac:(lia) Hul Hdl) as Hz.
        destruct (ul >? dl).
        -- change (removelast (u :: u2 :: us))
             with (u :: removelast (u2 :: us)).
           constructor; [lia | lia | exact Hz].
        -- constructor; [lia | lia | exact Hz].
Qed.

Lemma trimmed_up_zigzag (inp : hswa_input) (b : bool) (d : Z) (ds : list Z) :
  alternating b 0 (down inp) (up inp) ->
  down inp = d :: ds -> ds <> [] ->
  exists ups, trimmed_up inp = OK ups /\ zigzag d ups ds.
Proof.
  intros Halt Hdown Hne. unfold trimmed_up.
  destruct inp as [sig ups0 downs rate]. cbn [up down] in *. subst downs.
  assert (Hcore : exists u0 ups lo,
            first ups0 = OK u0 /\
            (if u0 <? d then tl ups0 else ups0) = ups /\
            alternating false lo ds ups /\ d < lo).
  { inversion Halt as [| ? ? ? ? Hlo Hf | ? ? ? ? Hlo Ht]; subst.
    - (* a trough comes first *)
      destruct ds as [|d' ds']; [congruence|].
      inversion Hf as [| | ? u0 ? us Hu0 Ht']; subst.
      exists u0, (u0 :: us), (d + 1).
      replace (u0 <? d) with false by lia.
      repeat split; try reflexivity; [exact Hf | lia].
    - (* a peak comes first *)
      inversion Ht as [| ? ? ? ? Hts Hf' |]; subst.
      exists t, ts, (d + 1).
      replace (t <? d) with true by lia.
      repeat split; try reflexivity; [exact Hf' | lia]. }
  destruct Hcore as (u0 & ups & lo & Hu0 & Heq & Halt' & Hlo).
  rewrite Hu0. cbn [Py.bind first]. rewrite Heq.
  destruct ups as [|u us].
  { destruct ds as [|d' ds']; [congruence|]. inversion Halt'. }
  destruct (last_item_nonempty u us) as [ul Hul].
  destruct (last_item_nonempty d ds) as [dl Hdl].
  rewrite Hul, Hdl. cbn [Py.bind].
  eexists. split; [reflexivity|].
  eapply trim_zigzag; eassumption.
Qed.

Lemma Sorted_map_seq {A : Type} (R : A -> A -> Prop) (h : nat -> A) (k : nat) :
  forall s, (forall i, R (h i) (h (S i))) -> Sorted R (map h (seq s k)).
Proof.
  induction k as [|k IH]; intros s Hh; simpl; [constructor|].
  constructor; [apply IH; exact Hh|].
  destruct k; simpl; constructor. apply Hh.
Qed.

(** X7: when the peaks and the troughs of the filtered signal take
    turns and there are at least two troughs, [Hswa.detect] returns one
    slow wave for each pair of neighbouring troughs: each starts at a
    trough, peaks after it and ends after the peak at the next trough,
    where the next wave starts; sample [i] is given the time
    [i * n / ((n - 1) * lfpsRate)] for a recording of [n] samples. *)
Theorem hswa_waves_tile_the_troughs (inp : hswa_input) (b : bool) :
  (0 < lfpsRate inp)%Q ->
  alternating b 0 (down inp) (up inp) ->
  Forall (fun i => i < Z.of_nat (List.length (delta inp))) (up inp) ->
  Forall (fun i => i < Z.of_nat (List.length (delta inp))) (down inp) ->
  (2 <= List.length (down inp))%nat ->
  exists evs,
    detect inp = OK evs /\
    List.length evs = (List.length (down inp) - 1)%nat /\
    Forall (fun e => (dw_start e < dw_peaktime e)%Q /\
                     (dw_peaktime e < dw_end e)%Q) evs /\
    Sorted (fun a b => dw_end a = dw_start b) evs /\
    forall i, (i < List.length evs)%nat ->
      (dw_start (nth i evs (mkDeltaWave 0 0 0 0 0))
       == inject_Z (nth i (down inp) 0%Z)
          * (inject_Z (Z.of_nat (List.length (delta inp))) / lfpsRate inp
             / inject_Z (Z.of_nat (List.length (delta inp)) - 1)))%Q.
Proof.
  intros Hrate Halt Hup Hdown Hlen.
  destruct (down inp) as [|d [|d' ds]] eqn:Edown; simpl in Hlen; try lia.
  assert (Halt0 : alternating b 0 (down inp) (up inp))
    by (rewrite Edown; exact Halt).
  destruct (trimmed_up_zigzag inp b d (d' :: ds) Halt0 Edown ltac:(congruence))
    as (ups & Hups & Hz).
  destruct (zigzag_nth _ _ _ Hz) as [Hulen Hnth].
  set (n := List.length (delta inp)) in *.
  set (t := time_axis inp).
  assert (Htlen : List.length t = n) by apply linspace_length.
  (* the indices are samples of the recording *)
  assert (Hdlo : forall i, (i <= List.length (d' :: ds))%nat ->
                   0 <= nth i (d :: d' :: ds) 0 < Z.of_nat n).
  { intros i Hi. split.
    - assert (Hlow : forall b lo ss ts, alternating b lo ss ts ->
                       Forall (fun x => lo <= x) ss).
      { clear. induction 1 as [| ? ? ? ? ? ? IH | ? ? ? ? ? ? IH];
          [constructor | constructor; [assumption|] | ];
          eapply Forall_impl; try exact IH; simpl; intros; lia. }
      pose proof (Hlow _ _ _ _ Halt) as Hl.
      apply (proj1 (Forall_nth _ _) Hl). simpl in *. lia.
    - apply (proj1 (Forall_nth _ _) Hdown). simpl in *. lia. }
  assert (Hun : forall i, (i < List.length (d' :: ds))%nat ->
                  nth i ups 0 < Z.of_nat n).
  { intros i Hi.
    specialize (Hnth i Hi). specialize (Hdlo (S i) ltac:(lia)). lia. }
  assert (Hn2 : (2 <= n)%nat).
  { pose proof (Hdlo 0%nat ltac:(simpl; lia)) as H0.
    pose proof (Hdlo 1%nat ltac:(simpl; lia)) as H1.
    pose proof (Hnth 0%nat ltac:(simpl; lia)) as H2. simpl in *. lia. }
  assert (Hstop : (0 < inject_Z (Z.of_nat n) / lfpsRate inp)%Q).
  { apply Qlt_shift_div_l; [exact Hrate|]. rewrite Qmult_0_l.
    change 0%Q with (inject_Z 0). rewrite <- Zlt_Qlt. lia. }
  (* every pass of the loop returns *)
  set (row := fun i : nat =>
                (nth (Z.to_nat (nth i ups 0)) (delta inp) 0%Q,
                 nth (Z.to_nat (nth (S i) (d :: d' :: ds) 0)) (delta inp) 0%Q,
                 nth (Z.to_nat (nth i ups 0)) t 0%Q,
                 nth (Z.to_nat (nth i (d :: d' :: ds) 0)) t 0%Q,
                 nth (Z.to_nat (nth (S i) (d :: d' :: ds) 0)) t 0%Q)).
  assert (Hloop : map_result (wave_row inp t ups)
                             (seq 0 (List.length (d' :: ds)))
                  = OK (map row (seq 0 (List.length (d' :: ds))))).
  { apply map_result_all_OK. apply Forall_forall. intros i Hi.
    apply in_seq in Hi. destruct Hi as [_ Hi]. simpl in Hi.
    pose proof (Hnth i ltac:(simpl; lia)) as Hzi.
    pose proof (Hdlo i ltac:(simpl; lia)) as Hdi.
    pose proof (Hdlo (S i) ltac:(simpl; lia)) as Hdn.
    pose proof (Hun i ltac:(simpl; lia)) as Hui.
    unfold wave_row. rewrite Edown.
    rewrite (getitem_nat 0 (d :: d' :: ds) i) by (simpl; lia).
    cbn [Py.bind].
    rewrite (getitem_in_range 0%Q t) by lia. cbn [Py.bind].
    rewrite (getitem_nat 0 ups i) by (simpl in *; lia). cbn [Py.bind].
    rewrite (getitem_in_range 0%Q t) by lia. cbn [Py.bind].
    replace (Z.of_nat i + 1) with (Z.of_nat (S i)) by lia.
    rewrite (getitem_nat 0 (d :: d' :: ds) (S i)) by (simpl; lia).
    cbn [Py.bind].
    rewrite (getitem_in_range 0%Q t) by lia. cbn [Py.bind].
    rewrite (getitem_in_range 0%Q (delta inp)) by (fold n; lia).
    cbn [Py.bind].
    rewrite (getitem_in_range 0%Q (delta inp)) by (fold n; lia).
    reflexivity. }
  exists (map to_wave (map row (seq 0 (List.length (d' :: ds))))).
  split; [|split; [|split; [|split]]].
  - unfold detect. fold t. rewrite Hups. cbn [Py.bind].
    rewrite Edown.
    replace (List.length (d :: d' :: ds) - 1)%nat
      with (List.length (d' :: ds)) by (simpl; lia).
    rewrite Hloop. reflexivity.
  - rewrite !length_map, length_seq. simpl. lia.
  - rewrite map_map. apply Forall_map. apply Forall_forall. intros i Hi.
    apply in_seq in Hi. destruct Hi as [_ Hi]. simpl in Hi.
    pose proof (Hnth i ltac:(simpl; lia)) as Hzi.
    pose proof (Hdlo i ltac:(simpl; lia)) as Hdi.
    pose proof (Hdlo (S i) ltac:(simpl; lia)) as Hdn.
    unfold row, to_wave. cbn [dw_start dw_peaktime dw_end].
    split; apply time_axis_increasing; try assumption; lia.
  - rewrite map_map. apply Sorted_map_seq. intros i. reflexivity.
  - intros i Hi. rewrite !length_map, length_seq in Hi.
    rewrite map_map.
    rewrite (nth_map_seq _ _ (List.length (d' :: ds)) 0%nat i Hi).
    cbn [Nat.add]. unfold row, to_wave. cbn [dw_start].
    pose proof (Hdlo i ltac:(lia)) as Hdi.
    unfold t, time_axis. fold n.
    rewrite linspace_nth by lia. rewrite Z2Nat.id by lia. reflexivity.
Qed.

Lemma hswa_waves_tile_the_troughs_witness :
  exists evs,
    detect hswa_example = OK evs /\
    List.length evs = 2%nat /\
    Forall (fun e => (dw_start e < dw_peaktime e)%Q /\
                     (dw_peaktime e < dw_end e)%Q) evs /\
    Sorted (fun a b => dw_end a = dw_start b) evs /\
    forall i, (i < List.length evs)%nat ->
      (dw_start (nth i evs (mkDeltaWave 0 0 0 0 0))
       == inject_Z (nth i (down hswa_example) 0%Z)
          * (inject_Z (Z.of_nat (List.length (delta hswa_example)))
             / lfpsRate hswa_example
             / inject_Z (Z.of_nat (List.length (delta hswa_example)) - 1)))%Q.
Proof.
  apply (hswa_waves_tile_the_troughs hswa_example false).
  - reflexivity.
  - repeat (first [apply alt_nil | apply alt_rise | apply alt_fall]; try lia).
  - repeat constructor.
  - repeat constructor.
  - simpl. lia.
Defined.

(** X8: with fewer than two troughs [Hswa.detect] raises IndexError:
    there is no pair of troughs to make a wave of, and the empty table
    cannot be indexed by column. *)
Theorem hswa_needs_two_troughs (inp : hswa_input) :
  (0 < lfpsRate inp)%Q ->
  (List.length (down inp) <= 1)%nat ->
  detect inp = Raise IndexError.
Proof.
  intros _ Hlen. unfold detect.
  replace (List.length (down inp) - 1)%nat with 0%nat by lia.
  cbn [seq map_result]. 
  destruct (trimmed_up inp) as [ups|e] eqn:E; [reflexivity|].
  cbn [Py.bind]. f_equal.
  unfold trimmed_up in E.
  destruct (up inp) as [|u0 us]; [simpl in E; congruence|].
  destruct (down inp) as [|d0 ds]; [simpl in E; congruence|].
  cbn [Py.bind first] in E.
  destruct (last_item (if u0 <? d0 then tl (u0 :: us) else u0 :: us))
    as [ul|e'] eqn:Eul.
  - cbn [Py.bind] in E.
    destruct (last_item_nonempty d0 ds) as [dl Hdl]. rewrite Hdl in E.
    discriminate.
  - cbn [Py.bind] in E. injection E as <-.
    destruct (u0 <? d0); cbn [tl] in Eul.
    + destruct us as [|u1 us']; [simpl in Eul; congruence|].
      destruct (last_item_nonempty u1 us') as [y Hy]. congruence.
    + destruct (last_item_nonempty u0 us) as [y Hy]. congruence.
Qed.

Lemma hswa_needs_two_troughs_witness :
  detect (mkHswaInput [0; 1; -2; 0; 2; 0]%Q [1; 4] [2] 2) = Raise IndexError.
Proof.
  apply hswa_needs_two_troughs.
  - reflexivity.
  - simpl. lia.
Defined.

End HswaFacts.

Section ThetaFacts.

Import Theta ThetaExtras.
Local Open Scope Q_scope.

Lemma angle_bin_length : List.length angle_bin = 361%nat.
Proof. unfold angle_bin. rewrite length_map, length_seq. reflexivity. Qed.

Lemma firstn_seq_min (n : nat) :
  forall start len, firstn n (seq start len) = seq start (Nat.min n len).
Proof.
  induction n as [|n IH]; intros start [|len]; simpl; try reflexivity.
  rewrite IH. reflexivity.
Qed.

Lemma angle_bin_window (s b : nat) :
  (s + b <= 361)%nat ->
  firstn b (skipn s angle_bin) = map Z.of_nat (seq s b).
Proof.
  intros H. unfold angle_bin.
  rewrite skipn_map, firstn_map, skipn_seq, firstn_seq_min.
  f_equal. f_equal. lia.
Qed.

Lemma sliding_window_view_angles (b : nat) :
  (b <= 361)%nat ->
  sliding_window_view angle_bin b
  = OK (map (fun s => map Z.of_nat (seq s b)) (seq 0 (362 - b))).
Proof.
  intros Hb. unfold sliding_window_view. rewrite angle_bin_length.
  replace (361 <? b)%nat with false by (symmetry; apply Nat.ltb_ge; lia).
  f_equal. replace (361 - b + 1)%nat with (362 - b)%nat by lia.
  apply map_ext_in. intros s Hs. apply in_seq in Hs.
  apply angle_bin_window. lia.
Qed.

Lemma flat_map_singletons {A B : Type} (f : A -> list B) (g : A -> B)
  (l : list A) :
  Forall (fun x => f x = [g x]) l -> flat_map f l = map g l.
Proof.
  induction 1 as [|x l Hx _ IH]; simpl; [reflexivity|].
  rewrite Hx, IH. reflexivity.
Qed.

(** [l[::step]] on a list given by its entries. *)
Lemma every_map_seq {A : Type} (g : nat -> A) (m step : nat) :
  (1 <= m)%nat -> (1 <= step)%nat ->
  every step (map g (seq 0 m))
  = OK (map (fun k => g (k * step)%nat) (seq 0 ((m - 1) / step + 1))).
Proof.
  intros Hm Hs. unfold every, range_step.
  rewrite length_map, length_seq.
  replace (step =? 0)%nat with false by (symmetry; apply Nat.eqb_neq; lia).
  replace (m =? 0)%nat with false by (symmetry; apply Nat.eqb_neq; lia).
  f_equal. rewrite flat_map_concat_map, map_map, <- flat_map_concat_map.
  apply flat_map_singletons. apply Forall_forall. intros k Hk.
  apply in_seq in Hk.
  assert (Hlt : (k * step < m)%nat).
  { assert (k <= (m - 1) / step)%nat by lia.
    pose proof (Nat.Div0.mul_div_le (m - 1) step).
    assert (k * step <= (m - 1) / step * step)%nat
      by (apply Nat.mul_le_mono_r; assumption).
    lia. }
  rewrite nth_error_map, nth_error_seq.
  replace (k * step <? m)%nat with true by (symmetry; apply Nat.ltb_lt; lia).
  reflexivity.
Qed.

Lemma last_item_app {A : Type} (l : list A) (x : A) :
  last_item (l ++ [x]) = OK x.
Proof.
  induction l as [|y l IH]; [reflexivity|].
  destruct l as [|z l]; [reflexivity|].
  change ((y :: z :: l) ++ [x]) with (y :: z :: (l ++ [x])).
  rewrite last_item_cons. exact IH.
Qed.

Lemma window_ends (s b : nat) :
  first (map Z.of_nat (seq s (S b))) = OK (Z.of_nat s) /\
  last_item (map Z.of_nat (seq s (S b))) = OK (Z.of_nat (s + S b) - 1)%Z.
Proof.
  split; [reflexivity|].
  rewrite seq_S, map_app. simpl map. rewrite last_item_app.
  f_equal. lia.
Qed.

(** Picking the samples by their positions is filtering the samples. *)
Lemma take_where {A : Type} (test : Q -> bool) (theta : list Q) :
  forall (y pre : list A) (off : nat),
    List.length pre = off -> List.length theta = List.length y ->
    take (pre ++ y)
         (map fst (filter (fun ix => test (snd ix))
                          (combine (seq off (List.length theta)) theta)))
    = OK (map snd (filter (fun ay => test (fst ay)) (combine theta y))).
Proof.
  induction theta as [|a theta IH]; intros y pre off Hpre Hlen.
  - reflexivity.
  - destruct y as [|v y]; [discriminate|].
    simpl in Hlen. injection Hlen as Hlen.
    cbn [List.length seq combine filter snd fst].
    specialize (IH y (pre ++ [v]) (S off)).
    rewrite <- app_assoc in IH. cbn [app] in IH.
    destruct (test a).
    + cbn [map fst snd]. unfold take in *. cbn [map_result].
      rewrite nth_error_app2 by lia.
      replace (off - List.length pre)%nat with 0%nat by lia.
      cbn [nth_error Py.bind].
      rewrite IH; [reflexivity | rewrite length_app; simpl; lia | exact Hlen].
    + apply IH; [rewrite length_app; simpl; lia | exact Hlen].
Qed.

Lemma sum_window (b : nat) :
  forall s,
    (2 * fold_right Z.add 0 (map Z.of_nat (seq s b))
     = Z.of_nat b * (2 * Z.of_nat s + Z.of_nat b - 1))%Z.
Proof.
  induction b as [|b IH]; intros s; [reflexivity|].
  cbn [seq map fold_right]. specialize (IH (S s)). nia.
Qed.

Lemma mean_window (s b : nat) :
  (1 <= b)%nat ->
  mean (map Z.of_nat (seq s b))
  == inject_Z (Z.of_nat s) + (inject_Z (Z.of_nat b) - 1) / 2.
Proof.
  intros Hb. unfold mean. rewrite length_map, length_seq.
  assert (Hnz : ~ inject_Z (Z.of_nat b) == 0).
  { change 0 with (inject_Z 0). rewrite inject_Z_injective. lia. }
  apply Qmult_inj_r with (z := 2 * inject_Z (Z.of_nat b)).
  { intros H. apply Hnz. 
    apply Qmult_integral in H. destruct H as [H|H]; [discriminate | exact H]. }
  transitivity (inject_Z (2 * fold_right Z.add 0%Z (map Z.of_nat (seq s b)))).
  - rewrite inject_Z_mult. field. exact Hnz.
  - rewrite sum_window. rewrite inject_Z_mult, inject_Z_sub, inject_Z_plus,
      inject_Z_mult. change (inject_Z 2) with 2. change (inject_Z 1) with 1.
    field.
Qed.

Lemma map_result_map {A B C : Type} (f : B -> result C) (h : A -> B)
  (l : list A) :
  map_result f (map h l) = map_result (fun x => f (h x)) l.
Proof.
  induction l as [|x l IH]; simpl; [reflexivity|]. rewrite IH. reflexivity.
Qed.

(** What the function computes for a step [s]: the windows and, for each
    of them, the samples it keeps. *)
Lemma phase_extraction_eq {A : Type} (theta : list Q) (y : list A)
  (b : nat) (slideby : option nat) (s : nat) :
  s = match slideby with None => b | Some s' => s' end ->
  (1 <= b <= 361)%nat -> (1 <= s)%nat ->
  List.length theta = List.length y ->
  phase_specfic_extraction theta y b slideby
  = Passed
      (OK (map (fun k => map snd (filter (fun ay => in_window b s k (fst ay))
                                         (combine theta y)))
               (seq 0 ((361 - b) / s + 1)),
           angle_bin,
           map (fun k => mean (map Z.of_nat (seq (k * s) b)))
               (seq 0 ((361 - b) / s + 1)))).
Proof.
  intros Hs Hb Hs1 Hlen. unfold phase_specfic_extraction.
  rewrite Hlen, Nat.eqb_refl. cbn [negb]. f_equal.
  rewrite <- Hs. clear Hs slideby.
  rewrite sliding_window_view_angles by lia. cbn [Py.bind].
  rewrite every_map_seq by lia. cbn [Py.bind].
  replace (362 - b - 1)%nat with (361 - b)%nat by lia.
  rewrite map_result_map.
  rewrite (map_result_all_OK _
             (fun k => map snd (filter (fun ay => in_window b s k (fst ay))
                                       (combine theta y)))).
  - cbn [Py.bind]. rewrite map_map. reflexivity.
  - apply Forall_forall. intros k _.
    destruct b as [|b']; [lia|].
    destruct (window_ends (k * s) b') as [-> ->]. cbn [Py.bind].
    unfold where_between, Np.enumerate.
    exact (take_where
             (fun a => Qle_bool (inject_Z (Z.of_nat (k * s))) a
                       && Qle_bool a (inject_Z (Z.of_nat (k * s + S b') - 1)))
             theta y [] 0%nat eq_refl Hlen).
Qed.

(** X9: for a window of [binsize] degrees moved by [slideby] degrees,
    the function returns [(361 - binsize) / slideby + 1] components;
    component [k] holds, in their order, the samples of [y] whose phase
    is from [k * slideby] to [k * slideby + binsize - 1] degrees, both
    included, and its centre is [k * slideby + (binsize - 1) / 2]. *)
Theorem phase_components {A : Type} (theta : list Q) (y : list A)
  (binsize slideby : nat) :
  (1 <= binsize <= 361)%nat -> (1 <= slideby)%nat ->
  List.length theta = List.length y ->
  exists comps centers,
    phase_specfic_extraction theta y binsize (Some slideby)
    = Passed (OK (comps, angle_bin, centers)) /\
    List.length comps = ((361 - binsize) / slideby + 1)%nat /\
    List.length centers = ((361 - binsize) / slideby + 1)%nat /\
    forall k, (k < (361 - binsize) / slideby + 1)%nat ->
      nth k comps []
      = map snd (filter (fun ay => in_window binsize slideby k (fst ay))
                        (combine theta y)) /\
      nth k centers 0
      == inject_Z (Z.of_nat (k * slideby))
         + (inject_Z (Z.of_nat binsize) - 1) / 2.
Proof.
  intros Hb Hs Hlen.
  eexists _, _. split.
  { apply (phase_extraction_eq theta y binsize (Some slideby) slideby);
      [reflexivity | exact Hb | exact Hs | exact Hlen]. }
  rewrite !length_map, !length_seq.
  split; [reflexivity|]. split; [reflexivity|].
  intros k Hk. split.
  - rewrite (nth_map_seq _ _ _ 0%nat k Hk). reflexivity.
  - rewrite (nth_map_seq _ _ _ 0%nat k Hk). cbn [Nat.add].
    apply mean_window. lia.
Qed.

Lemma phase_components_witness :
  exists comps centers,
    phase_specfic_extraction phase_example [1; 2; 3; 4; 5]%Z 20 (Some 20%nat)
    = Passed (OK (comps, angle_bin, centers)) /\
    nth 1 comps [] = [3%Z] /\
    nth 1 centers 0 == 29.5.
Proof.
  destruct (phase_components phase_example [1; 2; 3; 4; 5]%Z 20 20)
    as (comps & centers & Hrun & _ & _ & Hk); [lia | lia | reflexivity|].
  exists comps, centers. split; [exact Hrun|].
  destruct (Hk 1%nat) as [Hc Hm]; [vm_compute; lia|].
  split; [rewrite Hc; vm_compute; reflexivity|].
  rewrite Hm. vm_compute. reflexivity.
Defined.

Lemma list_sum_map_add {A : Type} (f g : A -> nat) (l : list A) :
  list_sum (map (fun x => (f x + g x)%nat) l)
  = (list_sum (map f l) + list_sum (map g l))%nat.
Proof.
  induction l as [|x l IH]; simpl; [reflexivity|]. rewrite IH. lia.
Qed.

Lemma count_one_of {X : Type} (p : nat -> X -> bool) (x : X) (ks : list nat) :
  NoDup ks ->
  (forall k k', In k ks -> In k' ks -> k <> k' ->
                p k x = true -> p k' x = false) ->
  list_sum (map (fun k => if p k x then 1%nat else 0%nat) ks)
  = if existsb (fun k => p k x) ks then 1%nat else 0%nat.
Proof.
  induction ks as [|k ks IH]; intros Hnd Hdis; [reflexivity|].
  inversion Hnd as [|? ? Hnotin Hnd']; subst.
  rewrite map_cons. cbn [existsb].
  change (list_sum ((if p k x then 1%nat else 0%nat)
                    :: map (fun k => if p k x then 1%nat else 0%nat) ks))
    with ((if p k x then 1 else 0)
          + list_sum (map (fun k => if p k x then 1%nat else 0%nat) ks))%nat.
  assert (Hrest : forall k1 k2, In k1 ks -> In k2 ks -> k1 <> k2 ->
                                p k1 x = true -> p k2 x = false).
  { intros k1 k2 H1 H2. apply Hdis; right; assumption. }
  rewrite (IH Hnd' Hrest).
  destruct (p k x) eqn:E; [|reflexivity]. cbn [orb].
  replace (existsb (fun k0 => p k0 x) ks) with false; [reflexivity|].
  symmetry. apply not_true_is_false. intros Hex.
  apply existsb_exists in Hex as (k' & Hin & Hk').
  rewrite (Hdis k k') in Hk'; try discriminate; try assumption.
  - left. reflexivity.
  - right. exact Hin.
  - intros ->. contradiction.
Qed.

(** Filters that exclude one another share out what the filter by their
    disjunction keeps. *)
Lemma count_disjoint {X : Type} (p : nat -> X -> bool) (ks : list nat)
  (l : list X) :
  NoDup ks ->
  (forall x k k', In k ks -> In k' ks -> k <> k' ->
                  p k x = true -> p k' x = false) ->
  list_sum (map (fun k => List.length (filter (p k) l)) ks)
  = List.length (filter (fun x => existsb (fun k => p k x) ks) l).
Proof.
  intros Hnd Hdis. induction l as [|x l IH].
  - simpl. induction ks; simpl; [reflexivity|].
    apply IHks; [inversion Hnd; assumption|].
    intros ? ? ? ? ?. apply Hdis; right; assumption.
  - transitivity
      (list_sum (map (fun k => ((if p k x then 1 else 0)
                                + List.length (filter (p k) l))%nat) ks)).
    { f_equal. apply map_ext. intros k. simpl. destruct (p k x); reflexivity. }
    rewrite list_sum_map_add, IH, (count_one_of p x ks Hnd (Hdis x)).
    simpl. destruct (existsb (fun k => p k x) ks); reflexivity.
Qed.

Lemma in_window_bounds (b s k : nat) (a : Q) :
  in_window b s k a = true <->
  inject_Z (Z.of_nat (k * s)) <= a /\
  a <= inject_Z (Z.of_nat (k * s + b) - 1).
Proof.
  unfold in_window. rewrite andb_true_iff, !Qle_bool_iff. reflexivity.
Qed.

Lemma in_window_disjoint (b k k' : nat) (a : Q) :
  k <> k' -> in_window b b k a = true -> in_window b b k' a = false.
Proof.
  intros Hne Hk. apply not_true_is_false. intros Hk'.
  apply in_window_bounds in Hk as [Hlo Hhi].
  apply in_window_bounds in Hk' as [Hlo' Hhi'].
  pose proof (Qle_trans _ _ _ Hlo Hhi') as H1.
  pose proof (Qle_trans _ _ _ Hlo' Hhi) as H2.
  rewrite <- Zle_Qle in H1, H2. nia.
Qed.

Lemma filter_fst_length {A B : Type} (p : A -> bool) (l1 : list A) :
  forall l2 : list B,
    List.length l1 = List.length l2 ->
    List.length (filter (fun ab => p (fst ab)) (combine l1 l2))
    = List.length (filter p l1).
Proof.
  induction l1 as [|x l1 IH]; intros [|v l2] Hlen; try discriminate;
    [reflexivity|].
  simpl. injection Hlen as Hlen. specialize (IH l2 Hlen).
  destruct (p x); simpl; congruence.
Qed.

(** X10: with the default step, one window after the other, every sample
    goes to one component at most, and the components do not hold all of
    [y]: a sample whose phase is strictly between the last whole degree
    of a window and the first of the next, or beyond the last window, is
    in none.  The components hold as many samples as there are phases
    inside a window. *)
Theorem phase_bins_leave_gaps {A : Type} (theta : list Q) (y : list A)
  (binsize : nat) :
  (1 <= binsize <= 361)%nat ->
  List.length theta = List.length y ->
  exists comps centers,
    phase_specfic_extraction theta y binsize None
    = Passed (OK (comps, angle_bin, centers)) /\
    List.length (concat comps)
    = List.length
        (filter (covered binsize binsize ((361 - binsize) / binsize + 1))
                theta) /\
    (forall (a : Q) (k : nat),
        inject_Z (Z.of_nat (k * binsize + binsize) - 1) < a ->
        a < inject_Z (Z.of_nat (k * binsize + binsize)) ->
        covered binsize binsize ((361 - binsize) / binsize + 1) a = false) /\
    (forall a : Q,
        inject_Z (Z.of_nat (((361 - binsize) / binsize + 1) * binsize) - 1) < a ->
        covered binsize binsize ((361 - binsize) / binsize + 1) a = false).
Proof.
  intros Hb Hlen.
  eexists _, _. split.
  { apply (phase_extraction_eq theta y binsize None binsize);
      [reflexivity | exact Hb | lia | exact Hlen]. }
  set (count := ((361 - binsize) / binsize + 1)%nat).
  split; [|split].
  - rewrite length_concat, map_map.
    rewrite (map_ext _ (fun k => List.length
                                   (filter (fun ay : Q * A =>
                                              in_window binsize binsize k
                                                        (fst ay))
                                           (combine theta y))))
      by (intros k; apply length_map).
    rewrite (count_disjoint
               (fun k (ay : Q * A) => in_window binsize binsize k (fst ay))).
    + exact (filter_fst_length (covered binsize binsize count) theta y Hlen).
    + apply seq_NoDup.
    + intros x k k' _ _ Hne. apply in_window_disjoint. exact Hne.
  - intros a k Hlo Hhi. unfold covered.
    apply not_true_is_false. intros Hex.
    apply existsb_exists in Hex as (k' & _ & Hk').
    apply in_window_bounds in Hk' as [Hlo' Hhi'].
    pose proof (Qlt_le_trans _ _ _ Hlo Hhi') as H1.
    pose proof (Qle_lt_trans _ _ _ Hlo' Hhi) as H2.
    rewrite <- Zlt_Qlt in H1, H2.
    assert (H3 : (k * binsize < k' * binsize)%nat) by lia.
    assert (H4 : (k' * binsize < k * binsize + binsize)%nat) by lia.
    destruct (Nat.le_gt_cases k' k) as [Hle|Hgt].
    + pose proof (Nat.mul_le_mono_r _ _ binsize Hle). lia.
    + pose proof (Nat.mul_le_mono_r (S k) k' binsize Hgt) as H5.
      simpl in H5. lia.
  - intros a Hlo. unfold covered.
    apply not_true_is_false. intros Hex.
    apply existsb_exists in Hex as (k' & Hin & Hk').
    apply in_seq in Hin.
    apply in_window_bounds in Hk' as [_ Hhi'].
    pose proof (Qlt_le_trans _ _ _ Hlo Hhi') as H1.
    rewrite <- Zlt_Qlt in H1.
    assert (H3 : (count * binsize < k' * binsize + binsize)%nat)
      by (subst count; lia).
    destruct Hin as [_ Hin]. cbn [Nat.add] in Hin. fold count in Hin.
    assert (Hle : (S k' <= count)%nat) by lia.
    pose proof (Nat.mul_le_mono_r _ _ binsize Hle) as H5.
    simpl in H5. lia.
Qed.

Lemma phase_bins_leave_gaps_witness :
  exists comps centers,
    phase_specfic_extraction phase_example [1; 2; 3; 4; 5]%Z 20 None
    = Passed (OK (comps, angle_bin, centers)) /\
    List.length (concat comps) = 3%nat /\
    covered 20 20 18 19.5 = false /\
    covered 20 20 18 359.5 = false.
Proof.
  destruct (phase_bins_leave_gaps phase_example [1; 2; 3; 4; 5]%Z 20)
    as (comps & centers & Hrun & Hcount & Hgap & Hlast);
    [lia | reflexivity|].
  exists comps, centers. split; [exact Hrun|].
  split; [rewrite Hcount; vm_compute; reflexivity|].
  split.
  - apply (Hgap 19.5 0%nat); reflexivity.
  - apply Hlast. reflexivity.
Defined.

End ThetaFacts.

Section ChannelFacts.

Import LfpEvent RippleChannels ChannelExtras.
Local Open Scope Q_scope.

Lemma map_outcome_Forall2 {A B : Type} (f : A -> outcome B) (l : list A) :
  forall ys, map_outcome f l = Ret ys -> Forall2 (fun x y => f x = Ret y) l ys.
Proof.
  induction l as [|x l IH]; simpl; intros ys H.
  - injection H as <-. constructor.
  - destruct (f x) as [y|e] eqn:E; [|discriminate]. simpl in H.
    destruct (map_outcome f l) as [ys'|e]; [|discriminate]. simpl in H.
    injection H as <-. constructor; [exact E | apply IH; reflexivity].
Qed.

Lemma map_outcome_returns {A B : Type} (f : A -> outcome B) (l : list A) :
  Forall (fun x => exists y, f x = Ret y) l ->
  exists ys, map_outcome f l = Ret ys.
Proof.
  induction 1 as [|x l [y Hy] _ [ys IH]]; simpl.
  - eexists. reflexivity.
  - rewrite Hy, IH. simpl. eexists. reflexivity.
Qed.

(** The channel kept for a shank with good channels is a winner of the
    shank. *)
Lemma shank_best_winner (d : list (nat * Q)) (c : nat) (cs : list nat) :
  Forall (fun c' => exists a, dict_get d c' = Ret a) (c :: cs) ->
  exists ca,
    bind (dict_get d c)
         (fun a =>
            bind (map_outcome (dict_get d) cs)
                 (fun rest =>
                    let m := argmax_from a 0 1 rest in
                    Ret [(nth (Z.to_nat (snd m)) (c :: cs) 0%nat, fst m)]))
    = Ret [ca] /\
    shank_winner d (c :: cs) ca.
Proof.
  intros Hall. inversion Hall as [|? ? [a Ha] Hcs]; subst.
  destruct (map_outcome_returns _ _ Hcs) as [rest Hrest].
  rewrite Ha, Hrest. cbn [bind].
  eexists. split; [reflexivity|].
  pose proof (map_outcome_Forall2 _ _ _ Hrest) as H2.
  assert (Hlen : List.length cs = List.length rest)
    by (eapply Forall2_length; exact H2).
  destruct (argmax_from_Q_spec rest a 0%Z 1%Z ltac:(lia))
    as (Hpos & Hbest & Hmax).
  cbv zeta in Hpos, Hbest, Hmax.
  set (m := argmax_from a 0 1 rest) in *.
  (* every channel of the shank has its amplitude in [a :: rest] *)
  assert (Hnth : forall i, (i < List.length (c :: cs))%nat ->
                   dict_get d (nth i (c :: cs) 0%nat)
                   = Ret (nth i (a :: rest) 0)).
  { intros [|i] Hi; [exact Ha|]. simpl in Hi |- *.
    clear -H2 Hi. revert i Hi.
    induction H2 as [|c' a' cs rest Hc' _ IH]; intros i Hi;
      [simpl in Hi; lia|].
    destruct i as [|i]; [exact Hc'|]. simpl in Hi |- *. apply IH. lia. }
  split; [|split].
  - cbn [fst]. apply nth_In. simpl.
    destruct Hpos as [[Hi _]|[Hi _]]; lia.
  - cbn [fst snd].
    rewrite Hnth by (simpl; destruct Hpos as [[Hi _]|[Hi _]]; lia).
    f_equal. destruct Hpos as [[Hi Hv]|[Hi Hv]].
    + rewrite Hi, Hv. reflexivity.
    + rewrite Hv.
      replace (Z.to_nat (snd m)) with (S (Z.to_nat (snd m - 1))) by lia.
      reflexivity.
  - cbn [snd]. constructor.
    + exists a. split; [exact Ha | exact Hbest].
    + assert (Hgen : forall v,
                Forall (fun x => x <= v) rest ->
                Forall (fun c0 => exists a0, dict_get d c0 = Ret a0 /\ a0 <= v)
                       cs).
      { clear -H2. intros v Hv.
        induction H2 as [|c' a' cs rest Hc' _ IH]; constructor.
        - exists a'. split; [exact Hc' | inversion Hv; assumption].
        - apply IH. inversion Hv; assumption. }
      apply Hgen. exact Hmax.
Qed.

Lemma shanks_loop (d : list (nat * Q)) (grp : list (list nat))
  (l : list (list nat)) :
  forall off,
    (forall i, (i < List.length l)%nat ->
               nth_error grp (off + i) = Some (nth i l [])) ->
    Forall (Forall (fun c => exists a, dict_get d c = Ret a)) l ->
    exists best,
      map_outcome (shank_best d grp) (seq off (List.length l)) = Ret best /\
      Forall2 (shank_winner d) (filter has_channels l) (concat best).
Proof.
  induction l as [|shank l IH]; intros off Hgrp Hall.
  - exists []. split; [reflexivity | constructor].
  - inversion Hall as [|? ? Hshank Hl]; subst.
    destruct (IH (S off)) as (best & Hbest & Hwin).
    { intros i Hi. replace (S off + i)%nat with (off + S i)%nat by lia.
      apply (Hgrp (S i)). simpl. lia. }
    { exact Hl. }
    cbn [List.length seq map_outcome].
    unfold shank_best at 1.
    pose proof (Hgrp 0%nat ltac:(simpl; lia)) as H0.
    rewrite Nat.add_0_r in H0. rewrite H0. cbn [nth].
    destruct shank as [|c cs].
    + cbn [bind]. rewrite Hbest. cbn [bind].
      eexists. split; [reflexivity|]. exact Hwin.
    + destruct (shank_best_winner d c cs Hshank) as (ca & Hca & Hw).
      cbv beta iota zeta. cbv zeta in Hca. rewrite Hca. cbn [bind]. rewrite Hbest. cbn [bind].
      eexists. split; [reflexivity|].
      cbn [concat app filter has_channels List.length Nat.eqb negb].
      constructor; assumption.
Qed.

(** *** The sort by amplitude *)

Lemma insert_by_amp_perm (x : nat * Q) (l : list (nat * Q)) :
  Permutation (insert_by_amp x l) (x :: l).
Proof.
  induction l as [|y l IH]; simpl; [apply Permutation_refl|].
  destruct (Qltb (snd x) (snd y)); [apply Permutation_refl|].
  eapply Permutation_trans; [apply perm_skip; exact IH | apply perm_swap].
Qed.

Lemma insert_by_amp_sorted (x : nat * Q) (l : list (nat * Q)) :
  Sorted (fun a b => snd a <= snd b) l ->
  Sorted (fun a b => snd a <= snd b) (insert_by_amp x l).
Proof.
  induction 1 as [|y l Hs IH Hhd]; simpl.
  - repeat constructor.
  - destruct (Qltb (snd x) (snd y)) eqn:E.
    + apply Qltb_lt in E. constructor; [constructor; assumption|].
      constructor. apply Qlt_le_weak. exact E.
    + apply Qltb_ge in E. constructor; [exact IH|].
      destruct l as [|z l]; simpl.
      * constructor. exact E.
      * inversion Hhd; subst.
        destruct (Qltb (snd x) (snd z)); constructor; assumption.
Qed.

Lemma sort_by_amp_spec (l : list (nat * Q)) :
  Permutation (fold_right insert_by_amp [] l) l /\
  Sorted (fun a b => snd a <= snd b) (fold_right insert_by_amp [] l).
Proof.
  induction l as [|x l [IHp IHs]]; simpl; [split; constructor|].
  split.
  - eapply Permutation_trans; [apply insert_by_amp_perm|].
    apply perm_skip. exact IHp.
  - apply insert_by_amp_sorted. exact IHs.
Qed.

Lemma combine_fst_snd {A B : Type} (l : list (A * B)) :
  combine (map fst l) (map snd l) = l.
Proof.
  induction l as [|[a b] l IH]; simpl; [reflexivity|]. rewrite IH. reflexivity.
Qed.

Lemma combine_seq_nth {A : Type} (d : A) (l : list A) :
  forall off,
    Forall (fun ix => (off <= fst ix < off + List.length l)%nat /\
                      nth (fst ix - off) l d = snd ix)
           (combine (seq off (List.length l)) l).
Proof.
  induction l as [|x l IH]; intros off; simpl; constructor.
  - simpl. split; [lia|]. rewrite Nat.sub_diag. reflexivity.
  - eapply Forall_impl; [|apply (IH (S off))].
    intros [i v] [Hi Hv]. simpl in *. split; [lia|].
    replace (i - off)%nat with (S (i - S off)) by lia. exact Hv.
Qed.

Lemma enumerate_nth {A : Type} (d : A) (l : list A) :
  Forall (fun ix => nth (fst ix) l d = snd ix /\ (fst ix < List.length l)%nat)
         (Np.enumerate l).
Proof.
  unfold Np.enumerate.
  eapply Forall_impl; [|apply (combine_seq_nth d l 0)].
  intros [i v] [Hi Hv]. simpl in *. rewrite Nat.sub_0_r in Hv.
  split; [exact Hv | lia].
Qed.

Lemma enumerate_as_map {A : Type} (d : A) (l : list A) :
  Np.enumerate l = map (fun i => (i, nth i l d)) (seq 0 (List.length l)).
Proof.
  unfold Np.enumerate. rewrite (list_as_map_seq d l) at 2.
  rewrite <- (map_id (seq 0 (List.length l))) at 1.
  rewrite combine_map_map. reflexivity.
Qed.

Lemma rebuild_pairs (cb : list (nat * Q)) :
  map (fun i => (nth i (map fst cb) 0%nat, nth i (map snd cb) 0))
      (seq 0 (List.length cb))
  = cb.
Proof.
  induction cb as [|[c a] cb IH]; [reflexivity|].
  cbn [List.length seq map]. cbn [nth fst snd]. f_equal.
  rewrite <- seq_shift, map_map. exact IH.
Qed.

(** Indexing two vectors of one length by the positions that sort the
    second one gives the pairs of the two vectors, those of smaller
    amplitude first. *)
Lemma argsort_pairs (cb : list (nat * Q)) :
  let chans := map fst cb in
  let amps := map snd cb in
  let sort_chan := argsort amps in
  Permutation (combine (map (fun i => nth i chans 0%nat) sort_chan)
                       (map (fun i => nth i amps 0) sort_chan)) cb /\
  Sorted Qle (map (fun i => nth i amps 0) sort_chan).
Proof.
  cbv zeta. unfold argsort.
  destruct (sort_by_amp_spec (Np.enumerate (map snd cb))) as [Hperm Hsorted].
  set (sorted := fold_right insert_by_amp [] (Np.enumerate (map snd cb))) in *.
  pose proof (enumerate_nth 0 (map snd cb)) as Hen.
  assert (Hall : Forall (fun ix => nth (fst ix) (map snd cb) 0 = snd ix /\
                                   (fst ix < List.length (map snd cb))%nat)
                        sorted).
  { apply Forall_forall. intros ix Hin.
    apply (proj1 (Forall_forall _ _) Hen).
    eapply Permutation_in; [exact Hperm | exact Hin]. }
  rewrite !map_map.
  assert (Hamps : map (fun x => nth (fst x) (map snd cb) 0) sorted
                  = map snd sorted).
  { apply map_ext_in. intros ix Hin.
    apply (proj1 (Forall_forall _ _) Hall _ Hin). }
  split.
  - rewrite combine_map_map.
    eapply Permutation_trans; [apply Permutation_map; exact Hperm|].
    rewrite (enumerate_as_map 0 (map snd cb)), map_map, length_map.
    cbn [fst snd]. rewrite rebuild_pairs. apply Permutation_refl.
  - rewrite Hamps. clear -Hsorted.
    induction Hsorted as [|x l _ IH Hhd]; simpl; constructor;
      [exact IH|].
    destruct Hhd; simpl; constructor. assumption.
Qed.

Lemma dict_get_key (d : list (nat * Q)) (c : nat) :
  In c (map fst d) -> exists a, dict_get d c = Ret a.
Proof.
  intros Hin. unfold dict_get.
  destruct (find (fun kv => (fst kv =? c)%nat) (rev d)) as [kv|] eqn:E.
  - eexists. reflexivity.
  - exfalso. apply in_map_iff in Hin as ([k a] & Hk & Hin). simpl in Hk. subst k.
    apply in_rev in Hin.
    pose proof (find_none _ _ E _ Hin) as Hn. simpl in Hn.
    rewrite Nat.eqb_refl in Hn. discriminate.
Qed.

(** X11: when every shank asked for exists and all its good channels
    have an amplitude, [Ripple.channels] returns, for every shank with
    good channels, one channel of the shank whose amplitude no channel of
    the shank exceeds, together with that amplitude; the two vectors it
    saves go together and are in ascending order of amplitude, so that
    the best channel of the probe comes last. *)
Theorem ripple_best_channels (goodChans : list nat) (avgRipple : list Q)
  (nShanks : nat) (goodchangrp : list (list nat)) :
  (nShanks <= List.length goodchangrp)%nat ->
  Forall (Forall (fun c => In c (map fst (dict_zip goodChans avgRipple))))
         (firstn nShanks goodchangrp) ->
  exists chans amps winners,
    channels goodChans avgRipple nShanks goodchangrp = Ret (chans, amps) /\
    Forall2 (shank_winner (dict_zip goodChans avgRipple))
            (filter has_channels (firstn nShanks goodchangrp)) winners /\
    Permutation (combine chans amps) winners /\
    List.length chans = List.length amps /\
    Sorted Qle amps.
Proof.
  intros Hn Hkeys.
  set (d := dict_zip goodChans avgRipple) in *.
  assert (Hlen : List.length (firstn nShanks goodchangrp) = nShanks)
    by (rewrite length_firstn; lia).
  destruct (shanks_loop d goodchangrp (firstn nShanks goodchangrp) 0)
    as (best & Hbest & Hwin).
  { intros i Hi. rewrite Hlen in Hi. cbn [Nat.add].
    rewrite <- (firstn_skipn nShanks goodchangrp) at 1.
    rewrite nth_error_app1 by lia.
    apply nth_error_nth'. lia. }
  { eapply Forall_impl; [|exact Hkeys]. intros shank Hshank.
    eapply Forall_impl; [|exact Hshank]. intros c Hc. simpl in Hc.
    apply dict_get_key. exact Hc. }
  rewrite Hlen in Hbest.
  destruct (argsort_pairs (concat best)) as [Hperm Hsorted].
  cbv zeta in Hperm, Hsorted.
  eexists _, _, (concat best). split; [|split; [|split; [|split]]].
  - unfold channels. fold d. rewrite Hbest. cbn [bind]. reflexivity.
  - exact Hwin.
  - exact Hperm.
  - rewrite !length_map. reflexivity.
  - exact Hsorted.
Qed.

Lemma ripple_best_channels_witness :
  exists chans amps winners,
    channels [0; 1; 2; 5; 6]%nat [3; 7; 5; 9; 1] 3 channels_example_groups
    = Ret (chans, amps) /\
    Forall2 (shank_winner (dict_zip [0; 1; 2; 5; 6]%nat [3; 7; 5; 9; 1]))
            (filter has_channels (firstn 3 channels_example_groups)) winners /\
    Permutation (combine chans amps) winners /\
    List.length chans = List.length amps /\
    Sorted Qle amps.
Proof.
  apply ripple_best_channels.
  - simpl. lia.
  - repeat constructor; simpl; tauto.
Defined.

End ChannelFacts.

Section SpindleChannelFacts.

Import LfpEvent SpindleChannels.
Local Open Scope Q_scope.

(** Entry [i] of the kept columns is at or after column [i], and is
    column [i] just when no column up to [i] was deleted. *)
Lemma kept_column_shift (p : nat -> bool) (n : nat) :
  forall off i,
    (i < List.length (filter p (seq off n)))%nat ->
    (off + i <= nth i (filter p (seq off n)) 0)%nat /\
    (nth i (filter p (seq off n)) 0 = off + i <->
     forall j, (off <= j <= off + i)%nat -> p j = true)%nat.
Proof.
  induction n as [|n IH]; intros off i Hi; [simpl in Hi; lia|].
  cbn [seq filter] in Hi |- *.
  destruct (p off) eqn:E.
  - destruct i as [|i].
    + cbn [nth]. split; [lia|]. split; [|lia].
      intros _ j Hj. assert (j = off) as -> by lia. exact E.
    + cbn [nth List.length] in Hi |- *.
      destruct (IH (S off) i ltac:(lia)) as [Hge Hiff].
      split; [lia|]. rewrite Nat.add_succ_r, <- Nat.add_succ_l.
      rewrite Hiff. split; intros H j Hj.
      * destruct (Nat.eq_dec j off) as [->|Hne]; [exact E | apply H; lia].
      * apply H. lia.
  - destruct (IH (S off) i Hi) as [Hge Hiff].
    split; [lia|]. split; [lia|].
    intros H. rewrite (H off) in E by lia. discriminate.
Qed.

Lemma is_bad_false (badchans : list nat) (j : nat) :
  is_bad badchans j = false <-> ~ In j badchans.
Proof.
  unfold is_bad. split.
  - intros H Hin. apply not_true_iff_false in H. apply H.
    apply existsb_exists. exists j. split; [exact Hin | apply Nat.eqb_refl].
  - intros H. apply not_true_iff_false. intros Hex.
    apply existsb_exists in Hex as (b & Hb & Heq).
    apply Nat.eqb_eq in Heq. subst b. contradiction.
Qed.

(** X12: the trace that [Spindle.channels] saves as [lfp] is column
    [argmax] of the file, where [argmax] is the position of the largest
    amplitude among the columns kept; that amplitude was measured on the
    kept column of that position.  The two are one column exactly when
    every bad channel comes after it: with a bad channel at or before
    that column, the trace saved is not the one that won. *)
Theorem spindle_best_channel_trace (nChans : nat) (badchans allchans : list nat)
  (amp : nat -> Q) (brainChannels : list nat) (probemap : list Q * list Q)
  (best : best_spindle_chan) :
  channels nChans badchans allchans amp brainChannels probemap = Ret best ->
  exists kept winner,
    kept_columns nChans badchans = Ret kept /\
    nth_error kept (lfp best) = Some winner /\
    Forall (fun j => amp j <= amp winner) kept /\
    nth_error (setdiff1d allchans badchans) (lfp best) = Some (channel best) /\
    (lfp best <= winner)%nat /\
    (lfp best = winner <-> Forall (fun b => (lfp best < b)%nat) badchans).
Proof.
  unfold channels. intros H.
  destruct (kept_columns nChans badchans) as [kept|e] eqn:Ekept;
    [|discriminate].
  cbn [bind] in H.
  destruct kept as [|k0 kept']; [discriminate|].
  cbn [map] in H.
  destruct (argmax_from_Q_spec (map amp kept') (amp k0) 0%Z 1%Z ltac:(lia))
    as (Hpos & Hbest & Hmax).
  cbv zeta in Hpos, Hbest, Hmax.
  set (m := argmax_from (amp k0) 0 1 (map amp kept')) in *.
  destruct (nth_error (setdiff1d allchans badchans) (Z.to_nat (snd m)))
    as [bestchan|] eqn:Echan; [|discriminate].
  destruct (dict_get _ bestchan) as [xy|e]; [|discriminate].
  cbn [bind] in H. injection H as <-. cbn [lfp channel].
  rewrite length_map in Hpos.
  assert (Hi : (Z.to_nat (snd m) < List.length (k0 :: kept'))%nat).
  { simpl. destruct Hpos as [[Hi _]|[Hi _]]; lia. }
  assert (Hval : fst m = amp (nth (Z.to_nat (snd m)) (k0 :: kept') 0%nat)).
  { destruct Hpos as [[Hi' Hv]|[Hi' Hv]].
    - rewrite Hi', Hv. reflexivity.
    - rewrite Hv.
      replace (Z.to_nat (snd m)) with (S (Z.to_nat (snd m - 1))) by lia.
      cbn [nth]. rewrite <- (map_nth amp). apply nth_indep.
      rewrite length_map. lia. }
  exists (k0 :: kept'), (nth (Z.to_nat (snd m)) (k0 :: kept') 0%nat).
  split; [reflexivity|].
  split; [apply nth_error_nth'; exact Hi|].
  split.
  { rewrite <- Hval. constructor; [exact Hbest|].
    rewrite Forall_map in Hmax. exact Hmax. }
  split; [exact Echan|].
  unfold kept_columns in Ekept.
  destruct (forallb (fun b => (b <? nChans)%nat) badchans); [|discriminate].
  injection Ekept as Ekept.
  rewrite <- Ekept in Hi |- *.
  destruct (kept_column_shift (fun j => negb (is_bad badchans j)) nChans 0
              (Z.to_nat (snd m)) Hi) as [Hge Hiff].
  cbn [Nat.add] in Hge, Hiff.
  split; [exact Hge|].
  split.
  - intros Heq. symmetry in Heq. pose proof (proj1 Hiff Heq) as Hkept.
    clear Heq. rename Hkept into Heq.
    apply Forall_forall. intros b Hb.
    destruct (Nat.lt_ge_cases (Z.to_nat (snd m)) b) as [Hlt|Hle];
      [exact Hlt|].
    specialize (Heq b ltac:(lia)).
    apply negb_true_iff, is_bad_false in Heq. contradiction.
  - intros Hall. symmetry. apply (proj2 Hiff). intros j Hj.
    apply negb_true_iff, is_bad_false. intros Hin.
    pose proof (proj1 (Forall_forall _ _) Hall _ Hin) as Hb.
    simpl in Hb. lia.
Qed.

Lemma spindle_best_channel_trace_witness :
  exists best kept winner,
    channels 4 [0%nat] [0; 1; 2; 3]%nat
             (fun j => nth j [9; 1; 5; 2] 0)
             [0; 1; 2; 3]%nat ([0; 0; 0; 0], [0; 10; 20; 30]) = Ret best /\
    lfp best = 1%nat /\ winner = 2%nat /\
    kept_columns 4 [0%nat] = Ret kept /\
    nth_error kept (lfp best) = Some winner /\
    (lfp best = winner <-> Forall (fun b => (lfp best < b)%nat) [0%nat]).
Proof.
  eexists. 
  destruct (spindle_best_channel_trace 4 [0%nat] [0; 1; 2; 3]%nat
              (fun j => nth j [9; 1; 5; 2] 0)
              [0; 1; 2; 3]%nat ([0; 0; 0; 0], [0; 10; 20; 30])
              (mkBest 2 1 (0, 20)))
    as (kept & winner & Hk & Hw & _ & _ & _ & Hiff);
    [vm_compute; reflexivity|].
  exists kept, winner.
  split; [vm_compute; reflexivity|].
  split; [reflexivity|].
  vm_compute in Hk. injection Hk as <-.
  vm_compute in Hw. injection Hw as <-.
  split; [reflexivity|]. split; [reflexivity|].
  split; [reflexivity | exact Hiff].
Defined.

End SpindleChannelFacts.
(** * Further properties of decoders.py *)

Section ShuffleComposition.

Import Np Decoders PValueSpec ScoreSpec DecoderExtras.
Local Open Scope R_scope.
Import String.StringSyntax.
Local Open Scope string_scope.

Lemma mapM_all_OK {A B : Type} (P : A -> Prop) (Q : B -> Prop) (f : A -> M B)
  (l : list A) :
  (forall x g, P x -> exists y g', f x g = OK (y, g') /\ Q y) ->
  Forall P l ->
  forall g, exists ys g',
    mapM f l g = OK (ys, g') /\ List.length ys = List.length l /\ Forall Q ys.
Proof.
  intros Hf Hl. induction Hl as [|x l Hx _ IH]; intros g; simpl.
  - exists [], g. repeat split. constructor.
  - destruct (Hf x g Hx) as (y & g1 & Hy & HQ).
    destruct (IH g1) as (ys & g2 & Hys & Hlen & Hall).
    exists (y :: ys), g2. unfold bindM. rewrite Hy, Hys. simpl.
    repeat split; [f_equal; exact Hlen | constructor; assumption].
Qed.

(** The column shuffle returns on a matrix with at least two columns, and
    keeps its shape. *)
Lemma col_shuffle_returns (mat : ndarray R) (g : rng) :
  shuffleable mat ->
  exists mat' g', col_shuffle mat g = OK (mat', g') /\ scorable mat'.
Proof.
  intros (Hwf & Hp & Hn).
  destruct (randint_spec 1 (Z.of_nat (shape1 mat)) (shape1 mat) g)
    as (shift & g1 & Hshift & Hlen1 & _); [lia|].
  destruct (choice_sign_spec (shape1 mat) g1)
    as (direction & g2 & Hdir & Hlen2 & _).
  eexists _, g2. split.
  { unfold col_shuffle, bindM. rewrite Hshift, Hdir. reflexivity. }
  assert (Hlen : List.length (zip_with Z.mul shift direction) = shape1 mat).
  { rewrite length_zip_with. lia. }
  split; [|split; simpl; lia].
  apply transpose_wf. split; simpl.
  - unfold enumerate. rewrite length_map, length_combine, length_seq. lia.
  - apply Forall_map. apply Forall_forall. intros [i sh] Hin. simpl.
    unfold enumerate in Hin. apply in_combine_l in Hin. apply in_seq in Hin.
    rewrite roll_length. apply column_length; [exact Hwf | lia].
Qed.

(** The scorer returns on a matrix with at least one row and one column. *)
Lemma score_event_returns (evt : ndarray R) (g : rng) :
  scorable evt -> exists res g', score_event evt g = OK (res, g') /\ True.
Proof.
  intros (Hwf & Hp & Ht).
  pose proof (score_event_eq evt g Hwf Hp Ht) as Heq. cbv zeta in Heq.
  destruct (argmax_spec
              (map (fun l => line_mean evt (smoothed_of evt)
                                       (drawn_intercept evt g l)
                                       (drawn_theta g l))
                   (seq 0 nlines))) as (m & Hm & _).
  { intros Hnil. apply (f_equal (@List.length R)) in Hnil.
    rewrite length_map, length_seq in Hnil. exact (nlines_not_0 Hnil). }
  rewrite Hm in Heq. eauto.
Qed.

Lemma column_iteration_returns (self : Bayes1d) (sc : list (list R)) (g : rng) :
  Forall shuffleable (posterior self) ->
  exists row g',
    column_iteration self sc g = OK ((sc ++ [row])%list, g') /\
    List.length row = List.length (posterior self).
Proof.
  intros Hall.
  destruct (mapM_all_OK shuffleable scorable col_shuffle (posterior self)
              (fun x g0 Hx => col_shuffle_returns x g0 Hx) Hall g)
    as (evts & g1 & He & Hlen1 & Hsc).
  destruct (mapM_all_OK scorable (fun _ => True) score_event evts
              (fun x g0 Hx => score_event_returns x g0 Hx) Hsc g1)
    as (res & g2 & Hr & Hlen2 & _).
  exists (map fst res), g2. split.
  - unfold column_iteration, _score_events, bindM. rewrite He, Hr. reflexivity.
  - rewrite length_map. congruence.
Qed.

Lemma column_loop_returns (self : Bayes1d) (n : nat) :
  Forall shuffleable (posterior self) ->
  forall sc g, exists sc' g',
    iterate n (column_iteration self) sc g = OK (sc', g').
Proof.
  intros Hall. induction n as [|n IH]; intros sc g; simpl.
  - eexists _, _. reflexivity.
  - destruct (column_iteration_returns self sc g Hall) as (row & g1 & H & _).
    unfold bindM. rewrite H. apply IH.
Qed.

(** The shuffled-score matrix the p-values are computed from is never
    empty here, so that the rows alone decide the broadcast. *)
Lemma p_val_events_returns (self : Bayes1d) :
  shuffle_score self <> [] ->
  Forall (fun row => List.length row = List.length (score self))
         (shuffle_score self) ->
  exists p,
    p_val_events self = OK p /\
    List.length p = List.length (score self) /\
    Forall (fun x => 1 / (INR (List.length (shuffle_score self)) + 1) <= x <= 1)
           p.
Proof.
  intros Hne Hshape. unfold p_val_events.
  destruct (shuffle_score self) as [|r rs] eqn:Hss; [congruence|]. clear Hne.
  assert (Hr : List.length r = List.length (score self))
    by (inversion Hshape; assumption).
  clear Hss. remember (r :: rs) as ss eqn:Ess. clear Ess.
  assert (Hdiff :
    map_result (fun row => broadcast_sub row (score self)) ss
    = OK (map (fun row => zip_with Rminus row (score self)) ss)).
  { apply map_result_all_OK. eapply Forall_impl; [|exact Hshape].
    intros row Hrow. simpl in Hrow. unfold broadcast_sub.
    rewrite Hrow, Nat.eqb_refl. reflexivity. }
  rewrite Hdiff. cbn [Py.bind]. rewrite Hr, Nat.max_id.
  set (masks := map where_pos
                  (map (fun row => zip_with Rminus row (score self)) ss)).
  assert (Hmasks : Forall (fun m => List.length m = List.length (score self))
                          masks).
  { subst masks. rewrite map_map. apply Forall_map.
    eapply Forall_impl; [|exact Hshape].
    intros row Hrow. simpl in Hrow |- *. unfold where_pos.
    rewrite length_map, length_zip_with, Hrow. apply Nat.min_id. }
  assert (Hlen : List.length
                   (fold_left (zip_with Nat.add) masks
                      (repeat 0%nat (List.length (score self))))
                 = List.length (score self)).
  { apply fold_zip_add_length; [assumption | apply repeat_length]. }
  eexists. split; [reflexivity|]. split; [rewrite length_map; exact Hlen|].
  apply Forall_map. apply Forall_nth. intros i d Hi. rewrite Hlen in Hi.
  rewrite (nth_indep _ d 0%nat) by (rewrite Hlen; exact Hi).
  rewrite (fold_zip_add_nth (List.length (score self))) by
    (try assumption; apply repeat_length).
  rewrite nth_repeat. simpl Nat.add.
  subst masks. rewrite !map_map.
  rewrite (exceed_count_sum (score self) i) by assumption.
  apply p_value_range. apply filter_length_le.
Qed.

(** X13: on events of at least one position bin and two time bins the
    "column" shuffle never raises; it leaves one row of scores per
    iteration, one score per event, and touches nothing else of the
    session. *)
Theorem decode_shuffle_column_returns (self : Bayes1d) (n_iter : nat)
  (g : rng) :
  Forall shuffleable (posterior self) ->
  exists self' g',
    decode_shuffle self n_iter "column" g = OK (self', g') /\
    List.length (shuffle_score self') = n_iter /\
    Forall (fun row => List.length row = List.length (posterior self))
           (shuffle_score self') /\
    self' = set_shuffle_score self (shuffle_score self').
Proof.
  intros Hall.
  destruct (column_loop_returns self n_iter Hall [] g) as (sc & g1 & Hloop).
  exists (set_shuffle_score self sc), g1.
  assert (Hrun : decode_shuffle self n_iter "column" g
                 = OK (set_shuffle_score self sc, g1)).
  { unfold decode_shuffle, bindM.
    cbn [String.eqb Ascii.eqb Bool.eqb andb ret]. rewrite Hloop. reflexivity. }
  split; [exact Hrun|].
  destruct (decode_shuffle_column_scores_all _ _ _ _ _ Hrun) as [Hlen Hrows].
  repeat split; assumption.
Qed.

Lemma column_session_shuffleable : Forall shuffleable (posterior column_session).
Proof.
  repeat constructor; simpl; lia.
Qed.

Lemma decode_shuffle_column_returns_witness :
  Forall shuffleable (posterior column_session) /\
  exists self' g',
    decode_shuffle column_session 3 "column" (fun k => Z.of_nat k) = OK (self', g') /\
    List.length (shuffle_score self') = 3%nat /\
    Forall (fun row => List.length row = List.length (posterior column_session))
           (shuffle_score self') /\
    self' = set_shuffle_score column_session (shuffle_score self').
Proof.
  split; [exact column_session_shuffleable|].
  exact (decode_shuffle_column_returns column_session 3 (fun k => Z.of_nat k)
           column_session_shuffleable).
Defined.

Lemma column_then_p_values (self : Bayes1d) (n_iter : nat) (g : rng) :
  Forall shuffleable (posterior self) ->
  List.length (score self) = List.length (posterior self) ->
  (1 <= n_iter)%nat ->
  exists self' g' p,
    decode_shuffle self n_iter "column" g = OK (self', g') /\
    p_val_events self' = OK p /\
    List.length p = List.length (posterior self) /\
    Forall (fun x => 1 / (INR n_iter + 1) <= x <= 1) p.
Proof.
  intros Hall Hscore Hn.
  destruct (column_loop_returns self n_iter Hall [] g) as (sc & g1 & Hloop).
  assert (Hrun : decode_shuffle self n_iter "column" g
                 = OK (set_shuffle_score self sc, g1)).
  { unfold decode_shuffle, bindM.
    cbn [String.eqb Ascii.eqb Bool.eqb andb ret]. rewrite Hloop. reflexivity. }
  destruct (decode_shuffle_column_scores_all _ _ _ _ _ Hrun) as [Hlen Hrows].
  cbn [shuffle_score set_shuffle_score] in Hlen, Hrows.
  destruct (p_val_events_returns (set_shuffle_score self sc))
    as (p & Hp & Hplen & Hrange).
  - cbn [shuffle_score set_shuffle_score]. intros ->. simpl in Hlen. lia.
  - cbn [shuffle_score set_shuffle_score score]. rewrite Hscore. exact Hrows.
  - exists (set_shuffle_score self sc), g1, p.
    cbn [shuffle_score set_shuffle_score score] in Hplen, Hrange.
    rewrite Hlen in Hrange.
    repeat split; try assumption. congruence.
Qed.

(** X14: a "column" shuffle of at least one iteration followed by
    [p_val_events] returns one p-value for each event, each between
    [1 / (n_iter + 1)] and 1. *)
Theorem column_shuffle_then_p_values (self : Bayes1d) (n_iter : nat) (g : rng) :
  Forall shuffleable (posterior self) ->
  List.length (score self) = List.length (posterior self) ->
  (1 <= n_iter)%nat ->
  exists self' g' p,
    decode_shuffle self n_iter "column" g = OK (self', g') /\
    p_val_events self' = OK p /\
    List.length p = List.length (posterior self) /\
    Forall (fun x => 1 / (INR n_iter + 1) <= x <= 1) p.
Proof.
  apply column_then_p_values.
Qed.

Lemma column_shuffle_then_p_values_witness :
  exists self' g' p,
    decode_shuffle column_session 3 "column" (fun k => Z.of_nat k)
    = OK (self', g') /\
    p_val_events self' = OK p /\
    List.length p = 2%nat /\
    Forall (fun x => 1 / (INR 3 + 1) <= x <= 1) p.
Proof.
  apply (column_shuffle_then_p_values column_session 3 (fun k => Z.of_nat k)).
  - exact column_session_shuffleable.
  - reflexivity.
  - lia.
Defined.

(** X15: after a "cellid" shuffle of a session with two events or more,
    [p_val_events] raises ValueError, whatever the number of iterations:
    the branch leaves no shuffled score to compare with. *)
Theorem cellid_shuffle_then_p_values_raise (self self' : Bayes1d)
  (n_iter : nat) (g g' : rng) :
  decode_shuffle self n_iter "cellid" g = OK (self', g') ->
  (2 <= List.length (score self))%nat ->
  p_val_events self' = Raise ValueError.
Proof.
  unfold decode_shuffle, bindM. cbn [String.eqb Ascii.eqb Bool.eqb andb].
  destruct (cellid_branch self n_iter g) as [[res g1]|e]; [|discriminate].
  cbn [ret]. intros H Hlen. injection H as <- _.
  unfold p_val_events. cbn [shuffle_score set_shuffle_score score].
  destruct (score self) as [|a [|b l]]; simpl in Hlen; try lia. reflexivity.
Qed.

Lemma decode_shuffle_two_event_session :
  exists g',
    decode_shuffle two_event_session 2 "cellid" (fun _ => 0%Z)
    = OK (set_shuffle_score two_event_session [], g').
Proof.
  unfold decode_shuffle, bindM. cbn [String.eqb Ascii.eqb Bool.eqb andb].
  unfold cellid_branch, bindM, lift.
  cbn.
  destruct (Rgt_dec 2 1) as [_|Hn]; [|exfalso; lra].
  cbn.
  eexists. reflexivity.
Qed.

Lemma cellid_shuffle_then_p_values_raise_witness :
  exists self' g',
    decode_shuffle two_event_session 2 "cellid" (fun _ => 0%Z) = OK (self', g') /\
    p_val_events self' = Raise ValueError.
Proof.
  destruct decode_shuffle_two_event_session as [g' H].
  exists (set_shuffle_score two_event_session []), g'.
  split; [exact H|].
  apply (cellid_shuffle_then_p_values_raise _ _ _ _ _ H). simpl. lia.
Defined.

End ShuffleComposition.

Section DecoderShapeFacts.

Import Np Decoders DecoderSpec DecoderExtras.
Local Open Scope R_scope.

(** A loop whose body raises [e] at some item whatever the state, and
    raises nothing else before, raises [e]. *)
Lemma for_each_raises {A S : Type} (body : S -> A -> result S) (e : exn)
  (l : list A) :
  (forall s x, In x l -> body s x = Raise e \/ exists s', body s x = OK s') ->
  (exists x, In x l /\ forall s, body s x = Raise e) ->
  forall s, for_each body l s = Raise e.
Proof.
  induction l as [|y l IH]; intros Hall (x & Hin & Hx) s.
  - destruct Hin.
  - simpl. destruct (Hall s y (or_introl eq_refl)) as [Hr|[s' Hs']].
    + rewrite Hr. reflexivity.
    + rewrite Hs'. simpl. apply IH.
      * intros s0 x0 Hx0. apply Hall. right. exact Hx0.
      * destruct Hin as [->|Hin].
        -- rewrite Hx in Hs'. discriminate.
        -- exists x. split; assumption.
Qed.

(** X16: with more rows of spike counts than rate maps the decoder raises
    IndexError: the loop runs over the rows of the counts and indexes the
    rate maps with the same number. *)
Theorem decoder_too_few_ratemaps (tau : R) (spkcount : ndarray nat)
  (ratemaps : ndarray R) :
  wf spkcount -> wf ratemaps ->
  (shape0 ratemaps < shape0 spkcount)%nat ->
  _decoder tau spkcount ratemaps = Raise IndexError.
Proof.
  intros Hspk Hrm Hlt. unfold _decoder, joint_likelihood.
  rewrite (for_each_raises (decoder_body tau spkcount ratemaps) IndexError).
  - reflexivity.
  - intros s x _. unfold decoder_body.
    destruct (nth_error (rows spkcount) x), (nth_error (rows ratemaps) x);
      eauto.
  - exists (shape0 ratemaps). split.
    + apply in_seq. lia.
    + intros s. unfold decoder_body.
      destruct Hrm as [Hlen _].
      replace (nth_error (rows ratemaps) (shape0 ratemaps)) with (@None (list R)).
      * destruct (nth_error (rows spkcount) (shape0 ratemaps)); reflexivity.
      * symmetry. apply nth_error_None. lia.
Qed.

Lemma decoder_too_few_ratemaps_witness :
  _decoder 0.02 decoder_example_counts two_position_maps = Raise IndexError.
Proof.
  apply decoder_too_few_ratemaps.
  - split; [reflexivity | repeat constructor].
  - split; [reflexivity | repeat constructor].
  - simpl. lia.
Defined.

(** X17: only the first rows of the rate maps, as many as there are rows
    of spike counts, reach the posterior: two sets of rate maps that
    agree there decode alike, whatever rows follow. *)
Theorem decoder_ignores_extra_ratemaps (tau : R) (spkcount : ndarray nat)
  (ratemaps ratemaps' : ndarray R) :
  wf spkcount -> wf ratemaps -> wf ratemaps' ->
  (shape0 spkcount <= shape0 ratemaps)%nat ->
  (shape0 spkcount <= shape0 ratemaps')%nat ->
  shape1 ratemaps = shape1 ratemaps' ->
  (forall cell p, (cell < shape0 spkcount)%nat ->
                  get 0 ratemaps cell p = get 0 ratemaps' cell p) ->
  _decoder tau spkcount ratemaps = _decoder tau spkcount ratemaps'.
Proof.
  intros Hspk Hrm Hrm' Hle Hle' Hshape Hagree. unfold _decoder.
  rewrite (joint_likelihood_eq tau spkcount ratemaps) by assumption.
  rewrite (joint_likelihood_eq tau spkcount ratemaps') by assumption.
  replace (joint_array tau spkcount ratemaps')
    with (joint_array tau spkcount ratemaps); [reflexivity|].
  unfold joint_array. rewrite <- Hshape. f_equal.
  apply map_ext. intros p. apply map_ext. intros t. f_equal.
  apply map_ext_in. intros c Hc. apply in_seq in Hc.
  rewrite Hagree by lia. reflexivity.
Qed.

Lemma decoder_ignores_extra_ratemaps_witness :
  _decoder 0.02 silent_counts two_position_maps
  = _decoder 0.02 silent_counts (mkArray 2 2 [[1; 2]; [7; 9]]).
Proof.
  apply decoder_ignores_extra_ratemaps.
  - split; [reflexivity | repeat constructor].
  - split; [reflexivity | repeat constructor].
  - split; [reflexivity | repeat constructor].
  - simpl. lia.
  - simpl. lia.
  - reflexivity.
  - intros cell p Hc. simpl in Hc.
    assert (cell = 0%nat) as -> by lia. reflexivity.
Defined.

Lemma Rprod_pos (l : list R) : Forall (fun x => 0 < x) l -> 0 < Rprod l.
Proof.
  induction 1 as [|x l Hx _ IH]; simpl; [lra|].
  apply Rmult_lt_0_compat; assumption.
Qed.

Lemma cell_term_pos (tau frate : R) (n : nat) :
  0 < tau -> 0 < frate -> 0 < cell_term tau frate n.
Proof.
  intros Ht Hf. unfold cell_term.
  apply Rmult_lt_0_compat; [|apply exp_pos].
  apply Rmult_lt_0_compat.
  - apply pow_lt. apply Rmult_lt_0_compat; assumption.
  - unfold Rdiv. rewrite Rmult_1_l. apply Rinv_0_lt_compat.
    apply lt_0_INR. apply lt_O_fact.
Qed.

Lemma Rsum_nonneg (l : list R) : Forall (fun x => 0 <= x) l -> 0 <= Rsum l.
Proof.
  induction 1 as [|x l Hx _ IH]; simpl; lra.
Qed.

Lemma Rsum_ge_nth (l : list R) :
  Forall (fun x => 0 <= x) l ->
  forall i, nth i l 0 <= Rsum l.
Proof.
  induction 1 as [|x l Hx Hl IH]; intros i.
  - destruct i; simpl; lra.
  - pose proof (Rsum_nonneg l Hl). destruct i as [|i]; simpl.
    + lra.
    + specialize (IH i). lra.
Qed.

Lemma decoder_distribution (tau : R) (spkcount : ndarray nat)
  (ratemaps : ndarray R) :
  wf spkcount -> wf ratemaps ->
  (shape0 spkcount <= shape0 ratemaps)%nat ->
  (1 <= shape1 ratemaps)%nat ->
  0 < tau ->
  (forall cell p, (cell < shape0 spkcount)%nat -> (p < shape1 ratemaps)%nat ->
                  0 < get 0 ratemaps cell p) ->
  exists posterior,
    _decoder tau spkcount ratemaps = OK posterior /\
    wf posterior /\
    shape0 posterior = shape1 ratemaps /\
    shape1 posterior = shape1 spkcount /\
    forall t, (t < shape1 spkcount)%nat ->
      Rsum (column posterior t) = 1 /\
      forall p, (p < shape1 ratemaps)%nat ->
                0 < get 0 posterior p t <= 1.
Proof.
  intros Hspk Hrm Hle Hpos Htau Hrate.
  pose proof (joint_array_wf tau spkcount ratemaps) as Hjwf.
  exists (normalize (joint_array tau spkcount ratemaps)).
  split; [|split; [|split; [|split]]].
  - unfold _decoder. rewrite joint_likelihood_eq by assumption. reflexivity.
  - apply normalize_wf. exact Hjwf.
  - reflexivity.
  - reflexivity.
  - intros t Ht.
    assert (Hentry : forall p, (p < shape1 ratemaps)%nat ->
                       0 < get 0 (joint_array tau spkcount ratemaps) p t).
    { intros p Hp. rewrite joint_array_get by assumption.
      apply Rprod_pos. apply Forall_map. apply Forall_forall.
      intros c Hc. apply in_seq in Hc. apply cell_term_pos; [exact Htau|].
      apply Hrate; lia. }
    assert (Hcol : column (joint_array tau spkcount ratemaps) t
                   = map (fun p => get 0 (joint_array tau spkcount ratemaps) p t)
                         (seq 0 (shape1 ratemaps))).
    { rewrite (list_as_map_seq 0 (column _ t)).
      rewrite column_length by (try exact Hjwf; exact Ht).
      apply map_ext. intros p. apply get_column; [exact Hjwf | exact Ht]. }
    assert (Hnonneg : Forall (fun x => 0 <= x)
                             (column (joint_array tau spkcount ratemaps) t)).
    { rewrite Hcol. apply Forall_map. apply Forall_forall.
      intros p Hp. apply in_seq in Hp. left. apply Hentry. lia. }
    assert (Hsum : 0 < Rsum (column (joint_array tau spkcount ratemaps) t)).
    { apply Rlt_le_trans
        with (nth 0 (column (joint_array tau spkcount ratemaps) t) 0).
      - rewrite get_column by (try exact Hjwf; exact Ht). apply Hentry. lia.
      - apply Rsum_ge_nth. exact Hnonneg. }
    split.
    + rewrite normalize_column by (try exact Hjwf; exact Ht).
      rewrite Rsum_scale. field. lra.
    + intros p Hp.
      rewrite normalize_get by (try exact Hjwf; try exact Ht; exact Hp).
      pose proof (Hentry p Hp) as He.
      pose proof (Rsum_ge_nth _ Hnonneg p) as Hge.
      rewrite get_column in Hge by (try exact Hjwf; exact Ht).
      split.
      * apply Rdiv_lt_0_compat; assumption.
      * apply Rmult_le_reg_r
          with (Rsum (column (joint_array tau spkcount ratemaps) t));
          [exact Hsum|].
        unfold Rdiv. rewrite Rmult_assoc, Rinv_l by lra. lra.
Qed.

(** X18: with a positive bin size and positive firing rates everywhere,
    the decoder returns, for at least one position bin, a matrix of
    probabilities: every entry is positive and at most 1, and every
    column sums to 1. *)
Theorem decoder_posterior_is_distribution (tau : R) (spkcount : ndarray nat)
  (ratemaps : ndarray R) :
  wf spkcount -> wf ratemaps ->
  (shape0 spkcount <= shape0 ratemaps)%nat ->
  (1 <= shape1 ratemaps)%nat ->
  0 < tau ->
  (forall cell p, (cell < shape0 spkcount)%nat -> (p < shape1 ratemaps)%nat ->
                  0 < get 0 ratemaps cell p) ->
  exists posterior,
    _decoder tau spkcount ratemaps = OK posterior /\
    wf posterior /\
    shape0 posterior = shape1 ratemaps /\
    shape1 posterior = shape1 spkcount /\
    forall t, (t < shape1 spkcount)%nat ->
      Rsum (column posterior t) = 1 /\
      forall p, (p < shape1 ratemaps)%nat ->
                0 < get 0 posterior p t <= 1.
Proof.
  apply decoder_distribution.
Qed.

Lemma decoder_posterior_is_distribution_witness :
  exists posterior,
    _decoder 0.02 decoder_example_counts (mkArray 2 2 [[1; 2]; [5; 3]])
    = OK posterior /\
    Rsum (column posterior 1) = 1 /\
    0 < get 0 posterior 0 1 <= 1.
Proof.
  destruct (decoder_posterior_is_distribution 0.02 decoder_example_counts
              (mkArray 2 2 [[1; 2]; [5; 3]]))
    as (posterior & Hd & _ & _ & _ & Hcols).
  - split; [reflexivity | repeat constructor].
  - split; [reflexivity | repeat constructor].
  - simpl. lia.
  - simpl. lia.
  - lra.
  - intros cell p Hc Hp. simpl in Hc, Hp.
    destruct cell as [|[|cell]]; [| |lia];
      (destruct p as [|[|p]]; [| |lia]); unfold get; simpl; lra.
  - exists posterior. split; [exact Hd|].
    destruct (Hcols 1%nat) as [Hsum Hent]; [simpl; lia|].
    split; [exact Hsum|]. apply Hent. simpl. lia.
Defined.

End DecoderShapeFacts.

Section ScoreBounds.

Import Np Decoders ScoreSpec DecoderExtras.
Local Open Scope R_scope.

Lemma insert_sorted_Forall (P : R -> Prop) (x : R) (l : list R) :
  P x -> Forall P l -> Forall P (insert_sorted x l).
Proof.
  intros Hx. induction 1 as [|y l Hy Hl IH]; simpl.
  - repeat constructor. exact Hx.
  - destruct (Rle_dec x y); repeat constructor; assumption.
Qed.

Lemma insert_sorted_length (x : R) (l : list R) :
  List.length (insert_sorted x l) = S (List.length l).
Proof.
  induction l as [|y l IH]; simpl; [reflexivity|].
  destruct (Rle_dec x y); simpl; [reflexivity | rewrite IH; reflexivity].
Qed.

Lemma sort_Forall (P : R -> Prop) (l : list R) :
  Forall P l -> Forall P (sort l).
Proof.
  induction 1 as [|x l Hx _ IH]; simpl; [constructor|].
  apply insert_sorted_Forall; assumption.
Qed.

Lemma sort_length (l : list R) : List.length (sort l) = List.length l.
Proof.
  induction l as [|x l IH]; simpl; [reflexivity|].
  unfold sort in IH |- *. rewrite insert_sorted_length, IH. reflexivity.
Qed.

(** The median of a non-empty vector lies between any two bounds of its
    entries. *)
Lemma median_bounds (a b : R) (l : list R) :
  l <> [] -> Forall (fun x => a <= x <= b) l -> a <= median l <= b.
Proof.
  intros Hne Hall. unfold median.
  assert (Hn : (0 < List.length l)%nat).
  { destruct l; [congruence | simpl; lia]. }
  pose proof (sort_Forall _ l Hall) as Hs.
  pose proof (sort_length l) as Hlen.
  assert (Hnth : forall i, (i < List.length l)%nat ->
                           a <= nth i (sort l) 0 <= b).
  { intros i Hi. rewrite <- Hlen in Hi.
    exact (proj1 (Forall_nth _ _) Hs i 0 Hi). }
  assert (Hhalf : (List.length l / 2 < List.length l)%nat).
  { apply Nat.div_lt; lia. }
  destruct (Nat.even (List.length l)).
  - pose proof (Hnth (List.length l / 2 - 1)%nat ltac:(lia)).
    pose proof (Hnth (List.length l / 2)%nat Hhalf). lra.
  - apply Hnth. exact Hhalf.
Qed.

(** Three neighbours of a column of non-negative entries weigh at most
    as much as the column. *)
Lemma window_bounds (col : list R) :
  Forall (fun x => 0 <= x) col ->
  forall a b y, 0 <= a -> 0 <= b ->
    0 <= nth y (a :: b :: col) 0 + nth y (b :: col) 0 + nth y col 0
      <= a + b + Rsum col.
Proof.
  induction 1 as [|x col Hx Hcol IH]; intros a b y Ha Hb.
  - destruct y as [|[|[|y]]]; simpl; lra.
  - pose proof (Rsum_nonneg col Hcol) as Hs.
    destruct y as [|y].
    + simpl. lra.
    + specialize (IH b x y Hb Hx).
      change (nth (S y) (a :: b :: x :: col) 0) with (nth y (b :: x :: col) 0).
      change (nth (S y) (b :: x :: col) 0) with (nth y (x :: col) 0).
      change (nth (S y) (x :: col) 0) with (nth y col 0).
      simpl Rsum. lra.
Qed.

Lemma Rsum_bounds (a b : R) (l : list R) :
  Forall (fun x => a <= x <= b) l ->
  a * INR (List.length l) <= Rsum l <= b * INR (List.length l).
Proof.
  induction 1 as [|x l Hx _ IH].
  - simpl. lra.
  - change (List.length (x :: l)) with (S (List.length l)).
    rewrite S_INR. simpl Rsum. lra.
Qed.

Lemma score_event_unit (evt : ndarray R) (g : rng) :
  wf evt -> (1 <= shape0 evt)%nat -> (1 <= shape1 evt)%nat ->
  (forall p t, (p < shape0 evt)%nat -> (t < shape1 evt)%nat ->
               0 <= get 0 evt p t) ->
  (forall t, (t < shape1 evt)%nat -> Rsum (column evt t) <= 1) ->
  exists sc slope g',
    score_event evt g = OK ((sc, slope), g') /\ 0 <= sc <= 1.
Proof.
  intros Hwf Hp Ht Hnonneg Hsum.
  destruct (smooth_eq evt Hwf Hp Ht) as [_ Hswf].
  assert (Hcolnn : forall t, (t < shape1 evt)%nat ->
                     Forall (fun x => 0 <= x) (column evt t)).
  { intros t Hlt. apply Forall_nth. intros i d Hi.
    rewrite column_length in Hi by assumption.
    rewrite (nth_indep _ d 0) by (rewrite column_length; assumption).
    rewrite get_column by assumption. apply Hnonneg; assumption. }
  assert (Hsm : forall y t, (t < shape1 evt)%nat ->
                  0 <= get 0 (smoothed_of evt) y t <= 1).
  { intros y t Hlt. rewrite smoothed_get by assumption.
    pose proof (window_bounds _ (Hcolnn t Hlt) 0 0 y (Rle_refl 0) (Rle_refl 0)).
    specialize (Hsum t Hlt). lra. }
  assert (Hshape : shape1 (smoothed_of evt) = shape1 evt) by reflexivity.
  assert (Hsample : forall c m t, (t < shape1 evt)%nat ->
                      0 <= line_sample evt (smoothed_of evt) c m t <= 1).
  { intros c m t Hlt. unfold line_sample. cbv zeta.
    destruct ((0 <=? line_row evt c m t)
              && (line_row evt c m t <=? Z.of_nat (shape0 evt) - 1))%Z.
    - apply Hsm. exact Hlt.
    - apply median_bounds.
      + intros Hnil. apply (f_equal (@List.length R)) in Hnil.
        rewrite column_length in Hnil by (try exact Hswf; exact Hlt).
        simpl in Hnil. lia.
      + apply Forall_nth. intros i d Hi.
        rewrite (nth_indep _ d 0) by exact Hi.
        rewrite get_column by (try exact Hswf; exact Hlt).
        apply Hsm. exact Hlt. }
  assert (Hmean : forall c m, 0 <= line_mean evt (smoothed_of evt) c m <= 1).
  { intros c m. unfold line_mean.
    pose proof (Rsum_bounds 0 1
                  (map (line_sample evt (smoothed_of evt) c m)
                       (seq 0 (shape1 evt)))) as Hb.
    rewrite length_map, length_seq in Hb.
    destruct Hb as [Hlo Hhi].
    { apply Forall_map. apply Forall_forall. intros t Hin.
      apply in_seq in Hin. apply Hsample. lia. }
    assert (Hnt : 0 < INR (shape1 evt)) by (apply lt_0_INR; lia).
    split.
    - apply Rmult_le_reg_r with (INR (shape1 evt)); [exact Hnt|].
      unfold Rdiv. rewrite Rmult_assoc, Rinv_l by lra. lra.
    - apply Rmult_le_reg_r with (INR (shape1 evt)); [exact Hnt|].
      unfold Rdiv. rewrite Rmult_assoc, Rinv_l by lra. lra. }
  pose proof (score_event_eq evt g Hwf Hp Ht) as Heq. cbv zeta in Heq.
  destruct (argmax_spec
              (map (fun l => line_mean evt (smoothed_of evt)
                                       (drawn_intercept evt g l)
                                       (drawn_theta g l))
                   (seq 0 nlines))) as (m & Hm & Hlt & _).
  { intros Hnil. apply (f_equal (@List.length R)) in Hnil.
    rewrite length_map, length_seq in Hnil. exact (nlines_not_0 Hnil). }
  rewrite length_map, length_seq in Hlt.
  rewrite Hm in Heq. eexists _, _, _. split; [exact Heq|].
  rewrite (nth_map_seq _ _ nlines 0 m Hlt). apply Hmean.
Qed.

(** X19: on a matrix of non-negative entries whose columns sum to at most
    1, as a decoded posterior is, the scorer returns a score between 0
    and 1. *)
Theorem score_event_bounds (evt : ndarray R) (g : rng) :
  wf evt -> (1 <= shape0 evt)%nat -> (1 <= shape1 evt)%nat ->
  (forall p t, (p < shape0 evt)%nat -> (t < shape1 evt)%nat ->
               0 <= get 0 evt p t) ->
  (forall t, (t < shape1 evt)%nat -> Rsum (column evt t) <= 1) ->
  exists sc slope g',
    score_event evt g = OK ((sc, slope), g') /\ 0 <= sc <= 1.
Proof.
  apply score_event_unit.
Qed.

Lemma score_event_bounds_witness :
  exists sc slope g',
    score_event (mkArray 2 2 [[0.5; 0.1]; [0.5; 0.9]]) (fun k => Z.of_nat k)
    = OK ((sc, slope), g') /\ 0 <= sc <= 1.
Proof.
  apply score_event_bounds.
  - split; [reflexivity | repeat constructor].
  - simpl. lia.
  - simpl. lia.
  - intros p t Hp Ht. simpl in Hp, Ht.
    destruct p as [|[|p]]; [| |lia];
      (destruct t as [|[|t]]; [| |lia]); unfold get; simpl; lra.
  - intros t Ht. simpl in Ht.
    destruct t as [|[|t]]; [| |lia]; unfold column, Rsum; simpl; lra.
Defined.

End ScoreBounds.

(** * decoders.py: the binning of events *)

Section BinningFacts.

Import Np Decoders DecodeEvents DecoderExtras.
Local Open Scope R_scope.

Lemma ceil_bounds (x : R) : IZR (ceil x) - 1 < x <= IZR (ceil x).
Proof.
  unfold ceil. destruct (archimed (- x)) as [H1 H2].
  rewrite minus_IZR. simpl. lra.
Qed.

Lemma arange_edges (s e b : R) :
  0 < b -> s < e ->
  arange s e b
  = map (fun k => s + INR k * b) (seq 0 (S (event_nbins b (s, e)))) /\
  s + INR (event_nbins b (s, e)) * b < e.
Proof.
  intros Hb Hse. unfold arange, event_nbins. cbn [fst snd].
  set (x := (e - s) / b).
  assert (Hx : 0 < x).
  { unfold x. apply Rdiv_lt_0_compat; lra. }
  destruct (ceil_bounds x) as [Hlo Hhi].
  assert (Hc : (1 <= ceil x)%Z).
  { assert (0 < ceil x)%Z; [|lia]. apply lt_IZR. lra. }
  split.
  - f_equal. f_equal. lia.
  - assert (Hn : INR (Z.to_nat (ceil x) - 1) = IZR (ceil x) - 1).
    { rewrite minus_INR by lia. rewrite INR_IZR_INZ, Z2Nat.id by lia.
      simpl. reflexivity. }
    rewrite Hn.
    assert (Hmul : (IZR (ceil x) - 1) * b < x * b)
      by (apply Rmult_lt_compat_r; assumption).
    unfold x in Hmul at 2. unfold Rdiv in Hmul.
    rewrite Rmult_assoc, Rinv_l in Hmul by lra. lra.
Qed.

Lemma event_nbins_pos (b : R) (ev : R * R) :
  0 < b -> b < snd ev - fst ev -> (1 <= event_nbins b ev)%nat.
Proof.
  intros Hb Hlong. unfold event_nbins.
  destruct (ceil_bounds ((snd ev - fst ev) / b)) as [_ Hhi].
  assert (Hx : 1 < (snd ev - fst ev) / b).
  { apply Rmult_lt_reg_r with b; [exact Hb|].
    unfold Rdiv. rewrite Rmult_assoc, Rinv_l by lra. lra. }
  assert (Hc : (2 <= ceil ((snd ev - fst ev) / b))%Z).
  { assert (1 < ceil ((snd ev - fst ev) / b))%Z; [|lia].
    apply lt_IZR. lra. }
  lia.
Qed.

Lemma hist_counts_cons (x : list R) (e0 e1 : R) (rest : list R) :
  hist_counts x (e0 :: e1 :: rest)
  = List.length (filter (between (match rest with
                                  | [] => true
                                  | _ => false
                                  end) e0 e1) x)
    :: hist_counts x (e1 :: rest).
Proof. reflexivity. Qed.

(** The histogram over edges given by their positions, followed by more
    edges: the bins of the first edges, the bin up to the next edge, and
    the bins of the rest. *)
Lemma hist_counts_edges (x : list R) (f : nat -> R) (rest : list R) (n : nat) :
  forall k,
    hist_counts x (map f (seq k (S n)) ++ rest)
    = map (fun j =>
             List.length
               (filter (between (match rest with
                                 | [] => (S j =? k + n)%nat
                                 | _ => false
                                 end) (f j) (f (S j))) x))
          (seq k n)
      ++ match rest with
         | [] => []
         | r0 :: rest' =>
             List.length (filter (between (match rest' with
                                           | [] => true
                                           | _ => false
                                           end) (f (k + n)%nat) r0) x)
             :: hist_counts x rest
         end.
Proof.
  induction n as [|n IH]; intros k.
  - cbn [seq map app]. rewrite Nat.add_0_r.
    destruct rest as [|r0 rest']; reflexivity.
  - change (map f (seq k (S (S n))) ++ rest)
      with (f k :: (map f (seq (S k) (S n)) ++ rest)).
    change (map f (seq (S k) (S n)) ++ rest)
      with (f (S k) :: (map f (seq (S (S k)) n) ++ rest)).
    rewrite hist_counts_cons.
    change (f (S k) :: (map f (seq (S (S k)) n) ++ rest))
      with (map f (seq (S k) (S n)) ++ rest).
    rewrite IH. cbn [seq map app].
    replace (S k + n)%nat with (k + S n)%nat by lia.
    f_equal. f_equal. f_equal.
    match goal with
    | |- between ?a _ _ = between ?b _ _ => replace a with b; [reflexivity|]
    end.
    destruct rest as [|r0 rest'].
    + destruct n as [|n]; cbn [seq map app].
      * apply Nat.eqb_eq. lia.
      * apply Nat.eqb_neq. lia.
    + destruct n; reflexivity.
Qed.

Lemma delete_from_keep {A : Type} (del : list nat) (row : list A) :
  forall i,
    (forall j, (i <= j < i + List.length row)%nat -> ~ In j del) ->
    delete_from i del row = row.
Proof.
  induction row as [|x row IH]; intros i Hnone; [reflexivity|].
  cbn [delete_from].
  replace (existsb (Nat.eqb i) del) with false.
  - f_equal. apply IH. intros j Hj. apply Hnone. simpl. lia.
  - symmetry. apply not_true_iff_false. intros Hex.
    apply existsb_exists in Hex as (d & Hd & Heq).
    apply Nat.eqb_eq in Heq. subst d.
    apply (Hnone i); [simpl; lia | exact Hd].
Qed.

Lemma delete_from_app {A : Type} (del : list nat) (row1 row2 : list A) :
  forall i,
    (forall j, (i <= j < i + List.length row1)%nat -> ~ In j del) ->
    delete_from i del (row1 ++ row2)
    = row1 ++ delete_from (i + List.length row1) del row2.
Proof.
  induction row1 as [|x row1 IH]; intros i Hnone.
  - simpl. rewrite Nat.add_0_r. reflexivity.
  - cbn [app delete_from].
    replace (existsb (Nat.eqb i) del) with false.
    + rewrite IH by (intros j Hj; apply Hnone; simpl; lia).
      replace (i + List.length (x :: row1))%nat
        with (S i + List.length row1)%nat by (simpl; lia).
      reflexivity.
    + symmetry. apply not_true_iff_false. intros Hex.
      apply existsb_exists in Hex as (d & Hd & Heq).
      apply Nat.eqb_eq in Heq. subst d.
      apply (Hnone i); [simpl; lia | exact Hd].
Qed.

Lemma gaps_lower (nbins : list nat) :
  forall off, Forall (fun g => (off <= g)%nat) (gaps off nbins).
Proof.
  induction nbins as [|nb rest IH]; intros off; [constructor|].
  cbn [gaps]. destruct rest as [|nb' rest']; [constructor|].
  constructor; [lia|].
  eapply Forall_impl; [|apply IH]. intros g Hg. simpl in Hg. lia.
Qed.

Lemma gaps_upper (nbins : list nat) :
  forall off,
    Forall (fun g => (S g < off + list_sum (map S nbins))%nat)
           (gaps off nbins).
Proof.
  induction nbins as [|nb rest IH]; intros off; [constructor|].
  cbn [gaps]. destruct rest as [|nb' rest']; [constructor|].
  constructor.
  - simpl. lia.
  - eapply Forall_impl; [|apply (IH (off + nb + 1)%nat)].
    intros g Hg. simpl in Hg |- *. lia.
Qed.

Lemma cumsum_from_length (l : list nat) :
  forall acc, List.length (cumsum_from acc l) = List.length l.
Proof.
  induction l as [|x l IH]; intros acc; simpl; [reflexivity|].
  rewrite IH. reflexivity.
Qed.

Lemma del_columns_gaps (nbins : list nat) :
  del_columns nbins = gaps 0 nbins.
Proof.
  unfold del_columns. rewrite cumsum_from_length.
  assert (Hgen : forall nbs acc k,
             zip_with Nat.add (removelast (cumsum_from acc nbs))
                      (seq k (List.length nbs - 1))
             = gaps (acc + k) nbs).
  { induction nbs as [|nb rest IH]; intros acc k; [reflexivity|].
    destruct rest as [|nb' rest']; [reflexivity|].
    specialize (IH (acc + nb)%nat (S k)).
    replace (List.length (nb :: nb' :: rest') - 1)%nat
      with (S (List.length (nb' :: rest') - 1)) by (simpl; lia).
    change (cumsum_from acc (nb :: nb' :: rest'))
      with ((acc + nb)%nat :: cumsum_from (acc + nb) (nb' :: rest')).
    assert (Hne : cumsum_from (acc + nb) (nb' :: rest') <> [])
      by discriminate.
    destruct (cumsum_from (acc + nb) (nb' :: rest')) as [|c cs] eqn:E;
      [congruence|].
    change (removelast ((acc + nb)%nat :: c :: cs))
      with ((acc + nb)%nat :: removelast (c :: cs)).
    cbn [seq]. unfold zip_with in IH |- *. cbn [combine map fst snd].
    change (gaps (acc + k) (nb :: nb' :: rest'))
      with ((acc + k + nb)%nat :: gaps (acc + k + nb + 1) (nb' :: rest')).
    f_equal; [lia|].
    rewrite IH. f_equal. lia. }
  exact (Hgen nbins 0%nat 0%nat).
Qed.

Lemma increasing_edges (f : nat -> R) (rest : list R) (n : nat) :
  forall k,
    (forall j, f j <= f (S j)) ->
    match rest with
    | [] => True
    | r0 :: _ => f (k + n)%nat <= r0
    end ->
    increasing rest = true ->
    increasing (map f (seq k (S n)) ++ rest) = true.
Proof.
  induction n as [|n IH]; intros k Hf Hr Hrest.
  - cbn [seq map app]. rewrite Nat.add_0_r in Hr.
    destruct rest as [|r0 rest']; [reflexivity|].
    cbn [increasing]. destruct (Rgt_dec (f k) r0) as [Hgt|_]; [lra|].
    exact Hrest.
  - change (map f (seq k (S (S n))) ++ rest)
      with (f k :: f (S k) :: (map f (seq (S (S k)) n) ++ rest)).
    cbn [increasing].
    destruct (Rgt_dec (f k) (f (S k))) as [Hgt|_];
      [specialize (Hf k); lra|].
    cbn [andb].
    change (f (S k) :: (map f (seq (S (S k)) n) ++ rest))
      with (map f (seq (S k) (S n)) ++ rest).
    apply IH; try assumption.
    replace (S k + n)%nat with (k + S n)%nat by lia. exact Hr.
Qed.

Lemma event_counts_length (b : R) (x : list R) (closed : bool) (ev : R * R) :
  List.length (event_counts b x closed ev) = event_nbins b ev.
Proof. unfold event_counts. rewrite length_map, length_seq. reflexivity. Qed.

Lemma all_counts_length (b : R) (x : list R) (events : list (R * R)) :
  List.length (all_counts b x events)
  = list_sum (map (event_nbins b) events).
Proof.
  induction events as [|ev rest IH]; [reflexivity|].
  cbn [all_counts map list_sum fold_right].
  destruct rest as [|ev2 rest'].
  - rewrite event_counts_length. simpl. lia.
  - rewrite length_app, event_counts_length, IH. reflexivity.
Qed.

(** A row of the histogram over the edges of all the events, and what is
    left of it once the bins between the events are deleted. *)
Lemma binned_row (b : R) (x : list R) (events : list (R * R)) :
  0 < b ->
  events <> [] ->
  Forall (fun ev => fst ev < snd ev) events ->
  Sorted (fun a c => snd a <= fst c) events ->
  let edges := concat (map (fun ev => arange (fst ev) (snd ev) b) events) in
  let nbins := map (event_nbins b) events in
  increasing edges = true /\
  hd 0 edges = fst (hd (0, 0) events) /\
  edges <> [] /\
  List.length (hist_counts x edges) = (list_sum (map S nbins) - 1)%nat /\
  forall off del,
    (forall i, (off <= i)%nat -> In i del <-> In i (gaps off nbins)) ->
    delete_from off del (hist_counts x edges) = all_counts b x events.
Proof.
  intros Hb Hne Hlong Hsorted. cbv zeta.
  induction events as [|ev rest IH]; [congruence|]. clear Hne.
  inversion Hlong as [|? ? Hev Hlong']; subst.
  apply Sorted_inv in Hsorted as [Hsorted' Hhd].
  destruct ev as [s e]. cbn [fst snd] in Hev.
  destruct (arange_edges s e b Hb Hev) as [Har Hlast].
  set (n := event_nbins b (s, e)) in *.
  cbn [map concat]. cbn [fst snd]. rewrite Har.
  assert (Hmono : forall j, s + INR j * b <= s + INR (S j) * b).
  { intros j. rewrite S_INR. nra. }
  destruct rest as [|ev2 rest'].
  - (* the last event *)
    cbn [map concat]. 
    split; [|split; [|split; [|split]]].
    + apply increasing_edges; [exact Hmono | exact I | reflexivity].
    + cbn [seq map app hd]. simpl. lra.
    + discriminate.
    + rewrite hist_counts_edges. rewrite app_nil_r, length_map, length_seq.
      cbn [list_sum fold_right map]. fold n. lia.
    + intros off del Hdel.
      rewrite hist_counts_edges, app_nil_r.
      rewrite delete_from_keep.
      * cbn [all_counts]. unfold event_counts. fold n.
        apply map_ext. intros j. reflexivity.
      * intros j Hj Hin. apply Hdel in Hin; [|lia]. exact Hin.
  - (* an event with events after it *)
    destruct (IH ltac:(discriminate) Hlong' Hsorted')
      as (IHinc & IHhd & IHne & IHlen & IHdel).
    clear IH.
    set (redges := concat (map (fun ev => arange (fst ev) (snd ev) b)
                               (ev2 :: rest'))) in *.
    destruct redges as [|r0 redges'] eqn:Eredges; [congruence|].
    cbn [hd] in IHhd.
    inversion Hhd as [|? ? Hgap]; subst. cbn [fst snd] in Hgap.
    split; [|split; [|split; [|split]]].
    + apply increasing_edges; [exact Hmono | | exact IHinc].
      cbn [Nat.add]. fold n. lra.
    + cbn [seq map app hd]. simpl. lra.
    + discriminate.
    + rewrite hist_counts_edges. rewrite length_app, length_map, length_seq.
      cbn [List.length]. rewrite IHlen.
      cbn [map list_sum fold_right]. fold n.
      assert (1 <= list_sum (map S (map (event_nbins b) (ev2 :: rest'))))%nat
        by (simpl; lia).
      lia.
    + intros off del Hdel.
      rewrite hist_counts_edges.
      set (A := map _ (seq 0 n)).
      assert (HA : A = event_counts b x false (s, e)).
      { unfold A, event_counts. fold n. apply map_ext. intros j. reflexivity. }
      assert (HlenA : List.length A = n)
        by (unfold A; rewrite length_map, length_seq; reflexivity).
      assert (Hdel' : forall i, (off <= i)%nat ->
                In i del <->
                (off + n)%nat = i \/
                In i (gaps (off + n + 1)
                           (map (event_nbins b) (ev2 :: rest')))).
      { intros i Hi. rewrite (Hdel i Hi). apply iff_refl. }
      clear Hdel. rename Hdel' into Hdel.
      pose proof (gaps_lower (map (event_nbins b) (ev2 :: rest'))
                             (off + n + 1)) as Hlow.
      rewrite delete_from_app.
      * rewrite HlenA. cbn [delete_from].
        replace (existsb (Nat.eqb (off + n)) del) with true.
        -- change (all_counts b x ((s, e) :: ev2 :: rest'))
             with (event_counts b x false (s, e)
                   ++ all_counts b x (ev2 :: rest')).
           rewrite HA. f_equal.
           replace (S (off + n)) with (off + n + 1)%nat by lia.
           apply IHdel. intros i Hi.
           rewrite (Hdel i) by lia. split.
           ++ intros [Heq|Hin]; [lia | exact Hin].
           ++ intros Hin. right. exact Hin.
        -- symmetry. apply existsb_exists. exists (off + n)%nat.
           split; [|apply Nat.eqb_refl].
           apply Hdel; [lia|]. left. reflexivity.
      * intros j Hj Hin. rewrite HlenA in Hj.
        apply Hdel in Hin; [|lia].
        destruct Hin as [Heq|Hin]; [lia|].
        pose proof (proj1 (Forall_forall _ _) Hlow _ Hin) as Hge.
        simpl in Hge. lia.
Qed.

Lemma nbins_of_arange (b : R) (ev : R * R) :
  nbins_of (arange (fst ev) (snd ev) b) = event_nbins b ev.
Proof.
  unfold nbins_of, arange, event_nbins.
  rewrite length_map, length_seq. reflexivity.
Qed.

(** X20: for events in time order that do not overlap, the count matrix
    that [decode_events] decodes has, for every cell, the counts of the
    events one after the other and nothing between them: deleting the
    columns [cumsum_nbins[:-1] + arange] removes exactly the bins that
    lie between two events.  Event [ev] gets
    [ceil((end - start) / binsize) - 1] bins of [binsize] seconds from
    its start on, so that its end, a stretch of up to [binsize] seconds,
    a whole bin if the duration is a multiple of [binsize], is not
    counted. *)
Theorem binned_counts_spec (binsize : R) (events : list (R * R))
  (spks : list (list R)) :
  0 < binsize ->
  events <> [] -> spks <> [] ->
  Forall (fun ev => fst ev < snd ev) events ->
  Sorted (fun a c => snd a <= fst c) events ->
  binned_counts binsize events spks
  = OK (map (event_nbins binsize) events,
        mkArray (List.length spks)
                (list_sum (map (event_nbins binsize) events))
                (map (fun x => all_counts binsize x events) spks)) /\
  Forall (fun ev =>
            INR (event_nbins binsize ev) * binsize < snd ev - fst ev
            <= (INR (event_nbins binsize ev) + 1) * binsize) events.
Proof.
  intros Hb Hev Hspks Hlong Hsorted. split.
  - unfold binned_counts.
    set (edges := concat (map (fun epoch => arange (fst epoch) (snd epoch)
                                                   binsize) events)).
    assert (Hnb : map nbins_of
                      (map (fun epoch => arange (fst epoch) (snd epoch)
                                                binsize) events)
                  = map (event_nbins binsize) events).
    { rewrite map_map. apply map_ext. intros ev. apply nbins_of_arange. }
    rewrite Hnb. clear Hnb.
    set (nbins := map (event_nbins binsize) events).
    assert (Hrow : forall x,
               increasing edges = true /\
               List.length (hist_counts x edges)
               = (list_sum (map S nbins) - 1)%nat /\
               delete_from 0 (del_columns nbins) (hist_counts x edges)
               = all_counts binsize x events).
    { intros x.
      destruct (binned_row binsize x events Hb Hev Hlong Hsorted)
        as (Hinc & _ & _ & Hlen & Hdel).
      split; [exact Hinc|]. split; [exact Hlen|].
      apply Hdel. intros i _. rewrite del_columns_gaps. apply iff_refl. }
    rewrite (map_result_all_OK _ (fun x => hist_counts x edges)).
    + cbn [Py.bind]. unfold delete_columns.
      destruct spks as [|x0 spks']; [congruence|].
      cbn [map].
      destruct (Hrow x0) as (_ & Hlen0 & Hdel0).
      replace (forallb (fun d => (d <? List.length (hist_counts x0 edges))%nat)
                       (del_columns nbins)) with true.
      * cbn [Py.bind]. f_equal. f_equal. f_equal.
        -- cbn [List.length]. rewrite length_map. reflexivity.
        -- rewrite Hdel0. apply all_counts_length.
        -- f_equal; [exact Hdel0|].
           rewrite map_map. apply map_ext. intros x. apply Hrow.
      * symmetry. apply forallb_forall. intros d Hd.
        rewrite del_columns_gaps in Hd.
        pose proof (proj1 (Forall_forall _ _) (gaps_upper nbins 0) _ Hd)
          as Hup.
        simpl in Hup. apply Nat.ltb_lt. rewrite Hlen0. lia.
    + apply Forall_forall. intros x _. unfold histogram.
      destruct (Hrow x) as (-> & _). reflexivity.
  - eapply Forall_impl; [|exact Hlong]. intros [s e] Hse.
    cbn [fst snd] in *. unfold event_nbins. cbn [fst snd].
    set (x := (e - s) / binsize).
    assert (Hx : 0 < x) by (apply Rdiv_lt_0_compat; lra).
    destruct (ceil_bounds x) as [Hlo Hhi].
    assert (Hc : (1 <= ceil x)%Z).
    { assert (0 < ceil x)%Z; [|lia]. apply lt_IZR. lra. }
    assert (Hn : INR (Z.to_nat (ceil x) - 1) = IZR (ceil x) - 1).
    { rewrite minus_INR by lia. rewrite INR_IZR_INZ, Z2Nat.id by lia.
      simpl. reflexivity. }
    rewrite Hn.
    assert (Hxb : x * binsize = e - s).
    { unfold x, Rdiv. rewrite Rmult_assoc, Rinv_l by lra. lra. }
    split; nra.
Qed.

Lemma binned_counts_spec_witness :
  binned_counts 0.02 [(0, 0.05); (1, 1.04)] [[0.01; 0.03; 1.01]; [0.5]]
  = OK (map (event_nbins 0.02) [(0, 0.05); (1, 1.04)],
        mkArray 2
                (list_sum (map (event_nbins 0.02) [(0, 0.05); (1, 1.04)]))
                (map (fun x => all_counts 0.02 x [(0, 0.05); (1, 1.04)])
                     [[0.01; 0.03; 1.01]; [0.5]])) /\
  Forall (fun ev =>
            INR (event_nbins 0.02 ev) * 0.02 < snd ev - fst ev
            <= (INR (event_nbins 0.02 ev) + 1) * 0.02)
         [(0, 0.05); (1, 1.04)].
Proof.
  apply (binned_counts_spec 0.02 [(0, 0.05); (1, 1.04)]
                            [[0.01; 0.03; 1.01]; [0.5]]).
  - lra.
  - discriminate.
  - discriminate.
  - repeat constructor; simpl; lra.
  - repeat constructor; simpl; lra.
Defined.


Lemma event_nbins_lower (b : R) (ev : R * R) (k : nat) :
  0 < b -> fst ev < snd ev ->
  ((k <= event_nbins b ev)%nat <-> INR k * b < snd ev - fst ev).
Proof.
  intros Hb Hev. unfold event_nbins.
  set (x := (snd ev - fst ev) / b).
  assert (Hx : 0 < x) by (apply Rdiv_lt_0_compat; lra).
  assert (Hxb : x * b = snd ev - fst ev).
  { unfold x, Rdiv. rewrite Rmult_assoc, Rinv_l by lra. lra. }
  destruct (ceil_bounds x) as [Hlo Hhi].
  assert (Hc : (1 <= ceil x)%Z).
  { assert (0 < ceil x)%Z; [|lia]. apply lt_IZR. lra. }
  rewrite <- Hxb. split.
  - intros Hk. apply Rmult_lt_compat_r; [exact Hb|].
    apply Rle_lt_trans with (IZR (ceil x) - 1); [|exact Hlo].
    assert (Hkz : (Z.of_nat k <= ceil x - 1)%Z) by lia.
    apply IZR_le in Hkz. rewrite minus_IZR in Hkz.
    rewrite INR_IZR_INZ. exact Hkz.
  - intros Hk. apply Rmult_lt_reg_r in Hk; [|exact Hb].
    assert (Hkz : (Z.of_nat k < ceil x)%Z).
    { apply lt_IZR. rewrite <- INR_IZR_INZ. lra. }
    lia.
Qed.

(** X21: the number of time bins of an event, one less than the number
    of edges that [np.arange(start, end, binsize)] gives, is the number
    of whole bins that end strictly before the end of the event: an
    event of exactly [k] bin widths has [k - 1] bins. *)
Theorem nbins_of_event (binsize start stop : R) :
  0 < binsize -> start < stop ->
  (forall k, (k <= nbins_of (arange start stop binsize))%nat <->
             INR k * binsize < stop - start) /\
  (forall k, stop - start = INR (S k) * binsize ->
             nbins_of (arange start stop binsize) = k).
Proof.
  intros Hb Hse.
  assert (Hchar : forall k,
             (k <= nbins_of (arange start stop binsize))%nat <->
             INR k * binsize < stop - start).
  { intros k.
    pose proof (nbins_of_arange binsize (start, stop)) as Hnb.
    cbn [fst snd] in Hnb. rewrite Hnb.
    apply (event_nbins_lower binsize (start, stop) k Hb Hse). }
  split; [exact Hchar|].
  intros k Hk.
  assert (H1 : (k <= nbins_of (arange start stop binsize))%nat).
  { apply Hchar. rewrite Hk, S_INR. nra. }
  assert (H2 : ~ (S k <= nbins_of (arange start stop binsize))%nat).
  { intros H. apply Hchar in H. lra. }
  lia.
Qed.

Lemma nbins_of_event_witness :
  nbins_of (arange 1 (1 + INR 3 * 0.02) 0.02) = 2%nat.
Proof.
  apply (proj2 (nbins_of_event 0.02 1 (1 + INR 3 * 0.02)
                 ltac:(lra) ltac:(simpl; lra)) 2%nat).
  ring.
Defined.

End BinningFacts.

(** * decoders.py: [decode_events] as a whole *)

Section DecodeEventsFacts.

Import Np Decoders DecodeEvents DecoderExtras ScoreSpec DecoderSpec.
Local Open Scope R_scope.
Import String.StringSyntax.
Local Open Scope string_scope.

Lemma map_result_returns {A B : Type} (f : A -> result B)
  (Q : A -> B -> Prop) (l : list A) :
  Forall (fun x => exists y, f x = OK y /\ Q x y) l ->
  exists ys, map_result f l = OK ys /\ Forall2 Q l ys.
Proof.
  induction 1 as [|x l (y & Hy & HQ) _ (ys & Hys & H2)]; simpl.
  - exists []. split; [reflexivity | constructor].
  - rewrite Hy, Hys. simpl. exists (y :: ys).
    split; [reflexivity | constructor; assumption].
Qed.

Lemma row_max_spec (r : list R) :
  r <> [] ->
  exists v, row_max r = OK v /\ In v r /\ Forall (fun x => x <= v) r.
Proof.
  intros Hne. destruct (argmax_spec r Hne) as (m & Hm & Hlt & Hmax).
  unfold row_max. rewrite Hm. cbn [Py.bind]. eexists. split; [reflexivity|].
  split; [apply nth_In; exact Hlt|].
  apply Forall_nth. intros i d Hi.
  rewrite (nth_indep _ d 0) by exact Hi. apply Hmax. exact Hi.
Qed.

Lemma pick_returns {A : Type} (l : list A) (idx : list nat) :
  Forall (fun i => (i < List.length l)%nat) idx ->
  exists l', pick l idx = OK l' /\ List.length l' = List.length idx /\
             Forall (fun x => In x l) l'.
Proof.
  intros Hidx. unfold pick.
  destruct (map_result_returns
              (fun i => match nth_error l i with
                        | Some x => OK x
                        | None => Raise IndexError
                        end)
              (fun i x => In x l) idx) as (l' & Hl' & H2).
  - eapply Forall_impl; [|exact Hidx]. intros i Hi. simpl in Hi.
    destruct (nth_error l i) as [x|] eqn:E.
    + exists x. split; [reflexivity|]. eapply nth_error_In. exact E.
    + apply nth_error_None in E. lia.
  - exists l'. split; [exact Hl'|]. split.
    + symmetry. eapply Forall2_length. exact H2.
    + clear -H2. induction H2; constructor; assumption.
Qed.

Lemma take_rows_returns {A : Type} (a : ndarray A) (idx : list nat) :
  wf a -> Forall (fun i => (i < shape0 a)%nat) idx ->
  exists a', take_rows a idx = OK a' /\ wf a' /\
             shape0 a' = List.length idx /\ shape1 a' = shape1 a /\
             Forall (fun r => In r (rows a)) (rows a').
Proof.
  intros [Hlen Hrows] Hidx. unfold take_rows.
  destruct (pick_returns (rows a) idx) as (rs & Hrs & Hrlen & Hin).
  { rewrite Hlen. exact Hidx. }
  unfold pick in Hrs. rewrite Hrs. cbn [Py.bind].
  eexists. split; [reflexivity|]. cbn [rows shape0 shape1].
  split; [|split; [reflexivity | split; [reflexivity | exact Hin]]].
  split; cbn [rows shape0 shape1]; [exact Hrlen|].
  apply Forall_forall. intros r Hr.
  apply (proj1 (Forall_forall _ _) Hrows).
  apply (proj1 (Forall_forall _ _) Hin). exact Hr.
Qed.

Lemma map_fst_enumerate {A : Type} (l : list A) :
  map fst (enumerate l) = seq 0 (List.length l).
Proof.
  unfold enumerate. generalize 0%nat.
  induction l as [|x l IH]; intros k; simpl; [reflexivity|].
  rewrite IH. reflexivity.
Qed.

Lemma insert_key_perm (x : nat * nat) (l : list (nat * nat)) :
  Permutation (insert_key x l) (x :: l).
Proof.
  induction l as [|y l IH]; simpl; [apply Permutation_refl|].
  destruct (snd x <? snd y)%nat; [apply Permutation_refl|].
  eapply Permutation_trans; [apply perm_skip; exact IH | apply perm_swap].
Qed.

Lemma argsort_perm (keys : list nat) :
  Permutation (argsort keys) (seq 0 (List.length keys)).
Proof.
  unfold argsort.
  assert (Hsort : forall l : list (nat * nat),
             Permutation (fold_right insert_key [] l) l).
  { induction l as [|x l IH]; simpl; [constructor|].
    eapply Permutation_trans; [apply insert_key_perm|].
    apply perm_skip. exact IH. }
  eapply Permutation_trans; [apply Permutation_map; apply Hsort|].
  rewrite map_fst_enumerate. apply Permutation_refl.
Qed.

Lemma map_snd_enumerate {A : Type} (l : list A) :
  map snd (enumerate l) = l.
Proof.
  unfold enumerate. generalize 0%nat.
  induction l as [|x l IH]; intros k; simpl; [reflexivity|].
  rewrite IH. reflexivity.
Qed.

Lemma filter_nonempty {A : Type} (p : A -> bool) (l : list A) :
  Exists (fun x => p x = true) l -> filter p l <> [].
Proof.
  induction 1 as [x l Hx | x l _ IH]; simpl.
  - rewrite Hx. discriminate.
  - destruct (p x); [discriminate | exact IH].
Qed.

(** The choice of the cells: what comes out has one spike train for each
    rate map, at least one cell, and nothing that was not given. *)
Lemma good_sorted_cells_returns (rm : ndarray R) (spks : list (list R)) :
  wf rm -> (1 <= shape1 rm)%nat ->
  List.length spks = shape0 rm ->
  Exists (Exists (fun v => 1 < v)) (rows rm) ->
  exists spks' rm',
    good_sorted_cells rm spks = OK (spks', rm') /\
    wf rm' /\ shape1 rm' = shape1 rm /\
    shape0 rm' = List.length spks' /\ (1 <= shape0 rm')%nat /\
    Forall (fun r => In r (rows rm)) (rows rm') /\
    Forall (fun x => In x spks) spks'.
Proof.
  intros Hwf Hpos Hspks Hfast. pose proof Hwf as [Hlen Hrows].
  unfold good_sorted_cells.
  (* the largest rate of every cell *)
  destruct (map_result_returns row_max
              (fun r v => In v r /\ Forall (fun x => x <= v) r) (rows rm))
    as (maxima & Hmaxima & Hmax2).
  { eapply Forall_impl; [|exact Hrows]. intros r Hr. simpl in Hr.
    apply row_max_spec. intros ->. simpl in Hr. lia. }
  rewrite Hmaxima. cbn [Py.bind].
  assert (Hmlen : List.length maxima = shape0 rm).
  { rewrite <- Hlen. symmetry. eapply Forall2_length. exact Hmax2. }
  set (good_cells :=
         map fst (filter (fun im : nat * R =>
                            if Rgt_dec (snd im) 1 then true else false)
                         (enumerate maxima))).
  assert (Hgood : Forall (fun i => (i < shape0 rm)%nat) good_cells).
  { apply Forall_forall. intros i Hi. unfold good_cells in Hi.
    apply in_map_iff in Hi as (im & <- & Him).
    apply filter_In in Him as [Him _].
    apply (in_map fst) in Him. rewrite map_fst_enumerate in Him.
    apply in_seq in Him. lia. }
  assert (Hsome : good_cells <> []).
  { unfold good_cells. intros Hnil. apply map_eq_nil in Hnil.
    revert Hnil. apply filter_nonempty.
    assert (Hex : Exists (fun v => 1 < v) maxima).
    { clear -Hmax2 Hfast.
      induction Hmax2 as [|r v rs vs [Hv Hall] _ IH].
      - inversion Hfast.
      - inversion Hfast as [? ? Hr | ? ? Hrs]; subst.
        + apply Exists_cons_hd. apply Exists_exists in Hr as (x & Hx & H1).
          pose proof (proj1 (Forall_forall _ _) Hall _ Hx). simpl in *. lra.
        + apply Exists_cons_tl. apply IH. exact Hrs. }
    rewrite <- (map_snd_enumerate maxima) in Hex.
    apply Exists_exists in Hex as (v & Hv & H1).
    apply in_map_iff in Hv as (im & <- & Him).
    apply Exists_exists. exists im. split; [exact Him|].
    destruct (Rgt_dec (snd im) 1) as [_|Hn]; [reflexivity | lra]. }
  destruct (pick_returns spks good_cells) as (spks1 & Hspks1 & Hs1len & Hs1in).
  { rewrite Hspks. exact Hgood. }
  rewrite Hspks1. cbn [Py.bind].
  destruct (take_rows_returns rm good_cells Hwf Hgood)
    as (rm1 & Hrm1 & Hwf1 & Hsh0 & Hsh1 & Hin1).
  rewrite Hrm1. cbn [Py.bind].
  pose proof Hwf1 as [Hlen1 Hrows1].
  (* the place of the largest rate of every cell kept *)
  destruct (map_result_returns argmax (fun _ _ => True) (rows rm1))
    as (peaks & Hpeaks & Hp2).
  { eapply Forall_impl; [|exact Hrows1]. intros r Hr. simpl in Hr.
    destruct (argmax_spec r) as (m & Hm & _).
    - intros ->. simpl in Hr. lia.
    - exists m. split; [exact Hm | exact I]. }
  rewrite Hpeaks. cbn [Py.bind].
  assert (Hplen : List.length peaks = List.length good_cells).
  { rewrite <- Hsh0, <- Hlen1. symmetry. eapply Forall2_length. exact Hp2. }
  pose proof (argsort_perm peaks) as Hperm.
  assert (Hsort : Forall (fun i => (i < List.length peaks)%nat)
                         (argsort peaks)).
  { apply Forall_forall. intros i Hi.
    eapply Permutation_in in Hi; [|exact Hperm]. apply in_seq in Hi. lia. }
  assert (Hslen : List.length (argsort peaks) = List.length peaks).
  { rewrite (Permutation_length Hperm). apply length_seq. }
  destruct (pick_returns spks1 (argsort peaks))
    as (spks2 & Hspks2 & Hs2len & Hs2in).
  { rewrite Hs1len, <- Hplen. exact Hsort. }
  rewrite Hspks2. cbn [Py.bind].
  destruct (take_rows_returns rm1 (argsort peaks) Hwf1)
    as (rm2 & Hrm2 & Hwf2 & Hsh0' & Hsh1' & Hin2).
  { rewrite Hsh0, <- Hplen. exact Hsort. }
  rewrite Hrm2. cbn [Py.bind].
  exists spks2, rm2. split; [reflexivity|].
  split; [exact Hwf2|]. split; [congruence|].
  split; [congruence|]. split.
  - rewrite Hsh0', Hslen, Hplen. destruct good_cells; [congruence|].
    simpl. lia.
  - split.
    + apply Forall_forall. intros r Hr.
      apply (proj1 (Forall_forall _ _) Hin1).
      apply (proj1 (Forall_forall _ _) Hin2). exact Hr.
    + apply Forall_forall. intros x Hx.
      apply (proj1 (Forall_forall _ _) Hs1in).
      apply (proj1 (Forall_forall _ _) Hs2in). exact Hx.
Qed.

(** *** Cutting the decoded bins back into events *)

(** A piece of [m]: the [nb] columns of [m] from column [off] on. *)
Lemma column_piece {A : Type} (d : A) (m : ndarray A) (off nb : nat) :
  wf m -> (off + nb <= shape1 m)%nat ->
  let piece :=
    mkArray (shape0 m) (Nat.min (off + nb) (shape1 m) - off)
            (map (fun r => firstn (off + nb - off) (skipn off r)) (rows m)) in
  wf piece /\ shape0 piece = shape0 m /\ shape1 piece = nb /\
  forall t, (t < nb)%nat -> column piece t = column m (off + t).
Proof.
  intros [Hlen Hrows] Hle. cbv zeta.
  replace (Nat.min (off + nb) (shape1 m) - off)%nat with nb by lia.
  replace (off + nb - off)%nat with nb by lia.
  assert (Hwf : wf (mkArray (shape0 m) nb
                      (map (fun r => firstn nb (skipn off r)) (rows m)))).
  { split; cbn [rows shape0 shape1].
    - rewrite length_map. exact Hlen.
    - apply Forall_map. eapply Forall_impl; [|exact Hrows].
      intros r Hr. simpl in Hr |- *.
      rewrite length_firstn, length_skipn. lia. }
  split; [exact Hwf|]. split; [reflexivity|]. split; [reflexivity|].
  intros t Ht.
  rewrite (column_wf d _ t Hwf) by exact Ht.
  rewrite (column_wf d m (off + t) (conj Hlen Hrows)) by lia.
  cbn [rows]. rewrite map_map. apply map_ext. intros r.
  rewrite nth_firstn.
  replace (t <? nb)%nat with true by (symmetry; apply Nat.ltb_lt; exact Ht).
  apply nth_skipn.
Qed.

Lemma split_columns_pieces {A : Type} (d : A) (m : ndarray A)
  (nbins : list nat) :
  wf m -> (list_sum nbins <= shape1 m)%nat ->
  Forall2 (fun piece nb =>
             wf piece /\ shape0 piece = shape0 m /\ shape1 piece = nb /\
             exists off, (off + nb <= shape1 m)%nat /\
                         forall t, (t < nb)%nat ->
                                   column piece t = column m (off + t))
          (split_columns (cum_nbins nbins) m) nbins.
Proof.
  intros Hwf Hsum0. unfold split_columns, cum_nbins. cbn [tl].
  assert (Hgen : forall nbs acc,
             (acc + list_sum nbs <= shape1 m)%nat ->
             Forall2 (fun piece nb =>
                        wf piece /\ shape0 piece = shape0 m /\
                        shape1 piece = nb /\
                        exists off, (off + nb <= shape1 m)%nat /\
                                    forall t, (t < nb)%nat ->
                                      column piece t = column m (off + t))
                     (zip_with
                        (fun a b =>
                           mkArray (shape0 m) (Nat.min b (shape1 m) - a)
                                   (map (fun r => firstn (b - a) (skipn a r))
                                        (rows m)))
                        (acc :: cumsum_from acc nbs) (cumsum_from acc nbs))
                     nbs).
  { induction nbs as [|nb rest IH]; intros acc Hsum.
    - cbn. constructor.
    - cbn [cumsum_from]. 
      change (list_sum (nb :: rest)) with (nb + list_sum rest)%nat in Hsum.
      unfold zip_with in IH |- *. cbn [combine map fst snd].
      constructor.
      + destruct (column_piece d m acc nb Hwf ltac:(lia))
          as (Hpw & Hs0 & Hs1 & Hcol).
        split; [exact Hpw|]. split; [exact Hs0|]. split; [exact Hs1|].
        exists acc. split; [lia | exact Hcol].
      + apply (IH (acc + nb)%nat). lia. }
  apply Hgen. simpl. exact Hsum0.
Qed.

Lemma split_at_pieces {A : Type} (v : list A) (nbins : list nat) :
  (list_sum nbins <= List.length v)%nat ->
  Forall2 (fun piece nb => List.length piece = nb /\
                           Forall (fun x => In x v) piece)
          (split_at (cum_nbins nbins) v) nbins.
Proof.
  intros Hsum0. unfold split_at, cum_nbins. cbn [tl].
  assert (Hgen : forall nbs acc,
             (acc + list_sum nbs <= List.length v)%nat ->
             Forall2 (fun piece nb => List.length piece = nb /\
                                      Forall (fun x => In x v) piece)
                     (zip_with (fun a b => firstn (b - a) (skipn a v))
                               (acc :: cumsum_from acc nbs)
                               (cumsum_from acc nbs))
                     nbs).
  { induction nbs as [|nb rest IH]; intros acc Hsum.
    - cbn. constructor.
    - cbn [cumsum_from].
      change (list_sum (nb :: rest)) with (nb + list_sum rest)%nat in Hsum.
      unfold zip_with in IH |- *. cbn [combine map fst snd].
      constructor.
      + split.
        * rewrite length_firstn, length_skipn. lia.
        * apply Forall_forall. intros x Hx.
          rewrite <- (firstn_skipn acc v). apply in_or_app. right.
          rewrite <- (firstn_skipn (acc + nb - acc) (skipn acc v)).
          apply in_or_app. left. exact Hx.
      + apply (IH (acc + nb)%nat). lia. }
  apply Hgen. simpl. exact Hsum0.
Qed.

Lemma Forall2_left {A B : Type} (P : A -> Prop) (Q : A -> B -> Prop)
  (la : list A) (lb : list B) :
  Forall2 Q la lb -> (forall a b, In b lb -> Q a b -> P a) -> Forall P la.
Proof.
  induction 1 as [|a b la lb Hab _ IH]; intros HQ; constructor.
  - apply (HQ a b); [left; reflexivity | exact Hab].
  - apply IH. intros a' b' Hb'. apply HQ. right. exact Hb'.
Qed.

Lemma Forall2_impl_in {A B : Type} (Q Q' : A -> B -> Prop)
  (la : list A) (lb : list B) :
  Forall2 Q la lb -> (forall a b, In b lb -> Q a b -> Q' a b) ->
  Forall2 Q' la lb.
Proof.
  induction 1 as [|a b la lb Hab _ IH]; intros HQ; constructor.
  - apply HQ; [left; reflexivity | exact Hab].
  - apply IH. intros a' b' Hb'. apply HQ. right. exact Hb'.
Qed.

(** [decode_events] up to the scoring: the events it hands to
    [_score_events]. *)
Lemma decode_events_prefix (self : Bayes1d) (events : list (R * R))
  (spks : list (list R)) :
  0 < binsize self ->
  wf (ratemaps self) -> (1 <= shape1 (ratemaps self))%nat ->
  List.length spks = shape0 (ratemaps self) ->
  Forall (Forall (fun v => 0 < v)) (rows (ratemaps self)) ->
  Exists (Exists (fun v => 1 < v)) (rows (ratemaps self)) ->
  (shape1 (ratemaps self) <= List.length (bincntr self))%nat ->
  events <> [] ->
  Forall (fun ev => fst ev < snd ev) events ->
  Sorted (fun a c => snd a <= fst c) events ->
  exists pieces counts dpos,
    (forall g,
        decode_events self events spks g
        = bindM (_score_events pieces)
                (fun res =>
                   ret (mkBayes1d (binsize self) (ratemaps self)
                                  (bincntr self) pieces counts
                                  (map (event_nbins (binsize self)) events)
                                  (fst res) (snd res) (shuffle_score self),
                        dpos)) g) /\
    Forall2 (decoded_piece (shape1 (ratemaps self))) pieces
            (map (event_nbins (binsize self)) events) /\
    Forall2 (fun dp nb => List.length dp = nb /\
                          Forall (fun x => In x (bincntr self)) dp)
            dpos (map (event_nbins (binsize self)) events).
Proof.
  intros Hb Hwf Hnpos Hspks Hrates Hfast Hcntr Hev Hlong' Hsorted.
  set (b := binsize self) in *.
  set (nbins := map (event_nbins b) events).
  (* the cells *)
  destruct (good_sorted_cells_returns (ratemaps self) spks
              Hwf Hnpos Hspks Hfast)
    as (spks' & rm' & Hcells & Hwf' & Hsh1 & Hsh0 & Hcell1 & Hrin & _).
  (* the counts *)
  destruct (binned_counts_spec b events spks' Hb Hev) as [Hbinned _];
    [ intros ->; simpl in Hsh0; lia | exact Hlong' | exact Hsorted |].
  fold nbins in Hbinned.
  set (spkcount := mkArray (List.length spks') (list_sum nbins)
                           (map (fun x => all_counts b x events) spks'))
    in *.
  assert (Hwfc : wf spkcount).
  { split; cbn [rows shape0 shape1]; [apply length_map|].
    apply Forall_map. apply Forall_forall. intros x _.
    apply all_counts_length. }
  (* the posterior *)
  destruct (decoder_distribution b spkcount rm' Hwfc Hwf')
    as (post & Hpost & Hpwf & Hp0 & Hp1 & Hpcol).
  { cbn [shape0 spkcount]. lia. }
  { lia. }
  { exact Hb. }
  { intros cell p Hcell Hp. unfold get.
    destruct Hwf' as [Hlen' Hrows'].
    assert (Hin : In (nth cell (rows rm') []) (rows rm')).
    { apply nth_In. cbn [shape0 spkcount] in Hcell. lia. }
    pose proof (proj1 (Forall_forall _ _) Hrows' _ Hin) as Hrlen.
    pose proof (proj1 (Forall_forall _ _) Hrin _ Hin) as Hin0.
    pose proof (proj1 (Forall_forall _ _) Hrates _ Hin0) as Hposr.
    simpl in Hrlen, Hin0, Hposr.
    apply (proj1 (Forall_forall _ _) Hposr).
    apply nth_In. lia. }
  unfold spkcount in Hp1, Hpcol. cbn [shape1] in Hp1, Hpcol.
  (* the decoded positions *)
  destruct (map_result_returns
              (fun t => argmax (column post t))
              (fun _ m => (m < shape0 post)%nat) (seq 0 (shape1 post)))
    as (best & Hbest & Hbest2).
  { apply Forall_forall. intros t Ht. apply in_seq in Ht.
    destruct (argmax_spec (column post t)) as (m & Hm & Hlt & _).
    - intros Hnil. apply (f_equal (@List.length R)) in Hnil.
      rewrite column_length in Hnil by (try exact Hpwf; lia).
      simpl in Hnil. lia.
    - rewrite column_length in Hlt by (try exact Hpwf; lia).
      exists m. split; [exact Hm | exact Hlt]. }
  assert (Hblen : List.length best = list_sum nbins).
  { pose proof (Forall2_length Hbest2) as Hl.
    rewrite length_seq in Hl. lia. }
  destruct (pick_returns (bincntr self) best) as (dpos & Hdpos & Hdlen & Hdin).
  { eapply (Forall2_left _ (fun m (_ : nat) => (m < shape0 post)%nat)).
    - apply Forall2_flip. exact Hbest2.
    - intros m t _ Hm. simpl in Hm. lia. }
  (* the events *)
  pose proof (split_columns_pieces 0 post nbins Hpwf ltac:(lia)) as Hpieces.
  exists (split_columns (cum_nbins nbins) post),
         (split_columns (cum_nbins nbins) spkcount),
         (split_at (cum_nbins nbins) dpos).
  split; [|split].
  - intros g. unfold decode_events, bindM at 1 2 3 4 5, lift. fold b.
    rewrite Hcells. cbn [fst snd]. rewrite Hbinned. cbn [fst snd].
    rewrite Hpost. rewrite Hbest. rewrite Hdpos. reflexivity.
  - eapply Forall2_impl_in; [exact Hpieces|].
    intros piece nb Hnb (Hw & Hs0 & Hs1 & off & Hoff & Hcol).
    split; [exact Hw|]. split; [congruence|]. split; [exact Hs1|]. split.
    + intros p t Hp Ht.
      rewrite <- (get_column 0 piece p t Hw) by lia.
      rewrite Hcol by lia.
      rewrite (get_column 0 post p (off + t) Hpwf) by lia.
      apply Hpcol; lia.
    + intros t Ht. rewrite Hcol by lia. apply Hpcol. lia.
  - eapply Forall2_impl_in; [apply split_at_pieces; lia|].
    intros dp nb _ (Hl & Hin). split; [exact Hl|].
    apply Forall_forall. intros x Hx.
    apply (proj1 (Forall_forall _ _) Hdin).
    apply (proj1 (Forall_forall _ _) Hin). exact Hx.
Qed.

Lemma decode_events_spec (self : Bayes1d) (events : list (R * R))
  (spks : list (list R)) (g : rng) :
  0 < binsize self ->
  wf (ratemaps self) -> (1 <= shape1 (ratemaps self))%nat ->
  List.length spks = shape0 (ratemaps self) ->
  Forall (Forall (fun v => 0 < v)) (rows (ratemaps self)) ->
  Exists (Exists (fun v => 1 < v)) (rows (ratemaps self)) ->
  (shape1 (ratemaps self) <= List.length (bincntr self))%nat ->
  events <> [] ->
  Forall (fun ev => binsize self < snd ev - fst ev) events ->
  Sorted (fun a c => snd a <= fst c) events ->
  exists self' decodedPos g',
    decode_events self events spks g = OK ((self', decodedPos), g') /\
    nbins_events self' = map (event_nbins (binsize self)) events /\
    Forall2 (fun post nb =>
               distribution_matrix post /\
               shape0 post = shape1 (ratemaps self) /\ shape1 post = nb)
            (posterior self') (nbins_events self') /\
    Forall2 (fun dp nb => List.length dp = nb /\
                          Forall (fun x => In x (bincntr self)) dp)
            decodedPos (nbins_events self') /\
    List.length (score self') = List.length events /\
    Forall (fun sc => 0 <= sc <= 1) (score self') /\
    List.length (slope self') = List.length events /\
    binsize self' = binsize self /\ ratemaps self' = ratemaps self /\
    bincntr self' = bincntr self /\ shuffle_score self' = shuffle_score self.
Proof.
  intros Hb Hwf Hnpos Hspks Hrates Hfast Hcntr Hev Hlong Hsorted.
  assert (Hlong' : Forall (fun ev => fst ev < snd ev) events).
  { eapply Forall_impl; [|exact Hlong]. intros ev H. simpl in H. lra. }
  destruct (decode_events_prefix self events spks Hb Hwf Hnpos Hspks Hrates
              Hfast Hcntr Hev Hlong' Hsorted)
    as (pieces & counts & dpos & Hrun & Hpieces & Hdpos).
  set (nbins := map (event_nbins (binsize self)) events) in *.
  assert (Hnb1 : Forall (fun nb => (1 <= nb)%nat) nbins).
  { unfold nbins. apply Forall_map. eapply Forall_impl; [|exact Hlong].
    intros ev H. simpl in H. apply event_nbins_pos; assumption. }
  assert (Hdist : Forall2 (fun piece nb =>
                             distribution_matrix piece /\
                             shape0 piece = shape1 (ratemaps self) /\
                             shape1 piece = nb)
                          pieces nbins).
  { eapply Forall2_impl_in; [exact Hpieces|].
    intros piece nb Hnb (Hw & Hs0 & Hs1 & Hpos & Hsum).
    pose proof (proj1 (Forall_forall _ _) Hnb1 _ Hnb) as Hnb'.
    simpl in Hnb'.
    split; [|split; [exact Hs0 | exact Hs1]].
    split; [exact Hw|]. split; [lia|]. split; [lia|]. split.
    - intros p t Hp Ht. apply Hpos; lia.
    - intros t Ht. apply Hsum. lia. }
  destruct (mapM_all_OK
              distribution_matrix (fun res : R * R => 0 <= fst res <= 1)
              score_event pieces)
    with (g := g) as (res & g' & Hres & Hrlen & Hrall).
  { intros evt g0 (Hw & H0 & H1 & Hpos & Hsum).
    destruct (score_event_unit evt g0 Hw H0 H1) as (sc & sl & g1 & Hs & Hr).
    - intros p t Hp Ht. left. apply Hpos; assumption.
    - intros t Ht. right. apply Hsum. exact Ht.
    - exists (sc, sl), g1. split; [exact Hs | exact Hr]. }
  { eapply Forall2_left; [exact Hdist|].
    intros piece nb _ (Hd & _). exact Hd. }
  assert (Hnpieces : List.length pieces = List.length events).
  { rewrite (Forall2_length Hdist). unfold nbins. apply length_map. }
  eexists _, _, g'. split.
  { rewrite Hrun. unfold _score_events, bindM. rewrite Hres. reflexivity. }
  cbn [nbins_events posterior score slope binsize ratemaps bincntr
       shuffle_score].
  split; [reflexivity|].
  split; [exact Hdist|].
  split; [exact Hdpos|].
  cbn [fst snd]. rewrite !length_map.
  split; [congruence|]. split; [apply Forall_map; exact Hrall|].
  split; [congruence|]. repeat split; reflexivity.
Qed.

(** X22: on rate maps with positive rates, one spike train for each of
    them and at least one cell above 1 Hz, and for events in time order
    that do not overlap and last more than one bin, [decode_events]
    returns.  It leaves, for every event, a posterior with one row for
    each position bin and one column for each of the
    [ceil((end - start) / binsize) - 1] time bins of the event, every
    column a probability distribution; as many decoded positions as
    time bins, each of them a bin centre; and one score between 0 and 1
    and one slope for each event. *)
Theorem decode_events_returns (self : Bayes1d) (events : list (R * R))
  (spks : list (list R)) (g : rng) :
  0 < binsize self ->
  wf (ratemaps self) -> (1 <= shape1 (ratemaps self))%nat ->
  List.length spks = shape0 (ratemaps self) ->
  Forall (Forall (fun v => 0 < v)) (rows (ratemaps self)) ->
  Exists (Exists (fun v => 1 < v)) (rows (ratemaps self)) ->
  (shape1 (ratemaps self) <= List.length (bincntr self))%nat ->
  events <> [] ->
  Forall (fun ev => binsize self < snd ev - fst ev) events ->
  Sorted (fun a c => snd a <= fst c) events ->
  exists self' decodedPos g',
    decode_events self events spks g = OK ((self', decodedPos), g') /\
    nbins_events self' = map (event_nbins (binsize self)) events /\
    Forall2 (fun post nb =>
               distribution_matrix post /\
               shape0 post = shape1 (ratemaps self) /\ shape1 post = nb)
            (posterior self') (nbins_events self') /\
    Forall2 (fun dp nb => List.length dp = nb /\
                          Forall (fun x => In x (bincntr self)) dp)
            decodedPos (nbins_events self') /\
    List.length (score self') = List.length events /\
    Forall (fun sc => 0 <= sc <= 1) (score self') /\
    List.length (slope self') = List.length events /\
    binsize self' = binsize self /\ ratemaps self' = ratemaps self /\
    bincntr self' = bincntr self /\ shuffle_score self' = shuffle_score self.
Proof.
  apply decode_events_spec.
Qed.


Lemma decode_example_ratemaps :
  wf (ratemaps decode_example) /\
  Forall (Forall (fun v => 0 < v)) (rows (ratemaps decode_example)) /\
  Exists (Exists (fun v => 1 < v)) (rows (ratemaps decode_example)).
Proof.
  split; [split; [reflexivity | repeat constructor]|].
  split.
  - repeat constructor; lra.
  - apply Exists_cons_hd. apply Exists_cons_hd. lra.
Qed.

Lemma decode_events_returns_witness :
  exists self' decodedPos g',
    decode_events decode_example decode_example_events decode_example_spikes
                  (fun k => Z.of_nat k)
    = OK ((self', decodedPos), g') /\
    nbins_events self'
    = map (event_nbins (binsize decode_example)) decode_example_events /\
    Forall2 (fun post nb =>
               distribution_matrix post /\
               shape0 post = shape1 (ratemaps decode_example) /\
               shape1 post = nb)
            (posterior self') (nbins_events self') /\
    Forall2 (fun dp nb => List.length dp = nb /\
                          Forall (fun x => In x (bincntr decode_example)) dp)
            decodedPos (nbins_events self') /\
    List.length (score self') = List.length decode_example_events /\
    Forall (fun sc => 0 <= sc <= 1) (score self') /\
    List.length (slope self') = List.length decode_example_events /\
    binsize self' = binsize decode_example /\
    ratemaps self' = ratemaps decode_example /\
    bincntr self' = bincntr decode_example /\
    shuffle_score self' = shuffle_score decode_example.
Proof.
  destruct decode_example_ratemaps as (Hwf & Hpos & Hfast).
  apply decode_events_returns.
  - simpl. lra.
  - exact Hwf.
  - simpl. lia.
  - reflexivity.
  - exact Hpos.
  - exact Hfast.
  - simpl. lia.
  - discriminate.
  - repeat constructor; simpl; lra.
  - repeat constructor; simpl; lra.
Defined.

(** X23: under the same conditions, for events of more than two bins and
    at least one iteration, the whole chain returns: [decode_events],
    then the "column" shuffle of [decode_shuffle], then [p_val_events],
    which gives one p-value for each event, between [1 / (n_iter + 1)]
    and 1. *)
Theorem replay_pipeline_returns (self : Bayes1d) (events : list (R * R))
  (spks : list (list R)) (n_iter : nat) (g : rng) :
  0 < binsize self ->
  wf (ratemaps self) -> (1 <= shape1 (ratemaps self))%nat ->
  List.length spks = shape0 (ratemaps self) ->
  Forall (Forall (fun v => 0 < v)) (rows (ratemaps self)) ->
  Exists (Exists (fun v => 1 < v)) (rows (ratemaps self)) ->
  (shape1 (ratemaps self) <= List.length (bincntr self))%nat ->
  events <> [] ->
  Forall (fun ev => 2 * binsize self < snd ev - fst ev) events ->
  Sorted (fun a c => snd a <= fst c) events ->
  (1 <= n_iter)%nat ->
  exists decoded decodedPos g1 shuffled g2 p,
    decode_events self events spks g = OK ((decoded, decodedPos), g1) /\
    decode_shuffle decoded n_iter "column" g1 = OK (shuffled, g2) /\
    p_val_events shuffled = OK p /\
    List.length p = List.length events /\
    Forall (fun x => 1 / (INR n_iter + 1) <= x <= 1) p.
Proof.
  intros Hb Hwf Hnpos Hspks Hrates Hfast Hcntr Hev Hlong Hsorted Hiter.
  assert (Hlong1 : Forall (fun ev => binsize self < snd ev - fst ev) events).
  { eapply Forall_impl; [|exact Hlong]. intros ev H. simpl in H. lra. }
  destruct (decode_events_spec self events spks g Hb Hwf Hnpos Hspks Hrates
              Hfast Hcntr Hev Hlong1 Hsorted)
    as (decoded & dp & g1 & Hdec & Hnb & Hpost & _ & Hscore & _).
  assert (Hshuff : Forall DecoderExtras.shuffleable (posterior decoded)).
  { eapply Forall2_left; [exact Hpost|].
    intros post nb Hin ((Hw & H0 & _) & _ & Hs1).
    rewrite Hnb in Hin. apply in_map_iff in Hin as (ev & <- & Hin).
    pose proof (proj1 (Forall_forall _ _) Hlong _ Hin) as Hl.
    simpl in Hl.
    assert (H2 : (2 <= event_nbins (binsize self) ev)%nat).
    { apply event_nbins_lower; [exact Hb | lra | simpl; lra]. }
    split; [exact Hw|]. split; [exact H0 | lia]. }
  assert (Hlen : List.length (score decoded)
                 = List.length (posterior decoded)).
  { rewrite Hscore, (Forall2_length Hpost), Hnb. symmetry. apply length_map. }
  destruct (column_then_p_values decoded n_iter g1 Hshuff Hlen Hiter)
    as (shuffled & g2 & p & Hsh & Hp & Hplen & Hrange).
  exists decoded, dp, g1, shuffled, g2, p.
  split; [exact Hdec|]. split; [exact Hsh|]. split; [exact Hp|].
  split; [congruence | exact Hrange].
Qed.

Lemma replay_pipeline_returns_witness :
  exists decoded decodedPos g1 shuffled g2 p,
    decode_events decode_example decode_example_events decode_example_spikes
                  (fun k => Z.of_nat k)
    = OK ((decoded, decodedPos), g1) /\
    decode_shuffle decoded 5 "column" g1 = OK (shuffled, g2) /\
    p_val_events shuffled = OK p /\
    List.length p = List.length decode_example_events /\
    Forall (fun x => 1 / (INR 5 + 1) <= x <= 1) p.
Proof.
  destruct decode_example_ratemaps as (Hwf & Hpos & Hfast).
  apply replay_pipeline_returns.
  - simpl. lra.
  - exact Hwf.
  - simpl. lia.
  - reflexivity.
  - exact Hpos.
  - exact Hfast.
  - simpl. lia.
  - discriminate.
  - repeat constructor; simpl; lra.
  - repeat constructor; simpl; lra.
  - lia.
Defined.


Lemma mapM_raises {A B : Type} (f : A -> M B) (e : exn) (l : list A) :
  (forall x g, In x l ->
               f x g = Raise e \/ exists y g', f x g = OK (y, g')) ->
  (exists x, In x l /\ forall g, f x g = Raise e) ->
  forall g, mapM f l g = Raise e.
Proof.
  induction l as [|x0 l IH]; intros Hall (x & Hin & Hx) g.
  - destruct Hin.
  - simpl. unfold bindM.
    destruct (Hall x0 g (or_introl eq_refl)) as [Hr|(y & g' & Hy)].
    + rewrite Hr. reflexivity.
    + rewrite Hy.
      rewrite IH; [reflexivity | |].
      * intros x1 g1 H1. apply Hall. right. exact H1.
      * destruct Hin as [->|Hin].
        -- rewrite Hx in Hy. discriminate.
        -- exists x. split; assumption.
Qed.

Lemma Forall2_in_right {A B : Type} (Q : A -> B -> Prop) (la : list A)
  (lb : list B) (b : B) :
  Forall2 Q la lb -> In b lb -> exists a, In a la /\ Q a b.
Proof.
  induction 1 as [|a b' la lb Hab _ IH]; intros Hin; [destruct Hin|].
  destruct Hin as [->|Hin].
  - exists a. split; [left; reflexivity | exact Hab].
  - destruct (IH Hin) as (a' & Ha' & HQ). exists a'.
    split; [right; exact Ha' | exact HQ].
Qed.

(** X24: an event that lasts one bin or less has no time bin, and
    [decode_events] raises ValueError on it: the decoding goes through,
    and the scorer refuses the posterior without columns. *)
Theorem decode_events_short_event (self : Bayes1d) (events : list (R * R))
  (spks : list (list R)) (g : rng) :
  0 < binsize self ->
  wf (ratemaps self) -> (1 <= shape1 (ratemaps self))%nat ->
  List.length spks = shape0 (ratemaps self) ->
  Forall (Forall (fun v => 0 < v)) (rows (ratemaps self)) ->
  Exists (Exists (fun v => 1 < v)) (rows (ratemaps self)) ->
  (shape1 (ratemaps self) <= List.length (bincntr self))%nat ->
  Forall (fun ev => fst ev < snd ev) events ->
  Sorted (fun a c => snd a <= fst c) events ->
  Exists (fun ev => snd ev - fst ev <= binsize self) events ->
  decode_events self events spks g = Raise ValueError.
Proof.
  intros Hb Hwf Hnpos Hspks Hrates Hfast Hcntr Hlong Hsorted Hshort.
  assert (Hev : events <> []) by (intros ->; inversion Hshort).
  destruct (decode_events_prefix self events spks Hb Hwf Hnpos Hspks Hrates
              Hfast Hcntr Hev Hlong Hsorted)
    as (pieces & counts & dpos & Hrun & Hpieces & _).
  rewrite Hrun. unfold bindM at 1, _score_events, bindM at 1.
  rewrite (mapM_raises score_event ValueError pieces); [reflexivity | |].
  - intros piece g0 Hin.
    assert (Hd : exists nb, decoded_piece (shape1 (ratemaps self)) piece nb).
    { clear -Hpieces Hin. induction Hpieces as [|a b la lb Hab _ IH];
        [destruct Hin|].
      destruct Hin as [->|Hin]; [exists b; exact Hab | apply IH; exact Hin]. }
    destruct Hd as (nb & Hw & Hs0 & Hs1 & _).
    destruct nb as [|nb].
    + left. unfold score_event, bindM, lift, smooth.
      rewrite Hs1. reflexivity.
    + right.
      destruct (score_event_returns piece g0) as (res & g1 & Hres & _).
      * split; [exact Hw|]. split; lia.
      * exists res, g1. exact Hres.
  - apply Exists_exists in Hshort as (ev & Hin & Hle).
    assert (Hzero : event_nbins (binsize self) ev = 0%nat).
    { pose proof (proj1 (Forall_forall _ _) Hlong _ Hin) as Hlt.
      simpl in Hlt.
      destruct (event_nbins (binsize self) ev) as [|k] eqn:E;
        [reflexivity|].
      assert (H1 : (1 <= event_nbins (binsize self) ev)%nat) by lia.
      apply event_nbins_lower in H1; [|exact Hb | exact Hlt].
      simpl in H1. lra. }
    destruct (Forall2_in_right _ _ _ 0%nat Hpieces)
      as (piece & Hpin & Hw & Hs0 & Hs1 & _).
    { apply in_map_iff. exists ev. split; [exact Hzero | exact Hin]. }
    exists piece. split; [exact Hpin|].
    intros g0. unfold score_event, bindM, lift, smooth.
    rewrite Hs1. reflexivity.
Qed.

Lemma decode_events_short_event_witness :
  decode_events decode_example [(0, 0.07); (1, 1.02)] decode_example_spikes
                (fun k => Z.of_nat k)
  = Raise ValueError.
Proof.
  destruct decode_example_ratemaps as (Hwf & Hpos & Hfast).
  apply decode_events_short_event.
  - simpl. lra.
  - exact Hwf.
  - simpl. lia.
  - reflexivity.
  - exact Hpos.
  - exact Hfast.
  - simpl. lia.
  - repeat constructor; simpl; lra.
  - repeat constructor; simpl; lra.
  - apply Exists_cons_tl. apply Exists_cons_hd. simpl. lra.
Defined.

End DecodeEventsFacts.

Section RunFacts.

Import LfpEvent Spec DetectorExtras.
Local Open Scope Z_scope.

Lemma where_eq_from_In (k : Z) (v : list Z) :
  forall off i,
    In i (where_eq_from k off v) <->
    off <= i < off + Z.of_nat (List.length v) /\
    nth (Z.to_nat (i - off)) v 0 = k.
Proof.
  induction v as [|x v IH]; intros off i.
  - simpl. split; [tauto | lia].
  - cbn [where_eq_from].
    assert (Hshift : forall j, off + 1 <= j ->
              nth (Z.to_nat (j - off)) (x :: v) 0
              = nth (Z.to_nat (j - (off + 1))) v 0).
    { intros j Hj.
      replace (Z.to_nat (j - off)) with (S (Z.to_nat (j - (off + 1))))
        by lia. reflexivity. }
    destruct (Z.eqb_spec x k) as [Hx|Hx].
    + cbn [In]. rewrite IH. split.
      * intros [<-|[Hr Hn]].
        -- split; [simpl; lia|]. rewrite Z.sub_diag. exact Hx.
        -- split; [simpl List.length; lia|]. rewrite Hshift by lia. exact Hn.
      * intros [Hr Hn].
        destruct (Z.eq_dec i off) as [->|Hne]; [left; reflexivity|].
        right. split; [simpl List.length in Hr; lia|].
        rewrite <- Hshift by lia. exact Hn.
    + rewrite IH. split.
      * intros [Hr Hn]. split; [simpl List.length; lia|].
        rewrite Hshift by lia. exact Hn.
      * intros [Hr Hn].
        destruct (Z.eq_dec i off) as [->|Hne].
        -- rewrite Z.sub_diag in Hn. simpl in Hn. congruence.
        -- split; [simpl List.length in Hr; lia|].
           rewrite <- Hshift by lia. exact Hn.
Qed.

Lemma diff_nth (v : list Z) (i : nat) :
  (S i < List.length v)%nat ->
  nth i (diff v) 0 = nth (S i) v 0 - nth i v 0.
Proof.
  intros Hi. unfold diff.
  rewrite (nth_zip_with (fun a b => b - a) 0 0 0).
  - destruct v as [|x v]; [simpl in Hi; lia|]. reflexivity.
  - lia.
  - destruct v as [|x v]; simpl in *; lia.
Qed.

(** An edge of a mask: the position before a change. *)
Lemma edge_of_mask (mask : list Z) (k i : Z) :
  In i (where_eq k (diff mask)) <->
  0 <= i /\ i + 1 < Z.of_nat (List.length mask) /\
  nth (Z.to_nat (i + 1)) mask 0 - nth (Z.to_nat i) mask 0 = k.
Proof.
  unfold where_eq. rewrite where_eq_from_In.
  rewrite diff_length, Z.sub_0_r. split.
  - intros [Hr Hn].
    rewrite diff_nth in Hn by lia.
    replace (Z.to_nat (i + 1)) with (S (Z.to_nat i)) by lia.
    split; [lia|]. split; [lia|]. exact Hn.
  - intros (H0 & H1 & Hn). split; [lia|].
    rewrite diff_nth by lia.
    replace (Z.to_nat (i + 1)) with (S (Z.to_nat i)) in Hn by lia.
    exact Hn.
Qed.

Lemma alternating_lower (b : bool) (lo : Z) (ss ts : list Z) :
  alternating b lo ss ts ->
  Forall (fun x => lo <= x) ss /\ Forall (fun x => lo <= x) ts.
Proof.
  induction 1 as [| lo s ss ts Hs _ [IHs IHt] | lo t ss ts Ht _ [IHs IHt]].
  - split; constructor.
  - split.
    + constructor; [exact Hs|].
      eapply Forall_impl; [|exact IHs]. simpl. intros. lia.
    + eapply Forall_impl; [|exact IHt]. simpl. intros. lia.
  - split.
    + eapply Forall_impl; [|exact IHs]. simpl. intros. lia.
    + constructor; [exact Ht|].
      eapply Forall_impl; [|exact IHt]. simpl. intros. lia.
Qed.

(** The pairs of the first pass are a rising edge and the falling edge
    that follows it, with no edge between them. *)
Lemma trim_last_inside (starts : list Z) :
  forall stops lo sl tl,
    alternating true lo starts stops ->
    last_item starts = OK sl -> last_item stops = OK tl ->
    Forall (fun r => In (fst r) starts /\ In (snd r) stops /\
                     no_edge_inside starts stops r)
           (combine (if sl >? tl then removelast starts else starts) stops).
Proof.
  induction starts as [|s ss IH]; intros stops lo sl tl Halt Hsl Htl.
  - discriminate.
  - inversion Halt as [| ? ? ? ? Hlo Hf |]; subst.
    inversion Hf as [| | ? t ? ts' Hst Ht]; subst; [discriminate|].
    destruct (alternating_lower _ _ _ _ Ht) as [Hss Hts].
    assert (Hfirst : In (fst (s, t)) (s :: ss) /\ In (snd (s, t)) (t :: ts') /\
                     no_edge_inside (s :: ss) (t :: ts') (s, t)).
    { split; [left; reflexivity|]. split; [left; reflexivity|].
      intros x Hx. cbn [fst snd].
      destruct Hx as [[<-|Hx]|[<-|Hx]]; try lia.
      - pose proof (proj1 (Forall_forall _ _) Hss _ Hx). simpl in *. lia.
      - pose proof (proj1 (Forall_forall _ _) Hts _ Hx). simpl in *. lia. }
    assert (Hlift : forall l,
               Forall (fun r => In (fst r) ss /\ In (snd r) ts' /\
                                no_edge_inside ss ts' r) l ->
               Forall (fun r => In (fst r) (s :: ss) /\
                                In (snd r) (t :: ts') /\
                                no_edge_inside (s :: ss) (t :: ts') r) l).
    { intros l Hl. eapply Forall_impl; [|exact Hl].
      intros r (H1 & H2 & H3).
      split; [right; exact H1|]. split; [right; exact H2|].
      intros x Hx.
      pose proof (proj1 (Forall_forall _ _) Hss _ H1) as Hr. simpl in Hr.
      destruct Hx as [[<-|Hx]|[<-|Hx]].
      - lia.
      - apply H3. left. exact Hx.
      - lia.
      - apply H3. right. exact Hx. }
    inversion Ht as [| ? s2 ss' ? Hts2 Hf2 |]; subst.
    + injection Hsl as <-. injection Htl as <-.
      replace (s >? t) with false by lia. simpl.
      constructor; [exact Hfirst | constructor].
    + destruct ts' as [|t2 ts''].
      * inversion Hf2; subst.
        injection Hsl as <-. injection Htl as <-.
        replace (s2 >? t) with true by lia. simpl.
        constructor; [exact Hfirst | constructor].
      * rewrite last_item_cons in Hsl, Htl.
        pose proof (IH (t2 :: ts'') (t + 1) sl tl Ht Hsl Htl) as IHr.
        apply Hlift in IHr.
        destruct (sl >? tl).
        -- change (removelast (s :: s2 :: ss'))
             with (s :: removelast (s2 :: ss')).
           simpl combine. constructor; [exact Hfirst | exact IHr].
        -- simpl combine. constructor; [exact Hfirst | exact IHr].
Qed.

Lemma first_pass_inside (b : bool) (lo : Z) (starts stops : list Z)
  (fp : list run) :
  alternating b lo starts stops ->
  first_pass starts stops = OK fp ->
  Forall (fun r => In (fst r) starts /\ In (snd r) stops /\
                   no_edge_inside starts stops r) fp.
Proof.
  intros Halt Hfp. unfold first_pass in Hfp.
  destruct starts as [|s ss]; [discriminate|].
  destruct stops as [|t ts]; [discriminate|].
  cbn [Py.bind first tl] in Hfp.
  inversion Halt as [| ? ? ? ? Hlo Hf | ? ? ? ? Hlo Ht]; subst.
  - (* a rising edge comes first *)
    inversion Hf as [| | ? ? ? ? Hst Ht']; subst.
    replace (s >? t) with false in Hfp by lia.
    apply bind_OK in Hfp as (sl & Hsl & Hfp).
    apply bind_OK in Hfp as (tl_ & Htl & Hfp).
    pose proof (trim_last_inside _ _ _ _ _ Halt Hsl Htl) as Hin.
    destruct (_ =? _)%nat in Hfp; [|discriminate].
    injection Hfp as <-. exact Hin.
  - (* a falling edge comes first: it is dropped *)
    inversion Ht as [| ? ? ? ? Hts Hf' |]; subst.
    replace (s >? t) with true in Hfp by lia.
    apply bind_OK in Hfp as (sl & Hsl & Hfp).
    apply bind_OK in Hfp as (tl_ & Htl & Hfp).
    pose proof (trim_last_inside _ _ _ _ _ Ht Hsl Htl) as Hin.
    destruct (_ =? _)%nat in Hfp; [|discriminate].
    injection Hfp as <-.
    eapply Forall_impl; [|exact Hin].
    intros r (H1 & H2 & H3).
    split; [exact H1|]. split; [right; exact H2|].
    intros x Hx.
    destruct (alternating_lower _ _ _ _ Ht) as [Hss _].
    pose proof (proj1 (Forall_forall _ _) Hss _ H1) as Hr. simpl in Hr.
    destruct Hx as [Hx|[<-|Hx]].
    + apply H3. left. exact Hx.
    + lia.
    + apply H3. right. exact Hx.
Qed.

(** Between a rising edge and the falling edge that follows it the mask
    is 1. *)
Lemma run_of_mask (mask : list Z) (r : run) :
  Forall binary mask ->
  In (fst r) (where_eq 1 (diff mask)) ->
  In (snd r) (where_eq (-1) (diff mask)) ->
  fst r < snd r ->
  no_edge_inside (where_eq 1 (diff mask)) (where_eq (-1) (diff mask)) r ->
  mask_run mask r.
Proof.
  intros Hbin Hs Ht Hlt Hnone.
  apply edge_of_mask in Hs as (Hs0 & Hs1 & Hsd).
  apply edge_of_mask in Ht as (Ht0 & Ht1 & Htd).
  assert (Hb : forall k, 0 <= k < Z.of_nat (List.length mask) ->
                 binary (nth (Z.to_nat k) mask 0)).
  { intros k Hk. apply (proj1 (Forall_nth _ _) Hbin). lia. }
  pose proof (Hb (fst r) ltac:(lia)) as Hbs.
  pose proof (Hb (fst r + 1) ltac:(lia)) as Hbs1.
  pose proof (Hb (snd r) ltac:(lia)) as Hbt.
  pose proof (Hb (snd r + 1) ltac:(lia)) as Hbt1.
  unfold binary in *.
  split; [exact Hs0|]. split; [exact Hlt|]. split; [exact Ht1|].
  split; [lia|]. split; [|lia].
  (* no change inside the run *)
  assert (Hflat : forall k, fst r < k < snd r ->
                    nth (Z.to_nat (k + 1)) mask 0 = nth (Z.to_nat k) mask 0).
  { intros k Hk.
    pose proof (Hb k ltac:(lia)) as Hk0.
    pose proof (Hb (k + 1) ltac:(lia)) as Hk1.
    assert (Hnr : ~ In k (where_eq 1 (diff mask)))
      by (intros Hin; apply (Hnone k); [left; exact Hin | exact Hk]).
    assert (Hnf : ~ In k (where_eq (-1) (diff mask)))
      by (intros Hin; apply (Hnone k); [right; exact Hin | exact Hk]).
    rewrite edge_of_mask in Hnr, Hnf.
    destruct Hk0 as [Hk0|Hk0], Hk1 as [Hk1|Hk1]; try congruence; exfalso.
    - apply Hnr. split; [lia|]. split; [lia|]. rewrite Hk0, Hk1. reflexivity.
    - apply Hnf. split; [lia|]. split; [lia|]. rewrite Hk0, Hk1. reflexivity. }
  intros k Hk.
  assert (Hind : forall n : nat,
             fst r + 1 + Z.of_nat n <= snd r ->
             nth (Z.to_nat (fst r + 1 + Z.of_nat n)) mask 0 = 1).
  { induction n as [|n IHn]; intros Hn.
    - rewrite Z.add_0_r. lia.
    - replace (fst r + 1 + Z.of_nat (S n))
        with (fst r + 1 + Z.of_nat n + 1) by lia.
      rewrite Hflat by lia. apply IHn. lia. }
  replace k with (fst r + 1 + Z.of_nat (Z.to_nat (k - fst r - 1))) by lia.
  apply Hind. lia.
Qed.

Lemma mask_first_pass (mask : list Z) (fp : list run) :
  Forall binary mask ->
  first_pass (where_eq 1 (diff mask)) (where_eq (-1) (diff mask)) = OK fp ->
  Forall (mask_run mask) fp.
Proof.
  intros Hbin Hfp.
  destruct (mask_edges_alternating mask Hbin) as [b Halt].
  pose proof (first_pass_chain _ _ _ _ _ Halt Hfp) as Hch.
  destruct (run_chain_sorted _ _ Hch) as [Hlt _].
  pose proof (first_pass_inside _ _ _ _ _ Halt Hfp) as Hin.
  apply Forall_forall. intros r Hr.
  pose proof (proj1 (Forall_forall _ _) Hlt _ Hr) as H1.
  pose proof (proj1 (Forall_forall _ _) Hin _ Hr) as (H2 & H3 & H4).
  simpl in H1. apply run_of_mask; assumption.
Qed.

Lemma where_gt_nth (thr : Q) (sig : list Q) (k : nat) :
  (k < List.length sig)%nat ->
  nth k (where_gt thr sig) 0 = if Qgtb (nth k sig 0%Q) thr then 1 else 0.
Proof.
  intros Hk. unfold where_gt.
  rewrite (nth_indep _ 0 (if Qgtb 0%Q thr then 1 else 0))
    by (rewrite length_map; exact Hk).
  exact (map_nth (fun z => if Qgtb z thr then 1 else 0) sig 0%Q k).
Qed.

Lemma where_gt_binary (thr : Q) (sig : list Q) :
  Forall binary (where_gt thr sig).
Proof.
  unfold where_gt. apply Forall_map. apply Forall_forall. intros z _.
  destruct (Qgtb z thr); [right | left]; reflexivity.
Qed.

(** The sum over the channels is positive where one channel is. *)
Lemma fold_zip_add_pos (n : nat) (k : nat) (rs : list (list Z)) :
  forall acc,
    Forall (fun r => List.length r = n) rs -> List.length acc = n ->
    (k < n)%nat ->
    Forall (Forall binary) rs -> 0 <= nth k acc 0 ->
    0 <= nth k (fold_left (zip_with Z.add) rs acc) 0 /\
    (0 < nth k (fold_left (zip_with Z.add) rs acc) 0 <->
     0 < nth k acc 0 \/ Exists (fun r => nth k r 0 = 1) rs).
Proof.
  induction rs as [|r rs IH]; intros acc Hrs Hacc Hk Hbin Hnn.
  - simpl. split; [exact Hnn|]. split; [tauto|].
    intros [H|H]; [exact H | inversion H].
  - inversion Hrs as [|? ? Hr Hrs']; subst.
    inversion Hbin as [|? ? Hb Hbin']; subst.
    assert (Hrk : binary (nth k r 0))
      by (apply (proj1 (Forall_nth _ _) Hb); lia).
    assert (Hz : nth k (zip_with Z.add acc r) 0 = nth k acc 0 + nth k r 0)
      by (rewrite (nth_zip_with Z.add 0 0 0) by lia; reflexivity).
    simpl fold_left.
    destruct (IH (zip_with Z.add acc r) Hrs') as [IH0 IH1];
      [rewrite length_zip_with; lia | exact Hk | exact Hbin'
      | rewrite Hz; unfold binary in Hrk; lia |].
    split; [exact IH0|]. rewrite IH1, Hz. unfold binary in Hrk. split.
    + intros [H|H].
      * destruct (Z.eq_dec (nth k r 0) 1) as [E|E].
        -- right. left. exact E.
        -- left. lia.
      * right. right. exact H.
    + intros [H|H].
      * left. lia.
      * inversion H as [? ? E|? ? E]; subst.
        -- left. lia.
        -- right. exact E.
Qed.

Lemma ripple_mask_nth (inp : ripple_input) (n k : nat) (counts : list Z) :
  Forall (fun ch => List.length ch = n) (zscsignal inp) ->
  reduce_axis0 Z.add (map (where_gt (lowthreshold inp)) (zscsignal inp))
  = OK counts ->
  (k < n)%nat ->
  nth k (map (fun c => if c >? 0 then 1 else 0) counts) 0 = 1 <->
  Exists (fun ch => (lowthreshold inp < nth k ch 0)%Q) (zscsignal inp).
Proof.
  intros Hshape Hc Hk.
  assert (Hlen : List.length counts = n).
  { apply reduce_axis0_length with (n := n) in Hc; [exact Hc|].
    apply Forall_map. eapply Forall_impl; [|exact Hshape].
    intros ch Hch. simpl in Hch. unfold where_gt.
    rewrite length_map. exact Hch. }
  rewrite (nth_indep _ 0 (if 0 >? 0 then 1 else 0))
    by (rewrite length_map; lia).
  rewrite (map_nth (fun c => if c >? 0 then 1 else 0) counts 0 k).
  destruct (zscsignal inp) as [|ch chs] eqn:Ez; [discriminate|].
  simpl in Hc. injection Hc as Hc.
  pose proof (Forall_inv Hshape) as Hch. simpl in Hch.
  pose proof (Forall_inv_tail Hshape) as Hchs.
  assert (Hone : forall c, List.length c = n ->
            (nth k (where_gt (lowthreshold inp) c) 0 = 1 <->
             (lowthreshold inp < nth k c 0)%Q)).
  { intros c Hlc. rewrite where_gt_nth by lia. unfold Qgtb.
    destruct (Qltb (lowthreshold inp) (nth k c 0%Q)) eqn:E.
    - apply Qltb_lt in E. tauto.
    - apply Qltb_ge in E. split; [discriminate|]. intros H.
      exfalso. apply (Qlt_not_le _ _ H). exact E. }
  pose proof (where_gt_binary (lowthreshold inp) ch) as Hbch.
  assert (Hb0 : binary (nth k (where_gt (lowthreshold inp) ch) 0)).
  { apply (proj1 (Forall_nth _ _) Hbch). unfold where_gt.
    rewrite length_map. lia. }
  destruct (fold_zip_add_pos n k (map (where_gt (lowthreshold inp)) chs)
              (where_gt (lowthreshold inp) ch)) as [_ Hpos].
  - apply Forall_map. eapply Forall_impl; [|exact Hchs].
    intros c Hlc. simpl in Hlc. unfold where_gt. rewrite length_map.
    exact Hlc.
  - unfold where_gt. rewrite length_map. exact Hch.
  - exact Hk.
  - apply Forall_map. apply Forall_forall. intros c _.
    apply where_gt_binary.
  - unfold binary in Hb0. lia.
  - rewrite Hc in Hpos.
    assert (Hgt : (if nth k counts 0 >? 0 then 1 else 0) = 1
                  <-> 0 < nth k counts 0).
    { destruct (nth k counts 0 >? 0) eqn:E; split; intros H;
        try reflexivity; try discriminate; lia. }
    rewrite Hgt, Hpos. rewrite Exists_cons, Exists_map.
    rewrite <- (Hone ch Hch).
    assert (Hex : Exists (fun c => nth k (where_gt (lowthreshold inp) c) 0 = 1)
                    chs
                  <-> Exists (fun c => (lowthreshold inp < nth k c 0)%Q) chs).
    { rewrite !Exists_exists. split; intros (c & Hin & Hc1); exists c;
        (split; [exact Hin|]);
        apply (Hone c (proj1 (Forall_forall _ _) Hchs c Hin)); exact Hc1. }
    rewrite Hex. unfold binary in Hb0. split; intros [H|H]; auto.
    + left. lia.
    + left. lia.
Qed.

(** X25: every run that the first pass of either detector returns is a
    maximal run above the low threshold, bracketed by the samples around
    it: the start of the run is a sample at or below the threshold, every
    later sample up to the end is above the threshold, and the sample
    after the end is at or below it again.  For the ripples "above" means
    above on some channel, and a sample counts as below when it is so on
    every channel. *)
Theorem first_pass_runs_are_maximal :
  (forall inp n fp,
      Forall (fun ch => List.length ch = n) (zscsignal inp) ->
      Ripple.firstPass inp = OK fp ->
      Forall (maximal_run
                (fun k => Exists (fun ch => (lowthreshold inp
                                             < nth (Z.to_nat k) ch 0)%Q)
                                 (zscsignal inp)) n) fp) /\
  (forall inp fp,
      Spindle.firstPass inp = OK fp ->
      Forall (maximal_run
                (fun k => (Spindle.lowthresholdFactor
                           < nth (Z.to_nat k) (sp_zscsignal inp) 0)%Q)
                (List.length (sp_zscsignal inp))) fp).
Proof.
  split.
  - intros inp n fp Hshape Hfp.
    unfold Ripple.firstPass, Ripple.edges in Hfp.
    apply bind_OK in Hfp as (se & Hse & Hfp).
    apply bind_OK in Hse as (counts & Hcounts & Hse). injection Hse as <-.
    cbn [fst snd] in Hfp.
    assert (Hlen : List.length counts = n).
    { apply reduce_axis0_length with (n := n) in Hcounts; [exact Hcounts|].
      apply Forall_map. eapply Forall_impl; [|exact Hshape].
      intros ch Hch. simpl in Hch. unfold where_gt.
      rewrite length_map. exact Hch. }
    assert (Hbin : Forall binary
                     (map (fun c => if c >? 0 then 1 else 0) counts)).
    { apply Forall_map. apply Forall_forall. intros c _.
      destruct (c >? 0); [right | left]; reflexivity. }
    pose proof (mask_first_pass _ _ Hbin Hfp) as Hruns.
    eapply Forall_impl; [|exact Hruns].
    intros r (H0 & H1 & H2 & H3 & H4 & H5).
    rewrite length_map, Hlen in H2.
    split; [exact H0|]. split; [exact H1|]. split; [exact H2|].
    split; [|split].
    + intros Hex.
      apply (ripple_mask_nth inp n _ counts Hshape Hcounts) in Hex; [|lia].
      rewrite H3 in Hex. discriminate.
    + intros k Hk.
      apply (ripple_mask_nth inp n _ counts Hshape Hcounts); [lia|].
      apply H4. exact Hk.
    + intros Hex.
      apply (ripple_mask_nth inp n _ counts Hshape Hcounts) in Hex; [|lia].
      rewrite H5 in Hex. discriminate.
  - intros inp fp Hfp.
    unfold Spindle.firstPass, Spindle.edges in Hfp. cbn [fst snd] in Hfp.
    pose proof (mask_first_pass _ _
                  (where_gt_binary Spindle.lowthresholdFactor
                                   (sp_zscsignal inp)) Hfp) as Hruns.
    eapply Forall_impl; [|exact Hruns].
    intros r (H0 & H1 & H2 & H3 & H4 & H5).
    unfold where_gt in H2. rewrite length_map in H2.
    assert (Hone : forall k, 0 <= k < Z.of_nat (List.length (sp_zscsignal inp)) ->
              (nth (Z.to_nat k)
                   (where_gt Spindle.lowthresholdFactor (sp_zscsignal inp)) 0
               = 1
               <-> (Spindle.lowthresholdFactor
                    < nth (Z.to_nat k) (sp_zscsignal inp) 0)%Q)).
    { intros k Hk. rewrite where_gt_nth by lia. unfold Qgtb.
      destruct (Qltb Spindle.lowthresholdFactor
                     (nth (Z.to_nat k) (sp_zscsignal inp) 0%Q)) eqn:E.
      - apply Qltb_lt in E. tauto.
      - apply Qltb_ge in E. split; [discriminate|]. intros H.
        exfalso. apply (Qlt_not_le _ _ H). exact E. }
    split; [exact H0|]. split; [exact H1|]. split; [exact H2|].
    split; [|split].
    + intros Hab. apply Hone in Hab; [|lia]. rewrite H3 in Hab. discriminate.
    + intros k Hk. apply Hone; [lia|]. apply H4. exact Hk.
    + intros Hab. apply Hone in Hab; [|lia]. rewrite H5 in Hab. discriminate.
Qed.

Lemma first_pass_runs_are_maximal_witness :
  Forall (maximal_run
            (fun k => Exists (fun ch => (lowthreshold merge_example
                                         < nth (Z.to_nat k) ch 0)%Q)
                             (zscsignal merge_example)) 21%nat)
         [(1, 5); (6, 8); (13, 16); (18, 19)] /\
  Forall (maximal_run
            (fun k => (Spindle.lowthresholdFactor
                       < nth (Z.to_nat k) (sp_zscsignal spindle_example) 0)%Q)
            (List.length (sp_zscsignal spindle_example)))
         [(1, 5); (7, 9); (14, 17); (19, 21)].
Proof.
  split.
  - apply (proj1 first_pass_runs_are_maximal merge_example 21%nat).
    + repeat constructor.
    + vm_compute. reflexivity.
  - apply (proj2 first_pass_runs_are_maximal spindle_example).
    vm_compute. reflexivity.
Defined.

End RunFacts.

Section ShuffleBounds.

Import Np Decoders PValueSpec ScoreSpec DecoderExtras.
Local Open Scope R_scope.
Import String.StringSyntax.
Local Open Scope string_scope.

(** The column shuffle permutes every column within itself. *)
Lemma col_shuffle_permutes (mat : ndarray R) (g : rng) :
  wf mat -> (2 <= shape1 mat)%nat ->
  exists mat' g',
    col_shuffle mat g = OK (mat', g') /\
    wf mat' /\ shape0 mat' = shape0 mat /\ shape1 mat' = shape1 mat /\
    forall i, (i < shape1 mat)%nat ->
              Permutation (column mat' i) (column mat i).
Proof.
  intros Hwf Hn.
  destruct (randint_spec 1 (Z.of_nat (shape1 mat)) (shape1 mat) g)
    as (shift & g1 & Hshift & Hlen1 & _); [lia|].
  destruct (choice_sign_spec (shape1 mat) g1)
    as (direction & g2 & Hdir & Hlen2 & _).
  set (signed := zip_with Z.mul shift direction).
  assert (Hlen : List.length signed = shape1 mat).
  { subst signed. rewrite length_zip_with. lia. }
  set (mat' := mkArray (List.length signed) (shape0 mat)
                 (map (fun ish => roll (column mat (fst ish)) (snd ish))
                      (enumerate signed))).
  assert (Hrow : forall i, (i < shape1 mat)%nat ->
                 nth i (rows mat') [] = roll (column mat i) (nth i signed 0%Z)).
  { intros i Hi. subst mat'. simpl.
    rewrite (nth_enumerate_map _ 0%Z) by lia. reflexivity. }
  assert (Hwf' : wf mat').
  { subst mat'. split; simpl.
    - unfold enumerate. rewrite length_map, length_combine, length_seq. lia.
    - apply Forall_map. apply Forall_forall. intros [i sh] Hin. simpl.
      unfold enumerate in Hin. apply in_combine_l in Hin. apply in_seq in Hin.
      rewrite roll_length. apply column_length; [exact Hwf | lia]. }
  exists (transpose mat'), g2.
  split.
  { unfold col_shuffle, bindM. rewrite Hshift, Hdir. reflexivity. }
  split; [apply transpose_wf; exact Hwf'|].
  split; [reflexivity|]. split; [exact Hlen|].
  intros i Hi.
  rewrite transpose_column; [|exact Hwf' | subst mat'; simpl; lia].
  rewrite Hrow by exact Hi. apply roll_Permutation.
Qed.

Lemma col_shuffle_keeps_bounds (mat : ndarray R) (g : rng) :
  shuffleable mat /\ bounded_columns mat ->
  exists mat' g',
    col_shuffle mat g = OK (mat', g') /\
    (scorable mat' /\ bounded_columns mat').
Proof.
  intros [(Hwf & Hp & Hn) [Hnn Hsum]].
  destruct (col_shuffle_permutes mat g Hwf Hn)
    as (mat' & g' & Hrun & Hwf' & H0 & H1 & Hperm).
  exists mat', g'. split; [exact Hrun|]. split.
  - split; [exact Hwf'|]. split; lia.
  - split.
    + intros p t Hpt Ht. rewrite H0 in Hpt. rewrite H1 in Ht.
      rewrite <- get_column by (try exact Hwf'; lia).
      assert (Hall : Forall (fun x => 0 <= x) (column mat t)).
      { apply Forall_nth. intros i d Hi.
        rewrite column_length in Hi by assumption.
        rewrite (nth_indep _ d 0) by (rewrite column_length; assumption).
        rewrite get_column by assumption. apply Hnn; assumption. }
      apply (Permutation_Forall (Permutation_sym (Hperm t Ht))) in Hall.
      apply (proj1 (Forall_nth _ _) Hall).
      rewrite column_length by (try exact Hwf'; lia). lia.
    + intros t Ht. rewrite H1 in Ht.
      rewrite (Rsum_Permutation _ _ (Hperm t Ht)). apply Hsum. exact Ht.
Qed.

Lemma score_event_in_unit (evt : ndarray R) (g : rng) :
  scorable evt /\ bounded_columns evt ->
  exists res g', score_event evt g = OK (res, g') /\ 0 <= fst res <= 1.
Proof.
  intros [(Hwf & Hp & Ht) [Hnn Hsum]].
  destruct (score_event_unit evt g Hwf Hp Ht Hnn Hsum)
    as (sc & slope & g' & Hrun & Hsc).
  exists (sc, slope), g'. split; [exact Hrun | exact Hsc].
Qed.

Lemma column_iteration_in_unit (self : Bayes1d) (sc : list (list R))
  (g : rng) :
  Forall (fun evt => shuffleable evt /\ bounded_columns evt)
         (posterior self) ->
  exists row g',
    column_iteration self sc g = OK ((sc ++ [row])%list, g') /\
    List.length row = List.length (posterior self) /\
    Forall (fun x => 0 <= x <= 1) row.
Proof.
  intros Hall.
  destruct (mapM_all_OK _ (fun evt => scorable evt /\ bounded_columns evt)
              col_shuffle (posterior self)
              (fun x g0 Hx => col_shuffle_keeps_bounds x g0 Hx) Hall g)
    as (evts & g1 & He & Hlen1 & Hsc).
  destruct (mapM_all_OK _ (fun res : R * R => 0 <= fst res <= 1)
              score_event evts
              (fun x g0 Hx => score_event_in_unit x g0 Hx) Hsc g1)
    as (res & g2 & Hr & Hlen2 & Hunit).
  exists (map fst res), g2. split; [|split].
  - unfold column_iteration, _score_events, bindM. rewrite He, Hr. reflexivity.
  - rewrite length_map. lia.
  - apply Forall_map. exact Hunit.
Qed.

Lemma column_loop_in_unit (self : Bayes1d) (n : nat) :
  Forall (fun evt => shuffleable evt /\ bounded_columns evt)
         (posterior self) ->
  forall sc g,
    Forall (Forall (fun x => 0 <= x <= 1)) sc ->
    exists sc' g',
      iterate n (column_iteration self) sc g = OK (sc', g') /\
      Forall (Forall (fun x => 0 <= x <= 1)) sc'.
Proof.
  intros Hall. induction n as [|n IH]; intros sc g Hsc; simpl.
  - eexists _, _. split; [reflexivity | exact Hsc].
  - destruct (column_iteration_in_unit self sc g Hall)
      as (row & g1 & H & _ & Hrow).
    unfold bindM. rewrite H. apply IH.
    apply Forall_app. split; [exact Hsc|]. constructor; [exact Hrow|].
    constructor.
Qed.

(** X26: when every decoded event has non-negative entries and columns
    that sum to at most 1, as posteriors do, and at least two time bins,
    the "column" shuffle returns and every shuffled score it stores lies
    between 0 and 1: rolling a column moves its entries but keeps them
    and their sum. *)
Theorem column_shuffle_scores_in_unit_interval (self : Bayes1d)
  (n_iter : nat) (g : rng) :
  Forall (fun evt => shuffleable evt /\ bounded_columns evt)
         (posterior self) ->
  exists self' g',
    decode_shuffle self n_iter "column" g = OK (self', g') /\
    Forall (Forall (fun x => 0 <= x <= 1)) (shuffle_score self').
Proof.
  intros Hall.
  destruct (column_loop_in_unit self n_iter Hall [] g (Forall_nil _))
    as (sc & g1 & Hloop & Hunit).
  exists (set_shuffle_score self sc), g1. split.
  - unfold decode_shuffle, bindM.
    cbn [String.eqb Ascii.eqb Bool.eqb andb ret]. rewrite Hloop. reflexivity.
  - exact Hunit.
Qed.

Lemma column_session_bounded :
  Forall (fun evt => shuffleable evt /\ bounded_columns evt)
         (posterior column_session).
Proof.
  constructor; [|constructor; [|constructor]].
  - split; [split; [split; [reflexivity | repeat constructor]
                   | simpl; lia]|].
    split.
    + intros p t Hp Ht. simpl in Hp, Ht.
      destruct p as [|[|p]]; [| |lia];
        (destruct t as [|[|t]]; [| |lia]); unfold get; simpl; lra.
    + intros t Ht. simpl in Ht.
      destruct t as [|[|t]]; [| |lia]; unfold column, Rsum; simpl; lra.
  - split; [split; [split; [reflexivity | repeat constructor]
                   | simpl; lia]|].
    split.
    + intros p t Hp Ht. simpl in Hp, Ht.
      destruct p as [|[|p]]; [| |lia];
        (destruct t as [|[|[|t]]]; [| | |lia]); unfold get; simpl; lra.
    + intros t Ht. simpl in Ht.
      destruct t as [|[|[|t]]]; [| | |lia]; unfold column, Rsum; simpl; lra.
Qed.

Lemma column_shuffle_scores_in_unit_interval_witness :
  Forall (fun evt => shuffleable evt /\ bounded_columns evt)
         (posterior column_session) /\
  exists self' g',
    decode_shuffle column_session 3 "column" (fun k => Z.of_nat k)
    = OK (self', g') /\
    Forall (Forall (fun x => 0 <= x <= 1)) (shuffle_score self').
Proof.
  split; [exact column_session_bounded|].
  exact (column_shuffle_scores_in_unit_interval column_session 3
           (fun k => Z.of_nat k) column_session_bounded).
Defined.

End ShuffleBounds.
